(** * Self-balancing search trees: AVL (avlTree.h), bottom-up red-black
      (burbTree.h) and left-leaning red-black (llrbTree.h)

    A shallow embedding of the tree containers of the repository and the
    verification of their documented properties.

    - [AVL] embeds [avlTree<K>] (default build: no PARENT pointers, freed list
      enabled, no PREALLOCATE).  The functions are recursive and return the
      root of the rebalanced subtree, so a node is modelled by a value of an
      inductive type that carries the node's address; the member variables
      [h], [a], [r], the rotation counters, [count] and the [freed] list are
      threaded through a state-and-error monad.  A null dereference is an
      error ([None]).
    - [BURB] embeds [burbTree<K>] (default build: iterative, no
      ENABLE_PREFERRED_TEST, [nulle] is [nullptr]).  The nodes carry parent
      pointers and the algorithms walk them in loops, so the memory is a
      finite map from addresses to nodes and every loop is bounded by a
      fuel argument.
    - [LLRB] embeds [llrbTree<K>]; its functions are recursive and return
      the root of the rebalanced subtree, as in [AVL].

    Keys are instantiated at [Z] (the test programs use [int] and
    [uint32_t]); only [<], [>] and [==] on keys are used by the code. *)

From Stdlib Require Import ZArith Lia Bool List.
From stdpp Require Import base option list gmap sorting.

Local Open Scope Z_scope.

(** ** A small state-and-error monad shared by the embeddings *)

Definition M (S A : Type) : Type := S -> option (A * S).

Definition ret {S A} (x : A) : M S A := fun s => Some (x, s).
Definition bind {S A B} (m : M S A) (f : A -> M S B) : M S B :=
  fun s => match m s with
           | Some (x, s') => f x s'
           | None => None
           end.
Definition fail {S A} : M S A := fun _ => None.
Definition get {S} : M S S := fun s => Some (s, s).
Definition modify {S} (f : S -> S) : M S unit := fun s => Some (tt, f s).

Declare Scope monad_scope.
Delimit Scope monad_scope with monad.
Notation "x <- m ;; k" := (bind m (fun x => k))
  (at level 100, m at next level, right associativity) : monad_scope.
Notation "m ;;; k" := (bind m (fun _ => k))
  (at level 100, right associativity) : monad_scope.

(** ** avlTree.h *)

Module AVL.

(** [struct Node]: [key], [bal], [left], [right]; [addr] is the address of
    the node's storage, [nullptr] the null pointer. *)
Inductive Node : Type :=
| nullptr
| node (addr : nat) (key : Z) (bal : Z) (left right : Node).

(** The compile-time options that change [erase]. *)
Record config : Type := Config {
  ENABLE_PREFERRED_TEST : bool;
  INVERT_PREFERRED_TEST : bool
}.

(** [class avlTree]: the member variables.  [brk] is the host allocator's
    next unused address ([new Node]).  [count] and the rotation counters are
    [size_t] in the source; they count nodes and rotations, each of which
    costs memory or time, so they are modelled without wrap-around. *)
Record avlTree : Type := AvlTree {
  root : Node;
  count : nat;
  h : bool; a : bool; r : bool;
  freed : Node;
  lle : nat; lre : nat; rle : nat; rre : nat;
  lli : nat; lri : nat; rli : nat; rri : nat;
  brk : nat
}.

Definition set_root v (t : avlTree) :=
  AvlTree v (count t) (h t) (a t) (r t) (freed t)
    (lle t) (lre t) (rle t) (rre t) (lli t) (lri t) (rli t) (rri t) (brk t).
Definition set_count v (t : avlTree) :=
  AvlTree (root t) v (h t) (a t) (r t) (freed t)
    (lle t) (lre t) (rle t) (rre t) (lli t) (lri t) (rli t) (rri t) (brk t).
Definition set_h v (t : avlTree) :=
  AvlTree (root t) (count t) v (a t) (r t) (freed t)
    (lle t) (lre t) (rle t) (rre t) (lli t) (lri t) (rli t) (rri t) (brk t).
Definition set_a v (t : avlTree) :=
  AvlTree (root t) (count t) (h t) v (r t) (freed t)
    (lle t) (lre t) (rle t) (rre t) (lli t) (lri t) (rli t) (rri t) (brk t).
Definition set_r v (t : avlTree) :=
  AvlTree (root t) (count t) (h t) (a t) v (freed t)
    (lle t) (lre t) (rle t) (rre t) (lli t) (lri t) (rli t) (rri t) (brk t).
Definition set_freed v (t : avlTree) :=
  AvlTree (root t) (count t) (h t) (a t) (r t) v
    (lle t) (lre t) (rle t) (rre t) (lli t) (lri t) (rli t) (rri t) (brk t).
Definition set_brk v (t : avlTree) :=
  AvlTree (root t) (count t) (h t) (a t) (r t) (freed t)
    (lle t) (lre t) (rle t) (rre t) (lli t) (lri t) (rli t) (rri t) v.
Definition inc_lle (t : avlTree) :=
  AvlTree (root t) (count t) (h t) (a t) (r t) (freed t)
    (S (lle t)) (lre t) (rle t) (rre t) (lli t) (lri t) (rli t) (rri t) (brk t).
Definition inc_lre (t : avlTree) :=
  AvlTree (root t) (count t) (h t) (a t) (r t) (freed t)
    (lle t) (S (lre t)) (rle t) (rre t) (lli t) (lri t) (rli t) (rri t) (brk t).
Definition inc_rle (t : avlTree) :=
  AvlTree (root t) (count t) (h t) (a t) (r t) (freed t)
    (lle t) (lre t) (S (rle t)) (rre t) (lli t) (lri t) (rli t) (rri t) (brk t).
Definition inc_rre (t : avlTree) :=
  AvlTree (root t) (count t) (h t) (a t) (r t) (freed t)
    (lle t) (lre t) (rle t) (S (rre t)) (lli t) (lri t) (rli t) (rri t) (brk t).
Definition inc_lli (t : avlTree) :=
  AvlTree (root t) (count t) (h t) (a t) (r t) (freed t)
    (lle t) (lre t) (rle t) (rre t) (S (lli t)) (lri t) (rli t) (rri t) (brk t).
Definition inc_lri (t : avlTree) :=
  AvlTree (root t) (count t) (h t) (a t) (r t) (freed t)
    (lle t) (lre t) (rle t) (rre t) (lli t) (S (lri t)) (rli t) (rri t) (brk t).
Definition inc_rli (t : avlTree) :=
  AvlTree (root t) (count t) (h t) (a t) (r t) (freed t)
    (lle t) (lre t) (rle t) (rre t) (lli t) (lri t) (S (rli t)) (rri t) (brk t).
Definition inc_rri (t : avlTree) :=
  AvlTree (root t) (count t) (h t) (a t) (r t) (freed t)
    (lle t) (lre t) (rle t) (rre t) (lli t) (lri t) (rli t) (S (rri t)) (brk t).

Local Open Scope monad_scope.

(** The constructor [avlTree()]. *)
Definition avlTree_new : avlTree :=
  AvlTree nullptr 0 false false false nullptr 0 0 0 0 0 0 0 0 0.

(** [newNode(x, h)]: reuse the head of the freed list, else [new Node(x, h)];
    both set [h = true] and return a node with balance 0 and no children. *)
Definition newNode (x : Z) : M avlTree Node :=
  t <- get ;;
  match freed t with
  | node p _ _ next _ =>
      modify (set_freed next) ;;;
      modify (set_h true) ;;;
      ret (node p x 0 nullptr nullptr)
  | nullptr =>
      modify (set_brk (S (brk t))) ;;;
      modify (set_h true) ;;;
      ret (node (brk t) x 0 nullptr nullptr)
  end.

(** [deleteNode(q)]: [q->left = freed; freed = q].  The other fields of [q]
    keep their last contents. *)
Definition deleteNode (q : Node) : M avlTree unit :=
  match q with
  | nullptr => fail
  | node p k b _ rt =>
      t <- get ;;
      modify (set_freed (node p k b (freed t) rt))
  end.

(** [freedSize()]: walk the freed list through [left]. *)
Fixpoint freedLength (p : Node) : nat :=
  match p with
  | nullptr => 0
  | node _ _ _ next _ => S (freedLength next)
  end.
Definition freedSize (t : avlTree) : nat := freedLength (freed t).

(** [freedPreallocate(n)]: prepend [n] fresh default-constructed nodes.  The
    key of [new Node()] is left uninitialised; it is modelled as 0 and never
    read before [newNode] overwrites it. *)
Fixpoint freedPreallocate (n : nat) : M avlTree unit :=
  match n with
  | O => ret tt
  | S n' =>
      t <- get ;;
      modify (set_brk (S (brk t))) ;;;
      modify (set_freed (node (brk t) 0 0 (freed t) nullptr)) ;;;
      freedPreallocate n'
  end.

Definition size (t : avlTree) : nat := count t.
Definition empty (t : avlTree) : bool := Nat.eqb (count t) 0.

(** [contains(p, x)]: the loop follows one branch per iteration, so it is
    a structural recursion on the subtree. *)
Fixpoint contains_from (p : Node) (x : Z) : bool :=
  match p with
  | nullptr => false
  | node _ k _ l rt =>
      if x <? k then contains_from l x
      else if x >? k then contains_from rt x
      else true
  end.
Definition contains (t : avlTree) (x : Z) : bool := contains_from (root t) x.

(** [balanceInsertLeft(p)] *)
Definition balanceInsertLeft (p : Node) : M avlTree Node :=
  match p with
  | nullptr => fail
  | node ip k b l rt =>
      if b =? 1 then
        modify (set_h false) ;;; ret (node ip k 0 l rt)
      else if b =? 0 then
        ret (node ip k (-1) l rt)
      else if b =? -1 then
        match l with
        | nullptr => fail
        | node i1 k1 b1 l1 r1 =>
            if b1 =? -1 then
              (* single LL rotation *)
              modify inc_lli ;;;
              modify (set_h false) ;;;
              ret (node i1 k1 0 l1 (node ip k 0 r1 rt))
            else
              (* double LR rotation *)
              modify inc_lri ;;;
              match r1 with
              | nullptr => fail
              | node i2 k2 b2 l2 r2 =>
                  modify (set_h false) ;;;
                  ret (node i2 k2 0
                         (node i1 k1 (if b2 =? 1 then -1 else 0) l1 l2)
                         (node ip k (if b2 =? -1 then 1 else 0) r2 rt))
              end
        end
      else ret p
  end.

(** [balanceInsertRight(p)] *)
Definition balanceInsertRight (p : Node) : M avlTree Node :=
  match p with
  | nullptr => fail
  | node ip k b l rt =>
      if b =? -1 then
        modify (set_h false) ;;; ret (node ip k 0 l rt)
      else if b =? 0 then
        ret (node ip k 1 l rt)
      else if b =? 1 then
        match rt with
        | nullptr => fail
        | node i1 k1 b1 l1 r1 =>
            if b1 =? 1 then
              (* single RR rotation *)
              modify inc_rri ;;;
              modify (set_h false) ;;;
              ret (node i1 k1 0 (node ip k 0 l l1) r1)
            else
              (* double RL rotation *)
              modify inc_rli ;;;
              match l1 with
              | nullptr => fail
              | node i2 k2 b2 l2 r2 =>
                  modify (set_h false) ;;;
                  ret (node i2 k2 0
                         (node ip k (if b2 =? 1 then -1 else 0) l l2)
                         (node i1 k1 (if b2 =? -1 then 1 else 0) r2 r1))
              end
        end
      else ret p
  end.

(** [insert(p, x)] (the build without PARENT) *)
Fixpoint insert_at (p : Node) (x : Z) : M avlTree Node :=
  match p with
  | nullptr => fail
  | node ip k b l rt =>
      if x <? k then
        l' <- match l with
              | nullptr => n <- newNode x ;; modify (set_a true) ;;; ret n
              | node _ _ _ _ _ => insert_at l x
              end ;;
        t <- get ;;
        if h t then balanceInsertLeft (node ip k b l' rt)
        else ret (node ip k b l' rt)
      else if x >? k then
        r' <- match rt with
              | nullptr => n <- newNode x ;; modify (set_a true) ;;; ret n
              | node _ _ _ _ _ => insert_at rt x
              end ;;
        t <- get ;;
        if h t then balanceInsertRight (node ip k b l r')
        else ret (node ip k b l r')
      else
        modify (set_h false) ;;; modify (set_a false) ;;; ret p
  end.

(** [bool insert(K const& x)] *)
Definition insert (x : Z) : M avlTree bool :=
  modify (set_h false) ;;; modify (set_a true) ;;;
  t <- get ;;
  match root t with
  | node _ _ _ _ _ =>
      p <- insert_at (root t) x ;;
      modify (set_root p) ;;;
      t' <- get ;;
      (if a t' then modify (fun s => set_count (S (count s)) s) else ret tt) ;;;
      ret (a t')
  | nullptr =>
      p <- newNode x ;;
      modify (set_root p) ;;;
      modify (fun s => set_count (S (count s)) s) ;;;
      t' <- get ;;
      ret (a t')
  end.

(** [balanceEraseLeft(p)]: the left subtree of [p] has become shorter. *)
Definition balanceEraseLeft (p : Node) : M avlTree Node :=
  match p with
  | nullptr => fail
  | node ip k b l rt =>
      if b =? -1 then
        ret (node ip k 0 l rt)
      else if b =? 0 then
        modify (set_h false) ;;; ret (node ip k 1 l rt)
      else if b =? 1 then
        match rt with
        | nullptr => fail
        | node i1 k1 b1 l1 r1 =>
            if b1 >=? 0 then
              (* single RR rotation *)
              modify inc_rre ;;;
              if b1 =? 0 then
                modify (set_h false) ;;;
                ret (node i1 k1 (-1) (node ip k 1 l l1) r1)
              else
                ret (node i1 k1 0 (node ip k 0 l l1) r1)
            else
              (* double RL rotation *)
              modify inc_rle ;;;
              match l1 with
              | nullptr => fail
              | node i2 k2 b2 l2 r2 =>
                  ret (node i2 k2 0
                         (node ip k (if b2 =? 1 then -1 else 0) l l2)
                         (node i1 k1 (if b2 =? -1 then 1 else 0) r2 r1))
              end
        end
      else ret p
  end.

(** [balanceEraseRight(p)]: the right subtree of [p] has become shorter. *)
Definition balanceEraseRight (p : Node) : M avlTree Node :=
  match p with
  | nullptr => fail
  | node ip k b l rt =>
      if b =? 1 then
        ret (node ip k 0 l rt)
      else if b =? 0 then
        modify (set_h false) ;;; ret (node ip k (-1) l rt)
      else if b =? -1 then
        match l with
        | nullptr => fail
        | node i1 k1 b1 l1 r1 =>
            if b1 <=? 0 then
              (* single LL rotation *)
              modify inc_lle ;;;
              if b1 =? 0 then
                modify (set_h false) ;;;
                ret (node i1 k1 1 l1 (node ip k (-1) r1 rt))
              else
                ret (node i1 k1 0 l1 (node ip k 0 r1 rt))
            else
              (* double LR rotation *)
              modify inc_lre ;;;
              match r1 with
              | nullptr => fail
              | node i2 k2 b2 l2 r2 =>
                  ret (node i2 k2 0
                         (node i1 k1 (if b2 =? 1 then -1 else 0) l1 l2)
                         (node ip k (if b2 =? -1 then 1 else 0) r2 rt))
              end
        end
      else ret p
  end.

(** [eraseLeft(p, q)].  [q] is a reference to the pointer to the node being
    erased; at the leftmost node the code copies its key into [*q]
    ([q->key = p->key]) and redirects [q] to that leftmost node.  The
    embedding returns the new subtree together with the new [q] (the
    leftmost node, spliced out); its key is the one that was stored into
    the old [*q], which the caller [erase_at] writes back. *)
Fixpoint eraseLeft (p : Node) : M avlTree (Node * Node) :=
  match p with
  | nullptr => fail
  | node ip k b l rt =>
      match l with
      | node _ _ _ _ _ =>
          res <- eraseLeft l ;;
          let '(l', q) := res in
          t <- get ;;
          p' <- (if h t then balanceEraseLeft (node ip k b l' rt)
                 else ret (node ip k b l' rt)) ;;
          ret (p', q)
      | nullptr =>
          modify (set_h true) ;;;
          ret (rt, p)
      end
  end.

(** [eraseRight(p, q)], the mirror image. *)
Fixpoint eraseRight (p : Node) : M avlTree (Node * Node) :=
  match p with
  | nullptr => fail
  | node ip k b l rt =>
      match rt with
      | node _ _ _ _ _ =>
          res <- eraseRight rt ;;
          let '(r', q) := res in
          t <- get ;;
          p' <- (if h t then balanceEraseRight (node ip k b l r')
                 else ret (node ip k b l r')) ;;
          ret (p', q)
      | nullptr =>
          modify (set_h true) ;;;
          ret (l, p)
      end
  end.

Definition key_of (p : Node) : M avlTree Z :=
  match p with
  | nullptr => fail
  | node _ k _ _ _ => ret k
  end.

Section Erase.
Variable cfg : config.

(** The test that guards the predecessor branch of [erase]:
    absent unless ENABLE_PREFERRED_TEST; [p->bal < 0] under
    INVERT_PREFERRED_TEST, else [p->bal <= 0]. *)
Definition prefer_left (b : Z) : bool :=
  if ENABLE_PREFERRED_TEST cfg then
    if INVERT_PREFERRED_TEST cfg then b <? 0 else b <=? 0
  else false.

(** [erase(p, x)] *)
Fixpoint erase_at (p : Node) (x : Z) : M avlTree Node :=
  match p with
  | nullptr => fail
  | node ip k b l rt =>
      if x <? k then
        match l with
        | node _ _ _ _ _ =>
            l' <- erase_at l x ;;
            t <- get ;;
            if h t then balanceEraseLeft (node ip k b l' rt)
            else ret (node ip k b l' rt)
        | nullptr =>
            modify (set_h false) ;;; modify (set_r false) ;;; ret p
        end
      else if x >? k then
        match rt with
        | node _ _ _ _ _ =>
            r' <- erase_at rt x ;;
            t <- get ;;
            if h t then balanceEraseRight (node ip k b l r')
            else ret (node ip k b l r')
        | nullptr =>
            modify (set_h false) ;;; modify (set_r false) ;;; ret p
        end
      else
        res <-
          match rt with
          | nullptr => modify (set_h true) ;;; ret (l, p)
          | node _ _ _ _ _ =>
              match l with
              | nullptr => modify (set_h true) ;;; ret (rt, p)
              | node _ _ _ _ _ =>
                  if prefer_left b then
                    res <- eraseRight l ;;
          let '(l', q) := res in
                    kq <- key_of q ;;
                    t <- get ;;
                    p' <- (if h t then balanceEraseLeft (node ip kq b l' rt)
                           else ret (node ip kq b l' rt)) ;;
                    ret (p', q)
                  else
                    res <- eraseLeft rt ;;
          let '(r', q) := res in
                    kq <- key_of q ;;
                    t <- get ;;
                    p' <- (if h t then balanceEraseRight (node ip kq b l r')
                           else ret (node ip kq b l r')) ;;
                    ret (p', q)
              end
          end ;;
        let '(p', q) := res in
        deleteNode q ;;;
        modify (set_r true) ;;;
        ret p'
  end.

(** [bool erase(K const& x)] *)
Definition erase (x : Z) : M avlTree bool :=
  modify (set_h false) ;;; modify (set_r false) ;;;
  t <- get ;;
  match root t with
  | node _ _ _ _ _ =>
      p <- erase_at (root t) x ;;
      modify (set_root p) ;;;
      t' <- get ;;
      (if r t' then modify (fun s => set_count (Nat.pred (count s)) s)
       else ret tt) ;;;
      ret (r t')
  | nullptr => ret (r (set_r false (set_h false t)))
  end.

End Erase.

(** [checkTree(node)]: [true] when no exception is thrown. *)
Fixpoint checkTree_at (p : Node) : bool :=
  match p with
  | nullptr => true
  | node _ k b l rt =>
      match l with node _ kl _ _ _ => negb (kl >=? k) | nullptr => true end
      && match rt with node _ kr _ _ _ => negb (kr <=? k) | nullptr => true end
      && negb ((b >? 1) || (b <? -1))
      && checkTree_at l && checkTree_at rt
  end.
Definition checkTree (t : avlTree) : bool := checkTree_at (root t).

(** [getKeys(p, v, i)]: the in-order walk stores each key with
    [v[i++] = p->key].  [std::vector::operator[]] does no bounds check, so
    a store at an index [>= v.size()] is an error of the embedding. *)
Definition store (v : list Z) (i : nat) (x : Z) : option (list Z * nat) :=
  if decide (i < length v)%nat then Some (<[i := x]> v, S i) else None.

Fixpoint getKeys_at (p : Node) (v : list Z) (i : nat) : option (list Z * nat) :=
  match p with
  | nullptr => None
  | node _ k _ l rt =>
      match (match l with
             | nullptr => Some (v, i)
             | node _ _ _ _ _ => getKeys_at l v i
             end) with
      | None => None
      | Some (v1, i1) =>
          match store v1 i1 k with
          | None => None
          | Some (v2, i2) =>
              match rt with
              | nullptr => Some (v2, i2)
              | node _ _ _ _ _ => getKeys_at rt v2 i2
              end
          end
      end
  end.

(** [getKeys(v)] *)
Definition getKeys (t : avlTree) (v : list Z) : option (list Z) :=
  match root t with
  | nullptr => Some v
  | node _ _ _ _ _ => fst <$> getKeys_at (root t) v 0
  end.

(** [clear()]: every node of the tree and of the freed list is handed back
    to the host allocator ([delete]); the container is empty afterwards. *)
Definition clear (t : avlTree) : avlTree :=
  set_freed nullptr (set_count 0%nat (set_root nullptr t)).

(** *** Sequences of mutating calls *)

Inductive op : Type := Insert (x : Z) | Erase (x : Z).

Definition step (cfg : config) (o : op) : M avlTree bool :=
  match o with
  | Insert x => insert x
  | Erase x => erase cfg x
  end.

(** The state after a sequence of calls on a freshly constructed tree
    ([None] if some call dereferences a null pointer). *)
Fixpoint run (cfg : config) (ops : list op) (t : avlTree) : option avlTree :=
  match ops with
  | [] => Some t
  | o :: ops' =>
      match step cfg o t with
      | Some (_, t') => run cfg ops' t'
      | None => None
      end
  end.

(** The keys that have been inserted and not erased since. *)
Fixpoint live (ops : list op) (s : gset Z) : gset Z :=
  match ops with
  | [] => s
  | Insert x :: ops' => live ops' ({[x]} ∪ s)
  | Erase x :: ops' => live ops' (s ∖ {[x]})
  end.

(** *** Specification vocabulary *)

Fixpoint height (p : Node) : Z :=
  match p with
  | nullptr => 0
  | node _ _ _ l rt => 1 + Z.max (height l) (height rt)
  end.

(** In-order sequence of the keys, and of the node addresses. *)
Fixpoint inorder (p : Node) : list Z :=
  match p with
  | nullptr => []
  | node _ k _ l rt => inorder l ++ k :: inorder rt
  end.

Fixpoint addrs (p : Node) : list nat :=
  match p with
  | nullptr => []
  | node i _ _ l rt => addrs l ++ i :: addrs rt
  end.

(** In-order sequence of the nodes: address and key of each. *)
Fixpoint cells (p : Node) : list (nat * Z) :=
  match p with
  | nullptr => []
  | node i k _ l rt => cells l ++ (i, k) :: cells rt
  end.

(** BST ordering: every left descendant's key < node's key < every right
    descendant's key. *)
Fixpoint bst (p : Node) : Prop :=
  match p with
  | nullptr => True
  | node _ k _ l rt =>
      Forall (fun y => y < k) (inorder l) /\
      Forall (fun y => k < y) (inorder rt) /\
      bst l /\ bst rt
  end.

(** The stored balance factors are all in [-1, 1]. *)
Fixpoint bal_in_range (p : Node) : Prop :=
  match p with
  | nullptr => True
  | node _ _ b l rt => -1 <= b <= 1 /\ bal_in_range l /\ bal_in_range rt
  end.

(** AVL: the stored balance factor is the height of the right subtree minus
    the height of the left subtree, and is in [-1, 1]. *)
Fixpoint avl (p : Node) : Prop :=
  match p with
  | nullptr => True
  | node _ _ b l rt =>
      b = height rt - height l /\ -1 <= b <= 1 /\ avl l /\ avl rt
  end.

Definition bal_of (p : Node) : Z :=
  match p with nullptr => 0 | node _ _ b _ _ => b end.

Definition addr_of (p : Node) : option nat :=
  match p with nullptr => None | node i _ _ _ _ => Some i end.

(** The leftmost and the rightmost node of a subtree. *)
Fixpoint leftmost (p : Node) : Node :=
  match p with
  | nullptr => nullptr
  | node _ _ _ l _ => match l with nullptr => p | node _ _ _ _ _ => leftmost l end
  end.
Fixpoint rightmost (p : Node) : Node :=
  match p with
  | nullptr => nullptr
  | node _ _ _ _ rt => match rt with nullptr => p | node _ _ _ _ _ => rightmost rt end
  end.

(** The node that holds key [x], found by the search the code performs. *)
Fixpoint find (p : Node) (x : Z) : Node :=
  match p with
  | nullptr => nullptr
  | node _ k _ l rt =>
      if x <? k then find l x else if x >? k then find rt x else p
  end.

(** Strictly ascending lists, and insertion into / deletion from them. *)
Fixpoint sorted (l : list Z) : Prop :=
  match l with
  | [] => True
  | x :: l' => Forall (fun y => x < y) l' /\ sorted l'
  end.

Fixpoint ins (x : Z) (l : list Z) : list Z :=
  match l with
  | [] => [x]
  | y :: l' =>
      if x <? y then x :: l else if x >? y then y :: ins x l' else l
  end.

Fixpoint del (x : Z) (l : list Z) : list Z :=
  match l with
  | [] => []
  | y :: l' => if x =? y then l' else y :: del x l'
  end.

(** Everything but [h] and the rotation counters is unchanged. *)
Definition frame (s s' : avlTree) : Prop :=
  root s' = root s /\ count s' = count s /\ a s' = a s /\ r s' = r s /\
  freed s' = freed s /\ brk s' = brk s.

(** The node that [erase] splices out of the subtree [p] for key [x]: the
    node holding [x] if it has at most one child, else the rightmost node
    of its left subtree or the leftmost node of its right subtree. *)
Definition victim (cfg : config) (p : Node) (x : Z) : Node :=
  match find p x with
  | nullptr => nullptr
  | node i k b l rt =>
      match rt with
      | nullptr => node i k b l rt
      | node _ _ _ _ _ =>
          match l with
          | nullptr => node i k b l rt
          | node _ _ _ _ _ =>
              if prefer_left cfg b then rightmost l else leftmost rt
          end
      end
  end.

Definition alloc (s s' : avlTree) (i : nat) : Prop :=
  (freed s = nullptr /\ i = brk s /\ brk s' = S (brk s) /\ freed s' = nullptr) \/
  (exists k b nx rt, freed s = node i k b nx rt /\ freed s' = nx /\ brk s' = brk s).

(** The two outcomes of a rebalancing step after an erasure: the subtree
    became shorter and [h] is left as it was, or it kept its height and [h]
    is cleared. *)
Definition shrunk (s s' : avlTree) (hold hnew : Z) : Prop :=
  (h s' = h s /\ hnew = hold - 1) \/ (h s' = false /\ hnew = hold).

(** After an erasure [h] tells whether the subtree became shorter. *)
Definition erase_h (s' : avlTree) (hold hnew : Z) : Prop :=
  (h s' = true /\ hnew = hold - 1) \/ (h s' = false /\ hnew = hold).

(** What a recursive insertion into a (possibly null) child slot does. *)
Definition ins_post (p : Node) (x : Z) (s : avlTree) (p' : Node) (s' : avlTree) : Prop :=
  avl p' /\ inorder p' = ins x (inorder p) /\
  height p' = height p + (if h s' then 1 else 0) /\
  (h s' = true -> p <> nullptr -> bal_of p' <> 0) /\
  root s' = root s /\ count s' = count s /\ r s' = r s /\
  (x ∈ inorder p -> p' = p /\ h s' = false /\ a s' = false /\
                    freed s' = freed s /\ brk s' = brk s) /\
  (x ∉ inorder p -> a s' = true /\
     exists i A B, alloc s s' i /\ cells p = A ++ B /\ cells p' = A ++ (i, x) :: B).

(** How an erasure of [x] changes the in-order sequence of cells: the node
    [qa] is spliced out; it either held [x], or it held the key next to
    [x] in order, which is moved into the node that held [x]. *)
Definition erased (x : Z) (c c' : list (nat * Z)) (qa : nat) : Prop :=
  exists A B,
    (c = A ++ (qa, x) :: B /\ c' = A ++ B) \/
    (exists i kq, c = A ++ (i, x) :: (qa, kq) :: B /\ c' = A ++ (i, kq) :: B) \/
    (exists i kq, c = A ++ (qa, kq) :: (i, x) :: B /\ c' = A ++ (i, kq) :: B).

Definition era_post (cfg : config) (p : Node) (x : Z) (s : avlTree)
    (p' : Node) (s' : avlTree) : Prop :=
  avl p' /\ erase_h s' (height p) (height p') /\
  root s' = root s /\ count s' = count s /\ a s' = a s /\ brk s' = brk s /\
  (x ∉ inorder p -> p' = p /\ h s' = false /\ r s' = false /\ freed s' = freed s) /\
  (x ∈ inorder p -> r s' = true /\
     exists qa qk qb ql qr,
       victim cfg p x = node qa qk qb ql qr /\
       freed s' = node qa qk qb (freed s) qr /\
       erased x (cells p) (cells p') qa).

(** The state invariant of the container. *)
Definition Inv (t : avlTree) : Prop :=
  bst (root t) /\ avl (root t) /\ count t = length (inorder (root t)).

(** The path from a subtree up to the root: one frame per ancestor, the
    nearest ancestor first.  A frame records the ancestor's own fields and
    its other subtree. *)
Inductive side : Type := Lft | Rgt.

Record cframe : Type := CFrame {
  cdir : side; caddr : nat; ckey : Z; cbal : Z; csib : Node
}.

Definition fill (f : cframe) (p : Node) : Node :=
  match cdir f with
  | Lft => node (caddr f) (ckey f) (cbal f) p (csib f)
  | Rgt => node (caddr f) (ckey f) (cbal f) (csib f) p
  end.

Fixpoint plug (c : list cframe) (p : Node) : Node :=
  match c with
  | [] => p
  | f :: c' => plug c' (fill f p)
  end.

(** The search for [x] from the root follows the path [c]. *)
Definition on_path (x : Z) (c : list cframe) : Prop :=
  Forall (fun f => match cdir f with
                   | Lft => x < ckey f
                   | Rgt => ckey f < x
                   end) c.

(** The number of rotations performed by insertions so far
    ([lli + lri + rli + rri]). *)
Definition insert_rotations (t : avlTree) : nat :=
  (lli t + lri t + rli t + rri t)%nat.

End AVL.

(** ** burbTree.h *)

Module BURB.

Local Open Scope monad_scope.

(** A node pointer: the address of a node, or [nulle] ([nullptr] in the
    build without NULL_NODE). *)
Definition ptr : Type := option nat.
Definition nulle : ptr := None.

(** [color_t] with its three constants. *)
Inductive color_t : Type := RED | BLACK | DOUBLE_BLACK.

Definition color_eqb (c d : color_t) : bool :=
  match c, d with
  | RED, RED | BLACK, BLACK | DOUBLE_BLACK, DOUBLE_BLACK => true
  | _, _ => false
  end.

Definition ptr_eqb (p q : ptr) : bool :=
  match p, q with
  | Some x, Some y => Nat.eqb x y
  | None, None => true
  | _, _ => false
  end.

(** [struct Node] (the build without ENABLE_PREFERRED_TEST has no
    [taille]). *)
Record Node : Type := mkNode {
  key : Z;
  color : color_t;
  left : ptr;
  right : ptr;
  parent : ptr
}.

(** [class burbTree]: the member variables and the memory that holds the
    nodes; [brk] is the host allocator's next unused address. *)
Record burbTree : Type := BurbTree {
  root : ptr;
  count : nat;
  freed : ptr;
  rotateL : nat;
  rotateR : nat;
  brk : nat;
  heap : gmap nat Node
}.

Definition with_root v (t : burbTree) :=
  BurbTree v (count t) (freed t) (rotateL t) (rotateR t) (brk t) (heap t).
Definition with_count v (t : burbTree) :=
  BurbTree (root t) v (freed t) (rotateL t) (rotateR t) (brk t) (heap t).
Definition with_freed v (t : burbTree) :=
  BurbTree (root t) (count t) v (rotateL t) (rotateR t) (brk t) (heap t).
Definition with_rotateL v (t : burbTree) :=
  BurbTree (root t) (count t) (freed t) v (rotateR t) (brk t) (heap t).
Definition with_rotateR v (t : burbTree) :=
  BurbTree (root t) (count t) (freed t) (rotateL t) v (brk t) (heap t).
Definition with_brk v (t : burbTree) :=
  BurbTree (root t) (count t) (freed t) (rotateL t) (rotateR t) v (heap t).
Definition with_heap v (t : burbTree) :=
  BurbTree (root t) (count t) (freed t) (rotateL t) (rotateR t) (brk t) v.

(** The constructor [burbTree()]. *)
Definition burbTree_new : burbTree := BurbTree nulle 0 nulle 0 0 0 ∅.

(** Reading and writing a field through a pointer; dereferencing [nulle]
    or an address that holds no node is an error. *)
Definition load (p : ptr) : M burbTree Node :=
  fun t => match p with
           | Some x => match heap t !! x with
                       | Some n => Some (n, t)
                       | None => None
                       end
           | None => None
           end.

Definition store (p : ptr) (f : Node -> Node) : M burbTree unit :=
  fun t => match p with
           | Some x => match heap t !! x with
                       | Some n => Some (tt, with_heap (<[x := f n]> (heap t)) t)
                       | None => None
                       end
           | None => None
           end.

Definition get_key (p : ptr) : M burbTree Z := n <- load p ;; ret (key n).
Definition get_color (p : ptr) : M burbTree color_t := n <- load p ;; ret (color n).
Definition get_left (p : ptr) : M burbTree ptr := n <- load p ;; ret (left n).
Definition get_right (p : ptr) : M burbTree ptr := n <- load p ;; ret (right n).
Definition get_parent (p : ptr) : M burbTree ptr := n <- load p ;; ret (parent n).

Definition set_key (p : ptr) (v : Z) : M burbTree unit :=
  store p (fun n => mkNode v (color n) (left n) (right n) (parent n)).
Definition set_color (p : ptr) (v : color_t) : M burbTree unit :=
  store p (fun n => mkNode (key n) v (left n) (right n) (parent n)).
Definition set_left (p : ptr) (v : ptr) : M burbTree unit :=
  store p (fun n => mkNode (key n) (color n) v (right n) (parent n)).
Definition set_right (p : ptr) (v : ptr) : M burbTree unit :=
  store p (fun n => mkNode (key n) (color n) (left n) v (parent n)).
Definition set_parent (p : ptr) (v : ptr) : M burbTree unit :=
  store p (fun n => mkNode (key n) (color n) (left n) (right n) v).

Definition get_root : M burbTree ptr := t <- get ;; ret (root t).
Definition set_root (v : ptr) : M burbTree unit := modify (with_root v).

(** [getColor(node)]: BLACK for [nulle]. *)
Definition getColor (node : ptr) : M burbTree color_t :=
  if ptr_eqb node nulle then ret BLACK else get_color node.

(** [setColor(node, color)]: nothing for [nulle]. *)
Definition setColor (node : ptr) (c : color_t) : M burbTree unit :=
  if negb (ptr_eqb node nulle) then set_color node c else ret tt.

(** [createNode(key)]: [new Node(key)], then the three pointers are set to
    [nulle]. *)
Definition createNode (k : Z) : M burbTree ptr :=
  t <- get ;;
  modify (with_brk (S (brk t))) ;;;
  modify (fun s => with_heap (<[brk t := mkNode k RED nulle nulle nulle]> (heap s)) s) ;;;
  ret (Some (brk t)).

(** [newNode(key)] *)
Definition newNode (k : Z) : M burbTree ptr :=
  t <- get ;;
  if negb (ptr_eqb (freed t) nulle) then
    let p := freed t in
    next <- get_left p ;;
    modify (with_freed next) ;;;
    store p (fun _ => mkNode k RED nulle nulle nulle) ;;;
    ret p
  else createNode k.

(** [deleteNode(q)]: [q->left = freed; freed = q]. *)
Definition deleteNode (q : ptr) : M burbTree unit :=
  t <- get ;;
  set_left q (freed t) ;;;
  modify (with_freed q).

(** [freedSize()]: the loop over the freed list, bounded by [fuel]
    iterations. *)
Fixpoint freedSize_loop (fuel : nat) (p : ptr) (n : nat) : M burbTree nat :=
  if negb (ptr_eqb p nulle) then
    match fuel with
    | O => fail
    | S fuel' => q <- get_left p ;; freedSize_loop fuel' q (S n)
    end
  else ret n.

(** [freedSize()].  Every node on the freed list was handed out by the
    allocator, so [brk] iterations are enough for a list without cycle. *)
Definition freedSize : M burbTree nat :=
  t <- get ;;
  freedSize_loop (brk t) (freed t) 0.

(** [freedPreallocate(n)]: [n] times [p = createNode(); p->left = freed;
    freed = p].  [new Node()] does not initialise the key; [junk] is the
    value found there. *)
Fixpoint freedPreallocate (junk : Z) (n : nat) : M burbTree unit :=
  match n with
  | O => ret tt
  | S n' =>
      p <- createNode junk ;;
      t <- get ;;
      set_left p (freed t) ;;;
      modify (with_freed p) ;;;
      freedPreallocate junk n'
  end.

(** [delete p]: the storage goes back to the host allocator; nothing
    happens for a null pointer, and deleting what is not allocated is an
    error. *)
Definition free (p : ptr) : M burbTree unit :=
  fun t => match p with
           | Some x => match heap t !! x with
                       | Some _ => Some (tt, with_heap (delete x (heap t)) t)
                       | None => None
                       end
           | None => Some (tt, t)
           end.

(** [clear(node)], a recursion of depth at most [fuel]. *)
Fixpoint clear_at (fuel : nat) (node : ptr) : M burbTree unit :=
  if ptr_eqb node nulle then ret tt
  else
    match fuel with
    | O => fail
    | S fuel' =>
        l <- get_left node ;;
        clear_at fuel' l ;;;
        rt <- get_right node ;;
        clear_at fuel' rt ;;;
        free node
    end.

(** [clearFreed()]: the loop, bounded by [fuel] iterations, and the final
    [freed = nulle]. *)
Fixpoint clearFreed_loop (fuel : nat) : M burbTree unit :=
  t <- get ;;
  if negb (ptr_eqb (freed t) nulle) then
    match fuel with
    | O => fail
    | S fuel' =>
        next <- get_left (freed t) ;;
        free (freed t) ;;;
        modify (with_freed next) ;;;
        clearFreed_loop fuel'
    end
  else ret tt.

Definition clearFreed : M burbTree unit :=
  t <- get ;;
  clearFreed_loop (brk t) ;;;
  modify (with_freed nulle).

(** [clear()] *)
Definition clear : M burbTree unit :=
  t <- get ;;
  clear_at (S (count t)) (root t) ;;;
  modify (with_root nulle) ;;;
  modify (with_count 0) ;;;
  clearFreed.

(** [insert(Node* node)]: the search loop.  [Some parent] when the loop
    ends at [nulle] below [parent]; [None] when the key is found
    ([return false]). *)
Fixpoint insert_search (fuel : nat) (k : Z) (p parent_ : ptr)
    : M burbTree (option ptr) :=
  if negb (ptr_eqb p nulle) then
    match fuel with
    | O => fail
    | S fuel' =>
        pk <- get_key p ;;
        if k <? pk then l <- get_left p ;; insert_search fuel' k l p
        else if k >? pk then rt <- get_right p ;; insert_search fuel' k rt p
        else ret None
    end
  else ret (Some parent_).

Definition insert_node (fuel : nat) (node : ptr) : M burbTree bool :=
  k <- get_key node ;;
  rt <- get_root ;;
  res <- insert_search fuel k rt nulle ;;
  match res with
  | None => ret false
  | Some parent_ =>
      pk <- get_key parent_ ;;
      (if k <? pk then set_left parent_ node else set_right parent_ node) ;;;
      set_parent node parent_ ;;;
      ret true
  end.

(** [rotateLeft(node)] *)
Definition rotateLeft (node : ptr) : M burbTree unit :=
  right_child <- get_right node ;;
  rl <- get_left right_child ;;
  set_right node rl ;;;
  nr <- get_right node ;;
  (if negb (ptr_eqb nr nulle) then set_parent nr node else ret tt) ;;;
  np <- get_parent node ;;
  set_parent right_child np ;;;
  rt <- get_root ;;
  (if ptr_eqb node rt then set_root right_child
   else
     npl <- get_left np ;;
     if ptr_eqb node npl then set_left np right_child
     else set_right np right_child) ;;;
  set_left right_child node ;;;
  set_parent node right_child ;;;
  modify (fun s => with_rotateL (S (rotateL s)) s).

(** [rotateRight(node)] *)
Definition rotateRight (node : ptr) : M burbTree unit :=
  left_child <- get_left node ;;
  lr <- get_right left_child ;;
  set_left node lr ;;;
  nl <- get_left node ;;
  (if negb (ptr_eqb nl nulle) then set_parent nl node else ret tt) ;;;
  np <- get_parent node ;;
  set_parent left_child np ;;;
  rt <- get_root ;;
  (if ptr_eqb node rt then set_root left_child
   else
     npl <- get_left np ;;
     if ptr_eqb node npl then set_left np left_child
     else set_right np left_child) ;;;
  set_right left_child node ;;;
  set_parent node left_child ;;;
  modify (fun s => with_rotateR (S (rotateR s)) s).

(** [std::swap(parent->color, grandparent->color)] *)
Definition swap_color (p q : ptr) : M burbTree unit :=
  cp <- get_color p ;;
  cq <- get_color q ;;
  set_color p cq ;;;
  set_color q cp.

(** [fixInsertion(node)]: the while loop, bounded by [fuel] iterations,
    followed by [root->color = BLACK]. *)
Fixpoint fixInsertion_loop (fuel : nat) (p : ptr) : M burbTree unit :=
  rt <- get_root ;;
  c <- (if negb (ptr_eqb p rt) then
          pc <- get_color p ;;
          if color_eqb pc RED then
            pp <- get_parent p ;;
            ppc <- getColor pp ;;
            ret (color_eqb ppc RED)
          else ret false
        else ret false) ;;
  if c then
    match fuel with
    | O => fail
    | S fuel' =>
        parent_ <- get_parent p ;;
        grandparent <- get_parent parent_ ;;
        gl <- get_left grandparent ;;
        if ptr_eqb parent_ gl then
          uncle <- get_right grandparent ;;
          uc <- getColor uncle ;;
          if color_eqb uc RED then
            setColor uncle BLACK ;;;
            set_color parent_ BLACK ;;;
            set_color grandparent RED ;;;
            fixInsertion_loop fuel' grandparent
          else
            pr <- get_right parent_ ;;
            parent' <- (if ptr_eqb p pr then
                          rotateLeft parent_ ;;;
                          get_parent parent_
                        else ret parent_) ;;
            rotateRight grandparent ;;;
            swap_color parent' grandparent
        else
          uncle <- get_left grandparent ;;
          uc <- getColor uncle ;;
          if color_eqb uc RED then
            setColor uncle BLACK ;;;
            set_color parent_ BLACK ;;;
            set_color grandparent RED ;;;
            fixInsertion_loop fuel' grandparent
          else
            pl <- get_left parent_ ;;
            parent' <- (if ptr_eqb p pl then
                          rotateRight parent_ ;;;
                          get_parent parent_
                        else ret parent_) ;;
            rotateLeft grandparent ;;;
            swap_color parent' grandparent
    end
  else ret tt.

Definition fixInsertion (fuel : nat) (node : ptr) : M burbTree unit :=
  fixInsertion_loop fuel node ;;;
  rt <- get_root ;;
  set_color rt BLACK.

(** [bool insert(K const& key)] (the build without RECURSION).  Each loop
    follows a path of the tree, so [count + 1] iterations are allowed. *)
Definition insert (k : Z) : M burbTree bool :=
  node <- newNode k ;;
  t <- get ;;
  if ptr_eqb (root t) nulle then
    set_root node ;;;
    set_parent node nulle ;;;
    set_color node BLACK ;;;
    modify (fun s => with_count (S (count s)) s) ;;;
    ret true
  else
    result <- insert_node (S (count t)) node ;;
    (if result then
       fixInsertion (S (count t)) node ;;;
       modify (fun s => with_count (S (count s)) s)
     else deleteNode node) ;;;
    ret result.

(** [eraseMinValue(node)]: the leftmost node. *)
Fixpoint eraseMinValue (fuel : nat) (node : ptr) : M burbTree ptr :=
  l <- get_left node ;;
  if negb (ptr_eqb l nulle) then
    match fuel with
    | O => fail
    | S fuel' => eraseMinValue fuel' l
    end
  else ret node.

(** [erase(node, key)] (the build without RECURSION and without
    ENABLE_PREFERRED_TEST): the node to splice out, or [nullptr]. *)
Fixpoint erase_search (fuel : nat) (p : ptr) (k : Z) : M burbTree ptr :=
  if negb (ptr_eqb p nulle) then
    match fuel with
    | O => fail
    | S fuel' =>
        pk <- get_key p ;;
        if k <? pk then l <- get_left p ;; erase_search fuel' l k
        else if k >? pk then rt <- get_right p ;; erase_search fuel' rt k
        else
          l <- get_left p ;;
          rt <- get_right p ;;
          if ptr_eqb l nulle || ptr_eqb rt nulle then ret p
          else
            successor <- eraseMinValue fuel' rt ;;
            sk <- get_key successor ;;
            set_key p sk ;;;
            ret successor
    end
  else ret nulle.

(** One iteration of the while loop of [fixErasure]: [inl ptr'] to test
    the loop condition again at [ptr'], [inr tt] for [break]. *)
Definition fixErasure_body (p : ptr) : M burbTree (ptr + unit) :=
  parent_ <- get_parent p ;;
  pl <- get_left parent_ ;;
  if ptr_eqb p pl then
    (* DB is the left child of its parent. *)
    sibling <- get_right parent_ ;;
    sc <- getColor sibling ;;
    if color_eqb sc RED then
      (* Rule 4 *)
      set_color sibling BLACK ;;;
      set_color parent_ RED ;;;
      rotateLeft parent_ ;;;
      ret (inl p)
    else
      sl <- get_left sibling ;;
      slc <- getColor sl ;;
      sr <- get_right sibling ;;
      src <- getColor sr ;;
      if color_eqb slc BLACK && color_eqb src BLACK then
        (* Rule 3 *)
        set_color p BLACK ;;;
        setColor sibling RED ;;;
        pc <- get_color parent_ ;;
        (if color_eqb pc RED then set_color parent_ BLACK
         else set_color parent_ DOUBLE_BLACK) ;;;
        ret (inl parent_)
      else if color_eqb src BLACK then
        (* Rule 5, then Rule 6 *)
        set_color sl BLACK ;;;
        set_color sibling RED ;;;
        rotateRight sibling ;;;
        sibling' <- get_right parent_ ;;
        pc <- get_color parent_ ;;
        set_color sibling' pc ;;;
        set_color parent_ BLACK ;;;
        sr' <- get_right sibling' ;;
        set_color sr' BLACK ;;;
        rotateLeft parent_ ;;;
        set_color p BLACK ;;;
        ret (inr tt)
      else
        (* Rule 6 *)
        pc <- get_color parent_ ;;
        set_color sibling pc ;;;
        set_color parent_ BLACK ;;;
        set_color sr BLACK ;;;
        rotateLeft parent_ ;;;
        set_color p BLACK ;;;
        ret (inr tt)
  else
    (* DB is the right child of its parent. *)
    sibling <- get_left parent_ ;;
    sc <- getColor sibling ;;
    if color_eqb sc RED then
      (* Rule 4 *)
      set_color sibling BLACK ;;;
      set_color parent_ RED ;;;
      rotateRight parent_ ;;;
      ret (inl p)
    else
      sl <- get_left sibling ;;
      slc <- getColor sl ;;
      sr <- get_right sibling ;;
      src <- getColor sr ;;
      if color_eqb slc BLACK && color_eqb src BLACK then
        (* Rule 3 *)
        set_color p BLACK ;;;
        setColor sibling RED ;;;
        pc <- get_color parent_ ;;
        (if color_eqb pc RED then set_color parent_ BLACK
         else set_color parent_ DOUBLE_BLACK) ;;;
        ret (inl parent_)
      else if color_eqb slc BLACK then
        (* Rule 5, then Rule 6 *)
        set_color sr BLACK ;;;
        set_color sibling RED ;;;
        rotateLeft sibling ;;;
        sibling' <- get_left parent_ ;;
        pc <- get_color parent_ ;;
        set_color sibling' pc ;;;
        set_color parent_ BLACK ;;;
        sl' <- get_left sibling' ;;
        set_color sl' BLACK ;;;
        rotateRight parent_ ;;;
        set_color p BLACK ;;;
        ret (inr tt)
      else
        (* Rule 6 *)
        pc <- get_color parent_ ;;
        set_color sibling pc ;;;
        set_color parent_ BLACK ;;;
        set_color sl BLACK ;;;
        rotateRight parent_ ;;;
        set_color p BLACK ;;;
        ret (inr tt).

(** [while (ptr != root && ptr->color == DOUBLE_BLACK)], bounded by
    [fuel] iterations. *)
Fixpoint fixErasure_loop (fuel : nat) (p : ptr) : M burbTree unit :=
  rt <- get_root ;;
  c <- (if negb (ptr_eqb p rt) then
          pc <- get_color p ;; ret (color_eqb pc DOUBLE_BLACK)
        else ret false) ;;
  if c then
    match fuel with
    | O => fail
    | S fuel' =>
        res <- fixErasure_body p ;;
        match res with
        | inl p' => fixErasure_loop fuel' p'
        | inr _ => ret tt
        end
    end
  else ret tt.

(** [fixErasure(node)] *)
Definition fixErasure (fuel : nat) (node : ptr) : M burbTree unit :=
  if ptr_eqb node nulle then ret tt
  else
    rt <- get_root ;;
    if ptr_eqb node rt then
      (* Rule 2 *)
      rl <- get_left rt ;;
      rr <- get_right rt ;;
      if ptr_eqb rl nulle && ptr_eqb rr nulle then
        set_root nulle ;;;
        deleteNode node
      else if ptr_eqb rl nulle then
        set_root rr ;;;
        set_color rr BLACK ;;;
        set_parent rr nulle ;;;
        deleteNode node
      else
        set_root rl ;;;
        set_color rl BLACK ;;;
        set_parent rl nulle ;;;
        deleteNode node
    else
      nc <- get_color node ;;
      nl <- get_left node ;;
      nlc <- getColor nl ;;
      nr <- get_right node ;;
      nrc <- getColor nr ;;
      if color_eqb nc RED || color_eqb nlc RED || color_eqb nrc RED then
        let child := if negb (ptr_eqb nl nulle) then nl else nr in
        np <- get_parent node ;;
        npl <- get_left np ;;
        (if ptr_eqb node npl then set_left np child else set_right np child) ;;;
        (if negb (ptr_eqb child nulle) then
           set_parent child np ;;;
           set_color child BLACK
         else ret tt) ;;;
        deleteNode node
      else
        set_color node DOUBLE_BLACK ;;;
        fixErasure_loop fuel node ;;;
        np <- get_parent node ;;
        npl <- get_left np ;;
        (if ptr_eqb node npl then set_left np nulle else set_right np nulle) ;;;
        deleteNode node ;;;
        rt' <- get_root ;;
        set_color rt' BLACK.

(** [bool erase(K const& key)].  The search loops follow a path of the
    tree ([count + 1] iterations allowed); the loop of [fixErasure] climbs
    at most one level every second iteration. *)
Definition erase (k : Z) : M burbTree bool :=
  t <- get ;;
  node <- erase_search (S (count t)) (root t) k ;;
  if ptr_eqb node nulle then ret false
  else
    modify (fun s => with_count (Nat.pred (count s)) s) ;;;
    fixErasure (2 * S (count t)) node ;;;
    ret true.

Definition size (t : burbTree) : nat := count t.
Definition empty (t : burbTree) : bool := Nat.eqb (count t) 0.

(** [contains(node, key)] and [contains(key)] *)
Fixpoint contains_loop (fuel : nat) (p : ptr) (k : Z) : M burbTree bool :=
  if negb (ptr_eqb p nulle) then
    match fuel with
    | O => fail
    | S fuel' =>
        pk <- get_key p ;;
        if k <? pk then l <- get_left p ;; contains_loop fuel' l k
        else if k >? pk then rt <- get_right p ;; contains_loop fuel' rt k
        else ret true
    end
  else ret false.

Definition contains (k : Z) : M burbTree bool :=
  t <- get ;;
  if ptr_eqb (root t) nulle then ret false
  else contains_loop (S (count t)) (root t) k.

(** [getKeys(p, v, i)], a recursion of depth at most [fuel], and
    [getKeys(v)].  The store [v[i++] = p->key] is unchecked. *)
Fixpoint getKeys_at (fuel : nat) (p : ptr) (v : list Z) (i : nat)
    : M burbTree (list Z * nat) :=
  match fuel with
  | O => fail
  | S fuel' =>
      l <- get_left p ;;
      r1 <- (if negb (ptr_eqb l nulle) then getKeys_at fuel' l v i
             else ret (v, i)) ;;
      let '(v1, i1) := r1 in
      k <- get_key p ;;
      if decide (i1 < length v1)%nat then
        rt <- get_right p ;;
        if negb (ptr_eqb rt nulle)
        then getKeys_at fuel' rt (<[i1 := k]> v1) (S i1)
        else ret (<[i1 := k]> v1, S i1)
      else fail
  end.

Definition getKeys (v : list Z) : M burbTree (list Z) :=
  t <- get ;;
  if negb (ptr_eqb (root t) nulle) then
    res <- getKeys_at (S (count t)) (root t) v 0 ;;
    ret (fst res)
  else ret v.

(** [checkTree(node, prevCount, currCount)]; an exception is [None] in the
    result. *)
Fixpoint checkTree_at (fuel : nat) (node : ptr) (prevCount currCount : nat)
    : M burbTree (option nat) :=
  match fuel with
  | O => fail
  | S fuel' =>
      c <- getColor node ;;
      let currCount := if color_eqb c BLACK then S currCount else currCount in
      if color_eqb c DOUBLE_BLACK then ret None else
      l <- get_left node ;;
      lc <- getColor l ;;
      if color_eqb c RED && color_eqb lc RED then ret None else
      rt <- get_right node ;;
      rc <- getColor rt ;;
      if color_eqb c RED && color_eqb rc RED then ret None else
      k <- get_key node ;;
      lbad <- (if negb (ptr_eqb l nulle) then lk <- get_key l ;; ret (lk >=? k)
               else ret false) ;;
      if (lbad : bool) then ret None else
      rbad <- (if negb (ptr_eqb rt nulle) then rk <- get_key rt ;; ret (rk <=? k)
               else ret false) ;;
      if (rbad : bool) then ret None else
      t <- get ;;
      pbad <- (if negb (ptr_eqb node (root t)) then
                 np <- get_parent node ;;
                 if ptr_eqb np nulle then ret true
                 else
                   npl <- get_left np ;;
                   npr <- get_right np ;;
                   ret (negb (ptr_eqb node npl) && negb (ptr_eqb node npr))
               else ret false) ;;
      if (pbad : bool) then ret None else
      if ptr_eqb l nulle && ptr_eqb rt nulle then
        if negb (Nat.eqb prevCount 0) && negb (Nat.eqb currCount prevCount)
        then ret None else ret (Some currCount)
      else
        lres <- (if negb (ptr_eqb l nulle)
                 then checkTree_at fuel' l prevCount currCount
                 else ret (Some 0%nat)) ;;
        match lres with
        | None => ret None
        | Some leftCount =>
            rres <- (if negb (ptr_eqb rt nulle)
                     then checkTree_at fuel' rt prevCount currCount
                     else ret (Some 0%nat)) ;;
            match rres with
            | None => ret None
            | Some rightCount =>
                if Nat.eqb leftCount 0 then ret (Some rightCount)
                else if Nat.eqb rightCount 0 then ret (Some leftCount)
                else if negb (Nat.eqb leftCount rightCount) then ret None
                else ret (Some leftCount)
            end
        end
  end.

(** [checkTree()] *)
Definition checkTree : M burbTree (option nat) :=
  t <- get ;;
  if ptr_eqb (root t) nulle then ret (Some 0%nat)
  else
    c <- getColor (root t) ;;
    if negb (color_eqb c BLACK) then ret None else
    rp <- get_parent (root t) ;;
    if negb (ptr_eqb rp nulle) then ret None else
    res1 <- checkTree_at (S (count t)) (root t) 0 0 ;;
    match res1 with
    | None => ret None
    | Some prevCount => checkTree_at (S (count t)) (root t) prevCount 0
    end.

(** *** Sequences of mutating calls *)

Inductive op : Type := Insert (x : Z) | Erase (x : Z).

Definition step (o : op) : M burbTree bool :=
  match o with
  | Insert x => insert x
  | Erase x => erase x
  end.

Fixpoint run (ops : list op) (t : burbTree) : option burbTree :=
  match ops with
  | [] => Some t
  | o :: ops' =>
      match step o t with
      | Some (_, t') => run ops' t'
      | None => None
      end
  end.

(** Sequences of calls of the public functions that change the
    container; [junk] is what [freedPreallocate] finds in the keys of the
    nodes it allocates. *)
Inductive call : Type :=
| CInsert (x : Z)
| CErase (x : Z)
| CPreallocate (junk : Z) (n : nat)
| CClear.

Definition do_call (c : call) : M burbTree unit :=
  match c with
  | CInsert x => insert x ;;; ret tt
  | CErase x => erase x ;;; ret tt
  | CPreallocate junk n => freedPreallocate junk n
  | CClear => clear
  end.

Fixpoint run_calls (cs : list call) (t : burbTree) : option burbTree :=
  match cs with
  | [] => Some t
  | c :: cs' =>
      match do_call c t with
      | Some (_, t') => run_calls cs' t'
      | None => None
      end
  end.

(** The keys that have been inserted and not erased or cleared since. *)
Fixpoint live_calls (cs : list call) (s : gset Z) : gset Z :=
  match cs with
  | [] => s
  | CInsert x :: cs' => live_calls cs' ({[x]} ∪ s)
  | CErase x :: cs' => live_calls cs' (s ∖ {[x]})
  | CPreallocate _ _ :: cs' => live_calls cs' s
  | CClear :: cs' => live_calls cs' ∅
  end.

(** The keys that have been inserted and not erased since. *)
Fixpoint live (ops : list op) (s : gset Z) : gset Z :=
  match ops with
  | [] => s
  | Insert x :: ops' => live ops' ({[x]} ∪ s)
  | Erase x :: ops' => live ops' (s ∖ {[x]})
  end.

(** *** Specification vocabulary *)

(** The shape that a heap represents: every node with its address. *)
Inductive tree : Type :=
| E
| T (a : nat) (c : color_t) (l : tree) (k : Z) (rt : tree).

Definition addr (t : tree) : ptr :=
  match t with E => nulle | T a _ _ _ _ => Some a end.

Fixpoint addrs (t : tree) : list nat :=
  match t with
  | E => []
  | T a _ l _ rt => addrs l ++ a :: addrs rt
  end.

Fixpoint cells (t : tree) : list (nat * Z) :=
  match t with
  | E => []
  | T a _ l k rt => cells l ++ (a, k) :: cells rt
  end.

Fixpoint inorder (t : tree) : list Z :=
  match t with
  | E => []
  | T _ _ l k rt => inorder l ++ k :: inorder rt
  end.

Fixpoint tsize (t : tree) : nat :=
  match t with
  | E => 0
  | T _ _ l _ rt => S (tsize l + tsize rt)
  end.

Fixpoint theight (t : tree) : nat :=
  match t with
  | E => 0
  | T _ _ l _ rt => S (Nat.max (theight l) (theight rt))
  end.

(** [Repr h par t]: in the memory [h] the nodes of [t] are linked as in
    [t], and the root of [t] has parent pointer [par]. *)
Fixpoint Repr (h : gmap nat Node) (par : ptr) (t : tree) : Prop :=
  match t with
  | E => True
  | T a c l k rt =>
      h !! a = Some (mkNode k c (addr l) (addr rt) par) /\
      Repr h (Some a) l /\ Repr h (Some a) rt
  end.

(** The container holds the tree [t]. *)
Definition Whole (s : burbTree) (t : tree) : Prop :=
  root s = addr t /\ Repr (heap s) nulle t /\ NoDup (addrs t).

(** A tree with a hole: the path from the hole up to the root. *)
Inductive dir : Type := Lft | Rgt.

Record frame : Type := Frame {
  fdir : dir;          (* the side of the hole *)
  faddr : nat;
  fcolor : color_t;
  fkey : Z;
  fsib : tree          (* the subtree on the other side *)
}.

Definition fill (f : frame) (t : tree) : tree :=
  match fdir f with
  | Lft => T (faddr f) (fcolor f) t (fkey f) (fsib f)
  | Rgt => T (faddr f) (fcolor f) (fsib f) (fkey f) t
  end.

Fixpoint plug (t : tree) (ctx : list frame) : tree :=
  match ctx with
  | [] => t
  | f :: ctx' => plug (fill f t) ctx'
  end.

Definition ctx_par (ctx : list frame) : ptr :=
  match ctx with
  | [] => nulle
  | f :: _ => Some (faddr f)
  end.

(** The address of the root of [plug t ctx], given the address [p] of [t]. *)
Fixpoint ctx_root (ctx : list frame) (p : ptr) : ptr :=
  match ctx with
  | [] => p
  | f :: ctx' => ctx_root ctx' (Some (faddr f))
  end.

(** Addresses of a context: the frames and their sibling subtrees. *)
Definition frame_addrs (f : frame) : list nat := faddr f :: addrs (fsib f).
Definition ctx_addrs (ctx : list frame) : list nat := concat (map frame_addrs ctx).

(** [ReprCtx h ctx q]: the memory holds the nodes of the context, and the
    child pointer at the hole is [q]. *)
Fixpoint ReprCtx (h : gmap nat Node) (ctx : list frame) (q : ptr) : Prop :=
  match ctx with
  | [] => True
  | f :: ctx' =>
      h !! faddr f =
        Some (mkNode (fkey f) (fcolor f)
                (match fdir f with Lft => q | Rgt => addr (fsib f) end)
                (match fdir f with Lft => addr (fsib f) | Rgt => q end)
                (ctx_par ctx')) /\
      Repr h (Some (faddr f)) (fsib f) /\
      ReprCtx h ctx' (Some (faddr f))
  end.

(** The memory outside the set [X] of addresses is the same. *)
Definition same_outside (X : list nat) (s s' : burbTree) : Prop :=
  forall x, x ∉ X -> heap s' !! x = heap s !! x.

(** Rule 3 of [fixErasure], as a change of the memory: the DOUBLE_BLACK
    node [p] becomes BLACK, its sibling [w] RED, and the parent [q] BLACK
    if it was RED, else DOUBLE_BLACK. *)
Definition recolor (c : color_t) (n : Node) : Node :=
  mkNode (key n) c (left n) (right n) (parent n).

Definition sibling_of (p : ptr) (n : Node) : ptr :=
  if ptr_eqb p (left n) then right n else left n.

Definition rule3 (p q w : nat) (np nq nw : Node) (s : burbTree) : burbTree :=
  with_heap
    (<[q := recolor (if color_eqb (color nq) RED then BLACK else DOUBLE_BLACK) nq]>
       (<[w := recolor RED nw]> (<[p := recolor BLACK np]> (heap s)))) s.

(** Two lists of addresses have no element in common. *)
Definition dj (l1 l2 : list nat) : Prop := forall x, x ∈ l1 -> x ∉ l2.

(** A step of a rebalancing loop: the container holds [T'] instead of
    [T], with the same nodes and keys in the same order; the memory
    outside the tree, the node count, the freed list and the allocator are
    untouched. *)
Definition Upd (s : burbTree) (T : tree) (s' : burbTree) (T' : tree) : Prop :=
  Whole s' T' /\ same_outside (addrs T) s s' /\
  count s' = count s /\ freed s' = freed s /\ brk s' = brk s /\
  cells T' = cells T.

(** [wp m s Q]: the computation [m] started in [s] returns, with a value
    and a state that satisfy [Q]. *)
Definition wp {A} (m : M burbTree A) (s : burbTree)
    (Q : A -> burbTree -> Prop) : Prop :=
  exists v s', m s = Some (v, s') /\ Q v s'.

(** *** The red-black invariants *)

(** The colour of the root; a null child is BLACK. *)
Definition croot (t : tree) : color_t :=
  match t with E => BLACK | T _ c _ _ _ => c end.

(** [rb t n]: no RED node of [t] has a RED child, no node is
    DOUBLE_BLACK, and every path from the root of [t] to a leaf has [n]
    BLACK nodes. *)
Fixpoint rb (t : tree) (n : nat) : Prop :=
  match t with
  | E => n = 0%nat
  | T _ c l _ rt =>
      match c with
      | RED => croot l = BLACK /\ croot rt = BLACK /\ rb l n /\ rb rt n
      | BLACK => exists m, n = S m /\ rb l m /\ rb rt m
      | DOUBLE_BLACK => False
      end
  end.

(** The nearest frame, if there is one, is BLACK. *)
Definition cblack (ctx : list frame) : Prop :=
  match ctx with
  | [] => True
  | f :: _ => fcolor f = BLACK
  end.

(** [cinv ctx n]: the frames of [ctx] and their subtrees form a red-black
    tree around a hole of black height [n]; a RED frame has a BLACK
    sibling subtree and a BLACK parent frame. *)
Fixpoint cinv (ctx : list frame) (n : nat) : Prop :=
  match ctx with
  | [] => True
  | f :: ctx' =>
      rb (fsib f) n /\
      match fcolor f with
      | BLACK => cinv ctx' (S n)
      | RED => croot (fsib f) = BLACK /\ ctx' <> [] /\ cblack ctx' /\ cinv ctx' n
      | DOUBLE_BLACK => False
      end
  end.

(** The tree with its root coloured BLACK ([root->color = BLACK]). *)
Definition blacken (t : tree) : tree :=
  match t with E => E | T a _ l k rt => T a BLACK l k rt end.

(** The red-black tree invariant of the container. *)
Definition RB (t : tree) : Prop := croot t = BLACK /\ exists n, rb t n.

(** The place where the search of [insert] for [k] ends: the path to the
    null child where [k] belongs, or [None] when [k] is in the tree. *)
Fixpoint find_hole (k : Z) (t : tree) (ctx : list frame) : option (list frame) :=
  match t with
  | E => Some ctx
  | T a c l x rt =>
      if k <? x then find_hole k l (Frame Lft a c x rt :: ctx)
      else if k >? x then find_hole k rt (Frame Rgt a c x l :: ctx)
      else None
  end.

(** The tree with the new RED leaf at address [n] linked in. *)
Fixpoint tins (n : nat) (k : Z) (t : tree) : tree :=
  match t with
  | E => T n RED E k E
  | T a c l x rt =>
      if k <? x then T a c (tins n k l) x rt
      else if k >? x then T a c l x (tins n k rt)
      else t
  end.

(** The colour of the node where the loop of [fixErasure] ends: it is
    still DOUBLE_BLACK only if it is the root. *)
Definition dbc (ctx : list frame) : color_t :=
  match ctx with [] => DOUBLE_BLACK | _ :: _ => BLACK end.

(** [cinvR ctx h]: whatever red-black tree of black height [h] with a
    BLACK root is put into the hole of [ctx], the whole is a red-black
    tree once its root is coloured BLACK. *)
Definition cinvR (ctx : list frame) (h : nat) : Prop :=
  forall X, rb X h -> croot X = BLACK -> exists m, rb (blacken (plug X ctx)) m.

(** *** The search of [erase] *)

Definition tkey (t : tree) : Z :=
  match t with E => 0 | T _ _ _ k _ => k end.

(** [eraseMinValue]: the leftmost node of [t], with the path to it. *)
Fixpoint min_node (t : tree) (ctx : list frame) : tree * list frame :=
  match t with
  | E => (E, ctx)
  | T a c l x rt =>
      match l with
      | E => (t, ctx)
      | T _ _ _ _ _ => min_node l (Frame Lft a c x rt :: ctx)
      end
  end.

(** Where [erase(node, key)] ends: the node to splice out and the path to
    it, in the tree where the key of the successor has been copied into
    the node that held [k]; [None] when [k] is not in the tree. *)
Fixpoint find_victim (k : Z) (t : tree) (ctx : list frame)
    : option (tree * list frame) :=
  match t with
  | E => None
  | T a c l x rt =>
      if k <? x then find_victim k l (Frame Lft a c x rt :: ctx)
      else if k >? x then find_victim k rt (Frame Rgt a c x l :: ctx)
      else
        match l, rt with
        | E, _ | _, E => Some (t, ctx)
        | _, _ =>
            let '(m, cm) := min_node rt [] in
            Some (m, cm ++ Frame Rgt a c (tkey m) l :: ctx)
        end
  end.

(** The child that takes the place of the spliced node:
    [(node->left != nulle) ? node->left : node->right]. *)
Definition tchild (t : tree) : tree :=
  match t with
  | E => E
  | T _ _ l _ rt => match l with E => rt | T _ _ _ _ _ => l end
  end.

(** The leftmost node of a tree, and the tree without it. *)
Fixpoint tmin (t : tree) : tree :=
  match t with
  | E => E
  | T _ _ l _ _ => match l with E => t | T _ _ _ _ _ => tmin l end
  end.

Fixpoint tdelmin (t : tree) : tree :=
  match t with
  | E => E
  | T a c l x rt =>
      match l with
      | E => rt
      | T _ _ _ _ _ => T a c (tdelmin l) x rt
      end
  end.

(** The tree without the key [k], before any recolouring or rotation. *)
Fixpoint tdel (k : Z) (t : tree) : tree :=
  match t with
  | E => E
  | T a c l x rt =>
      if k <? x then T a c (tdel k l) x rt
      else if k >? x then T a c l x (tdel k rt)
      else
        match l, rt with
        | E, _ => rt
        | _, E => l
        | _, _ => T a c l (tkey (tmin rt)) (tdelmin rt)
        end
  end.

(** The container holds the tree [t] and counts its nodes. *)
Definition Holds (s : burbTree) (t : tree) : Prop :=
  Whole s t /\ count s = tsize t.

(** The freed list: the nodes [fl], chained through [left]. *)
Fixpoint FreeList (h : gmap nat Node) (p : ptr) (fl : list nat) : Prop :=
  match fl with
  | [] => p = nulle
  | x :: fl' => p = Some x /\ exists n, h !! x = Some n /\ FreeList h (left n) fl'
  end.

(** The state invariant of the container: it holds the search tree [t],
    which is a red-black tree with a BLACK root; the freed list holds the
    nodes [fl]; no node is in both, and every node was handed out by the
    allocator. *)
Definition BInv (s : burbTree) (t : tree) (fl : list nat) : Prop :=
  Whole s t /\ count s = tsize t /\ AVL.sorted (inorder t) /\ RB t /\
  FreeList (heap s) (freed s) fl /\ NoDup (addrs t ++ fl) /\
  (forall x, x ∈ addrs t ++ fl -> (x < brk s)%nat).

End BURB.

(** ** llrbTree.h *)

Module LLRB.

Local Open Scope monad_scope.

(** [color_t] is [bool]: [RED = true], [BLACK = false]. *)
Definition color_t : Type := bool.
Definition RED : color_t := true.
Definition BLACK : color_t := false.

(** [struct Node]; [taille] exists under ENABLE_PREFERRED_TEST only and is
    kept at its initial value otherwise. *)
Inductive Node : Type :=
| nullptr
| node (addr : nat) (key : Z) (color : color_t) (left right : Node) (taille : nat).

(** The compile-time options that change [erase]. *)
Record config : Type := Config {
  ENABLE_PREFERRED_TEST : bool;
  INVERT_PREFERRED_TEST : bool
}.

(** [#define FORCE_SUCCESSOR] inside [erase]: always defined. *)
Definition FORCE_SUCCESSOR : bool := true.

Record llrbTree : Type := LlrbTree {
  root : Node;
  freed : Node;
  count : nat;
  a : bool; r : bool;
  rotateL : nat; rotateR : nat;
  brk : nat
}.

Definition with_root v (t : llrbTree) :=
  LlrbTree v (freed t) (count t) (a t) (r t) (rotateL t) (rotateR t) (brk t).
Definition with_freed v (t : llrbTree) :=
  LlrbTree (root t) v (count t) (a t) (r t) (rotateL t) (rotateR t) (brk t).
Definition with_count v (t : llrbTree) :=
  LlrbTree (root t) (freed t) v (a t) (r t) (rotateL t) (rotateR t) (brk t).
Definition with_a v (t : llrbTree) :=
  LlrbTree (root t) (freed t) (count t) v (r t) (rotateL t) (rotateR t) (brk t).
Definition with_r v (t : llrbTree) :=
  LlrbTree (root t) (freed t) (count t) (a t) v (rotateL t) (rotateR t) (brk t).
Definition with_rotateL v (t : llrbTree) :=
  LlrbTree (root t) (freed t) (count t) (a t) (r t) v (rotateR t) (brk t).
Definition with_rotateR v (t : llrbTree) :=
  LlrbTree (root t) (freed t) (count t) (a t) (r t) (rotateL t) v (brk t).
Definition with_brk v (t : llrbTree) :=
  LlrbTree (root t) (freed t) (count t) (a t) (r t) (rotateL t) (rotateR t) v.

Definition llrbTree_new : llrbTree := LlrbTree nullptr nullptr 0 false false 0 0 0.

Section Config.
Variable cfg : config.

(** [newNode(key, c)]: a node taken from the freed list is always RED. *)
Definition newNode (x : Z) (c : color_t) : M llrbTree Node :=
  t <- get ;;
  match freed t with
  | node p _ _ next _ _ =>
      modify (with_freed next) ;;;
      ret (node p x RED nullptr nullptr 1)
  | nullptr =>
      modify (with_brk (S (brk t))) ;;;
      ret (node (brk t) x c nullptr nullptr 1)
  end.

Definition deleteNode (q : Node) : M llrbTree unit :=
  match q with
  | nullptr => fail
  | node p k c _ rt n =>
      t <- get ;;
      modify (with_freed (node p k c (freed t) rt n))
  end.

Definition isRed (p : Node) : bool :=
  match p with
  | nullptr => false
  | node _ _ c _ _ _ => c
  end.

Definition getSize (p : Node) : nat :=
  match p with
  | nullptr => 0
  | node _ _ _ _ _ n => n
  end.

(** [p->taille = updateSize(p)] under ENABLE_PREFERRED_TEST. *)
Definition updateSize (p : Node) : Node :=
  match p with
  | nullptr => nullptr
  | node i k c l rt n =>
      if ENABLE_PREFERRED_TEST cfg
      then node i k c l rt (getSize l + 1 + getSize rt)
      else p
  end.

Definition left_of (p : Node) : Node :=
  match p with nullptr => nullptr | node _ _ _ l _ _ => l end.
Definition right_of (p : Node) : Node :=
  match p with nullptr => nullptr | node _ _ _ _ rt _ => rt end.

(** [rotateLeft(p)] *)
Definition rotateLeft (p : Node) : M llrbTree Node :=
  match p with
  | node i k c l (node i1 k1 c1 l1 r1 n1) n =>
      modify (fun s => with_rotateL (S (rotateL s)) s) ;;;
      ret (node i1 k1 c (updateSize (node i k RED l l1 n)) r1
             (if ENABLE_PREFERRED_TEST cfg then n else n1))
  | _ => ret p
  end.

(** [rotateRight(p)] *)
Definition rotateRight (p : Node) : M llrbTree Node :=
  match p with
  | node i k c (node i1 k1 c1 l1 r1 n1) rt n =>
      modify (fun s => with_rotateR (S (rotateR s)) s) ;;;
      ret (node i1 k1 c l1 (updateSize (node i k RED r1 rt n))
             (if ENABLE_PREFERRED_TEST cfg then n else n1))
  | _ => ret p
  end.

(** [flipColors(p)] (the [#if 1] variant) *)
Definition flipColors (p : Node) : Node :=
  match p with
  | node i k c (node i1 k1 c1 l1 r1 n1) (node i2 k2 c2 l2 r2 n2) n =>
      if (c && negb c1 && negb c2) || (negb c && c1 && c2)
      then node i k (negb c) (node i1 k1 (negb c1) l1 r1 n1)
             (node i2 k2 (negb c2) l2 r2 n2) n
      else p
  | _ => p
  end.

(** The three steps that end [insert(p, x)] and [balance(p)]. *)
Definition fixUp (p : Node) : M llrbTree Node :=
  p <- (if isRed (right_of p) && negb (isRed (left_of p))
        then rotateLeft p else ret p) ;;
  p <- (if isRed (left_of p) && isRed (left_of (left_of p))
        then rotateRight p else ret p) ;;
  let p := if isRed (left_of p) && isRed (right_of p) then flipColors p else p in
  ret (updateSize p).

(** [insert(p, x)] *)
Fixpoint insert_at (p : Node) (x : Z) : M llrbTree Node :=
  match p with
  | nullptr =>
      modify (with_a true) ;;;
      modify (fun s => with_count (S (count s)) s) ;;;
      newNode x RED
  | node i k c l rt n =>
      p' <- (if x <? k then l' <- insert_at l x ;; ret (node i k c l' rt n)
             else if x >? k then r' <- insert_at rt x ;; ret (node i k c l r' n)
             else modify (with_a false) ;;; ret p) ;;
      fixUp p'
  end.

(** [balance(p)] *)
Definition balance (p : Node) : M llrbTree Node :=
  match p with
  | nullptr => ret nullptr
  | node _ _ _ _ _ _ => fixUp p
  end.

Definition set_right (p : Node) (v : Node) : Node :=
  match p with
  | nullptr => nullptr
  | node i k c l _ n => node i k c l v n
  end.
Definition set_left (p : Node) (v : Node) : Node :=
  match p with
  | nullptr => nullptr
  | node i k c _ rt n => node i k c v rt n
  end.
Definition set_key (p : Node) (v : Z) : Node :=
  match p with
  | nullptr => nullptr
  | node i _ c l rt n => node i v c l rt n
  end.
Definition set_color (p : Node) (v : color_t) : Node :=
  match p with
  | nullptr => nullptr
  | node i k _ l rt n => node i k v l rt n
  end.

(** [moveRedLeft(p)] *)
Definition moveRedLeft (p : Node) : M llrbTree Node :=
  let p := flipColors p in
  match right_of p with
  | node _ _ _ rl _ _ =>
      if isRed rl then
        r' <- rotateRight (right_of p) ;;
        p <- rotateLeft (set_right p r') ;;
        ret (flipColors p)
      else ret p
  | nullptr => ret p
  end.

(** [moveRedRight(p)] *)
Definition moveRedRight (p : Node) : M llrbTree Node :=
  let p := flipColors p in
  match left_of p with
  | node _ _ _ ll _ _ =>
      if isRed ll then
        p <- rotateRight p ;;
        ret (flipColors p)
      else ret p
  | nullptr => ret p
  end.

(** [min(p)] and [max(p)] *)
Fixpoint min (p : Node) : Node :=
  match p with
  | nullptr => nullptr
  | node _ _ _ l _ _ => match l with nullptr => p | node _ _ _ _ _ _ => min l end
  end.
Fixpoint max (p : Node) : Node :=
  match p with
  | nullptr => nullptr
  | node _ _ _ _ rt _ => match rt with nullptr => p | node _ _ _ _ _ _ => max rt end
  end.

Definition key_of (p : Node) : M llrbTree Z :=
  match p with
  | nullptr => fail
  | node _ k _ _ _ _ => ret k
  end.

(** [deleteMin(p)]; the recursion descends into the left child of the
    restructured node, at most [fuel] levels. *)
Fixpoint deleteMin (fuel : nat) (p : Node) : M llrbTree Node :=
  match fuel with
  | O => fail
  | S fuel' =>
      match p with
      | nullptr => fail
      | node _ _ _ nullptr _ _ =>
          deleteNode p ;;;
          modify (with_r true) ;;;
          modify (fun s => with_count (Nat.pred (count s)) s) ;;;
          ret nullptr
      | node _ _ _ l _ _ =>
          p <- (if negb (isRed l) && negb (isRed (left_of l))
                then moveRedLeft p else ret p) ;;
          l' <- deleteMin fuel' (left_of p) ;;
          balance (set_left p l')
      end
  end.

(** [deleteMax(p)] *)
Fixpoint deleteMax (fuel : nat) (p : Node) : M llrbTree Node :=
  match fuel with
  | O => fail
  | S fuel' =>
      p <- (if isRed (left_of p) then rotateRight p else ret p) ;;
      match p with
      | nullptr => fail
      | node _ _ _ _ nullptr _ =>
          deleteNode p ;;;
          modify (with_r true) ;;;
          modify (fun s => with_count (Nat.pred (count s)) s) ;;;
          ret nullptr
      | node _ _ _ _ rt _ =>
          p <- (if negb (isRed rt) && negb (isRed (left_of rt))
                then moveRedRight p else ret p) ;;
          r' <- deleteMax fuel' (right_of p) ;;
          balance (set_right p r')
      end
  end.

(** [eraseMax(p)] (compiled under ENABLE_PREFERRED_TEST) *)
Definition eraseMax (fuel : nat) (p : Node) : M llrbTree Node :=
  match p with
  | nullptr => ret nullptr
  | node _ _ _ l rt _ =>
      let p := if negb (isRed l) && negb (isRed rt) then set_color p RED else p in
      p <- deleteMax fuel p ;;
      ret (set_color p BLACK)
  end.

(** The test in front of the predecessor branch of [erase]. *)
Definition prefer_predecessor (p : Node) : bool :=
  if ENABLE_PREFERRED_TEST cfg then
    if FORCE_SUCCESSOR then false
    else if INVERT_PREFERRED_TEST cfg
         then Nat.ltb (getSize (left_of p)) (getSize (right_of p))
         else Nat.leb (getSize (right_of p)) (getSize (left_of p))
  else false.

(** [erase(p, x)] *)
Fixpoint erase_at (fuel : nat) (p : Node) (x : Z) : M llrbTree Node :=
  match fuel with
  | O => fail
  | S fuel' =>
      match p with
      | nullptr => modify (with_r false) ;;; ret nullptr
      | node _ k _ l _ _ =>
          if x <? k then
            p <- (if negb (isRed l) && negb (match l with nullptr => true | _ => false end)
                     && negb (isRed (left_of l))
                  then moveRedLeft p else ret p) ;;
            l' <- erase_at fuel' (left_of p) x ;;
            balance (set_left p l')
          else
            p <- (if isRed l then rotateRight p else ret p) ;;
            match p with
            | nullptr => fail
            | node _ k1 _ _ r1 _ =>
                if (x =? k1) && (match r1 with nullptr => true | _ => false end) then
                  deleteNode p ;;;
                  modify (fun s => with_count (Nat.pred (count s)) s) ;;;
                  modify (with_r true) ;;;
                  ret nullptr
                else
                  p <- (if negb (isRed r1)
                           && negb (match r1 with nullptr => true | _ => false end)
                           && negb (isRed (left_of r1))
                        then moveRedRight p else ret p) ;;
                  kp <- key_of p ;;
                  if x =? kp then
                    modify (with_r true) ;;;
                    if prefer_predecessor p then
                      kq <- key_of (max (left_of p)) ;;
                      l' <- eraseMax fuel' (left_of p) ;;
                      let l' := if isRed p && isRed l' then set_color l' BLACK else l' in
                      balance (set_left (set_key p kq) l')
                    else
                      kq <- key_of (min (right_of p)) ;;
                      r' <- deleteMin fuel' (right_of p) ;;
                      balance (set_right (set_key p kq) r')
                  else
                    r' <- erase_at fuel' (right_of p) x ;;
                    balance (set_right p r')
            end
      end
  end.

(** [bool insert(K const& x)] *)
Definition insert (x : Z) : M llrbTree bool :=
  modify (with_a false) ;;;
  t <- get ;;
  match root t with
  | node _ _ _ _ _ _ =>
      p <- insert_at (root t) x ;;
      modify (with_root (set_color p BLACK)) ;;;
      t' <- get ;; ret (a t')
  | nullptr =>
      p <- newNode x BLACK ;;
      modify (with_root p) ;;;
      modify (with_a true) ;;;
      modify (fun s => with_count (S (count s)) s) ;;;
      t' <- get ;; ret (a t')
  end.

(** [bool erase(K const& x)]; every recursive call descends one level of
    the restructured tree, at most [count + 1] levels. *)
Definition erase (x : Z) : M llrbTree bool :=
  modify (with_r false) ;;;
  t <- get ;;
  match root t with
  | node _ _ _ l rt _ =>
      let p := if negb (isRed l) && negb (isRed rt)
               then set_color (root t) RED else root t in
      p <- erase_at (S (count t)) p x ;;
      modify (with_root (match p with
                         | nullptr => nullptr
                         | node _ _ _ _ _ _ => set_color p BLACK
                         end)) ;;;
      t' <- get ;; ret (r t')
  | nullptr => ret (r t)
  end.

End Config.

Definition size (t : llrbTree) : nat := count t.
Definition empty (t : llrbTree) : bool := Nat.eqb (count t) 0.

(** [getColor(p)]: BLACK for a null pointer. *)
Definition getColor (p : Node) : color_t :=
  match p with
  | nullptr => BLACK
  | node _ _ c _ _ _ => c
  end.

(** [contains(q, x)] and [contains(x)] *)
Fixpoint contains_from (p : Node) (x : Z) : bool :=
  match p with
  | nullptr => false
  | node _ k _ l rt _ =>
      if x <? k then contains_from l x
      else if x >? k then contains_from rt x
      else true
  end.

Definition contains (t : llrbTree) (x : Z) : bool := contains_from (root t) x.

(** [checkSize(node)] throws when the stored size of the subtree differs
    from the computed one. *)
Definition checkSize_throws (p : Node) : bool :=
  match p with
  | nullptr => false
  | node _ _ _ l rt n => negb (Nat.eqb n (getSize l + 1 + getSize rt))
  end.

(** [checkTree(node, prevCount, currCount)]; an exception is [None], as is
    the call on a null pointer (the public function never makes it). *)
Fixpoint checkTree_at (cfg : config) (p : Node) (prevCount currCount : nat)
    : option nat :=
  match p with
  | nullptr => None
  | node _ k c l rt _ =>
      let currCount := if Bool.eqb c BLACK then S currCount else currCount in
      if ENABLE_PREFERRED_TEST cfg && checkSize_throws p then None else
      if Bool.eqb c RED && Bool.eqb (getColor l) RED then None else
      if Bool.eqb (getColor rt) RED then None else
      if match l with nullptr => false | node _ kl _ _ _ _ => kl >=? k end
      then None else
      if match rt with nullptr => false | node _ kr _ _ _ _ => kr <=? k end
      then None else
      match l, rt with
      | nullptr, nullptr =>
          if negb (Nat.eqb prevCount 0) && negb (Nat.eqb currCount prevCount)
          then None else Some currCount
      | _, _ =>
          match (match l with
                 | nullptr => Some 0%nat
                 | node _ _ _ _ _ _ => checkTree_at cfg l prevCount currCount
                 end) with
          | None => None
          | Some leftCount =>
              match (match rt with
                     | nullptr => Some 0%nat
                     | node _ _ _ _ _ _ => checkTree_at cfg rt prevCount currCount
                     end) with
              | None => None
              | Some rightCount =>
                  if Nat.eqb leftCount 0 then Some rightCount
                  else if Nat.eqb rightCount 0 then Some leftCount
                  else if negb (Nat.eqb leftCount rightCount) then None
                  else Some leftCount
              end
          end
      end
  end.

(** [checkTree()] *)
Definition checkTree (cfg : config) (t : llrbTree) : option nat :=
  match root t with
  | nullptr => Some 0%nat
  | node _ _ _ _ _ _ =>
      if negb (Bool.eqb (getColor (root t)) BLACK) then None
      else
        match checkTree_at cfg (root t) 0 0 with
        | None => None
        | Some prevCount => checkTree_at cfg (root t) prevCount 0
        end
  end.

(** *** Sequences of mutating calls *)

Inductive op : Type := Insert (x : Z) | Erase (x : Z).

Definition step (cfg : config) (o : op) : M llrbTree bool :=
  match o with
  | Insert x => insert cfg x
  | Erase x => erase cfg x
  end.

Fixpoint run (cfg : config) (ops : list op) (t : llrbTree) : option llrbTree :=
  match ops with
  | [] => Some t
  | o :: ops' =>
      match step cfg o t with
      | Some (_, t') => run cfg ops' t'
      | None => None
      end
  end.

(** *** Specification vocabulary *)

Fixpoint inorder (p : Node) : list Z :=
  match p with
  | nullptr => []
  | node _ k _ l rt _ => inorder l ++ k :: inorder rt
  end.

(** Everything but the rotation counters is unchanged. *)
Definition same_but_rotations (s s' : llrbTree) : Prop :=
  root s' = root s /\ freed s' = freed s /\ count s' = count s /\
  a s' = a s /\ r s' = r s /\ brk s' = brk s.

(** What [erase(p, x)] does at the node that holds [x] when it takes the
    in-order successor: the smallest key of the right subtree is stored in
    the node and the node that held it is removed by [deleteMin]. *)
Definition replace_by_successor (cfg : config) (fuel : nat) (p : Node) : M llrbTree Node :=
  kq <- key_of (min (right_of p)) ;;
  r' <- deleteMin cfg fuel (right_of p) ;;
  balance cfg (set_right (set_key p kq) r').

(** The stored size of a node is the sum of the stored sizes of its children
    plus one: what [checkSize] tests, in a build with ENABLE_PREFERRED_TEST. *)
Definition sized (cfg : config) (p : Node) : Prop :=
  ENABLE_PREFERRED_TEST cfg && checkSize_throws p = false.

(** [llrb cfg p h]: the subtree [p] is a left-leaning red-black tree with [h]
    BLACK nodes on every path from [p] down to a null pointer: no node has a
    RED right child, no RED node has a RED left child. *)
Fixpoint llrb (cfg : config) (p : Node) (h : nat) : Prop :=
  match p with
  | nullptr => h = 0%nat
  | node i k c l rt n =>
      isRed rt = false /\ c && isRed l = false /\ sized cfg (node i k c l rt n) /\
      match c, h with
      | true, _ => llrb cfg l h /\ llrb cfg rt h
      | false, S h' => llrb cfg l h' /\ llrb cfg rt h'
      | false, O => False
      end
  end.

(** What [insert(p, x)] may return for a RED node [p]: a RED node whose left
    child may be RED as well. *)
Definition almost (cfg : config) (p : Node) (h : nat) : Prop :=
  match p with
  | nullptr => False
  | node i k c l rt n =>
      c = RED /\ isRed rt = false /\ sized cfg (node i k c l rt n) /\
      llrb cfg l h /\ llrb cfg rt h
  end.

(** The state of a tree between two calls: the keys are in ascending order,
    [count] is their number, and the tree is a left-leaning red-black tree;
    its root may be RED. *)
Definition LInv (cfg : config) (s : llrbTree) : Prop :=
  AVL.sorted (inorder (root s)) /\ count s = length (inorder (root s)) /\
  exists h, llrb cfg (root s) h.

(** What [erase(p, x)] and [deleteMin(p)] rely on when they are called on a
    node [p]: [p] or its left child is RED. *)
Definition erasable (cfg : config) (p : Node) (h : nat) : Prop :=
  llrb cfg p h /\ isRed p || isRed (left_of p) = true.

(** The other shape [erase(p, x)] is called on, after [moveRedRight] has
    rotated: a BLACK node with a BLACK left and a RED right child, and a key
    that is not above [x]. *)
Definition right_heavy (cfg : config) (p : Node) (h : nat) (x : Z) : Prop :=
  match p with
  | nullptr => False
  | node i k c l rt n =>
      c = BLACK /\ isRed l = false /\ isRed rt = true /\ k <= x /\
      sized cfg (node i k c l rt n) /\
      match h with
      | O => False
      | S h' => llrb cfg l h' /\ llrb cfg rt h'
      end
  end.

(** The member variables after the removal of a node ([found]) or after a
    search that ended at a null pointer. *)
Definition erased (found : bool) (s s' : llrbTree) : Prop :=
  root s' = root s /\ a s' = a s /\ brk s' = brk s /\ r s' = found /\
  count s' = (if found then Nat.pred (count s) else count s) /\
  if found then left_of (freed s') = freed s /\ freed s' <> nullptr
  else freed s' = freed s.

(** The subtrees [erase(p, x)] is called on. *)
Definition erase_pre (cfg : config) (p : Node) (h : nat) (x : Z) : Prop :=
  (p = nullptr /\ h = 0%nat) \/ erasable cfg p h \/ right_heavy cfg p h x.

(** What [erase(p, x)] does on such a subtree, when the recursion may
    descend [fuel] levels: it returns a left-leaning red-black tree of the
    same black height with the keys of [p] but [x], BLACK if [p] was. *)
Definition erase_at_ok (cfg : config) (x : Z) (fuel : nat) : Prop :=
  forall p h s,
    (length (inorder p) < fuel)%nat -> AVL.sorted (inorder p) ->
    erase_pre cfg p h x ->
    exists q s', erase_at cfg fuel p x s = Some (q, s') /\
      llrb cfg q h /\ (isRed p = false -> isRed q = false) /\
      inorder q = AVL.del x (inorder p) /\
      erased (bool_decide (x ∈ inorder p)) s s'.

(** The number of nodes on the longest path from [p] down to a null
    pointer. *)
Fixpoint height (p : Node) : nat :=
  match p with
  | nullptr => 0
  | node _ _ _ l rt _ => S (Nat.max (height l) (height rt))
  end.

(** *** More of the public functions *)

(** [empty()] in full: in a build with ENABLE_PREFERRED_TEST it throws when
    the stored size of the root differs from [count]. *)
Definition empty_checked (cfg : config) : M llrbTree bool :=
  t <- get ;;
  if ENABLE_PREFERRED_TEST cfg && negb (Nat.eqb (getSize (root t)) (count t))
  then fail
  else ret (Nat.eqb (count t) 0).

(** [size()] in full: in a build with ENABLE_PREFERRED_TEST it throws when
    the stored size of the root differs from [count]. *)
Definition size_checked (cfg : config) : M llrbTree nat :=
  t <- get ;;
  if ENABLE_PREFERRED_TEST cfg && negb (Nat.eqb (getSize (root t)) (count t))
  then fail
  else ret (count t).

(** [K* min()] and [K* max()]: the key of the leftmost and of the rightmost
    node; on an empty tree they dereference a null pointer. *)
Definition min_root : M llrbTree Z := t <- get ;; key_of (min (root t)).
Definition max_root : M llrbTree Z := t <- get ;; key_of (max (root t)).

(** [bool deleteMin()] *)
Definition deleteMin_root (cfg : config) : M llrbTree bool :=
  e <- empty_checked cfg ;;
  if e then ret false else
  t <- get ;;
  match root t with
  | nullptr => fail
  | node _ _ _ l rt _ =>
      (if negb (isRed l) && negb (isRed rt)
       then modify (with_root (set_color (root t) RED)) else ret tt) ;;;
      modify (with_r false) ;;;
      t <- get ;;
      p <- deleteMin cfg (S (count t)) (root t) ;;
      modify (with_root p) ;;;
      e <- empty_checked cfg ;;
      (if e then ret tt
       else t <- get ;;
            match root t with
            | nullptr => fail
            | node _ _ _ _ _ _ => modify (with_root (set_color (root t) BLACK))
            end) ;;;
      t <- get ;; ret (r t)
  end.

(** [bool deleteMax()] *)
Definition deleteMax_root (cfg : config) : M llrbTree bool :=
  e <- empty_checked cfg ;;
  if e then ret false else
  t <- get ;;
  match root t with
  | nullptr => fail
  | node _ _ _ l rt _ =>
      (if negb (isRed l) && negb (isRed rt)
       then modify (with_root (set_color (root t) RED)) else ret tt) ;;;
      modify (with_r false) ;;;
      t <- get ;;
      p <- deleteMax cfg (S (count t)) (root t) ;;
      modify (with_root p) ;;;
      e <- empty_checked cfg ;;
      (if e then ret tt
       else t <- get ;;
            match root t with
            | nullptr => fail
            | node _ _ _ _ _ _ => modify (with_root (set_color (root t) BLACK))
            end) ;;;
      t <- get ;; ret (r t)
  end.

(** [getKeys(p, v, i)]: the in-order walk stores each key with
    [v[i++] = p->key], without a bounds check as in avlTree. *)
Fixpoint getKeys_at (p : Node) (v : list Z) (i : nat) : option (list Z * nat) :=
  match p with
  | nullptr => None
  | node _ k _ l rt _ =>
      match (match l with
             | nullptr => Some (v, i)
             | node _ _ _ _ _ _ => getKeys_at l v i
             end) with
      | None => None
      | Some (v1, i1) =>
          match AVL.store v1 i1 k with
          | None => None
          | Some (v2, i2) =>
              match rt with
              | nullptr => Some (v2, i2)
              | node _ _ _ _ _ _ => getKeys_at rt v2 i2
              end
          end
      end
  end.

(** [getKeys(v)] *)
Definition getKeys (t : llrbTree) (v : list Z) : option (list Z) :=
  match root t with
  | nullptr => Some v
  | node _ _ _ _ _ _ => fst <$> getKeys_at (root t) v 0
  end.

(** [freedSize()] *)
Fixpoint freedSize_from (p : Node) : nat :=
  match p with
  | nullptr => 0
  | node _ _ _ next _ _ => S (freedSize_from next)
  end.

Definition freedSize (t : llrbTree) : nat := freedSize_from (freed t).

(** [freedPreallocate(n, x)] *)
Fixpoint freedPreallocate (n : nat) (x : Z) : M llrbTree unit :=
  match n with
  | O => ret tt
  | S n' =>
      t <- get ;;
      modify (with_brk (S (brk t))) ;;;
      modify (with_freed (node (brk t) x RED (freed t) nullptr 1)) ;;;
      freedPreallocate n' x
  end.

(** Sequences of calls of the public functions that change the tree or
    the freed list. *)
Inductive call : Type :=
| CInsert (x : Z) | CErase (x : Z) | CDeleteMin | CDeleteMax
| CPreallocate (n : nat) (x : Z).

Definition do_call (cfg : config) (c : call) : M llrbTree unit :=
  match c with
  | CInsert x => insert cfg x ;;; ret tt
  | CErase x => erase cfg x ;;; ret tt
  | CDeleteMin => deleteMin_root cfg ;;; ret tt
  | CDeleteMax => deleteMax_root cfg ;;; ret tt
  | CPreallocate n x => freedPreallocate n x
  end.

Fixpoint run_calls (cfg : config) (cs : list call) (t : llrbTree)
    : option llrbTree :=
  match cs with
  | [] => Some t
  | c :: cs' =>
      match do_call cfg c t with
      | Some (_, t') => run_calls cfg cs' t'
      | None => None
      end
  end.

(** The keys, in ascending order, that a sequence of calls leaves in a
    tree that held [ks]. *)
Fixpoint keys_after (cs : list call) (ks : list Z) : list Z :=
  match cs with
  | [] => ks
  | CInsert x :: cs' => keys_after cs' (AVL.ins x ks)
  | CErase x :: cs' => keys_after cs' (AVL.del x ks)
  | CDeleteMin :: cs' => keys_after cs' (tail ks)
  | CDeleteMax :: cs' => keys_after cs' (removelast ks)
  | CPreallocate _ _ :: cs' => keys_after cs' ks
  end.

(** The tree without its colours and stored sizes, as a tree of [avlTree]
    nodes: [getKeys] walks both in the same way. *)
Fixpoint skeleton (p : Node) : AVL.Node :=
  match p with
  | nullptr => AVL.nullptr
  | node i k _ l rt _ => AVL.node i k 0 (skeleton l) (skeleton rt)
  end.

(** The nodes of a subtree in order, each with its address and its key. *)
Fixpoint cells (p : Node) : list (nat * Z) :=
  match p with
  | nullptr => []
  | node i k _ l rt _ => cells l ++ (i, k) :: cells rt
  end.

Definition cell_of (p : Node) : option (nat * Z) :=
  match p with
  | nullptr => None
  | node i k _ _ _ _ => Some (i, k)
  end.

(** The node that holds key [x], found by the search the code performs. *)
Fixpoint find (p : Node) (x : Z) : Node :=
  match p with
  | nullptr => nullptr
  | node _ k _ l rt _ =>
      if x <? k then find l x else if x >? k then find rt x else p
  end.

(** The node that leaves the tree when [x] is erased: the node that holds
    [x] when it has no right child, and else the leftmost node of its
    right subtree, the in-order successor. *)
Definition victim (p : Node) (x : Z) : Node :=
  match find p x with
  | nullptr => nullptr
  | node _ _ _ _ rt _ as q =>
      match rt with nullptr => q | node _ _ _ _ _ _ => min rt end
  end.

(** What the removal of the node of cell [v] does to a cell [c] when [x]
    is erased: the cell of [x] takes the key of [v], and the cell of [v]
    goes. *)
Definition move_key (x : Z) (v c : nat * Z) : list (nat * Z) :=
  if c.2 =? x then (if v.2 =? x then [] else [(c.1, v.2)])
  else if c.2 =? v.2 then [] else [c].

Definition splice (x : Z) (v : option (nat * Z)) (cs : list (nat * Z))
    : list (nat * Z) :=
  match v with
  | None => cs
  | Some v => flat_map (move_key x v) cs
  end.

(** The address of the node that [newNode] returns next. *)
Definition next_addr (t : llrbTree) : nat :=
  match freed t with
  | nullptr => brk t
  | node p _ _ _ _ _ => p
  end.

End LLRB.

(** ** Facts about the AVL embedding *)

Module AVLFacts.
Import AVL.

(** *** Strictly ascending lists *)

Lemma sorted_app (xs ys : list Z) :
  sorted (xs ++ ys) <->
  sorted xs /\ sorted ys /\ Forall (fun x => Forall (fun y => x < y) ys) xs.
Proof.
  induction xs as [|x xs IH]; simpl.
  - intuition.
  - rewrite Forall_app, IH, Forall_cons. intuition.
Qed.

Lemma sorted_mid (xs ys : list Z) (k : Z) :
  sorted (xs ++ k :: ys) <->
  sorted xs /\ sorted ys /\ Forall (fun y => y < k) xs /\ Forall (fun y => k < y) ys.
Proof.
  rewrite sorted_app. simpl. split.
  - intros (Hx & (Hk & Hy) & Hxy). repeat split; auto.
    eapply Forall_impl; [exact Hxy|]. simpl. intros x H. by inversion H.
  - intros (Hx & Hy & Hxk & Hky). repeat split; auto.
    eapply Forall_impl; [exact Hxk|]. simpl. intros x H. constructor; [done|].
    eapply Forall_impl; [exact Hky|]. simpl. lia.
Qed.

Lemma bst_sorted (p : Node) : bst p <-> sorted (inorder p).
Proof.
  induction p as [|i k b l IHl rt IHr]; simpl; [tauto|].
  rewrite sorted_mid, IHl, IHr. tauto.
Qed.

Lemma elem_of_ins (x y : Z) (l : list Z) : y ∈ ins x l <-> y = x \/ y ∈ l.
Proof.
  induction l as [|z l IH]; simpl.
  - rewrite list_elem_of_singleton. set_solver.
  - destruct (x <? z) eqn:E1; [set_solver|].
    destruct (x >? z) eqn:E2.
    + rewrite !elem_of_cons, IH. tauto.
    + assert (x = z) by lia. set_solver.
Qed.

Lemma sorted_ins (x : Z) (l : list Z) : sorted l -> sorted (ins x l).
Proof.
  induction l as [|z l IH]; simpl; [auto|].
  intros [Hz Hl].
  destruct (x <? z) eqn:E1.
  - simpl. split; [|auto]. constructor; [lia|].
    eapply Forall_impl; [exact Hz|]. simpl. lia.
  - destruct (x >? z) eqn:E2; simpl; [|auto].
    split; [|auto]. apply Forall_forall. intros y Hy.
    apply elem_of_ins in Hy as [->|Hy]; [lia|].
    rewrite Forall_forall in Hz. auto.
Qed.

Lemma ins_id (x : Z) (l : list Z) : sorted l -> x ∈ l -> ins x l = l.
Proof.
  induction l as [|z l IH]; simpl; [by inversion 2|].
  intros [Hz Hl] Hx. apply elem_of_cons in Hx.
  destruct (x <? z) eqn:E1.
  - destruct Hx as [->|Hx]; [lia|]. rewrite Forall_forall in Hz.
    specialize (Hz _ Hx). lia.
  - destruct (x >? z) eqn:E2; [|done].
    destruct Hx as [->|Hx]; [lia|]. by rewrite IH.
Qed.

Lemma length_ins_new (x : Z) (l : list Z) :
  x ∉ l -> length (ins x l) = S (length l).
Proof.
  induction l as [|z l IH]; simpl; [done|].
  intros Hx. apply not_elem_of_cons in Hx as [Hne Hx].
  destruct (x <? z) eqn:E1; [done|].
  destruct (x >? z) eqn:E2; simpl; [by rewrite IH|lia].
Qed.

Lemma ins_mid_lt (xs ys : list Z) (k x : Z) :
  sorted (xs ++ k :: ys) -> x < k ->
  ins x (xs ++ k :: ys) = ins x xs ++ k :: ys.
Proof.
  induction xs as [|z xs IH]; simpl; intros Hs Hx.
  - by replace (x <? k) with true by lia.
  - destruct Hs as [_ Hs].
    destruct (x <? z); [done|]. destruct (x >? z); [|done].
    by rewrite IH.
Qed.

Lemma ins_mid_gt (xs ys : list Z) (k x : Z) :
  sorted (xs ++ k :: ys) -> k < x ->
  ins x (xs ++ k :: ys) = xs ++ k :: ins x ys.
Proof.
  induction xs as [|z xs IH]; simpl; intros Hs Hx.
  - replace (x <? k) with false by lia. by replace (x >? k) with true by lia.
  - destruct Hs as [Hz Hs].
    assert (z < k) by (rewrite Forall_app, Forall_cons in Hz; tauto).
    replace (x <? z) with false by lia. replace (x >? z) with true by lia.
    by rewrite IH.
Qed.

Lemma ins_mid_eq (xs ys : list Z) (k : Z) :
  sorted (xs ++ k :: ys) -> ins k (xs ++ k :: ys) = xs ++ k :: ys.
Proof.
  intros Hs. apply ins_id; [done|]. set_solver.
Qed.

Lemma elem_of_del (x y : Z) (l : list Z) :
  sorted l -> y ∈ del x l <-> y <> x /\ y ∈ l.
Proof.
  induction l as [|z l IH]; simpl; [set_solver|].
  intros [Hz Hl]. rewrite Forall_forall in Hz.
  destruct (x =? z) eqn:E.
  - assert (x = z) as -> by lia. rewrite elem_of_cons. split.
    + intros Hy. specialize (Hz _ Hy). split; [lia|auto].
    + intros [? [?|?]]; [lia|done].
  - rewrite !elem_of_cons, IH by done. split; [|tauto].
    intros [->|?]; [|tauto]. split; [lia|auto].
Qed.

Lemma sorted_del (x : Z) (l : list Z) : sorted l -> sorted (del x l).
Proof.
  induction l as [|z l IH]; simpl; [auto|].
  intros [Hz Hl]. destruct (x =? z); [done|]. simpl. split; [|auto].
  apply Forall_forall. intros y Hy. apply elem_of_del in Hy as [_ Hy]; [|done].
  rewrite Forall_forall in Hz. auto.
Qed.

Lemma del_id (x : Z) (l : list Z) : x ∉ l -> del x l = l.
Proof.
  induction l as [|z l IH]; simpl; [done|].
  intros Hx. apply not_elem_of_cons in Hx as [Hne Hx].
  replace (x =? z) with false by lia. by rewrite IH.
Qed.

Lemma length_del (x : Z) (l : list Z) :
  x ∈ l -> S (length (del x l)) = length l.
Proof.
  induction l as [|z l IH]; simpl; [by inversion 1|].
  intros Hx. destruct (x =? z) eqn:E; [done|]. simpl.
  apply elem_of_cons in Hx as [->|Hx]; [lia|]. by rewrite IH.
Qed.

Lemma del_mid_lt (xs ys : list Z) (k x : Z) :
  sorted (xs ++ k :: ys) -> x < k ->
  del x (xs ++ k :: ys) = del x xs ++ k :: ys.
Proof.
  induction xs as [|z xs IH]; simpl; intros Hs Hx.
  - replace (x =? k) with false by lia. rewrite del_id; [done|].
    destruct Hs as [Hk _]. rewrite Forall_forall in Hk. intros Hin.
    specialize (Hk _ Hin). lia.
  - destruct Hs as [_ Hs]. destruct (x =? z); [done|]. by rewrite IH.
Qed.

Lemma del_mid_gt (xs ys : list Z) (k x : Z) :
  sorted (xs ++ k :: ys) -> k < x ->
  del x (xs ++ k :: ys) = xs ++ k :: del x ys.
Proof.
  induction xs as [|z xs IH]; simpl; intros Hs Hx.
  - by replace (x =? k) with false by lia.
  - destruct Hs as [Hz Hs].
    assert (z < k) by (rewrite Forall_app, Forall_cons in Hz; tauto).
    replace (x =? z) with false by lia. by rewrite IH.
Qed.

Lemma del_mid_eq (xs ys : list Z) (k : Z) :
  sorted (xs ++ k :: ys) -> del k (xs ++ k :: ys) = xs ++ ys.
Proof.
  induction xs as [|z xs IH]; simpl; intros Hs.
  - by rewrite Z.eqb_refl.
  - destruct Hs as [Hz Hs].
    assert (z < k) by (rewrite Forall_app, Forall_cons in Hz; tauto).
    replace (k =? z) with false by lia. by rewrite IH.
Qed.

Lemma frame_refl s : frame s s.
Proof. by repeat split. Qed.

Lemma frame_trans s1 s2 s3 : frame s1 s2 -> frame s2 s3 -> frame s1 s3.
Proof. unfold frame. intuition congruence. Qed.

Lemma inorder_cells p : inorder p = (cells p).*2.
Proof.
  induction p as [|i k b l IHl rt IHr]; simpl; [done|].
  by rewrite fmap_app, fmap_cons, IHl, IHr.
Qed.

Lemma addrs_cells p : addrs p = (cells p).*1.
Proof.
  induction p as [|i k b l IHl rt IHr]; simpl; [done|].
  by rewrite fmap_app, fmap_cons, IHl, IHr.
Qed.

Ltac mrun := unfold bind, ret, modify, get, fail; simpl.

Lemma height_nonneg p : 0 <= height p.
Proof. induction p; simpl; lia. Qed.

Ltac hnn :=
  repeat match goal with
  | |- context [height ?p] =>
      lazymatch goal with
      | _ : 0 <= height p |- _ => fail
      | _ => pose proof (height_nonneg p)
      end
  | _ : context [height ?p] |- _ =>
      lazymatch goal with
      | _ : 0 <= height p |- _ => fail
      | _ => pose proof (height_nonneg p)
      end
  end.

Ltac by_assoc := simpl; rewrite <- ?app_assoc; simpl; rewrite <- ?app_assoc; done.
Ltac shl := left; split; [done | simpl in *; lia].
Ltac shr := right; split; [done | simpl in *; lia].
Ltac finish := repeat split; try lia; try done; try by_assoc; try shl; try shr.
Ltac three b := assert (b = -1 \/ b = 0 \/ b = 1) as [ -> | [ -> | -> ] ] by lia.

Lemma balanceInsertLeft_spec ip k b l l' rt s :
  avl l' -> avl rt -> b = height rt - height l -> -1 <= b <= 1 ->
  height l' = height l + 1 -> (b = -1 -> bal_of l' <> 0) ->
  exists p' s',
    balanceInsertLeft (node ip k b l' rt) s = Some (p', s') /\
    avl p' /\
    cells p' = cells l' ++ (ip, k) :: cells rt /\
    h s' = (if b =? 0 then h s else false) /\
    height p' = height (node ip k b l rt) + (if b =? 0 then 1 else 0) /\
    (b = 0 -> bal_of p' <> 0) /\
    frame s s'.
Proof.
  intros Hl' Hrt Hb Hr Hh Hne. three b.
  - specialize (Hne eq_refl).
    destruct l' as [|i1 k1 b1 l1 r1]; [simpl in *; hnn; lia|].
    simpl in Hl', Hne, Hh. destruct Hl' as (Hb1 & Hr1 & Hl1 & Hr1').
    assert (b1 = -1 \/ b1 = 1) as [ -> | -> ] by lia.
    + mrun. eexists _, _. split; [reflexivity|]. simpl. finish.
    + destruct r1 as [|i2 k2 b2 l2 r2]; [simpl in *; hnn; lia|].
      simpl in Hr1', Hb1, Hh. destruct Hr1' as (Hb2 & Hr2 & Hl2 & Hr2').
      mrun. eexists _, _. split; [reflexivity|]. simpl.
      three b2; simpl; finish.
  - mrun. eexists _, _. split; [reflexivity|]. simpl. finish.
  - mrun. eexists _, _. split; [reflexivity|]. simpl. finish.
Qed.

Lemma balanceInsertRight_spec ip k b l rt r' s :
  avl l -> avl r' -> b = height rt - height l -> -1 <= b <= 1 ->
  height r' = height rt + 1 -> (b = 1 -> bal_of r' <> 0) ->
  exists p' s',
    balanceInsertRight (node ip k b l r') s = Some (p', s') /\
    avl p' /\
    cells p' = cells l ++ (ip, k) :: cells r' /\
    h s' = (if b =? 0 then h s else false) /\
    height p' = height (node ip k b l rt) + (if b =? 0 then 1 else 0) /\
    (b = 0 -> bal_of p' <> 0) /\
    frame s s'.
Proof.
  intros Hl Hr' Hb Hr Hh Hne. three b.
  - mrun. eexists _, _. split; [reflexivity|]. simpl. finish.
  - mrun. eexists _, _. split; [reflexivity|]. simpl. finish.
  - specialize (Hne eq_refl).
    destruct r' as [|i1 k1 b1 l1 r1]; [simpl in *; hnn; lia|].
    simpl in Hr', Hne, Hh. destruct Hr' as (Hb1 & Hr1 & Hl1 & Hr1').
    assert (b1 = -1 \/ b1 = 1) as [ -> | -> ] by lia.
    + destruct l1 as [|i2 k2 b2 l2 r2]; [simpl in *; hnn; lia|].
      simpl in Hl1, Hb1, Hh. destruct Hl1 as (Hb2 & Hr2 & Hl2 & Hr2').
      mrun. eexists _, _. split; [reflexivity|]. simpl.
      three b2; simpl; finish.
    + mrun. eexists _, _. split; [reflexivity|]. simpl. finish.
Qed.

Lemma balanceEraseLeft_spec ip k b l l' rt s :
  avl l' -> avl rt -> b = height rt - height l -> -1 <= b <= 1 ->
  height l' = height l - 1 ->
  exists p' s',
    balanceEraseLeft (node ip k b l' rt) s = Some (p', s') /\
    avl p' /\
    cells p' = cells l' ++ (ip, k) :: cells rt /\
    shrunk s s' (height (node ip k b l rt)) (height p') /\
    frame s s'.
Proof.
  intros Hl' Hrt Hb Hr Hh. unfold shrunk. three b.
  - mrun. eexists _, _. split; [reflexivity|]. simpl. hnn. finish.
  - mrun. eexists _, _. split; [reflexivity|]. simpl. hnn. finish.
  - destruct rt as [|i1 k1 b1 l1 r1]; [simpl in *; hnn; lia|].
    simpl in Hrt, Hb. destruct Hrt as (Hb1 & Hr1 & Hl1 & Hr1').
    three b1.
    + destruct l1 as [|i2 k2 b2 l2 r2]; [simpl in *; hnn; lia|].
      simpl in Hl1, Hb1, Hb. destruct Hl1 as (Hb2 & Hr2 & Hl2 & Hr2').
      mrun. eexists _, _. split; [reflexivity|]. simpl.
      three b2; simpl; finish.
    + mrun. eexists _, _. split; [reflexivity|]. simpl. finish.
    + mrun. eexists _, _. split; [reflexivity|]. simpl. finish.
Qed.

Lemma balanceEraseRight_spec ip k b l rt r' s :
  avl l -> avl r' -> b = height rt - height l -> -1 <= b <= 1 ->
  height r' = height rt - 1 ->
  exists p' s',
    balanceEraseRight (node ip k b l r') s = Some (p', s') /\
    avl p' /\
    cells p' = cells l ++ (ip, k) :: cells r' /\
    shrunk s s' (height (node ip k b l rt)) (height p') /\
    frame s s'.
Proof.
  intros Hl Hr' Hb Hr Hh. unfold shrunk. three b.
  - destruct l as [|i1 k1 b1 l1 r1]; [simpl in *; hnn; lia|].
    simpl in Hl, Hb. destruct Hl as (Hb1 & Hr1 & Hl1 & Hr1').
    three b1.
    + mrun. eexists _, _. split; [reflexivity|]. simpl. finish.
    + mrun. eexists _, _. split; [reflexivity|]. simpl. finish.
    + destruct r1 as [|i2 k2 b2 l2 r2]; [simpl in *; hnn; lia|].
      simpl in Hr1', Hb1, Hb. destruct Hr1' as (Hb2 & Hr2 & Hl2 & Hr2').
      mrun. eexists _, _. split; [reflexivity|]. simpl.
      three b2; simpl; finish.
  - mrun. eexists _, _. split; [reflexivity|]. simpl. hnn. finish.
  - mrun. eexists _, _. split; [reflexivity|]. simpl. hnn. finish.
Qed.

Lemma newNode_spec x s :
  exists i s', newNode x s = Some (node i x 0 nullptr nullptr, s') /\
    h s' = true /\ root s' = root s /\ count s' = count s /\
    a s' = a s /\ r s' = r s /\ alloc s s' i.
Proof.
  unfold newNode, alloc. mrun. destruct (freed s) as [|i k b nx rt] eqn:E; simpl.
  - eexists _, _. split; [reflexivity|]. simpl. repeat split; auto.
  - eexists _, _. split; [reflexivity|]. simpl. repeat split; eauto 10.
Qed.

Lemma insert_at_eq ip k b l rt x :
  insert_at (node ip k b l rt) x =
  (if x <? k then
     l' <- match l with
           | nullptr => n <- newNode x ;; modify (set_a true) ;;; ret n
           | node _ _ _ _ _ => insert_at l x
           end ;;
     t <- get ;;
     if h t then balanceInsertLeft (node ip k b l' rt)
     else ret (node ip k b l' rt)
   else if x >? k then
     r' <- match rt with
           | nullptr => n <- newNode x ;; modify (set_a true) ;;; ret n
           | node _ _ _ _ _ => insert_at rt x
           end ;;
     t <- get ;;
     if h t then balanceInsertRight (node ip k b l r')
     else ret (node ip k b l r')
   else
     modify (set_h false) ;;; modify (set_a false) ;;; ret (node ip k b l rt))%monad.
Proof. reflexivity. Qed.

Lemma insert_slot_null x s :
  exists p' s',
    (n <- newNode x ;; modify (set_a true) ;;; ret n)%monad s = Some (p', s') /\
    ins_post nullptr x s p' s'.
Proof.
  destruct (newNode_spec x s) as (i & s1 & E & Hh & Hroot & Hc & Ha & Hr & Hal).
  unfold bind at 1. rewrite E. mrun. eexists _, _. split; [reflexivity|].
  unfold ins_post. simpl. rewrite Hh. split_and!; try done.
  - intros Hin. by inversion Hin.
  - intros _. split; [done|]. exists i, [], []. split_and!; done.
Qed.

Lemma sorted_node_inv ip k b l rt :
  sorted (inorder (node ip k b l rt)) ->
  sorted (inorder l) /\ sorted (inorder rt) /\
  Forall (fun y => y < k) (inorder l) /\ Forall (fun y => k < y) (inorder rt).
Proof. simpl. by rewrite sorted_mid. Qed.

Lemma alloc_frame s s1 s' i :
  alloc s s1 i -> freed s' = freed s1 -> brk s' = brk s1 -> alloc s s' i.
Proof.
  intros [(?&?&?&?)|(k0&b0&nx&rt0&?&?&?)] Hf Hb; [left|right].
  - split_and!; congruence.
  - exists k0, b0, nx, rt0. split_and!; congruence.
Qed.

Lemma insert_at_spec p x s :
  p <> nullptr -> avl p -> sorted (inorder p) ->
  exists p' s', insert_at p x s = Some (p', s') /\ ins_post p x s p' s'.
Proof.
  revert s. induction p as [|ip k b l IHl rt IHr]; intros s Hnn Havl Hs; [done|].
  clear Hnn. pose proof Hs as Hs0.
  apply sorted_node_inv in Hs as (Hsl & Hsr & Hlk & Hkr).
  simpl in Havl. destruct Havl as (Hb & Hbr & Hal & Har).
  rewrite insert_at_eq.
  destruct (x <? k) eqn:E1; [|destruct (x >? k) eqn:E2].
  - (* left *)
    assert (exists l' s1,
      (match l with
       | nullptr => n <- newNode x ;; modify (set_a true) ;;; ret n
       | node _ _ _ _ _ => insert_at l x
       end)%monad s = Some (l', s1) /\ ins_post l x s l' s1) as (l' & s1 & El & Hpost).
    { destruct l as [|i1 k1 b1 l1 r1]; [apply insert_slot_null|].
      apply IHl; done. }
    unfold bind at 1. rewrite El. unfold bind at 1, get at 1.
    destruct Hpost as (Hal' & Hin' & Hh' & Hne' & Hroot & Hc & Hr & Hdup & Hnew).
    assert (Hxin : x ∈ inorder (node ip k b l rt) <-> x ∈ inorder l).
    { simpl. rewrite elem_of_app, elem_of_cons. split; [|tauto].
      intros [?|[?|Hx]]; [done|lia|]. rewrite Forall_forall in Hkr.
      specialize (Hkr _ Hx). lia. }
    assert (Hins : ins x (inorder (node ip k b l rt)) = ins x (inorder l) ++ k :: inorder rt).
    { simpl. apply ins_mid_lt; [done|lia]. }
    destruct (h s1) eqn:Eh.
    + assert (Hx : x ∉ inorder l).
      { intros Hx. apply Hdup in Hx. destruct Hx as (_ & ? & _). congruence. }
      destruct (balanceInsertLeft_spec ip k b l l' rt s1) as
        (p' & s' & Eb & Hp' & Hcells & Hhs & Hhp & Hbp & Hfr); try done; try lia.
      { intros ->. apply Hne'; [done|]. intros ->. simpl in *. hnn. lia. }
      rewrite Eb. eexists _, _. split; [reflexivity|].
      destruct Hfr as (F1 & F2 & F3 & F4 & F5 & F6).
      destruct (Hnew Hx) as (Ha1 & i & A & B & Hall & HA & HB).
      unfold ins_post. split_and!.
      * done.
      * rewrite Hins, <- Hin', !inorder_cells, Hcells.
        by rewrite fmap_app, fmap_cons.
      * rewrite Hhp, Hhs, Eh. destruct (b =? 0); lia.
      * rewrite Hhs, Eh. destruct (b =? 0) eqn:Eb0; [|done]. intros _ _.
        apply Hbp. lia.
      * congruence.
      * congruence.
      * congruence.
      * intros Hx'. apply Hxin in Hx'. done.
      * intros _. split; [congruence|].
        exists i, A, (B ++ (ip, k) :: cells rt). split_and!.
        -- by eapply alloc_frame.
        -- simpl. rewrite HA. by rewrite <- app_assoc.
        -- rewrite Hcells, HB. by rewrite <- app_assoc.
    + mrun. eexists _, _. split; [reflexivity|].
      unfold ins_post. rewrite Eh. split_and!.
      * simpl. split_and!; try done; lia.
      * rewrite Hins. simpl. by rewrite Hin'.
      * simpl. lia.
      * done.
      * done.
      * done.
      * done.
      * intros Hx. apply Hxin in Hx. destruct (Hdup Hx) as (-> & ? & ? & ? & ?).
        done.
      * intros Hx. rewrite Hxin in Hx. destruct (Hnew Hx) as (? & i & A & B & Hall & HA & HB).
        split; [done|].
        exists i, A, (B ++ (ip, k) :: cells rt). split_and!; [done|..].
        -- simpl. rewrite HA. by rewrite <- app_assoc.
        -- simpl. rewrite HB. by rewrite <- app_assoc.
  - (* right *)
    assert (exists r' s1,
      (match rt with
       | nullptr => n <- newNode x ;; modify (set_a true) ;;; ret n
       | node _ _ _ _ _ => insert_at rt x
       end)%monad s = Some (r', s1) /\ ins_post rt x s r' s1) as (r' & s1 & El & Hpost).
    { destruct rt as [|i1 k1 b1 l1 r1]; [apply insert_slot_null|].
      apply IHr; done. }
    unfold bind at 1. rewrite El. unfold bind at 1, get at 1.
    destruct Hpost as (Hal' & Hin' & Hh' & Hne' & Hroot & Hc & Hr & Hdup & Hnew).
    assert (Hxin : x ∈ inorder (node ip k b l rt) <-> x ∈ inorder rt).
    { simpl. rewrite elem_of_app, elem_of_cons. split; [|tauto].
      intros [Hx|[?|?]]; [|lia|done]. rewrite Forall_forall in Hlk.
      specialize (Hlk _ Hx). lia. }
    assert (Hins : ins x (inorder (node ip k b l rt)) = inorder l ++ k :: ins x (inorder rt)).
    { simpl. apply ins_mid_gt; [done|lia]. }
    destruct (h s1) eqn:Eh.
    + assert (Hx : x ∉ inorder rt).
      { intros Hx. apply Hdup in Hx. destruct Hx as (_ & ? & _). congruence. }
      destruct (balanceInsertRight_spec ip k b l rt r' s1) as
        (p' & s' & Eb & Hp' & Hcells & Hhs & Hhp & Hbp & Hfr); try done; try lia.
      { intros ->. apply Hne'; [done|]. intros ->. simpl in *. hnn. lia. }
      rewrite Eb. eexists _, _. split; [reflexivity|].
      destruct Hfr as (F1 & F2 & F3 & F4 & F5 & F6).
      destruct (Hnew Hx) as (Ha1 & i & A & B & Hall & HA & HB).
      unfold ins_post. split_and!.
      * done.
      * rewrite Hins, <- Hin', !inorder_cells, Hcells.
        by rewrite fmap_app, fmap_cons.
      * rewrite Hhp, Hhs, Eh. destruct (b =? 0); lia.
      * rewrite Hhs, Eh. destruct (b =? 0) eqn:Eb0; [|done]. intros _ _.
        apply Hbp. lia.
      * congruence.
      * congruence.
      * congruence.
      * intros Hx'. apply Hxin in Hx'. done.
      * intros _. split; [congruence|].
        exists i, (cells l ++ (ip, k) :: A), B. split_and!.
        -- by eapply alloc_frame.
        -- simpl. rewrite HA. by rewrite <- app_assoc.
        -- rewrite Hcells, HB. by rewrite <- app_assoc.
    + mrun. eexists _, _. split; [reflexivity|].
      unfold ins_post. rewrite Eh. split_and!.
      * simpl. split_and!; try done; lia.
      * rewrite Hins. simpl. by rewrite Hin'.
      * simpl. lia.
      * done.
      * done.
      * done.
      * done.
      * intros Hx. apply Hxin in Hx. destruct (Hdup Hx) as (-> & ? & ? & ? & ?).
        done.
      * intros Hx. rewrite Hxin in Hx. destruct (Hnew Hx) as (? & i & A & B & Hall & HA & HB).
        split; [done|].
        exists i, (cells l ++ (ip, k) :: A), B. split_and!; [done|..].
        -- simpl. rewrite HA. by rewrite <- app_assoc.
        -- simpl. rewrite HB. by rewrite <- app_assoc.
  - (* duplicate *)
    assert (x = k) as -> by lia.
    mrun. eexists _, _. split; [reflexivity|].
    assert (Hin : k ∈ inorder (node ip k b l rt)) by (simpl; set_solver).
    unfold ins_post. simpl. split_and!; try done; try lia.
    symmetry. by apply ins_mid_eq.
Qed.

Lemma shrunk_erase_h s s' hold hnew :
  h s = true -> shrunk s s' hold hnew -> erase_h s' hold hnew.
Proof. unfold shrunk, erase_h. intros E [[? ?]|[? ?]]; [left|right]; split; congruence. Qed.

Lemma eraseLeft_eq ip k b l rt :
  eraseLeft (node ip k b l rt) =
  (match l with
   | node _ _ _ _ _ =>
       res <- eraseLeft l ;;
       let '(l', q) := res in
       t <- get ;;
       p' <- (if h t then balanceEraseLeft (node ip k b l' rt)
              else ret (node ip k b l' rt)) ;;
       ret (p', q)
   | nullptr => modify (set_h true) ;;; ret (rt, node ip k b l rt)
   end)%monad.
Proof. destruct l; reflexivity. Qed.

Lemma eraseRight_eq ip k b l rt :
  eraseRight (node ip k b l rt) =
  (match rt with
   | node _ _ _ _ _ =>
       res <- eraseRight rt ;;
       let '(r', q) := res in
       t <- get ;;
       p' <- (if h t then balanceEraseRight (node ip k b l r')
              else ret (node ip k b l r')) ;;
       ret (p', q)
   | nullptr => modify (set_h true) ;;; ret (l, node ip k b l rt)
   end)%monad.
Proof. destruct rt; reflexivity. Qed.

Lemma leftmost_eq ip k b l rt :
  leftmost (node ip k b l rt) =
  match l with nullptr => node ip k b l rt | node _ _ _ _ _ => leftmost l end.
Proof. reflexivity. Qed.

Lemma rightmost_eq ip k b l rt :
  rightmost (node ip k b l rt) =
  match rt with nullptr => node ip k b l rt | node _ _ _ _ _ => rightmost rt end.
Proof. reflexivity. Qed.

Lemma eraseLeft_spec p s :
  p <> nullptr -> avl p ->
  exists p' qa qk qb qr s',
    eraseLeft p s = Some ((p', node qa qk qb nullptr qr), s') /\
    avl p' /\ leftmost p = node qa qk qb nullptr qr /\
    cells p = (qa, qk) :: cells p' /\
    erase_h s' (height p) (height p') /\
    frame s s'.
Proof.
  revert s. induction p as [|ip k b l IHl rt IHr]; intros s Hnn Havl; [done|].
  clear Hnn IHr. simpl in Havl. destruct Havl as (Hb & Hbr & Hal & Har).
  rewrite eraseLeft_eq, leftmost_eq.
  destruct l as [|i1 k1 b1 l1 r1].
  - mrun. eexists _, _, _, _, _, _. split; [reflexivity|]. simpl.
    split_and!; try done. left. simpl. hnn. split; [done|lia].
  - destruct (IHl s) as (l' & qa & qk & qb & qr & s1 & E & Hl' & Hlm & Hc & Hh & Hf);
      [done|done|].
    unfold bind at 1. rewrite E. unfold bind at 1, get at 1.
    destruct (h s1) eqn:Eh.
    + destruct Hh as [[_ Hh]|[? _]]; [|congruence].
      destruct (balanceEraseLeft_spec ip k b (node i1 k1 b1 l1 r1) l' rt s1)
        as (p' & s' & Eb & Hp' & Hcells & Hsh & Hfr); try done.
      unfold bind at 1. rewrite Eb. mrun.
      eexists _, _, _, _, _, _. split; [reflexivity|]. split_and!; try done.
      * rewrite Hcells. simpl in Hc |- *. by rewrite Hc.
      * by eapply shrunk_erase_h.
      * by eapply frame_trans.
    + destruct Hh as [[? _]|[_ Hh]]; [congruence|].
      mrun. eexists _, _, _, _, _, _. split; [reflexivity|]. split_and!; try done.
      * simpl. split_and!; try done; simpl in *; lia.
      * simpl in Hc |- *. by rewrite Hc.
      * right. split; [done|]. simpl in *. lia.
Qed.

Lemma eraseRight_spec p s :
  p <> nullptr -> avl p ->
  exists p' qa qk qb ql s',
    eraseRight p s = Some ((p', node qa qk qb ql nullptr), s') /\
    avl p' /\ rightmost p = node qa qk qb ql nullptr /\
    cells p = cells p' ++ [(qa, qk)] /\
    erase_h s' (height p) (height p') /\
    frame s s'.
Proof.
  revert s. induction p as [|ip k b l IHl rt IHr]; intros s Hnn Havl; [done|].
  clear Hnn IHl. simpl in Havl. destruct Havl as (Hb & Hbr & Hal & Har).
  rewrite eraseRight_eq, rightmost_eq.
  destruct rt as [|i1 k1 b1 l1 r1].
  - mrun. eexists _, _, _, _, _, _. split; [reflexivity|]. simpl.
    split_and!; try done. left. simpl. hnn. split; [done|lia].
  - destruct (IHr s) as (r' & qa & qk & qb & ql & s1 & E & Hr' & Hrm & Hc & Hh & Hf);
      [done|done|].
    unfold bind at 1. rewrite E. unfold bind at 1, get at 1.
    destruct (h s1) eqn:Eh.
    + destruct Hh as [[_ Hh]|[? _]]; [|congruence].
      destruct (balanceEraseRight_spec ip k b l (node i1 k1 b1 l1 r1) r' s1)
        as (p' & s' & Eb & Hp' & Hcells & Hsh & Hfr); try done.
      unfold bind at 1. rewrite Eb. mrun.
      eexists _, _, _, _, _, _. split; [reflexivity|]. split_and!; try done.
      * rewrite Hcells. simpl in Hc |- *. rewrite Hc. by rewrite <- app_assoc.
      * by eapply shrunk_erase_h.
      * by eapply frame_trans.
    + destruct Hh as [[? _]|[_ Hh]]; [congruence|].
      mrun. eexists _, _, _, _, _, _. split; [reflexivity|]. split_and!; try done.
      * simpl. split_and!; try done; simpl in *; lia.
      * simpl in Hc |- *. rewrite Hc. by rewrite <- app_assoc.
      * right. split; [done|]. simpl in *. lia.
Qed.

Lemma erased_left x c c' qa R : erased x c c' qa -> erased x (c ++ R) (c' ++ R) qa.
Proof.
  intros (A & B & [[-> ->]|[(i & kq & -> & ->)|(i & kq & -> & ->)]]);
    exists A, (B ++ R); [left|right; left; exists i, kq|right; right; exists i, kq];
    by rewrite <- !app_assoc.
Qed.

Lemma erased_right x c c' qa L : erased x c c' qa -> erased x (L ++ c) (L ++ c') qa.
Proof.
  intros (A & B & [[-> ->]|[(i & kq & -> & ->)|(i & kq & -> & ->)]]);
    exists (L ++ A), B; [left|right; left; exists i, kq|right; right; exists i, kq];
    by rewrite <- !app_assoc.
Qed.

Lemma erase_at_eq cfg ip k b l rt x :
  erase_at cfg (node ip k b l rt) x =
  (if x <? k then
     match l with
     | node _ _ _ _ _ =>
         l' <- erase_at cfg l x ;;
         t <- get ;;
         if h t then balanceEraseLeft (node ip k b l' rt)
         else ret (node ip k b l' rt)
     | nullptr =>
         modify (set_h false) ;;; modify (set_r false) ;;; ret (node ip k b l rt)
     end
   else if x >? k then
     match rt with
     | node _ _ _ _ _ =>
         r' <- erase_at cfg rt x ;;
         t <- get ;;
         if h t then balanceEraseRight (node ip k b l r')
         else ret (node ip k b l r')
     | nullptr =>
         modify (set_h false) ;;; modify (set_r false) ;;; ret (node ip k b l rt)
     end
   else
     res <-
       match rt with
       | nullptr => modify (set_h true) ;;; ret (l, node ip k b l rt)
       | node _ _ _ _ _ =>
           match l with
           | nullptr => modify (set_h true) ;;; ret (rt, node ip k b l rt)
           | node _ _ _ _ _ =>
               if prefer_left cfg b then
                 res <- eraseRight l ;;
                 let '(l', q) := res in
                 kq <- key_of q ;;
                 t <- get ;;
                 p' <- (if h t then balanceEraseLeft (node ip kq b l' rt)
                        else ret (node ip kq b l' rt)) ;;
                 ret (p', q)
               else
                 res <- eraseLeft rt ;;
                 let '(r', q) := res in
                 kq <- key_of q ;;
                 t <- get ;;
                 p' <- (if h t then balanceEraseRight (node ip kq b l r')
                        else ret (node ip kq b l r')) ;;
                 ret (p', q)
           end
       end ;;
     let '(p', q) := res in
     deleteNode q ;;;
     modify (set_r true) ;;;
     ret p')%monad.
Proof. destruct l, rt; reflexivity. Qed.

Lemma find_node_eq ip k b l rt x :
  find (node ip k b l rt) x =
  if x <? k then find l x else if x >? k then find rt x else node ip k b l rt.
Proof. reflexivity. Qed.

Lemma elem_of_inorder_left ip k b l rt x :
  sorted (inorder (node ip k b l rt)) -> x < k ->
  x ∈ inorder (node ip k b l rt) <-> x ∈ inorder l.
Proof.
  intros Hs Hx. apply sorted_node_inv in Hs as (_ & _ & _ & Hkr).
  simpl. rewrite elem_of_app, elem_of_cons. split; [|tauto].
  intros [?|[?|Hin]]; [done|lia|]. rewrite Forall_forall in Hkr.
  specialize (Hkr _ Hin). lia.
Qed.

Lemma elem_of_inorder_right ip k b l rt x :
  sorted (inorder (node ip k b l rt)) -> k < x ->
  x ∈ inorder (node ip k b l rt) <-> x ∈ inorder rt.
Proof.
  intros Hs Hx. apply sorted_node_inv in Hs as (_ & _ & Hlk & _).
  simpl. rewrite elem_of_app, elem_of_cons. split; [|tauto].
  intros [Hin|[?|?]]; [|lia|done]. rewrite Forall_forall in Hlk.
  specialize (Hlk _ Hin). lia.
Qed.

Lemma avl_node i k b l rt :
  b = height rt - height l -> -1 <= b <= 1 -> avl l -> avl rt ->
  avl (node i k b l rt).
Proof. simpl. tauto. Qed.

Lemma erase_at_spec cfg p x s :
  p <> nullptr -> avl p -> sorted (inorder p) ->
  exists p' s', erase_at cfg p x s = Some (p', s') /\ era_post cfg p x s p' s'.
Proof.
  revert s. induction p as [|ip k b l IHl rt IHr]; intros s Hnn Havl Hs; [done|].
  clear Hnn. pose proof Hs as Hs0.
  apply sorted_node_inv in Hs as (Hsl & Hsr & Hlk & Hkr).
  pose proof Havl as Havl0.
  simpl in Havl. destruct Havl as (Hb & Hbr & Hal & Har).
  rewrite erase_at_eq. unfold era_post, victim. rewrite find_node_eq.
  destruct (x <? k) eqn:E1; [|destruct (x >? k) eqn:E2].
  - (* left *)
    pose proof (elem_of_inorder_left ip k b l rt x Hs0 ltac:(lia)) as Hxin.
    destruct l as [|i1 k1 b1 l1 r1].
    + mrun. eexists _, _. split; [reflexivity|]. simpl.
      split_and!; try done; try lia.
      * right. split; [done|lia].
      * intros Hin. apply Hxin in Hin. by inversion Hin.
    + destruct (IHl s) as (l' & s1 & E & Hl' & Hh & Hroot & Hc & Ha & Hbk & Hno & Hyes);
        [done|done|done|].
      unfold bind at 1. rewrite E. unfold bind at 1, get at 1.
      destruct (h s1) eqn:Eh.
      * destruct Hh as [[_ Hh]|[? _]]; [|congruence].
        destruct (balanceEraseLeft_spec ip k b (node i1 k1 b1 l1 r1) l' rt s1)
          as (p' & s' & Eb & Hp' & Hcells & Hsh & Hfr); try done.
        rewrite Eb. eexists _, _. split; [reflexivity|].
        destruct Hfr as (F1 & F2 & F3 & F4 & F5 & F6).
        split_and!; try congruence.
        -- by eapply shrunk_erase_h.
        -- intros Hx. rewrite <- Hxin in Hno. destruct (Hno Hx) as (_ & ? & _). congruence.
        -- intros Hx. apply Hxin in Hx. destruct (Hyes Hx) as (Hr1 & qa & qk & qb & ql & qr & Hv & Hfd & Her).
           split; [congruence|]. exists qa, qk, qb, ql, qr. split_and!.
           ++ exact Hv.
           ++ congruence.
           ++ rewrite Hcells.
              change (cells (node ip k b (node i1 k1 b1 l1 r1) rt))
                with (cells (node i1 k1 b1 l1 r1) ++ (ip, k) :: cells rt).
              by apply erased_left.
      * destruct Hh as [[? _]|[_ Hh]]; [congruence|].
        mrun. eexists _, _. split; [reflexivity|].
        split_and!; try done.
        -- simpl. split_and!; try done; simpl in *; lia.
        -- right. split; [done|]. simpl in *. lia.
        -- intros Hx. rewrite <- Hxin in Hno. destruct (Hno Hx) as (-> & ? & ? & ?). done.
        -- intros Hx. apply Hxin in Hx. destruct (Hyes Hx) as (Hr1 & qa & qk & qb & ql & qr & Hv & Hfd & Her).
           split; [congruence|]. exists qa, qk, qb, ql, qr. split_and!.
           ++ exact Hv.
           ++ congruence.
           ++ change (cells (node ip k b (node i1 k1 b1 l1 r1) rt))
                with (cells (node i1 k1 b1 l1 r1) ++ (ip, k) :: cells rt).
              change (cells (node ip k b l' rt)) with (cells l' ++ (ip, k) :: cells rt).
              by apply erased_left.
  - (* right *)
    pose proof (elem_of_inorder_right ip k b l rt x Hs0 ltac:(lia)) as Hxin.
    destruct rt as [|i1 k1 b1 l1 r1].
    + mrun. eexists _, _. split; [reflexivity|]. simpl.
      split_and!; try done; try lia.
      * right. split; [done|lia].
      * intros Hin. apply Hxin in Hin. by inversion Hin.
    + destruct (IHr s) as (r' & s1 & E & Hr' & Hh & Hroot & Hc & Ha & Hbk & Hno & Hyes);
        [done|done|done|].
      unfold bind at 1. rewrite E. unfold bind at 1, get at 1.
      destruct (h s1) eqn:Eh.
      * destruct Hh as [[_ Hh]|[? _]]; [|congruence].
        destruct (balanceEraseRight_spec ip k b l (node i1 k1 b1 l1 r1) r' s1)
          as (p' & s' & Eb & Hp' & Hcells & Hsh & Hfr); try done.
        rewrite Eb. eexists _, _. split; [reflexivity|].
        destruct Hfr as (F1 & F2 & F3 & F4 & F5 & F6).
        split_and!; try congruence.
        -- by eapply shrunk_erase_h.
        -- intros Hx. rewrite <- Hxin in Hno. destruct (Hno Hx) as (_ & ? & _). congruence.
        -- intros Hx. apply Hxin in Hx. destruct (Hyes Hx) as (Hr1 & qa & qk & qb & ql & qr & Hv & Hfd & Her).
           split; [congruence|]. exists qa, qk, qb, ql, qr. split_and!.
           ++ exact Hv.
           ++ congruence.
           ++ rewrite Hcells.
              change (cells (node ip k b l (node i1 k1 b1 l1 r1)))
                with (cells l ++ (ip, k) :: cells (node i1 k1 b1 l1 r1)).
              apply erased_right.
              by apply (erased_right x _ _ qa [(ip, k)]).
      * destruct Hh as [[? _]|[_ Hh]]; [congruence|].
        mrun. eexists _, _. split; [reflexivity|].
        split_and!; try done.
        -- simpl. split_and!; try done; simpl in *; lia.
        -- right. split; [done|]. simpl in *. lia.
        -- intros Hx. rewrite <- Hxin in Hno. destruct (Hno Hx) as (-> & ? & ? & ?). done.
        -- intros Hx. apply Hxin in Hx. destruct (Hyes Hx) as (Hr1 & qa & qk & qb & ql & qr & Hv & Hfd & Her).
           split; [congruence|]. exists qa, qk, qb, ql, qr. split_and!.
           ++ exact Hv.
           ++ congruence.
           ++ change (cells (node ip k b l (node i1 k1 b1 l1 r1)))
                with (cells l ++ (ip, k) :: cells (node i1 k1 b1 l1 r1)).
              change (cells (node ip k b l r')) with (cells l ++ (ip, k) :: cells r').
              apply erased_right.
              by apply (erased_right x _ _ qa [(ip, k)]).
  - (* found *)
    clear IHl IHr.
    assert (x = k) as -> by lia.
    assert (Hin : k ∈ inorder (node ip k b l rt)) by (simpl; set_solver).
    destruct rt as [|i1 k1 b1 l1 r1]; [|destruct l as [|i0 k0 b0 l0 r0]].
    + (* no right child *)
      mrun. eexists _, _. split; [reflexivity|]. simpl.
      split_and!; try done; try lia.
      * left. split; [done|]. simpl in *. hnn. lia.
      * intros _. split; [done|]. exists ip, k, b, l, nullptr. split_and!; try done.
        exists (cells l), []. left. by rewrite app_nil_r.
    + (* no left child *)
      mrun. eexists _, _. split; [reflexivity|].
      split_and!; try done; try lia.
      * left. split; [done|]. simpl in *. hnn. lia.
      * intros _. split; [done|]. exists ip, k, b, nullptr, (node i1 k1 b1 l1 r1).
        split_and!; try done.
        exists [], (cells l1 ++ (i1, k1) :: cells r1). by left.
    + (* two children *)
      destruct (prefer_left cfg b) eqn:Epl.
      * destruct (eraseRight_spec (node i0 k0 b0 l0 r0) s)
          as (l' & qa & qk & qb & ql & s1 & E & Hl' & Hrm & Hc & Hh & Hf); [done|done|].
        unfold bind at 1. unfold bind at 1. rewrite E.
        unfold key_of. unfold bind at 1, ret at 1. unfold bind at 1, get at 1.
        destruct Hf as (F1 & F2 & F3 & F4 & F5 & F6).
        destruct (h s1) eqn:Eh.
        -- destruct Hh as [[_ Hh]|[? _]]; [|congruence].
           destruct (balanceEraseLeft_spec ip qk b (node i0 k0 b0 l0 r0) l'
                       (node i1 k1 b1 l1 r1) s1)
             as (p' & s' & Eb & Hp' & Hcells & Hsh & Hfr); try done.
           unfold bind at 1. rewrite Eb. mrun.
           destruct Hfr as (G1 & G2 & G3 & G4 & G5 & G6).
           eexists _, _. split; [reflexivity|]. simpl.
           split_and!; try congruence; try (intros Hx; by destruct Hx).
           ++ eapply shrunk_erase_h in Hsh; [|done]. exact Hsh.
           ++ intros _. split; [done|]. exists qa, qk, qb, ql, nullptr.
              split_and!; [done|congruence|].
              simpl in Hc, Hcells |- *. rewrite Hcells, Hc.
              exists (cells l'), (cells l1 ++ (i1, k1) :: cells r1).
              right; right. exists ip, qk. by rewrite <- app_assoc.
        -- destruct Hh as [[? _]|[_ Hh]]; [congruence|].
           mrun. eexists _, _. split; [reflexivity|].
           split; [apply avl_node; [simpl in *; lia|lia|done|done]|]. simpl.
           split_and!; try congruence; try (intros Hx; by destruct Hx).
           ++ right. split; [done|]. simpl in *. lia.
           ++ intros _. split; [done|]. exists qa, qk, qb, ql, nullptr.
              split_and!; [done|congruence|].
              simpl in Hc |- *. rewrite Hc.
              exists (cells l'), (cells l1 ++ (i1, k1) :: cells r1).
              right; right. exists ip, qk. by rewrite <- app_assoc.
      * destruct (eraseLeft_spec (node i1 k1 b1 l1 r1) s)
          as (r' & qa & qk & qb & qr & s1 & E & Hr' & Hlm & Hc & Hh & Hf); [done|done|].
        unfold bind at 1. unfold bind at 1. rewrite E.
        unfold key_of. unfold bind at 1, ret at 1. unfold bind at 1, get at 1.
        destruct Hf as (F1 & F2 & F3 & F4 & F5 & F6).
        destruct (h s1) eqn:Eh.
        -- destruct Hh as [[_ Hh]|[? _]]; [|congruence].
           destruct (balanceEraseRight_spec ip qk b (node i0 k0 b0 l0 r0) 
                       (node i1 k1 b1 l1 r1) r' s1)
             as (p' & s' & Eb & Hp' & Hcells & Hsh & Hfr); try done.
           unfold bind at 1. rewrite Eb. mrun.
           destruct Hfr as (G1 & G2 & G3 & G4 & G5 & G6).
           eexists _, _. split; [reflexivity|]. simpl.
           split_and!; try congruence; try (intros Hx; by destruct Hx).
           ++ eapply shrunk_erase_h in Hsh; [|done]. exact Hsh.
           ++ intros _. split; [done|]. exists qa, qk, qb, nullptr, qr.
              split_and!; [done|congruence|].
              simpl in Hc, Hcells |- *. rewrite Hcells, Hc.
              exists (cells l0 ++ (i0, k0) :: cells r0), (cells r').
              right; left. by exists ip, qk.
        -- destruct Hh as [[? _]|[_ Hh]]; [congruence|].
           mrun. eexists _, _. split; [reflexivity|].
           split; [apply avl_node; [simpl in *; lia|lia|done|done]|]. simpl.
           split_and!; try congruence; try (intros Hx; by destruct Hx).
           ++ right. split; [done|]. simpl in *. lia.
           ++ intros _. split; [done|]. exists qa, qk, qb, nullptr, qr.
              split_and!; [done|congruence|].
              simpl in Hc |- *. rewrite Hc.
              exists (cells l0 ++ (i0, k0) :: cells r0), (cells r').
              right; left. by exists ip, qk.
Qed.

Lemma sorted_fmap_mid (A B : list (nat * Z)) i x :
  sorted ((A ++ (i, x) :: B).*2) -> sorted (A.*2 ++ x :: B.*2).
Proof. by rewrite fmap_app, fmap_cons. Qed.

Lemma erased_del x p p' qa :
  sorted (inorder p) -> erased x (cells p) (cells p') qa ->
  inorder p' = del x (inorder p).
Proof.
  rewrite !inorder_cells.
  intros Hs (A & B & [[EA EB]|[(i & kq & EA & EB)|(i & kq & EA & EB)]]);
    rewrite EA in Hs |- *; rewrite EB;
    rewrite !fmap_app, ?fmap_cons in *; simpl in *.
  - by rewrite del_mid_eq.
  - by rewrite del_mid_eq.
  - replace (A.*2 ++ kq :: x :: B.*2) with ((A.*2 ++ [kq]) ++ x :: B.*2) in *
      by by rewrite <- app_assoc.
    rewrite del_mid_eq by done. by rewrite <- app_assoc.
Qed.

Lemma erased_addrs x p p' qa :
  erased x (cells p) (cells p') qa -> addrs p ≡ₚ qa :: addrs p'.
Proof.
  rewrite !addrs_cells.
  intros (A & B & [[EA EB]|[(i & kq & EA & EB)|(i & kq & EA & EB)]]);
    rewrite EA, EB; rewrite !fmap_app, ?fmap_cons; simpl.
  - by rewrite Permutation_middle.
  - replace (A.*1 ++ i :: qa :: B.*1) with ((A.*1 ++ [i]) ++ qa :: B.*1)
      by by rewrite <- app_assoc.
    rewrite <- Permutation_middle. by rewrite <- app_assoc.
  - by rewrite <- Permutation_middle.
Qed.

Lemma contains_from_spec p x :
  bst p -> contains_from p x = bool_decide (x ∈ inorder p).
Proof.
  induction p as [|i k b l IHl rt IHr]; simpl.
  - done.
  - intros (Hlk & Hkr & Hl & Hr).
    rewrite Forall_forall in Hlk. rewrite Forall_forall in Hkr.
    destruct (x <? k) eqn:E1; [|destruct (x >? k) eqn:E2].
    + rewrite IHl by done. apply bool_decide_ext.
      rewrite elem_of_app, elem_of_cons. split; [tauto|].
      intros [?|[?|Hx]]; [done|lia|]. specialize (Hkr _ Hx). lia.
    + rewrite IHr by done. apply bool_decide_ext.
      rewrite elem_of_app, elem_of_cons. split; [tauto|].
      intros [Hx|[?|?]]; [|lia|done]. specialize (Hlk _ Hx). lia.
    + symmetry. apply bool_decide_eq_true. assert (x = k) as -> by lia.
      set_solver.
Qed.

Lemma avl_bal_in_range p : avl p -> bal_in_range p.
Proof. induction p; simpl; tauto. Qed.

Lemma bst_checkTree p : bst p -> bal_in_range p -> checkTree_at p = true.
Proof.
  induction p as [|i k b l IHl rt IHr]; simpl; [done|].
  intros (Hlk & Hkr & Hl & Hr) (Hb & Hbl & Hbr).
  rewrite IHl, IHr by done. rewrite !andb_true_r.
  apply andb_true_iff. split; [apply andb_true_iff; split|].
  - destruct l as [|il kl bl ll rl]; [done|]. simpl in Hlk.
    rewrite Forall_app, Forall_cons in Hlk. apply negb_true_iff. lia.
  - destruct rt as [|ir kr br lr rr]; [done|]. simpl in Hkr.
    rewrite Forall_app, Forall_cons in Hkr. apply negb_true_iff. lia.
  - apply negb_true_iff, orb_false_iff. lia.
Qed.

(** *** The public [insert] and [erase] *)

Lemma insert_spec x s :
  Inv s ->
  exists b s',
    insert x s = Some (b, s') /\ Inv s' /\
    b = negb (bool_decide (x ∈ inorder (root s))) /\
    inorder (root s') = ins x (inorder (root s)) /\
    (x ∈ inorder (root s) ->
       root s' = root s /\ count s' = count s /\
       freed s' = freed s /\ brk s' = brk s) /\
    (x ∉ inorder (root s) ->
       count s' = S (count s) /\
       exists i A B, alloc s s' i /\
         cells (root s) = A ++ B /\ cells (root s') = A ++ (i, x) :: B).
Proof.
  intros (Hbst & Havl & Hcount). unfold insert.
  unfold bind at 1, modify at 1. unfold bind at 1, modify at 1.
  unfold bind at 1, get at 1.
  change (root (set_a true (set_h false s))) with (root s).
  destruct (root s) as [|ip k b l rt] eqn:Eroot.
  - destruct (newNode_spec x (set_a true (set_h false s)))
      as (i & s1 & E & Hh & Hroot & Hc & Ha & Hr & Hal).
    unfold bind at 1. rewrite E. mrun. eexists _, _. split; [reflexivity|].
    simpl in *. split_and!.
    + unfold Inv. simpl. rewrite Hc, Hcount.
      split_and!; try done; try lia; constructor.
    + done.
    + done.
    + intros Hx. by inversion Hx.
    + intros _. split; [by rewrite Hc|]. by exists i, [], [].
  - rewrite <- Eroot in *.
    destruct (insert_at_spec (root s) x (set_a true (set_h false s)))
      as (p' & s1 & E & Hp' & Hin & Hh & Hne & Hroot & Hc & Hr & Hdup & Hnew).
    { by rewrite Eroot. } { done. } { by apply bst_sorted. }
    unfold bind at 1. rewrite E. unfold bind at 1, modify at 1.
    unfold bind at 1, get at 1.
    change (a (set_root p' s1)) with (a s1).
    apply bst_sorted in Hbst.
    destruct (decide (x ∈ inorder (root s))) as [Hx|Hx].
    + destruct (Hdup Hx) as (-> & Hh1 & Ha1 & Hf & Hb).
      rewrite (bool_decide_eq_true_2 _ Hx).
      rewrite Ha1. mrun. eexists _, _. split; [reflexivity|].
      unfold Inv. simpl in *. split_and!; try done; try congruence.
      by apply bst_sorted.
    + destruct (Hnew Hx) as (Ha1 & i & A & B & Hal & HA & HB).
      rewrite (bool_decide_eq_false_2 _ Hx).
      rewrite Ha1. mrun. eexists _, _. split; [reflexivity|].
      unfold Inv. simpl in *. split_and!; try done.
      * apply bst_sorted. rewrite Hin. by apply sorted_ins.
      * rewrite Hin, length_ins_new by done. by rewrite Hc, Hcount.
      * intros _. split; [by rewrite Hc|]. by exists i, A, B.
Qed.

Lemma erase_spec cfg x s :
  Inv s ->
  exists b s',
    erase cfg x s = Some (b, s') /\ Inv s' /\
    b = bool_decide (x ∈ inorder (root s)) /\
    inorder (root s') = del x (inorder (root s)) /\
    brk s' = brk s /\
    (x ∉ inorder (root s) ->
       root s' = root s /\ count s' = count s /\ freed s' = freed s) /\
    (x ∈ inorder (root s) ->
       S (count s') = count s /\
       exists qa qk qb ql qr,
         victim cfg (root s) x = node qa qk qb ql qr /\
         freed s' = node qa qk qb (freed s) qr /\
         erased x (cells (root s)) (cells (root s')) qa).
Proof.
  intros (Hbst & Havl & Hcount). unfold erase.
  unfold bind at 1, modify at 1. unfold bind at 1, modify at 1.
  unfold bind at 1, get at 1.
  change (root (set_r false (set_h false s))) with (root s).
  destruct (root s) as [|ip k b l rt] eqn:Eroot.
  - mrun. eexists _, _. split; [reflexivity|]. unfold Inv. simpl.
    rewrite Eroot. simpl. split_and!; try done.
    intros Hx. by inversion Hx.
  - rewrite <- Eroot in *.
    destruct (erase_at_spec cfg (root s) x (set_r false (set_h false s)))
      as (p' & s1 & E & Hp' & Hh & Hroot & Hc & Ha & Hbk & Hno & Hyes).
    { by rewrite Eroot. } { done. } { by apply bst_sorted. }
    unfold bind at 1. rewrite E. unfold bind at 1, modify at 1.
    unfold bind at 1, get at 1.
    change (r (set_root p' s1)) with (r s1).
    apply bst_sorted in Hbst.
    destruct (decide (x ∈ inorder (root s))) as [Hx|Hx].
    + destruct (Hyes Hx) as (Hr1 & qa & qk & qb & ql & qr & Hv & Hf & Her).
      rewrite (bool_decide_eq_true_2 _ Hx).
      rewrite Hr1. mrun. eexists _, _. split; [reflexivity|].
      pose proof (erased_del _ _ _ _ Hbst Her) as Hdel.
      assert (Hlen : S (length (inorder p')) = count s).
      { rewrite Hdel, length_del by done. done. }
      unfold Inv. simpl in *. split_and!; try done.
      * apply bst_sorted. rewrite Hdel. by apply sorted_del.
      * rewrite Hc. lia.
      * intros _. split; [rewrite Hc; lia|]. by exists qa, qk, qb, ql, qr.
    + destruct (Hno Hx) as (-> & Hh1 & Hr1 & Hf).
      rewrite (bool_decide_eq_false_2 _ Hx).
      rewrite Hr1. mrun. eexists _, _. split; [reflexivity|].
      unfold Inv. simpl in *. split_and!; try done; try congruence.
      * by apply bst_sorted.
      * by rewrite del_id.
Qed.

Lemma Inv_new : Inv avlTree_new.
Proof. unfold Inv. simpl. split_and!; done. Qed.

Lemma elem_of_inorder_ins_set x l (X : gset Z) :
  (forall y, y ∈ l <-> y ∈ X) -> forall y, y ∈ ins x l <-> y ∈ ({[x]} ∪ X : gset Z).
Proof. intros H y. rewrite elem_of_ins, H. set_solver. Qed.

Lemma run_spec cfg ops s (X : gset Z) :
  Inv s -> (forall y, y ∈ inorder (root s) <-> y ∈ X) ->
  exists s', run cfg ops s = Some s' /\ Inv s' /\
    (forall y, y ∈ inorder (root s') <-> y ∈ live ops X) /\
    (count s' + freedSize s' + brk s = count s + freedSize s + brk s')%nat.
Proof.
  revert s X. induction ops as [|[x|x] ops IH]; intros s X HI HX; simpl.
  - eauto.
  - destruct (insert_spec x s HI) as (b & s1 & E & HI1 & _ & Hin & Hdup & Hnew).
    rewrite E. destruct (IH s1 ({[x]} ∪ X) HI1) as (s' & Er & HI' & HX' & Hal).
    { rewrite Hin. by apply elem_of_inorder_ins_set. }
    exists s'. split_and!; try done.
    destruct (decide (x ∈ inorder (root s))) as [Hx|Hx].
    + destruct (Hdup Hx) as (_ & Hc & Hf & Hb). unfold freedSize in *.
      rewrite Hc, Hf, Hb in Hal. lia.
    + destruct (Hnew Hx) as (Hc & i & _ & _ & Ha & _). unfold freedSize in *.
      destruct Ha as [(Hf0 & _ & Hb1 & Hf1)|(k0 & b0 & nx & rt0 & Hf0 & Hf1 & Hb1)].
      * rewrite Hf0. rewrite Hf1, Hb1, Hc in Hal. simpl in *. lia.
      * rewrite Hf0. rewrite Hf1, Hb1, Hc in Hal. simpl in *. lia.
  - destruct (erase_spec cfg x s HI) as (b & s1 & E & HI1 & _ & Hdel & Hbk & Hno & Hyes).
    rewrite E. destruct (IH s1 (X ∖ {[x]}) HI1) as (s' & Er & HI' & HX' & Hal).
    { intros y. rewrite Hdel, elem_of_del, HX.
      - set_solver.
      - apply bst_sorted, HI. }
    exists s'. split_and!; try done.
    destruct (decide (x ∈ inorder (root s))) as [Hx|Hx].
    + destruct (Hyes Hx) as (Hc & qa & qk & qb & ql & qr & _ & Hf & _).
      unfold freedSize in *. rewrite Hf, Hbk in Hal. simpl in *. lia.
    + destruct (Hno Hx) as (_ & Hc & Hf). unfold freedSize in *.
      rewrite Hc, Hf, Hbk in Hal. lia.
Qed.

(** *** Runs *)

Lemma run_app cfg o1 o2 s :
  run cfg (o1 ++ o2) s = run cfg o1 s ≫= run cfg o2.
Proof.
  revert s. induction o1 as [|o o1 IH]; intros s; simpl; [done|].
  destruct (step cfg o s) as [[b s1]|]; [apply IH|done].
Qed.

Lemma live_app o1 o2 X : live (o1 ++ o2) X = live o2 (live o1 X).
Proof.
  revert X. induction o1 as [|[x|x] o1 IH]; intros X; simpl; [done|apply IH..].
Qed.

Lemma live_inserts ks (X : gset Z) :
  live (map Insert ks) X = list_to_set ks ∪ X.
Proof.
  revert X. induction ks as [|k ks IH]; intros X; simpl.
  - set_solver.
  - rewrite IH. set_solver.
Qed.

Lemma live_erases es (X : gset Z) :
  live (map Erase es) X = X ∖ list_to_set es.
Proof.
  revert X. induction es as [|k es IH]; intros X; simpl.
  - set_solver.
  - rewrite IH. set_solver.
Qed.

Lemma sorted_NoDup l : sorted l -> NoDup l.
Proof.
  induction l as [|x l IH]; simpl; [constructor|].
  intros [Hx Hl]. constructor; [|by apply IH].
  intros Hin. rewrite Forall_forall in Hx. specialize (Hx _ Hin). lia.
Qed.

Lemma inorder_nil p : inorder p = [] -> p = nullptr.
Proof. destruct p; [done|]. simpl. intros E. symmetry in E. by apply app_cons_not_nil in E. Qed.

(** Every state reached from the empty tree satisfies the invariant, holds
    the live keys, and owns every node the allocator handed out, either in
    the tree or on the freed list. *)
Lemma reachable cfg ops s :
  run cfg ops avlTree_new = Some s ->
  Inv s /\ (forall y, y ∈ inorder (root s) <-> y ∈ live ops ∅) /\
  (count s + freedSize s = brk s)%nat.
Proof.
  intros E.
  destruct (run_spec cfg ops avlTree_new ∅ Inv_new) as (s' & E' & HI & HX & Hacc).
  { simpl. set_solver. }
  rewrite E in E'. injection E' as <-. split_and!; [done..|].
  unfold freedSize in *. simpl in Hacc. lia.
Qed.

Lemma Inv_sorted s : Inv s -> sorted (inorder (root s)).
Proof. intros (Hb & _). by apply bst_sorted. Qed.

(** *** [getKeys] *)

Lemma getKeys_at_ok p :
  p <> nullptr -> forall A B C,
  length B = length (inorder p) ->
  getKeys_at p (A ++ B ++ C) (length A) =
    Some (A ++ inorder p ++ C, (length A + length B)%nat).
Proof.
  induction p as [|ip k b l IHl rt IHr]; intros Hnn A B C HB; [done|].
  clear Hnn. cbn [inorder] in HB. rewrite length_app in HB. cbn [length] in HB.
  assert (exists Bl x Br, B = Bl ++ x :: Br /\ length Bl = length (inorder l) /\
                          length Br = length (inorder rt)) as (Bl & x & Br & -> & HBl & HBr).
  { exists (take (length (inorder l)) B),
           (default 0 (B !! length (inorder l))),
           (drop (S (length (inorder l))) B).
    assert (is_Some (B !! length (inorder l))) as [y Hy].
    { apply lookup_lt_is_Some. lia. }
    rewrite Hy. simpl. split_and!.
    - by rewrite <- (take_drop_middle _ _ _ Hy) at 1.
    - rewrite length_take. lia.
    - rewrite length_drop. lia. }
  cbn [getKeys_at inorder].
  assert (E1 : match l with
               | nullptr => Some (A ++ (Bl ++ x :: Br) ++ C, length A)
               | node _ _ _ _ _ => getKeys_at l (A ++ (Bl ++ x :: Br) ++ C) (length A)
               end = Some (A ++ inorder l ++ (x :: Br) ++ C, (length A + length Bl)%nat)).
  { destruct l as [|il kl bl ll rl].
    - destruct Bl; [|done]. simpl. f_equal. f_equal. lia.
    - rewrite <- (app_assoc Bl). by rewrite IHl. }
  rewrite E1. unfold store.
  assert (Hlen : length (A ++ inorder l) = (length A + length Bl)%nat).
  { rewrite length_app. lia. }
  destruct (decide _) as [Hlt|Hge].
  2:{ exfalso. apply Hge. rewrite !length_app. simpl. lia. }
  assert (E2 : <[(length A + length Bl)%nat := k]> (A ++ inorder l ++ (x :: Br) ++ C)
               = (A ++ inorder l ++ [k]) ++ Br ++ C).
  { rewrite (app_assoc A), <- Hlen.
    rewrite insert_app_r_alt by lia. rewrite Nat.sub_diag. simpl.
    by rewrite <- !app_assoc. }
  rewrite E2.
  assert (Hlen2 : S (length A + length Bl) = length (A ++ inorder l ++ [k])).
  { rewrite !length_app. simpl. lia. }
  rewrite Hlen2.
  destruct rt as [|ir kr br lr rr].
  - destruct Br; [|done]. simpl. rewrite <- !app_assoc. simpl.
    f_equal. f_equal. rewrite !length_app. simpl. lia.
  - rewrite IHr by done. rewrite <- !app_assoc. simpl.
    f_equal. f_equal. rewrite !length_app. simpl. lia.
Qed.

Lemma getKeys_at_fits p v i :
  p <> nullptr -> (i + length (inorder p) <= length v)%nat ->
  getKeys_at p v i =
    Some (take i v ++ inorder p ++ drop (i + length (inorder p)) v,
          (i + length (inorder p))%nat).
Proof.
  intros Hnn Hle.
  pose proof (getKeys_at_ok p Hnn (take i v)
                (take (length (inorder p)) (drop i v))
                (drop (i + length (inorder p)) v)) as H.
  assert (Hv : take i v ++ take (length (inorder p)) (drop i v) ++
               drop (i + length (inorder p)) v = v).
  { rewrite <- drop_drop. by rewrite !take_drop. }
  rewrite Hv in H. rewrite !length_take, length_drop in H.
  rewrite !Nat.min_l in H by lia. apply H. lia.
Qed.

Lemma getKeys_at_overrun p :
  p <> nullptr -> forall v i, (length v < i + length (inorder p))%nat ->
  getKeys_at p v i = None.
Proof.
  induction p as [|ip k b l IHl rt IHr]; intros Hnn v i Hlt; [done|].
  clear Hnn. cbn [inorder] in Hlt. rewrite length_app in Hlt. cbn [length] in Hlt.
  cbn [getKeys_at].
  destruct (decide (i + length (inorder l) <= length v)%nat) as [Hfit|Hover].
  - assert (E1 : match l with
                 | nullptr => Some (v, i)
                 | node _ _ _ _ _ => getKeys_at l v i
                 end = Some (take i v ++ inorder l ++ drop (i + length (inorder l)) v,
                             (i + length (inorder l))%nat)).
    { destruct l as [|il kl bl ll rl].
      - simpl. by rewrite Nat.add_0_r, take_drop.
      - by apply getKeys_at_fits. }
    rewrite E1. unfold store.
    assert (Hl1 : length (take i v ++ inorder l ++ drop (i + length (inorder l)) v)
                  = length v).
    { rewrite !length_app, length_take, length_drop. lia. }
    destruct (decide _) as [Hlt2|Hge]; [|done].
    destruct rt as [|ir kr br lr rr].
    + simpl in Hlt. lia.
    + apply IHr; [done|]. rewrite length_insert. lia.
  - destruct l as [|il kl bl ll rl].
    + unfold store. simpl in Hover. destruct (decide _); [lia|done].
    + rewrite IHl; [done|done|lia].
Qed.

(** *** Rotations during an insertion *)

Lemma balanceInsertLeft_rot ip k b l l' rt s :
  avl l' -> avl rt -> b = height rt - height l -> -1 <= b <= 1 ->
  height l' = height l + 1 -> (b = -1 -> bal_of l' <> 0) ->
  exists p' s',
    balanceInsertLeft (node ip k b l' rt) s = Some (p', s') /\
    ((b = -1 /\ insert_rotations s' = S (insert_rotations s) /\ h s' = false /\
      height p' = height (node ip k b l rt) /\ bal_of p' = 0) \/
     (b <> -1 /\ insert_rotations s' = insert_rotations s)).
Proof.
  intros Hl' Hrt Hb Hr Hh Hne. unfold insert_rotations. three b.
  - specialize (Hne eq_refl).
    destruct l' as [|i1 k1 b1 l1 r1]; [simpl in *; hnn; lia|].
    simpl in Hl', Hne, Hh. destruct Hl' as (Hb1 & Hr1 & Hl1 & Hr1').
    assert (b1 = -1 \/ b1 = 1) as [ -> | -> ] by lia.
    + mrun. eexists _, _. split; [reflexivity|]. left. simpl. split_and!; try done; lia.
    + destruct r1 as [|i2 k2 b2 l2 r2]; [simpl in *; hnn; lia|].
      simpl in Hr1', Hb1, Hh. destruct Hr1' as (Hb2 & Hr2 & Hl2 & Hr2').
      mrun. eexists _, _. split; [reflexivity|]. left. simpl.
      split_and!; try done; lia.
  - mrun. eexists _, _. split; [reflexivity|]. right. simpl. split; [lia|done].
  - mrun. eexists _, _. split; [reflexivity|]. right. simpl. split; [lia|done].
Qed.

Lemma balanceInsertRight_rot ip k b l rt r' s :
  avl l -> avl r' -> b = height rt - height l -> -1 <= b <= 1 ->
  height r' = height rt + 1 -> (b = 1 -> bal_of r' <> 0) ->
  exists p' s',
    balanceInsertRight (node ip k b l r') s = Some (p', s') /\
    ((b = 1 /\ insert_rotations s' = S (insert_rotations s) /\ h s' = false /\
      height p' = height (node ip k b l rt) /\ bal_of p' = 0) \/
     (b <> 1 /\ insert_rotations s' = insert_rotations s)).
Proof.
  intros Hl Hr' Hb Hr Hh Hne. unfold insert_rotations. three b.
  - mrun. eexists _, _. split; [reflexivity|]. right. simpl. split; [lia|done].
  - mrun. eexists _, _. split; [reflexivity|]. right. simpl. split; [lia|done].
  - specialize (Hne eq_refl).
    destruct r' as [|i1 k1 b1 l1 r1]; [simpl in *; hnn; lia|].
    simpl in Hr', Hne, Hh. destruct Hr' as (Hb1 & Hr1 & Hl1 & Hr1').
    assert (b1 = -1 \/ b1 = 1) as [ -> | -> ] by lia.
    + destruct l1 as [|i2 k2 b2 l2 r2]; [simpl in *; hnn; lia|].
      simpl in Hl1, Hb1, Hh. destruct Hl1 as (Hb2 & Hr2 & Hl2 & Hr2').
      mrun. eexists _, _. split; [reflexivity|]. left. simpl.
      split_and!; try done; lia.
    + mrun. eexists _, _. split; [reflexivity|]. left. simpl. split_and!; try done; lia.
Qed.

Lemma newNode_rot x s p s' :
  (n <- newNode x ;; modify (set_a true) ;;; ret n)%monad s = Some (p, s') ->
  insert_rotations s' = insert_rotations s.
Proof.
  unfold newNode, insert_rotations. mrun. destruct (freed s); simpl; intros E;
    injection E as <- <-; done.
Qed.

(** An insertion performs at most one rotation; if it performs one, [h] is
    clear afterwards and the subtree has the height it had before. *)
Lemma insert_at_rot p x :
  p <> nullptr -> avl p -> sorted (inorder p) ->
  forall s p' s1, insert_at p x s = Some (p', s1) ->
  insert_rotations s1 = insert_rotations s \/
  (insert_rotations s1 = S (insert_rotations s) /\ h s1 = false /\
   height p' = height p).
Proof.
  induction p as [|ip k b l IHl rt IHr]; intros Hnn Havl Hs s p' s2 E; [done|].
  clear Hnn.
  apply sorted_node_inv in Hs as (Hsl & Hsr & Hlk & Hkr).
  simpl in Havl. destruct Havl as (Hb & Hbr & Hal & Har).
  rewrite insert_at_eq in E.
  destruct (x <? k) eqn:E1; [|destruct (x >? k) eqn:E2].
  - assert (exists l' s1,
      (match l with
       | nullptr => n <- newNode x ;; modify (set_a true) ;;; ret n
       | node _ _ _ _ _ => insert_at l x
       end)%monad s = Some (l', s1) /\ ins_post l x s l' s1 /\
      (insert_rotations s1 = insert_rotations s \/
       (insert_rotations s1 = S (insert_rotations s) /\ h s1 = false /\
        height l' = height l))) as (l' & s1 & El & Hpost & Hrot).
    { destruct l as [|i1 k1 b1 l1 r1].
      - destruct (insert_slot_null x s) as (l' & s1 & El & Hpost).
        exists l', s1. split_and!; [done..|]. left. by eapply newNode_rot.
      - destruct (insert_at_spec (node i1 k1 b1 l1 r1) x s) as (l' & s1 & El & Hpost);
          [done..|].
        exists l', s1. split_and!; [done..|]. by eapply IHl. }
    unfold bind at 1 in E. rewrite El in E. unfold bind at 1, get at 1 in E.
    destruct Hpost as (Hal' & Hin' & Hh' & Hne' & _).
    destruct (h s1) eqn:Eh.
    + destruct Hrot as [Hrot|(_ & ? & _)]; [|done].
      destruct (balanceInsertLeft_rot ip k b l l' rt s1) as
        (p1 & s' & Eb & Hcase); try done; try lia.
      { intros ->. apply Hne'; [done|]. intros ->. simpl in *. hnn. lia. }
      rewrite Eb in E. injection E as <- <-.
      destruct Hcase as [(_ & Hr1 & Hh1 & Hht & _)|(_ & Hr1)].
      * right. split_and!; [lia|done|done].
      * left. lia.
    + injection E as <- <-. destruct Hrot as [Hrot|(Hrot & _ & Hht)].
      * by left.
      * right. split_and!; [done..|]. simpl. lia.
  - assert (exists r' s1,
      (match rt with
       | nullptr => n <- newNode x ;; modify (set_a true) ;;; ret n
       | node _ _ _ _ _ => insert_at rt x
       end)%monad s = Some (r', s1) /\ ins_post rt x s r' s1 /\
      (insert_rotations s1 = insert_rotations s \/
       (insert_rotations s1 = S (insert_rotations s) /\ h s1 = false /\
        height r' = height rt))) as (r' & s1 & El & Hpost & Hrot).
    { destruct rt as [|i1 k1 b1 l1 r1].
      - destruct (insert_slot_null x s) as (r' & s1 & El & Hpost).
        exists r', s1. split_and!; [done..|]. left. by eapply newNode_rot.
      - destruct (insert_at_spec (node i1 k1 b1 l1 r1) x s) as (r' & s1 & El & Hpost);
          [done..|].
        exists r', s1. split_and!; [done..|]. by eapply IHr. }
    unfold bind at 1 in E. rewrite El in E. unfold bind at 1, get at 1 in E.
    destruct Hpost as (Hal' & Hin' & Hh' & Hne' & _).
    destruct (h s1) eqn:Eh.
    + destruct Hrot as [Hrot|(_ & ? & _)]; [|done].
      destruct (balanceInsertRight_rot ip k b l rt r' s1) as
        (p1 & s' & Eb & Hcase); try done; try lia.
      { intros ->. apply Hne'; [done|]. intros ->. simpl in *. hnn. lia. }
      rewrite Eb in E. injection E as <- <-.
      destruct Hcase as [(_ & Hr1 & Hh1 & Hht & _)|(_ & Hr1)].
      * right. split_and!; [lia|done|done].
      * left. lia.
    + injection E as <- <-. destruct Hrot as [Hrot|(Hrot & _ & Hht)].
      * by left.
      * right. split_and!; [done..|]. simpl. lia.
  - revert E. mrun. intros E. injection E as <- <-. by left.
Qed.

Lemma fill_not_null f p : fill f p <> nullptr.
Proof. unfold fill. by destruct (cdir f). Qed.

(** Once [h] is clear, every ancestor returns itself with the new subtree
    in place: nothing above is rebalanced. *)
Lemma insert_at_plug x c :
  forall p p' s s1, p <> nullptr -> on_path x c ->
  insert_at p x s = Some (p', s1) -> h s1 = false ->
  insert_at (plug c p) x s = Some (plug c p', s1).
Proof.
  induction c as [|f c IH]; intros p p' s s1 Hnn Hpath E Hh; simpl; [done|].
  apply Forall_cons in Hpath as [Hf Hpath].
  apply IH; [apply fill_not_null|done| |done].
  destruct p as [|ip k b l rt]; [done|].
  unfold fill. destruct (cdir f).
  - rewrite insert_at_eq. replace (x <? ckey f) with true by lia.
    unfold bind at 1. rewrite E. unfold bind, get. simpl. by rewrite Hh.
  - rewrite insert_at_eq. replace (x <? ckey f) with false by lia.
    replace (x >? ckey f) with true by lia.
    unfold bind at 1. rewrite E. unfold bind, get. simpl. by rewrite Hh.
Qed.

End AVLFacts.

(** ** Facts about the bottom-up red-black embedding *)

Module BURBFacts.
Import BURB.
Local Open Scope monad_scope.

(** *** Memory and shapes *)

Lemma Repr_ext h h' par t :
  Repr h par t -> (forall x, x ∈ addrs t -> h' !! x = h !! x) -> Repr h' par t.
Proof.
  revert par. induction t as [|a c l IHl k rt IHr]; intros par; simpl; [done|].
  intros (Ha & Hl & Hr) Hx. split_and!.
  - rewrite Hx; [done|]. set_solver.
  - apply IHl; [done|]. intros x Hin. apply Hx. set_solver.
  - apply IHr; [done|]. intros x Hin. apply Hx. set_solver.
Qed.

(** Changing the parent pointer of the root of a subtree. *)
Lemma Repr_reparent h par par' t :
  Repr h par t -> NoDup (addrs t) ->
  Repr (match t with
        | E => h
        | T a c l k rt => <[a := mkNode k c (addr l) (addr rt) par']> h
        end) par' t.
Proof.
  destruct t as [|a c l k rt]; simpl; [done|].
  intros (Ha & Hl & Hr) Hnd.
  apply NoDup_app in Hnd as (Hndl & Hal & Hndr).
  apply NoDup_cons in Hndr as (Har & Hndr).
  split_and!.
  - by rewrite lookup_insert_eq.
  - eapply Repr_ext; [done|]. intros x Hx. rewrite lookup_insert_ne; [done|].
    intros ->. eapply Hal; [done|]. set_solver.
  - eapply Repr_ext; [done|]. intros x Hx. rewrite lookup_insert_ne; [done|].
    intros ->. done.
Qed.

Lemma plug_app t c1 c2 : plug t (c1 ++ c2) = plug (plug t c1) c2.
Proof. revert t. induction c1 as [|f c1 IH]; intros t; simpl; [done|]. apply IH. Qed.

Lemma addrs_fill f t : addrs (fill f t) ≡ₚ addrs t ++ frame_addrs f.
Proof.
  unfold fill, frame_addrs. destruct (fdir f); simpl.
  - done.
  - rewrite (Permutation_app_comm (addrs t)). simpl.
    by rewrite Permutation_middle.
Qed.

Lemma addrs_plug t ctx : addrs (plug t ctx) ≡ₚ addrs t ++ ctx_addrs ctx.
Proof.
  revert t. induction ctx as [|f ctx IH]; intros t; simpl.
  - unfold ctx_addrs. simpl. by rewrite app_nil_r.
  - rewrite IH, addrs_fill. unfold ctx_addrs. simpl. by rewrite <- app_assoc.
Qed.

Lemma addr_plug t ctx : addr (plug t ctx) = ctx_root ctx (addr t).
Proof.
  revert t. induction ctx as [|f ctx IH]; intros t; simpl; [done|].
  rewrite IH. unfold fill. by destruct (fdir f).
Qed.

Lemma ctx_root_cons f ctx p :
  exists x, ctx_root (f :: ctx) p = Some x /\ x ∈ ctx_addrs (f :: ctx).
Proof.
  revert f. induction ctx as [|g ctx IH]; intros f.
  - exists (faddr f). split; [done|]. unfold ctx_addrs, frame_addrs. simpl. set_solver.
  - destruct (IH g) as (x & Hx & Hin). exists x. split; [done|].
    unfold ctx_addrs in *. simpl in *. set_solver.
Qed.

Lemma Repr_plug h t ctx :
  Repr h nulle (plug t ctx) <-> Repr h (ctx_par ctx) t /\ ReprCtx h ctx (addr t).
Proof.
  revert t. induction ctx as [|f ctx IH]; intros t; simpl; [tauto|].
  rewrite IH. unfold fill. destruct (fdir f); simpl; tauto.
Qed.

Lemma ReprCtx_ext h h' ctx q :
  ReprCtx h ctx q -> (forall x, x ∈ ctx_addrs ctx -> h' !! x = h !! x) ->
  ReprCtx h' ctx q.
Proof.
  revert q. induction ctx as [|f ctx IH]; intros q; simpl; [done|].
  unfold ctx_addrs, frame_addrs. simpl.
  intros (Hf & Hs & Hc) Hx. split_and!.
  - rewrite Hx; [done|]. set_solver.
  - eapply Repr_ext; [done|]. intros x Hin. apply Hx. set_solver.
  - apply IH; [done|]. intros x Hin. apply Hx. set_solver.
Qed.

(** Redirecting the child pointer at the hole. *)
Lemma ReprCtx_redirect h ctx q q' :
  ReprCtx h ctx q -> NoDup (ctx_addrs ctx) ->
  ReprCtx (match ctx with
           | [] => h
           | f :: ctx' =>
               <[faddr f :=
                   mkNode (fkey f) (fcolor f)
                     (match fdir f with Lft => q' | Rgt => addr (fsib f) end)
                     (match fdir f with Lft => addr (fsib f) | Rgt => q' end)
                     (ctx_par ctx')]> h
           end) ctx q'.
Proof.
  destruct ctx as [|f ctx]; simpl; [done|].
  unfold ctx_addrs, frame_addrs. simpl.
  intros (Hf & Hs & Hc) Hnd.
  apply NoDup_cons in Hnd as (Hnf & Hnd).
  split_and!.
  - by rewrite lookup_insert_eq.
  - eapply Repr_ext; [done|]. intros x Hin. rewrite lookup_insert_ne; [done|].
    intros <-. apply Hnf. set_solver.
  - eapply ReprCtx_ext; [done|]. intros x Hin. rewrite lookup_insert_ne; [done|].
    intros <-. apply Hnf. unfold ctx_addrs in *. set_solver.
Qed.

Lemma load_Some s x n : heap s !! x = Some n -> load (Some x) s = Some (n, s).
Proof. unfold load. by intros ->. Qed.

Lemma store_Some s x n f :
  heap s !! x = Some n ->
  store (Some x) f s = Some (tt, with_heap (<[x := f n]> (heap s)) s).
Proof. unfold store. by intros ->. Qed.

Lemma ptr_eqb_refl p : ptr_eqb p p = true.
Proof. destruct p; simpl; [apply Nat.eqb_refl|done]. Qed.

Lemma ptr_eqb_ne x y : x <> y -> ptr_eqb (Some x) (Some y) = false.
Proof. simpl. by intros ?%Nat.eqb_neq. Qed.

Lemma ptr_eqb_eq p q : ptr_eqb p q = true <-> p = q.
Proof.
  destruct p, q; simpl; try (split; congruence).
  rewrite Nat.eqb_eq. split; congruence.
Qed.

(** Symbolic execution of the memory operations. *)
Section Exec.
Context {A : Type} (s : burbTree) (x : nat) (n : Node) (k : unit -> M burbTree A).
Hypothesis H : heap s !! x = Some n.

Lemma bind_get_key (k' : Z -> M burbTree A) :
  bind (get_key (Some x)) k' s = k' (key n) s.
Proof. unfold get_key, bind, load, ret. by rewrite H. Qed.
Lemma bind_get_color (k' : color_t -> M burbTree A) :
  bind (get_color (Some x)) k' s = k' (color n) s.
Proof. unfold get_color, bind, load, ret. by rewrite H. Qed.
Lemma bind_getColor (k' : color_t -> M burbTree A) :
  bind (getColor (Some x)) k' s = k' (color n) s.
Proof. unfold getColor. simpl. apply bind_get_color. Qed.
Lemma bind_get_left (k' : ptr -> M burbTree A) :
  bind (get_left (Some x)) k' s = k' (left n) s.
Proof. unfold get_left, bind, load, ret. by rewrite H. Qed.
Lemma bind_get_right (k' : ptr -> M burbTree A) :
  bind (get_right (Some x)) k' s = k' (right n) s.
Proof. unfold get_right, bind, load, ret. by rewrite H. Qed.
Lemma bind_get_parent (k' : ptr -> M burbTree A) :
  bind (get_parent (Some x)) k' s = k' (parent n) s.
Proof. unfold get_parent, bind, load, ret. by rewrite H. Qed.

Lemma bind_set_key v :
  bind (set_key (Some x) v) k s =
  k tt (with_heap (<[x := mkNode v (color n) (left n) (right n) (parent n)]> (heap s)) s).
Proof. unfold set_key, bind, store. by rewrite H. Qed.
Lemma bind_set_color v :
  bind (set_color (Some x) v) k s =
  k tt (with_heap (<[x := mkNode (key n) v (left n) (right n) (parent n)]> (heap s)) s).
Proof. unfold set_color, bind, store. by rewrite H. Qed.
Lemma bind_setColor v :
  bind (setColor (Some x) v) k s =
  k tt (with_heap (<[x := mkNode (key n) v (left n) (right n) (parent n)]> (heap s)) s).
Proof. unfold setColor. simpl. apply bind_set_color. Qed.
Lemma bind_set_left v :
  bind (set_left (Some x) v) k s =
  k tt (with_heap (<[x := mkNode (key n) (color n) v (right n) (parent n)]> (heap s)) s).
Proof. unfold set_left, bind, store. by rewrite H. Qed.
Lemma bind_set_right v :
  bind (set_right (Some x) v) k s =
  k tt (with_heap (<[x := mkNode (key n) (color n) (left n) v (parent n)]> (heap s)) s).
Proof. unfold set_right, bind, store. by rewrite H. Qed.
Lemma bind_set_parent v :
  bind (set_parent (Some x) v) k s =
  k tt (with_heap (<[x := mkNode (key n) (color n) (left n) (right n) v]> (heap s)) s).
Proof. unfold set_parent, bind, store. by rewrite H. Qed.

Lemma set_color_Some v :
  set_color (Some x) v s =
  Some (tt, with_heap (<[x := mkNode (key n) v (left n) (right n) (parent n)]> (heap s)) s).
Proof. unfold set_color, store. by rewrite H. Qed.
End Exec.

Lemma bind_getColor_null {A} (k : color_t -> M burbTree A) s :
  bind (getColor nulle) k s = k BLACK s.
Proof. reflexivity. Qed.
Lemma bind_setColor_null {A} (k : unit -> M burbTree A) c s :
  bind (setColor nulle c) k s = k tt s.
Proof. reflexivity. Qed.
Lemma bind_get_root {A} (k : ptr -> M burbTree A) s :
  bind get_root k s = k (root s) s.
Proof. reflexivity. Qed.
Lemma bind_set_root {A} (k : unit -> M burbTree A) v s :
  bind (set_root v) k s = k tt (with_root v s).
Proof. reflexivity. Qed.
Lemma bind_ret {A B} (k : A -> M burbTree B) v s : bind (ret v) k s = k v s.
Proof. reflexivity. Qed.
Lemma bind_get {A} (k : burbTree -> M burbTree A) s : bind get k s = k s s.
Proof. reflexivity. Qed.
Lemma bind_modify {A} (k : unit -> M burbTree A) f s :
  bind (modify f) k s = k tt (f s).
Proof. reflexivity. Qed.
Lemma bind_bind {A B C} (m : M burbTree A) (f : A -> M burbTree B)
    (g : B -> M burbTree C) s :
  bind (bind m f) g s = bind m (fun x => bind (f x) g) s.
Proof. unfold bind. destruct (m s) as [[? ?]|]; done. Qed.

Lemma Whole_focus s t ctx :
  Whole s (plug t ctx) <->
  root s = ctx_root ctx (addr t) /\
  Repr (heap s) (ctx_par ctx) t /\ ReprCtx (heap s) ctx (addr t) /\
  NoDup (addrs t ++ ctx_addrs ctx).
Proof.
  unfold Whole. rewrite addr_plug, Repr_plug, addrs_plug. tauto.
Qed.

Lemma NoDup_app3 {A} (l1 l2 l3 : list A) :
  NoDup (l1 ++ l2 ++ l3) ->
  NoDup l1 /\ NoDup l2 /\ NoDup l3 /\
  (forall x, x ∈ l1 -> x ∉ l2) /\ (forall x, x ∈ l1 -> x ∉ l3) /\
  (forall x, x ∈ l2 -> x ∉ l3).
Proof.
  intros H. apply NoDup_app in H as (H1 & H12 & H).
  apply NoDup_app in H as (H2 & H23 & H3).
  split_and!; try done.
  - intros x Hx Hx2. apply (H12 x Hx). set_solver.
  - intros x Hx Hx3. apply (H12 x Hx). set_solver.
Qed.

Ltac hlookup :=
  cbn [heap with_heap with_root with_count with_freed with_brk
       with_rotateL with_rotateR];
  repeat first [ rewrite lookup_insert_eq
               | rewrite lookup_insert_ne by (done || congruence) ];
  first [ eassumption | reflexivity ].

Ltac hstep1 lem s x :=
  let H := fresh "Hlk" in
  eassert (H : heap s !! x = Some _) by hlookup;
  rewrite (lem _ s x _ _ H); clear H;
  cbn [key color left right parent].

Ltac hsimp :=
  cbn [key color left right parent root with_root with_heap heap
       negb ptr_eqb nulle color_eqb andb orb addr];
  repeat match goal with
  | |- context [Nat.eqb ?x ?x] => rewrite (Nat.eqb_refl x)
  | |- context [Nat.eqb ?x ?y] =>
      rewrite (proj2 (Nat.eqb_neq x y)) by (done || congruence)
  end;
  cbn [key color left right parent root with_root with_heap heap
       negb ptr_eqb nulle color_eqb andb orb addr].

Ltac hstep :=
  lazymatch goal with
  | |- bind (get_key (Some ?x)) _ ?s = _ =>
      let H := fresh "Hlk" in eassert (H : heap s !! x = Some _) by hlookup;
      rewrite (bind_get_key s x _ H); clear H
  | |- bind (get_color (Some ?x)) _ ?s = _ =>
      let H := fresh "Hlk" in eassert (H : heap s !! x = Some _) by hlookup;
      rewrite (bind_get_color s x _ H); clear H
  | |- bind (getColor (Some ?x)) _ ?s = _ =>
      let H := fresh "Hlk" in eassert (H : heap s !! x = Some _) by hlookup;
      rewrite (bind_getColor s x _ H); clear H
  | |- bind (get_left (Some ?x)) _ ?s = _ =>
      let H := fresh "Hlk" in eassert (H : heap s !! x = Some _) by hlookup;
      rewrite (bind_get_left s x _ H); clear H
  | |- bind (get_right (Some ?x)) _ ?s = _ =>
      let H := fresh "Hlk" in eassert (H : heap s !! x = Some _) by hlookup;
      rewrite (bind_get_right s x _ H); clear H
  | |- bind (get_parent (Some ?x)) _ ?s = _ =>
      let H := fresh "Hlk" in eassert (H : heap s !! x = Some _) by hlookup;
      rewrite (bind_get_parent s x _ H); clear H
  | |- bind (set_key (Some ?x) ?v) _ ?s = _ =>
      let H := fresh "Hlk" in eassert (H : heap s !! x = Some _) by hlookup;
      rewrite (bind_set_key s x _ _ H); clear H
  | |- bind (set_color (Some ?x) ?v) _ ?s = _ =>
      let H := fresh "Hlk" in eassert (H : heap s !! x = Some _) by hlookup;
      rewrite (bind_set_color s x _ _ H); clear H
  | |- bind (setColor (Some ?x) ?v) _ ?s = _ =>
      let H := fresh "Hlk" in eassert (H : heap s !! x = Some _) by hlookup;
      rewrite (bind_setColor s x _ _ H); clear H
  | |- bind (set_left (Some ?x) ?v) _ ?s = _ =>
      let H := fresh "Hlk" in eassert (H : heap s !! x = Some _) by hlookup;
      rewrite (bind_set_left s x _ _ H); clear H
  | |- bind (set_right (Some ?x) ?v) _ ?s = _ =>
      let H := fresh "Hlk" in eassert (H : heap s !! x = Some _) by hlookup;
      rewrite (bind_set_right s x _ _ H); clear H
  | |- bind (set_parent (Some ?x) ?v) _ ?s = _ =>
      let H := fresh "Hlk" in eassert (H : heap s !! x = Some _) by hlookup;
      rewrite (bind_set_parent s x _ _ H); clear H
  | |- set_color (Some ?x) ?v ?s = _ =>
      let H := fresh "Hlk" in eassert (H : heap s !! x = Some _) by hlookup;
      rewrite (set_color_Some s x _ H); clear H
  | |- bind (getColor nulle) _ _ = _ => rewrite bind_getColor_null
  | |- bind (getColor None) _ _ = _ => rewrite bind_getColor_null
  | |- bind (setColor nulle _) _ _ = _ => rewrite bind_setColor_null
  | |- bind (setColor None _) _ _ = _ => rewrite bind_setColor_null
  | |- bind get_root _ _ = _ => rewrite bind_get_root
  | |- bind (set_root _) _ _ = _ => rewrite bind_set_root
  | |- bind (ret _) _ _ = _ => rewrite bind_ret
  | |- bind get _ _ = _ => rewrite bind_get
  | |- bind (modify _) _ _ = _ => rewrite bind_modify
  | |- bind (bind _ _) _ _ = _ => rewrite bind_bind
  | |- bind (if _ then _ else _) _ _ = _ => fail "conditional"
  end;
  hsimp.

(** *** Distinct addresses *)


Lemma NoDup_app_dj (l1 l2 : list nat) :
  NoDup (l1 ++ l2) <-> NoDup l1 /\ dj l1 l2 /\ NoDup l2.
Proof. apply NoDup_app. Qed.
Lemma dj_app_r l l1 l2 : dj l (l1 ++ l2) <-> dj l l1 /\ dj l l2.
Proof.
  unfold dj. split.
  - intros H. split; intros x Hx Hin; apply (H x Hx); apply elem_of_app; auto.
  - intros [H1 H2] x Hx Hin. apply elem_of_app in Hin as [?|?];
      [by apply (H1 x)|by apply (H2 x)].
Qed.
Lemma dj_cons_r l x l2 : dj l (x :: l2) <-> x ∉ l /\ dj l l2.
Proof.
  unfold dj. split.
  - intros H. split.
    + intros Hx. apply (H x Hx). apply elem_of_cons. by left.
    + intros y Hy Hin. apply (H y Hy). apply elem_of_cons. by right.
  - intros [H1 H2] y Hy Hin. apply elem_of_cons in Hin as [->|Hin];
      [done|by apply (H2 y)].
Qed.
Lemma dj_nil_r l : dj l [] <-> True.
Proof. unfold dj. split; [done|]. intros _ x _. apply not_elem_of_nil. Qed.
Lemma dj_app_l l1 l2 l : dj (l1 ++ l2) l <-> dj l1 l /\ dj l2 l.
Proof.
  unfold dj. split.
  - intros H. split; intros x Hx; apply H; apply elem_of_app; auto.
  - intros [H1 H2] x Hx. apply elem_of_app in Hx as [?|?]; auto.
Qed.
Lemma dj_cons_l x l1 l : dj (x :: l1) l <-> x ∉ l /\ dj l1 l.
Proof.
  unfold dj. split.
  - intros H. split.
    + apply H. apply elem_of_cons. by left.
    + intros y Hy. apply H. apply elem_of_cons. by right.
  - intros [H1 H2] y Hy. apply elem_of_cons in Hy as [->|Hy]; auto.
Qed.
Lemma dj_nil_l l : dj [] l <-> True.
Proof. unfold dj. split; [done|]. intros _ x Hx. by apply elem_of_nil in Hx. Qed.
Lemma dj_sym l1 l2 : dj l1 l2 -> dj l2 l1.
Proof. unfold dj. intros H x Hx Hx'. by apply (H x Hx'). Qed.
Lemma dj_elem l1 l2 x : dj l1 l2 -> x ∈ l1 -> x ∉ l2.
Proof. unfold dj. auto. Qed.
Lemma not_elem_of_nil_iff (x : nat) : x ∉ [] <-> True.
Proof. split; [done|]. intros _. apply not_elem_of_nil. Qed.
Lemma NoDup_nil_iff : NoDup (@nil nat) <-> True.
Proof. split; [done|]. intros _. constructor. Qed.

(** Turn [H : NoDup (...)] into atomic facts. *)
Ltac conj_split :=
  repeat match goal with
  | H' : _ /\ _ |- _ => destruct H' as [? ?]
  | H' : True |- _ => clear H'
  end.

Ltac nodup_facts H :=
  simpl in H; rewrite <- ?app_assoc in H; simpl in H; rewrite <- ?app_assoc in H;
  repeat (rewrite ?NoDup_app_dj, ?NoDup_cons, ?NoDup_nil_iff in H;
          rewrite ?dj_app_r, ?dj_cons_r, ?dj_nil_r in H;
          rewrite ?dj_app_l, ?dj_cons_l, ?dj_nil_l in H;
          rewrite ?not_elem_of_app, ?not_elem_of_cons, ?not_elem_of_nil_iff in H);
  conj_split.

(** [y <> a] and the like from the atomic facts. *)
Ltac ne_solve :=
  first
  [ done
  | congruence
  | let E := fresh in intros E; subst;
    first [ done
          | match goal with
            | Hd : dj ?l1 ?l2, H1 : ?x ∈ ?l1, H2 : ?x ∈ ?l2 |- _ =>
                exact (dj_elem _ _ _ Hd H1 H2)
            | Hd : dj ?l1 ?l2, H1 : ?x ∈ ?l2, H2 : ?x ∈ ?l1 |- _ =>
                exact (dj_elem _ _ _ Hd H2 H1)
            end ] ].

Ltac ext_solve :=
  intros; cbn [heap with_heap with_root with_rotateL with_rotateR];
  rewrite ?lookup_insert_ne by ne_solve; done.

Lemma ptr_eqb_addr_ne a t : a ∉ addrs t -> ptr_eqb (Some a) (addr t) = false.
Proof.
  destruct t as [|x c l k rt]; simpl; [done|]. intros H.
  apply Nat.eqb_neq. intros ->. apply H. set_solver.
Qed.

Lemma ctx_root_in ctx y :
  exists x, ctx_root ctx (Some y) = Some x /\ (x = y \/ x ∈ ctx_addrs ctx).
Proof.
  revert y. induction ctx as [|f ctx IH]; intros y; simpl; [eauto|].
  destruct (IH (faddr f)) as (x & Hx & Hin). exists x. split; [done|].
  right. unfold ctx_addrs, frame_addrs in *. simpl.
  destruct Hin as [->|Hin]; [left|right; apply elem_of_app; by right].
Qed.

Ltac psimpl :=
  cbn [root heap count freed brk rotateL rotateR with_heap with_root
       with_rotateL with_rotateR with_count with_freed with_brk].

Ltac assoc_in H :=
  simpl in H; repeat (progress (rewrite <- ?app_assoc in H; simpl in H)).
Ltac assoc := simpl; repeat (progress (rewrite <- ?app_assoc; simpl)).

Ltac notin_facts H :=
  assoc_in H;
  repeat (rewrite ?not_elem_of_app, ?not_elem_of_cons, ?not_elem_of_nil_iff in H);
  conj_split.

Lemma bind_of {A B} (m : M burbTree A) (k : A -> M burbTree B) s v s' :
  m s = Some (v, s') -> bind m k s = k v s'.
Proof. unfold bind. by intros ->. Qed.

Lemma fixErasure_loop_eq fuel p :
  fixErasure_loop fuel p =
  (rt <- get_root ;;
   c <- (if negb (ptr_eqb p rt) then
           pc <- get_color p ;; ret (color_eqb pc DOUBLE_BLACK)
         else ret false) ;;
   if c then
     match fuel with
     | O => fail
     | S fuel' =>
         res <- fixErasure_body p ;;
         match res with
         | inl p' => fixErasure_loop fuel' p'
         | inr _ => ret tt
         end
     end
   else ret tt).
Proof. by destruct fuel. Qed.

Lemma getColor_frame s h' x c :
  getColor x s = Some (c, s) ->
  (forall a, x = Some a -> h' !! a = heap s !! a) ->
  getColor x (with_heap h' s) = Some (c, with_heap h' s).
Proof.
  destruct x as [a|]; [|by intros [= <-]].
  unfold getColor, get_color, bind, load, ret. simpl. intros H Hh.
  rewrite (Hh a eq_refl). destruct (heap s !! a); [|done]. by injection H as ->.
Qed.

Lemma fixErasure_body_rule3 s p q w np nq nw :
  heap s !! p = Some np -> parent np = Some q ->
  heap s !! q = Some nq -> sibling_of (Some p) nq = Some w ->
  heap s !! w = Some nw -> color nw = BLACK ->
  getColor (left nw) s = Some (BLACK, s) ->
  getColor (right nw) s = Some (BLACK, s) ->
  p <> q -> p <> w -> q <> w ->
  fixErasure_body (Some p) s = Some (inl (Some q), rule3 p q w np nq nw s).
Proof.
  intros Hp Hpar Hq Hw Hnw Hcw Hl Hr Hpq Hpw Hqw.
  destruct np as [kp cp lp rp pp], nq as [kq cq lq rq pq], nw as [kw cw lw rw pw].
  unfold sibling_of, rule3, recolor in *. simpl in *. subst pp cw.
  unfold fixErasure_body. hstep. hstep.
  destruct (match lq with Some y => p =? y | None => false end)%nat eqn:Eside.
  - subst rq. hstep. hstep. hstep.
    rewrite (bind_of _ _ _ _ _ Hl). hstep. rewrite (bind_of _ _ _ _ _ Hr). hsimp.
    hstep. hstep. hstep.
    destruct cq; hsimp; hstep; reflexivity.
  - subst lq. hstep. hstep. hstep.
    rewrite (bind_of _ _ _ _ _ Hl). hstep. rewrite (bind_of _ _ _ _ _ Hr). hsimp.
    hstep. hstep. hstep.
    destruct cq; hsimp; hstep; reflexivity.
Qed.


Lemma ptr_eqb_root_ne s p : root s <> Some p -> ptr_eqb (Some p) (root s) = false.
Proof.
  intros H. destruct (ptr_eqb (Some p) (root s)) eqn:E; [|done].
  apply ptr_eqb_eq in E. congruence.
Qed.

Lemma theight_le_tsize t : (theight t <= tsize t)%nat.
Proof. induction t; simpl; lia. Qed.

Lemma length_inorder t : length (inorder t) = tsize t.
Proof.
  induction t as [|a c l IHl k rt IHr]; simpl; [done|].
  rewrite length_app. simpl. lia.
Qed.

Lemma addr_null_iff t : ptr_eqb (addr t) nulle = true <-> t = E.
Proof. by destruct t. Qed.

(** *** The searches of [erase] and [contains] *)

Lemma erase_search_absent s par t k fuel :
  Repr (heap s) par t -> k ∉ inorder t -> (theight t <= fuel)%nat ->
  erase_search fuel (addr t) k s = Some (nulle, s).
Proof.
  revert par fuel. induction t as [|a c l IHl x rt IHr]; intros par fuel Hrep Hk Hf.
  - by destruct fuel.
  - destruct fuel as [|fuel]; [simpl in Hf; lia|].
    simpl in Hrep. destruct Hrep as (Ha & Hl & Hr).
    simpl in Hk. rewrite not_elem_of_app, not_elem_of_cons in Hk.
    destruct Hk as (Hkl & Hkx & Hkr). simpl in Hf.
    cbn [erase_search addr ptr_eqb nulle negb].
    rewrite (bind_get_key s a _ Ha). cbn [key].
    destruct (k <? x) eqn:E1; [|destruct (k >? x) eqn:E2].
    + rewrite (bind_get_left s a _ Ha). cbn [left]. eapply IHl; [done..|lia].
    + rewrite (bind_get_right s a _ Ha). cbn [right]. eapply IHr; [done..|lia].
    + lia.
Qed.

Lemma contains_loop_spec s par t k fuel :
  Repr (heap s) par t -> AVL.sorted (inorder t) -> (theight t <= fuel)%nat ->
  contains_loop fuel (addr t) k s = Some (bool_decide (k ∈ inorder t), s).
Proof.
  revert par fuel. induction t as [|a c l IHl x rt IHr]; intros par fuel Hrep Hs Hf.
  - by destruct fuel.
  - destruct fuel as [|fuel]; [simpl in Hf; lia|].
    simpl in Hrep. destruct Hrep as (Ha & Hl & Hr).
    simpl in Hs. apply AVLFacts.sorted_mid in Hs as (Hsl & Hsr & Hlx & Hxr).
    rewrite Forall_forall in Hlx. rewrite Forall_forall in Hxr. simpl in Hf.
    cbn [contains_loop addr ptr_eqb nulle negb].
    rewrite (bind_get_key s a _ Ha). cbn [key].
    destruct (k <? x) eqn:E1; [|destruct (k >? x) eqn:E2].
    + rewrite (bind_get_left s a _ Ha). cbn [left].
      rewrite (IHl (Some a) fuel) by (done || lia). f_equal. f_equal.
      apply bool_decide_ext. simpl. rewrite elem_of_app, elem_of_cons.
      split; [tauto|]. intros [?|[?|Hx]]; [done|lia|]. specialize (Hxr _ Hx). lia.
    + rewrite (bind_get_right s a _ Ha). cbn [right].
      rewrite (IHr (Some a) fuel) by (done || lia). f_equal. f_equal.
      apply bool_decide_ext. simpl. rewrite elem_of_app, elem_of_cons.
      split; [tauto|]. intros [Hx|[?|?]]; [|lia|done]. specialize (Hlx _ Hx). lia.
    + unfold ret. f_equal. f_equal. symmetry. apply bool_decide_eq_true.
      assert (k = x) as -> by lia. simpl. set_solver.
Qed.

(** *** [getKeys] *)

Lemma getKeys_at_heap_ok s par t :
  t <> E -> forall fuel A B C,
  Repr (heap s) par t -> (theight t <= fuel)%nat ->
  length B = length (inorder t) ->
  getKeys_at fuel (addr t) (A ++ B ++ C) (length A) s =
    Some ((A ++ inorder t ++ C, (length A + length B)%nat), s).
Proof.
  revert par. induction t as [|a c l IHl k rt IHr]; intros par Hnn fuel A B C Hrep Hf HB;
    [done|].
  clear Hnn. destruct fuel as [|fuel]; [simpl in Hf; lia|].
  simpl in Hrep. destruct Hrep as (Ha & Hl & Hr). simpl in Hf.
  cbn [inorder] in HB. rewrite length_app in HB. cbn [length] in HB.
  assert (exists Bl x Br, B = Bl ++ x :: Br /\ length Bl = length (inorder l) /\
                          length Br = length (inorder rt)) as (Bl & x & Br & -> & HBl & HBr).
  { exists (take (length (inorder l)) B),
           (default 0 (B !! length (inorder l))),
           (drop (S (length (inorder l))) B).
    assert (is_Some (B !! length (inorder l))) as [y Hy].
    { apply lookup_lt_is_Some. lia. }
    rewrite Hy. simpl. split_and!.
    - by rewrite <- (take_drop_middle _ _ _ Hy) at 1.
    - rewrite length_take. lia.
    - rewrite length_drop. lia. }
  cbn [getKeys_at inorder addr].
  rewrite (bind_get_left s a _ Ha). cbn [left].
  assert (E1 : (if negb (ptr_eqb (addr l) nulle)
                then getKeys_at fuel (addr l) (A ++ (Bl ++ x :: Br) ++ C) (length A)
                else ret (A ++ (Bl ++ x :: Br) ++ C, length A)) s
               = Some ((A ++ inorder l ++ (x :: Br) ++ C, (length A + length Bl)%nat), s)).
  { destruct l as [|al cl ll kl rl].
    - destruct Bl; [|done]. simpl. unfold ret. f_equal. f_equal. f_equal. lia.
    - cbn [addr ptr_eqb nulle negb]. rewrite <- (app_assoc Bl).
      rewrite (IHl (Some a)) by (done || lia). done. }
  rewrite (bind_of _ _ _ _ _ E1). rewrite (bind_get_key s a _ Ha). cbn [key].
  assert (Hlen : length (A ++ inorder l) = (length A + length Bl)%nat).
  { rewrite length_app. lia. }
  destruct (decide _) as [Hlt|Hge].
  2:{ exfalso. apply Hge. rewrite !length_app. simpl. lia. }
  assert (E2 : <[(length A + length Bl)%nat := k]> (A ++ inorder l ++ (x :: Br) ++ C)
               = (A ++ inorder l ++ [k]) ++ Br ++ C).
  { rewrite (app_assoc A), <- Hlen.
    rewrite insert_app_r_alt by lia. rewrite Nat.sub_diag. simpl.
    by rewrite <- !app_assoc. }
  rewrite E2.
  assert (Hlen2 : S (length A + length Bl) = length (A ++ inorder l ++ [k])).
  { rewrite !length_app. simpl. lia. }
  rewrite Hlen2. rewrite (bind_get_right s a _ Ha). cbn [right].
  destruct rt as [|ar cr lr kr rr].
  - destruct Br; [|done]. simpl. unfold ret. rewrite <- !app_assoc. simpl.
    f_equal. f_equal. f_equal. rewrite !length_app. simpl. lia.
  - cbn [addr ptr_eqb nulle negb].
    rewrite (IHr (Some a)) by (done || lia). rewrite <- !app_assoc. simpl.
    f_equal. f_equal. f_equal. rewrite !length_app. simpl. lia.
Qed.

Lemma getKeys_spec s t v :
  Holds s t -> (tsize t <= length v)%nat ->
  getKeys v s = Some (inorder t ++ drop (tsize t) v, s).
Proof.
  intros [(Hroot & Hrep & _) Hc] Hle. unfold getKeys.
  rewrite bind_get, Hroot. destruct t as [|a c l k rt].
  - simpl. by rewrite drop_0.
  - cbn [addr ptr_eqb nulle negb].
    pose proof (getKeys_at_heap_ok s nulle (T a c l k rt) ltac:(done) (S (count s)) []
                  (take (tsize (T a c l k rt)) v) (drop (tsize (T a c l k rt)) v) Hrep) as H.
    rewrite take_drop in H. cbn [length app] in H.
    unfold bind. cbn [addr] in H. rewrite H.
    + done.
    + pose proof (theight_le_tsize (T a c l k rt)). lia.
    + rewrite length_take, length_inorder. lia.
Qed.

Lemma erase_absent s t k :
  Holds s t -> k ∉ inorder t -> erase k s = Some (false, s).
Proof.
  intros [(Hroot & Hrep & _) Hc] Hk. unfold erase. rewrite bind_get, Hroot.
  pose proof (theight_le_tsize t).
  rewrite (bind_of _ _ _ _ _ (erase_search_absent s nulle t k (S (count s)) Hrep Hk
                                ltac:(lia))).
  done.
Qed.

Lemma contains_spec s t k :
  Holds s t -> AVL.sorted (inorder t) ->
  contains k s = Some (bool_decide (k ∈ inorder t), s).
Proof.
  intros [(Hroot & Hrep & _) Hc] Hs. unfold contains. rewrite bind_get, Hroot.
  destruct t as [|a c l x rt]; [done|]. cbn [addr ptr_eqb nulle negb].
  apply (contains_loop_spec s nulle (T a c l x rt)); [done..|].
  pose proof (theight_le_tsize (T a c l x rt)). lia.
Qed.

Ltac repr_solve :=
  first [ done
        | hlookup
        | eapply Repr_ext; [eassumption | ext_solve]
        | eapply ReprCtx_ext; [eassumption | ext_solve] ].

Ltac nodup_solve H :=
  unfold ctx_addrs, frame_addrs in *; assoc_in H; assoc; exact H.

Lemma ptr_eqb_ctx_root s a ctx f :
  root s = ctx_root (f :: ctx) (Some a) -> a ∉ ctx_addrs (f :: ctx) ->
  ptr_eqb (Some a) (root s) = false.
Proof.
  intros Hr Ha. destruct (ctx_root_cons f ctx (Some a)) as (x & Hx & Hin).
  rewrite Hr, Hx. apply ptr_eqb_ne. intros ->. done.
Qed.

Lemma rotateLeft_spec s ctx a c l k b c' rl k' rr :
  Whole s (plug (T a c l k (T b c' rl k' rr)) ctx) ->
  exists s', rotateLeft (Some a) s = Some (tt, s') /\
    Whole s' (plug (T b c' (T a c l k rl) k' rr) ctx) /\
    same_outside (addrs (T a c l k (T b c' rl k' rr)) ++ ctx_addrs ctx) s s' /\
    count s' = count s /\ freed s' = freed s /\ brk s' = brk s.
Proof.
  rewrite Whole_focus. unfold same_outside.
  intros (Hroot & Hrep & Hctx & Hnd). simpl in Hrep, Hroot.
  destruct Hrep as (Ha & Hl & Hb & Hrl & Hrr).
  destruct ctx as [|[d fa fc fk fs] ctx'].
  - (* at the root *)
    unfold ctx_addrs in *. simpl in Hroot, Ha, Hctx |- *.
    pose proof Hnd as Hnd0. assoc_in Hnd0.
    destruct rl as [|x cx xl xk xr]; [|destruct Hrl as (Hx & Hxl & Hxr)];
      nodup_facts Hnd.
    all: eexists; split;
      [ unfold rotateLeft; cbn [addr]; repeat hstep; rewrite Hroot; hsimp;
        repeat hstep; reflexivity | ].
    all: psimpl; split_and!; try done;
      [ apply (Whole_focus _ _ []); psimpl; simpl; split_and!; try repr_solve;
        nodup_solve Hnd0
      | intros y Hy; notin_facts Hy; ext_solve ].
  - (* below a parent *)
    assert (Hne : ptr_eqb (Some a) (root s) = false).
    { eapply ptr_eqb_ctx_root; [exact Hroot|].
      apply NoDup_app in Hnd as (_ & Hd & _). apply Hd. simpl. set_solver. }
    cbn [ptr_eqb] in Hne.
    simpl in Hctx. destruct Hctx as (Hf & Hfs & Hc').
    unfold ctx_addrs, frame_addrs in *. simpl in Hroot, Ha, Hf, Hnd |- *.
    fold (ctx_addrs ctx') in *.
    pose proof Hnd as Hnd0. assoc_in Hnd0.
    destruct d; (destruct rl as [|x cx xl xk xr]; [|destruct Hrl as (Hx & Hxl & Hxr)]);
      nodup_facts Hnd.
    all: try (assert (Hnfs : ptr_eqb (Some a) (addr fs) = false)
                by (apply ptr_eqb_addr_ne; done); cbn [ptr_eqb] in Hnfs).
    all: eexists; split;
      [ unfold rotateLeft; cbn [addr]; repeat hstep; rewrite Hne; hsimp;
        repeat hstep; rewrite ?Hnfs; hsimp; repeat hstep; reflexivity | ].
    all: psimpl; split_and!; try done;
      [ apply (Whole_focus _ _ (_ :: _)); psimpl; simpl; split_and!; try repr_solve;
        nodup_solve Hnd0
      | intros y Hy; notin_facts Hy; ext_solve ].
Qed.


Lemma rotateRight_spec s ctx a c b c' ll k' lr k r :
  Whole s (plug (T a c (T b c' ll k' lr) k r) ctx) ->
  exists s', rotateRight (Some a) s = Some (tt, s') /\
    Whole s' (plug (T b c' ll k' (T a c lr k r)) ctx) /\
    same_outside (addrs (T a c (T b c' ll k' lr) k r) ++ ctx_addrs ctx) s s' /\
    count s' = count s /\ freed s' = freed s /\ brk s' = brk s.
Proof.
  rewrite Whole_focus. unfold same_outside.
  intros (Hroot & Hrep & Hctx & Hnd). simpl in Hrep, Hroot.
  destruct Hrep as (Ha & (Hb & Hll & Hlr) & Hr).
  destruct ctx as [|[d fa fc fk fs] ctx'].
  - (* at the root *)
    unfold ctx_addrs in *. simpl in Hroot, Ha, Hctx |- *.
    pose proof Hnd as Hnd0. assoc_in Hnd0.
    destruct lr as [|x cx xl xk xr]; [|destruct Hlr as (Hx & Hxl & Hxr)];
      nodup_facts Hnd.
    all: eexists; split;
      [ unfold rotateRight; cbn [addr]; repeat hstep; rewrite Hroot; hsimp;
        repeat hstep; reflexivity | ].
    all: psimpl; split_and!; try done;
      [ apply (Whole_focus _ _ []); psimpl; simpl; split_and!; try repr_solve;
        nodup_solve Hnd0
      | intros y Hy; notin_facts Hy; ext_solve ].
  - (* below a parent *)
    assert (Hne : ptr_eqb (Some a) (root s) = false).
    { eapply ptr_eqb_ctx_root; [exact Hroot|].
      apply NoDup_app in Hnd as (_ & Hd & _). apply Hd. simpl. set_solver. }
    cbn [ptr_eqb] in Hne.
    simpl in Hctx. destruct Hctx as (Hf & Hfs & Hc').
    unfold ctx_addrs, frame_addrs in *. simpl in Hroot, Ha, Hf, Hnd |- *.
    fold (ctx_addrs ctx') in *.
    pose proof Hnd as Hnd0. assoc_in Hnd0.
    destruct d; (destruct lr as [|x cx xl xk xr]; [|destruct Hlr as (Hx & Hxl & Hxr)]);
      nodup_facts Hnd.
    all: try (assert (Hnfs : ptr_eqb (Some a) (addr fs) = false)
                by (apply ptr_eqb_addr_ne; done); cbn [ptr_eqb] in Hnfs).
    all: eexists; split;
      [ unfold rotateRight; cbn [addr]; repeat hstep; rewrite Hne; hsimp;
        repeat hstep; rewrite ?Hnfs; hsimp; repeat hstep; reflexivity | ].
    all: psimpl; split_and!; try done;
      [ apply (Whole_focus _ _ (_ :: _)); psimpl; simpl; split_and!; try repr_solve;
        nodup_solve Hnd0
      | intros y Hy; notin_facts Hy; ext_solve ].
Qed.

(** *** Steps on the tree held by the container *)

Lemma cells_fill f t t' : cells t' = cells t -> cells (fill f t') = cells (fill f t).
Proof. unfold fill. destruct (fdir f); simpl; by intros ->. Qed.

Lemma cells_plug ctx : forall t t', cells t' = cells t -> cells (plug t' ctx) = cells (plug t ctx).
Proof.
  induction ctx as [|f ctx IH]; intros t t' H; simpl; [done|].
  by apply IH, cells_fill.
Qed.

Lemma addrs_of_cells t : addrs t = (cells t).*1.
Proof.
  induction t as [|a c l IHl k rt IHr]; simpl; [done|].
  by rewrite fmap_app, fmap_cons, IHl, IHr.
Qed.

Lemma inorder_of_cells t : inorder t = (cells t).*2.
Proof.
  induction t as [|a c l IHl k rt IHr]; simpl; [done|].
  by rewrite fmap_app, fmap_cons, IHl, IHr.
Qed.

Lemma Upd_refl s T : Whole s T -> Upd s T s T.
Proof. intros H. unfold Upd, same_outside. split_and!; done. Qed.

Lemma Upd_trans s1 T1 s2 T2 s3 T3 :
  Upd s1 T1 s2 T2 -> Upd s2 T2 s3 T3 -> Upd s1 T1 s3 T3.
Proof.
  unfold Upd, same_outside.
  intros (_ & Ho1 & ? & ? & ? & Hc1) (HW & Ho2 & ? & ? & ? & Hc2).
  split_and!; try congruence.
  intros x Hx. rewrite Ho2, Ho1; [done|done|].
  by rewrite addrs_of_cells, Hc1, <- addrs_of_cells.
Qed.

Lemma focus_lookup s a c l k r ctx :
  Whole s (plug (T a c l k r) ctx) ->
  heap s !! a = Some (mkNode k c (addr l) (addr r) (ctx_par ctx)).
Proof. rewrite Whole_focus. simpl. tauto. Qed.

Lemma same_outside_plug s s' t ctx :
  same_outside (addrs t ++ ctx_addrs ctx) s s' -> same_outside (addrs (plug t ctx)) s s'.
Proof.
  unfold same_outside. intros H x Hx. apply H. by rewrite <- addrs_plug.
Qed.

Lemma rotateLeft_upd s ctx a c l k b c' rl k' rr :
  Whole s (plug (T a c l k (T b c' rl k' rr)) ctx) ->
  exists s', rotateLeft (Some a) s = Some (tt, s') /\
    Upd s (plug (T a c l k (T b c' rl k' rr)) ctx)
        s' (plug (T b c' (T a c l k rl) k' rr) ctx).
Proof.
  intros H. destruct (rotateLeft_spec _ _ _ _ _ _ _ _ _ _ _ H) as (s' & E & HW & Ho & ? & ? & ?).
  exists s'. split; [done|]. unfold Upd. split_and!; try done.
  - by apply same_outside_plug.
  - apply cells_plug. simpl. by rewrite <- !app_assoc.
Qed.

Lemma rotateRight_upd s ctx a c b c' ll k' lr k r :
  Whole s (plug (T a c (T b c' ll k' lr) k r) ctx) ->
  exists s', rotateRight (Some a) s = Some (tt, s') /\
    Upd s (plug (T a c (T b c' ll k' lr) k r) ctx)
        s' (plug (T b c' ll k' (T a c lr k r)) ctx).
Proof.
  intros H. destruct (rotateRight_spec _ _ _ _ _ _ _ _ _ _ _ H) as (s' & E & HW & Ho & ? & ? & ?).
  exists s'. split; [done|]. unfold Upd. split_and!; try done.
  - by apply same_outside_plug.
  - apply cells_plug. simpl. by rewrite <- !app_assoc.
Qed.

Lemma set_color_upd s ctx a c l k r c' :
  Whole s (plug (T a c l k r) ctx) ->
  exists s', set_color (Some a) c' s = Some (tt, s') /\
    Upd s (plug (T a c l k r) ctx) s' (plug (T a c' l k r) ctx).
Proof.
  intros H. pose proof (focus_lookup _ _ _ _ _ _ _ H) as Ha.
  eexists. split; [by rewrite (set_color_Some s a _ Ha)|].
  cbn [key color left right parent].
  apply Whole_focus in H as (Hroot & Hrep & Hctx & Hnd).
  simpl in Hrep. destruct Hrep as (_ & Hl & Hr).
  pose proof Hnd as Hnd0. nodup_facts Hnd.
  unfold Upd, same_outside. psimpl. split_and!; try done.
  - apply Whole_focus. psimpl. simpl. split_and!; try repr_solve.
  - intros x Hx. rewrite addrs_plug in Hx. notin_facts Hx. ext_solve.
  - by apply cells_plug.
Qed.

(** *** Reasoning about computations *)

Lemma wp_eq {A} (m m' : M burbTree A) s Q : m s = m' s -> wp m' s Q -> wp m s Q.
Proof. unfold wp. by intros ->. Qed.

Lemma wp_step {A B} (m : M burbTree A) (K : A -> M burbTree B) s v s1 Q :
  m s = Some (v, s1) -> wp (K v) s1 Q -> wp (bind m K) s Q.
Proof. unfold wp, bind. by intros ->. Qed.

Lemma wp_ret {A} (v : A) s (Q : A -> burbTree -> Prop) : Q v s -> wp (ret v) s Q.
Proof. intros H. by exists v, s. Qed.

Lemma wp_bind {A B} (m : M burbTree A) (K : A -> M burbTree B) s Q :
  wp m s (fun v s1 => wp (K v) s1 Q) -> wp (bind m K) s Q.
Proof.
  unfold wp, bind. intros (v & s1 & -> & w & s2 & E & HQ). by exists w, s2.
Qed.

Lemma wp_mono {A} (m : M burbTree A) s (Q Q' : A -> burbTree -> Prop) :
  wp m s Q -> (forall v s', Q v s' -> Q' v s') -> wp m s Q'.
Proof. unfold wp. intros (v & s' & E & HQ) H. exists v, s'. auto. Qed.

Lemma wp_elim {A} (m : M burbTree A) s Q :
  wp m s Q -> exists v s', m s = Some (v, s') /\ Q v s'.
Proof. done. Qed.

(** *** Tests on pointers *)

Lemma root_test s a c l k r ctx :
  Whole s (plug (T a c l k r) ctx) ->
  ptr_eqb (Some a) (root s) = match ctx with [] => true | _ :: _ => false end.
Proof.
  rewrite Whole_focus. intros (Hroot & _ & _ & Hnd).
  destruct ctx as [|f ctx].
  - rewrite Hroot. simpl. apply Nat.eqb_refl.
  - eapply ptr_eqb_ctx_root; [exact Hroot|].
    apply NoDup_app in Hnd as (_ & Hd & _). apply Hd. simpl. set_solver.
Qed.

Lemma side_test s a c l k r d fa fc fk fs ctx :
  Whole s (plug (T a c l k r) (Frame d fa fc fk fs :: ctx)) ->
  ptr_eqb (Some a) (addr fs) = false.
Proof.
  rewrite Whole_focus. intros (_ & _ & _ & Hnd).
  unfold ctx_addrs, frame_addrs in Hnd. nodup_facts Hnd.
  apply ptr_eqb_addr_ne. done.
Qed.

Lemma Whole_distinct_parent s a c l k r d fa fc fk fs ctx :
  Whole s (plug (T a c l k r) (Frame d fa fc fk fs :: ctx)) -> a <> fa.
Proof.
  rewrite Whole_focus. intros (_ & _ & _ & Hnd).
  unfold ctx_addrs, frame_addrs in Hnd. nodup_facts Hnd. done.
Qed.

(** *** Moving the focus *)

Ltac wup H :=
  lazymatch type of H with
  | Whole ?s (plug ?t (Frame Lft ?fa ?fc ?fk ?fs :: ?ctx)) =>
      change (Whole s (plug (T fa fc t fk fs) ctx)) in H
  | Whole ?s (plug ?t (Frame Rgt ?fa ?fc ?fk ?fs :: ?ctx)) =>
      change (Whole s (plug (T fa fc fs fk t) ctx)) in H
  end.
Ltac wdownl H :=
  lazymatch type of H with
  | Whole ?s (plug (T ?a ?c ?l ?k ?r) ?ctx) =>
      change (Whole s (plug l (Frame Lft a c k r :: ctx))) in H
  end.
Ltac wdownr H :=
  lazymatch type of H with
  | Whole ?s (plug (T ?a ?c ?l ?k ?r) ?ctx) =>
      change (Whole s (plug r (Frame Rgt a c k l :: ctx))) in H
  end.
Ltac wfocus a H :=
  lazymatch type of H with
  | Whole _ (plug (T a _ _ _ _) _) => idtac
  | Whole _ (plug (T _ _ ?l _ ?r) _) =>
      lazymatch l with
      | context [T a _ _ _ _] => wdownl H; wfocus a H
      | _ => lazymatch r with
             | context [T a _ _ _ _] => wdownr H; wfocus a H
             | _ => wup H; wfocus a H
             end
      end
  | Whole _ (plug _ (_ :: _)) => wup H; wfocus a H
  end.

(** The hypothesis [Whole s _] about the current state. *)
Ltac whole_of s k :=
  lazymatch goal with
  | H : Whole s _ |- _ => k H
  end.

Ltac wsimp :=
  cbn [key color left right parent addr ctx_par faddr fcolor fkey fsib fdir
       negb color_eqb andb orb].

Ltac wlookup a s :=
  whole_of s ltac:(fun H => wfocus a H; exact (focus_lookup _ _ _ _ _ _ _ H)).

(** One step of symbolic execution of a goal [wp prog s Q]. *)
Ltac wread lem a s :=
  let Hl := fresh "Hl" in
  eassert (Hl : heap s !! a = Some _) by wlookup a s;
  eapply wp_eq; [apply (lem _ s a _ Hl)|]; clear Hl; wsimp.

Ltac wupd lem :=
  lazymatch goal with
  | HU : Upd ?s0 ?T0 ?s _, H : Whole ?s _ |- wp (bind _ _) ?s _ =>
      let s1 := fresh "s" in let E := fresh "E" in let HU1 := fresh "HU" in
      destruct lem as (s1 & E & HU1);
      eapply wp_step; [exact E|]; clear E;
      let HU' := fresh "HU" in
      pose proof (Upd_trans _ _ _ _ _ _ HU HU1) as HU';
      let HW' := fresh "HW" in
      pose proof (proj1 HU1) as HW';
      clear HU HU1 H
  end.

Lemma wp_tail {A} (m : M burbTree A) s Q :
  wp (bind m (fun v => ret v)) s Q -> wp m s Q.
Proof.
  unfold wp, bind, ret. intros (v & s' & E & HQ).
  destruct (m s) as [[v1 s1]|]; [|done]. injection E as -> ->. eauto.
Qed.

Ltac uup H :=
  lazymatch type of H with
  | Upd ?s0 ?T0 ?s (plug ?t (Frame Lft ?fa ?fc ?fk ?fs :: ?ctx)) =>
      change (Upd s0 T0 s (plug (T fa fc t fk fs) ctx)) in H
  | Upd ?s0 ?T0 ?s (plug ?t (Frame Rgt ?fa ?fc ?fk ?fs :: ?ctx)) =>
      change (Upd s0 T0 s (plug (T fa fc fs fk t) ctx)) in H
  end.

Ltac udownl H :=
  lazymatch type of H with
  | Upd ?s0 ?T0 ?s (plug (T ?a ?c ?l ?k ?r) ?ctx) =>
      change (Upd s0 T0 s (plug l (Frame Lft a c k r :: ctx))) in H
  end.
Ltac udownr H :=
  lazymatch type of H with
  | Upd ?s0 ?T0 ?s (plug (T ?a ?c ?l ?k ?r) ?ctx) =>
      change (Upd s0 T0 s (plug r (Frame Rgt a c k l :: ctx))) in H
  end.
Ltac ufocus a H :=
  lazymatch type of H with
  | Upd _ _ _ (plug (T a _ _ _ _) _) => idtac
  | Upd _ _ _ (plug (T _ _ ?l _ ?r) _) =>
      lazymatch l with
      | context [T a _ _ _ _] => udownl H; ufocus a H
      | _ => lazymatch r with
             | context [T a _ _ _ _] => udownr H; ufocus a H
             | _ => uup H; ufocus a H
             end
      end
  | Upd _ _ _ (plug _ (_ :: _)) => uup H; ufocus a H
  end.

Ltac wstep :=
  lazymatch goal with
  | |- wp (set_color _ _) _ _ => apply wp_tail
  | |- wp (setColor _ _) _ _ => apply wp_tail
  | |- wp (rotateLeft _) _ _ => apply wp_tail
  | |- wp (rotateRight _) _ _ => apply wp_tail
  | |- wp (swap_color _ _) _ _ => unfold swap_color
  | |- wp (bind (bind _ _) _) _ _ => eapply wp_eq; [apply bind_bind|]
  | |- wp (bind (ret _) _) _ _ => eapply wp_eq; [apply bind_ret|]; wsimp
  | |- wp (bind get_root _) ?s _ => eapply wp_eq; [apply bind_get_root|]
  | |- wp (bind get _) ?s _ => eapply wp_eq; [apply bind_get|]
  | |- wp (bind (get_key (Some ?a)) _) ?s _ => wread @bind_get_key a s
  | |- wp (bind (get_color (Some ?a)) _) ?s _ => wread @bind_get_color a s
  | |- wp (bind (getColor (Some ?a)) _) ?s _ => wread @bind_getColor a s
  | |- wp (bind (get_left (Some ?a)) _) ?s _ => wread @bind_get_left a s
  | |- wp (bind (get_right (Some ?a)) _) ?s _ => wread @bind_get_right a s
  | |- wp (bind (get_parent (Some ?a)) _) ?s _ => wread @bind_get_parent a s
  | |- wp (bind (getColor nulle) _) _ _ => eapply wp_eq; [apply bind_getColor_null|]; wsimp
  | |- wp (bind (getColor None) _) _ _ => eapply wp_eq; [apply bind_getColor_null|]; wsimp
  | |- wp (bind (setColor nulle _) _) _ _ => eapply wp_eq; [apply bind_setColor_null|]
  | |- wp (bind (setColor None _) _) _ _ => eapply wp_eq; [apply bind_setColor_null|]
  | |- wp (bind (set_color (Some ?a) ?c') _) ?s _ =>
      whole_of s ltac:(fun H => wfocus a H;
        wupd (set_color_upd _ _ _ _ _ _ _ c' H))
  | |- wp (bind (setColor (Some ?a) ?c') _) ?s _ =>
      change (setColor (Some a) c') with (set_color (Some a) c');
      whole_of s ltac:(fun H => wfocus a H;
        wupd (set_color_upd _ _ _ _ _ _ _ c' H))
  | |- wp (bind (rotateLeft (Some ?a)) _) ?s _ =>
      whole_of s ltac:(fun H => wfocus a H;
        wupd (rotateLeft_upd _ _ _ _ _ _ _ _ _ _ _ H))
  | |- wp (bind (rotateRight (Some ?a)) _) ?s _ =>
      whole_of s ltac:(fun H => wfocus a H;
        wupd (rotateRight_upd _ _ _ _ _ _ _ _ _ _ _ H))
  end.


Lemma Whole_NoDup s t ctx :
  Whole s (plug t ctx) -> NoDup (addrs t ++ ctx_addrs ctx).
Proof. rewrite Whole_focus. tauto. Qed.

(** Two nodes at different places of the tree have different addresses. *)
Ltac whole_ne H :=
  let Hnd := fresh "Hnd" in
  pose proof (Whole_NoDup _ _ _ H) as Hnd;
  unfold ctx_addrs, frame_addrs in Hnd;
  nodup_facts Hnd; first [ done | congruence ].

(** Pointer tests in the program of the goal. *)
Ltac wtest :=
  match goal with
  | |- context [ptr_eqb (Some ?a) (Some ?a)] => rewrite (ptr_eqb_refl (Some a))
  | |- wp _ ?s _ =>
      match goal with
      | |- context [ptr_eqb (Some ?a) (Some ?b)] =>
          let Hn := fresh "Hn" in
          assert (Hn : a <> b) by (whole_of s ltac:(fun H => whole_ne H));
          rewrite (ptr_eqb_ne a b Hn); clear Hn
      end
  | |- context [ptr_eqb nulle nulle] => change (ptr_eqb nulle nulle) with true
  | |- context [ptr_eqb None nulle] => change (ptr_eqb None nulle) with true
  | |- context [ptr_eqb (Some ?a) nulle] => change (ptr_eqb (Some a) nulle) with false
  | |- context [ptr_eqb (Some ?a) None] => change (ptr_eqb (Some a) None) with false
  | |- wp _ ?s _ =>
      match goal with
      | |- context [ptr_eqb (Some ?a) (root s)] =>
          whole_of s ltac:(fun H => wfocus a H;
            rewrite (root_test _ _ _ _ _ _ _ H))
      | |- context [ptr_eqb (Some ?a) (addr ?fs)] =>
          whole_of s ltac:(fun H => wfocus a H;
            rewrite (side_test _ _ _ _ _ _ _ _ _ _ _ _ H))
      end
  end; wsimp.

Ltac wgo := repeat first [ wstep | wtest ].

(** *** Red-black trees and contexts *)

Lemma rb_croot t n : rb t n -> croot t <> DOUBLE_BLACK.
Proof. destruct t as [|a [] l k r]; simpl; try done. Qed.

Lemma rb_blacken t n : rb t n -> exists m, rb (blacken t) m.
Proof.
  destruct t as [|a [] l k r]; simpl; [eauto| | |done].
  - intros (_ & _ & Hl & Hr). exists (S n). eauto.
  - intros (m & -> & Hl & Hr). exists (S m). eauto.
Qed.

Lemma rb_fill f t n :
  rb t n -> rb (fsib f) n ->
  match fcolor f with
  | RED => croot t = BLACK /\ croot (fsib f) = BLACK
  | BLACK => True
  | DOUBLE_BLACK => False
  end ->
  rb (fill f t) (match fcolor f with BLACK => S n | _ => n end).
Proof.
  unfold fill. destruct (fdir f), (fcolor f); simpl; intros; try done;
    try (destruct_and?; split_and!; done); eauto.
Qed.

Lemma rb_plug ctx : forall t n,
  rb t n -> cinv ctx n -> (croot t = RED -> cblack ctx) ->
  exists m, rb (plug t ctx) m.
Proof.
  induction ctx as [|f ctx IH]; intros t n Ht Hc Hred; simpl; [eauto|].
  simpl in Hc. destruct Hc as (Hs & Hc).
  destruct (fcolor f) eqn:Ef.
  - destruct Hc as (Hcs & Hne & Hb & Hc).
    apply (IH (fill f t) n); [|done|done].
    pose proof (rb_fill f t n Ht Hs) as H. rewrite Ef in H. apply H.
    split; [|done]. pose proof (rb_croot _ _ Ht).
    destruct (croot t) eqn:Ec; [|done|done].
    specialize (Hred eq_refl). simpl in Hred. congruence.
  - apply (IH (fill f t) (S n)); [|done|].
    + pose proof (rb_fill f t n Ht Hs) as H. rewrite Ef in H. by apply H.
    + unfold fill. destruct (fdir f); simpl; congruence.
  - done.
Qed.

Lemma rb_plug_blacken ctx t n :
  rb t n -> cinv ctx n -> (croot t = RED -> cblack ctx) ->
  exists m, rb (blacken (plug t ctx)) m.
Proof.
  intros Ht Hc Hred. destruct (rb_plug ctx t n Ht Hc Hred) as (m & Hm).
  by eapply rb_blacken.
Qed.

Lemma fixInsertion_loop_eq fuel p :
  fixInsertion_loop fuel p =
  (rt <- get_root ;;
   c <- (if negb (ptr_eqb p rt) then
           pc <- get_color p ;;
           if color_eqb pc RED then
             pp <- get_parent p ;;
             ppc <- getColor pp ;;
             ret (color_eqb ppc RED)
           else ret false
         else ret false) ;;
   if c then
     match fuel with
     | O => fail
     | S fuel' =>
         parent_ <- get_parent p ;;
         grandparent <- get_parent parent_ ;;
         gl <- get_left grandparent ;;
         if ptr_eqb parent_ gl then
           uncle <- get_right grandparent ;;
           uc <- getColor uncle ;;
           if color_eqb uc RED then
             setColor uncle BLACK ;;;
             set_color parent_ BLACK ;;;
             set_color grandparent RED ;;;
             fixInsertion_loop fuel' grandparent
           else
             pr <- get_right parent_ ;;
             parent' <- (if ptr_eqb p pr then
                           rotateLeft parent_ ;;;
                           get_parent parent_
                         else ret parent_) ;;
             rotateRight grandparent ;;;
             swap_color parent' grandparent
         else
           uncle <- get_left grandparent ;;
           uc <- getColor uncle ;;
           if color_eqb uc RED then
             setColor uncle BLACK ;;;
             set_color parent_ BLACK ;;;
             set_color grandparent RED ;;;
             fixInsertion_loop fuel' grandparent
           else
             pl <- get_left parent_ ;;
             parent' <- (if ptr_eqb p pl then
                           rotateRight parent_ ;;;
                           get_parent parent_
                         else ret parent_) ;;
             rotateLeft grandparent ;;;
             swap_color parent' grandparent
     end
   else ret tt).
Proof. by destruct fuel. Qed.

Ltac rb_solve :=
  cbn [rb croot] in *; destruct_and?;
  repeat match goal with
         | H : exists _, _ |- _ => destruct H as (? & ? & ? & ?)
         end;
  simplify_eq; cbn [rb croot];
  repeat first [ done | split | eexists ].

Lemma fixInsertion_loop_spec N : forall ctx, (length ctx <= N)%nat ->
  forall s s0 T0 a l k r n fuel,
  Upd s0 T0 s (plug (T a RED l k r) ctx) ->
  rb (T a RED l k r) n -> cinv ctx n -> (length ctx <= fuel)%nat ->
  wp (fixInsertion_loop fuel (Some a)) s
     (fun _ s' => exists T', Upd s0 T0 s' T' /\ exists m, rb (blacken T') m).
Proof.
  induction N as [N IH] using lt_wf_ind.
  intros ctx HN s s0 T0 a l k r n fuel HU Hrb Hc Hfuel.
  pose proof (proj1 HU) as HW.
  rewrite fixInsertion_loop_eq.
  destruct ctx as [|[d fa fc fk fs] ctx'].
  - (* the node is the root *)
    wgo. apply wp_ret. eexists. split; [exact HU|].
    simpl. exists (S n). rb_solve.
  - destruct d, fc; try (simpl in Hc; tauto).
    all: try (wgo; apply wp_ret; eexists; split; [exact HU|];
              apply (rb_plug_blacken _ _ n); [done|done|done]).
    all: simpl in Hc; destruct Hc as (Hfs & Hcfs & Hne & Hgb & Hc');
      destruct ctx' as [|[d2 ga gc gk gs] ctx'']; [done|]; simpl in Hgb; subst gc;
      simpl in Hc'; destruct Hc' as (Hgs & Hc'');
      (destruct fuel as [|fuel]; [simpl in Hfuel; lia|]);
      wgo; destruct d2; wgo.
    all: destruct gs as [|u [] ul uk ur]; try (simpl in Hgs; tauto); wsimp; wgo.
    all: try (match goal with
              | HU' : Upd _ _ ?s1 _ |- wp (fixInsertion_loop _ _) ?s1 _ =>
                  assert (Hlt : (length ctx'' < N)%nat) by (simpl in HN; lia);
                  eapply (IH (length ctx'') Hlt ctx'' (Nat.le_refl _)
                            _ _ _ _ _ _ _ (S n) fuel HU');
                    [rb_solve|done|simpl in Hfuel; lia]
              end).
    all: match goal with
         | HU' : Upd _ _ ?s1 _ |- wp (ret _) ?s1 _ =>
             apply wp_ret; repeat uup HU'; eexists; (split; [exact HU'|]);
             apply (rb_plug_blacken _ _ (S n)); [rb_solve|done|simpl; congruence]
         end.
Qed.

Lemma FreeList_ext h h' p fl :
  FreeList h p fl -> (forall x, x ∈ fl -> h' !! x = h !! x) -> FreeList h' p fl.
Proof.
  revert p. induction fl as [|y fl IH]; intros p; simpl; [done|].
  intros (-> & n & Hn & Hfl) Hx. split; [done|]. exists n. split.
  - rewrite Hx; [done|]. set_solver.
  - apply IH; [done|]. intros x Hin. apply Hx. set_solver.
Qed.

(** *** The search of [insert] *)

Lemma find_hole_plug k n t : forall ctx0 ctx,
  find_hole k t ctx0 = Some ctx ->
  plug (T n RED E k E) ctx = plug (tins n k t) ctx0 /\ plug E ctx = plug t ctx0.
Proof.
  induction t as [|a c l IHl x r IHr]; intros ctx0 ctx; simpl.
  - by intros [= ->].
  - destruct (k <? x); [|destruct (k >? x); [|done]]; intros H.
    + by destruct (IHl _ _ H).
    + by destruct (IHr _ _ H).
Qed.

Lemma find_hole_length k t : forall ctx0 ctx,
  find_hole k t ctx0 = Some ctx -> (length ctx <= length ctx0 + theight t)%nat.
Proof.
  induction t as [|a c l IHl x r IHr]; intros ctx0 ctx; simpl.
  - intros [= ->]. lia.
  - destruct (k <? x); [|destruct (k >? x); [|done]]; intros H.
    + apply IHl in H. simpl in H. lia.
    + apply IHr in H. simpl in H. lia.
Qed.

Lemma find_hole_cinv k t : forall n ctx0 ctx,
  rb t n -> cinv ctx0 n -> (croot t = RED -> ctx0 <> [] /\ cblack ctx0) ->
  find_hole k t ctx0 = Some ctx -> cinv ctx 0.
Proof.
  induction t as [|a c l IHl x r IHr]; intros n ctx0 ctx Hrb Hc Hred; simpl.
  - simpl in Hrb. subst n. by intros [= ->].
  - destruct (k <? x); [|destruct (k >? x); [|done]]; intros H.
    + destruct c; simpl in Hrb; [| |done].
      * destruct Hrb as (Hcl & Hcr & Hl & Hr). destruct (Hred eq_refl) as [Hne Hb].
        apply (IHl n (Frame Lft a RED x r :: ctx0) ctx); [done|by simpl|congruence|done].
      * destruct Hrb as (m & -> & Hl & Hr).
        apply (IHl m (Frame Lft a BLACK x r :: ctx0) ctx); [done|by simpl|by simpl|done].
    + destruct c; simpl in Hrb; [| |done].
      * destruct Hrb as (Hcl & Hcr & Hl & Hr). destruct (Hred eq_refl) as [Hne Hb].
        apply (IHr n (Frame Rgt a RED x l :: ctx0) ctx); [done|by simpl|congruence|done].
      * destruct Hrb as (m & -> & Hl & Hr).
        apply (IHr m (Frame Rgt a BLACK x l :: ctx0) ctx); [done|by simpl|by simpl|done].
Qed.

Lemma find_hole_frame k t : forall ctx0 ctx,
  t <> E -> find_hole k t ctx0 = Some ctx ->
  exists d fa fc fk fs ctx', ctx = Frame d fa fc fk fs :: ctx' /\
    (k <? fk) = match d with Lft => true | Rgt => false end.
Proof.
  induction t as [|a c l IHl x r IHr]; intros ctx0 ctx Hne; [done|]. simpl.
  destruct (k <? x) eqn:E1; [|destruct (k >? x) eqn:E2; [|done]]; intros H.
  - destruct l as [|al cl ll xl rl].
    + simpl in H. injection H as <-. by eexists _, _, _, _, _, _.
    + by eapply IHl.
  - destruct r as [|ar cr lr xr rr].
    + simpl in H. injection H as <-. by eexists _, _, _, _, _, _.
    + by eapply IHr.
Qed.

Lemma find_hole_None k t ctx0 :
  AVL.sorted (inorder t) -> (find_hole k t ctx0 = None <-> k ∈ inorder t).
Proof.
  revert ctx0. induction t as [|a c l IHl x r IHr]; intros ctx0 Hs; simpl.
  - split; [done|]. by intros ?%elem_of_nil.
  - simpl in Hs. apply AVLFacts.sorted_mid in Hs as (Hsl & Hsr & Hlx & Hxr).
    rewrite Forall_forall in Hlx. rewrite Forall_forall in Hxr.
    rewrite elem_of_app, elem_of_cons.
    destruct (k <? x) eqn:E1; [|destruct (k >? x) eqn:E2].
    + rewrite IHl by done. split; [tauto|].
      intros [?|[?|Hx]]; [done|lia|]. specialize (Hxr _ Hx). lia.
    + rewrite IHr by done. split; [tauto|].
      intros [Hx|[?|?]]; [|lia|done]. specialize (Hlx _ Hx). lia.
    + split; [|done]. intros _. right. left. lia.
Qed.

Lemma inorder_tins n k t :
  AVL.sorted (inorder t) -> inorder (tins n k t) = AVL.ins k (inorder t).
Proof.
  induction t as [|a c l IHl x r IHr]; intros Hs; simpl; [done|].
  pose proof Hs as Hs0. simpl in Hs.
  apply AVLFacts.sorted_mid in Hs as (Hsl & Hsr & Hlx & Hxr).
  destruct (k <? x) eqn:E1; [|destruct (k >? x) eqn:E2]; simpl.
  - rewrite IHl by done. symmetry. apply AVLFacts.ins_mid_lt; [done|lia].
  - rewrite IHr by done. symmetry. apply AVLFacts.ins_mid_gt; [done|lia].
  - assert (k = x) as -> by lia. symmetry. by apply AVLFacts.ins_mid_eq.
Qed.

Lemma addrs_tins n k t ctx0 ctx :
  find_hole k t ctx0 = Some ctx ->
  addrs (tins n k t) ≡ₚ n :: addrs t /\ tsize (tins n k t) = S (tsize t).
Proof.
  revert ctx0 ctx. induction t as [|a c l IHl x r IHr]; intros ctx0 ctx; simpl; [done|].
  destruct (k <? x); [|destruct (k >? x); [|done]]; intros H; simpl.
  - destruct (IHl _ _ H) as [Hp Hs]. rewrite Hp, Hs. done.
  - destruct (IHr _ _ H) as [Hp Hs]. rewrite Hp, Hs. split; [|lia].
    rewrite (Permutation_middle (addrs l) (a :: addrs r) n).
    apply Permutation_app_head, perm_swap.
Qed.

Lemma insert_search_spec s k t : forall ctx0 fuel,
  Repr (heap s) (ctx_par ctx0) t -> (theight t <= fuel)%nat ->
  insert_search fuel k (addr t) (ctx_par ctx0) s =
    Some (option_map ctx_par (find_hole k t ctx0), s).
Proof.
  induction t as [|a c l IHl x r IHr]; intros ctx0 fuel Hrep Hf.
  - by destruct fuel.
  - destruct fuel as [|fuel]; [simpl in Hf; lia|].
    simpl in Hrep. destruct Hrep as (Ha & Hl & Hr). simpl in Hf.
    cbn [insert_search addr ptr_eqb nulle negb find_hole].
    rewrite (bind_get_key s a _ Ha). cbn [key].
    destruct (k <? x) eqn:E1; [|destruct (k >? x) eqn:E2].
    + rewrite (bind_get_left s a _ Ha). cbn [left].
      apply (IHl (Frame Lft a c x r :: ctx0)); [done|lia].
    + rewrite (bind_get_right s a _ Ha). cbn [right].
      apply (IHr (Frame Rgt a c x l :: ctx0)); [done|lia].
    + done.
Qed.


(** *** Allocation *)

Lemma Whole_ext s s' t :
  Whole s t -> root s' = root s ->
  (forall x, x ∈ addrs t -> heap s' !! x = heap s !! x) -> Whole s' t.
Proof.
  intros (Hr & Hrep & Hnd) Hroot Hx. split_and!; [congruence| |done].
  by eapply Repr_ext.
Qed.

Lemma tsize_cells t : tsize t = length (cells t).
Proof.
  induction t as [|a c l IHl k r IHr]; simpl; [done|].
  rewrite length_app. simpl. lia.
Qed.

Lemma burb_newNode_spec s t fl k :
  BInv s t fl ->
  wp (newNode k) s (fun p s1 => exists n fl1,
     p = Some n /\ n ∉ addrs t /\ n ∉ fl1 /\
     heap s1 !! n = Some (mkNode k RED nulle nulle nulle) /\
     Whole s1 t /\ count s1 = count s /\
     FreeList (heap s1) (freed s1) fl1 /\ NoDup (addrs t ++ fl1) /\
     (forall x, x ∈ n :: addrs t ++ fl1 -> (x < brk s1)%nat) /\
     fl1 = tail fl /\ n = default (brk s) (head fl) /\
     brk s1 = match fl with [] => S (brk s) | _ :: _ => brk s end).
Proof.
  intros (HW & Hc & Hs & Hrb & Hfl & Hnd & Hbrk).
  destruct fl as [|p fl1]; simpl in Hfl.
  - (* a new node from the allocator *)
    unfold wp, newNode, createNode. rewrite bind_get, Hfl. cbn [ptr_eqb nulle negb].
    eexists _, _. split; [reflexivity|]. psimpl.
    assert (Hn : brk s ∉ addrs t).
    { intros Hin. specialize (Hbrk (brk s)). rewrite app_nil_r in Hbrk.
      specialize (Hbrk Hin). lia. }
    exists (brk s), []. split_and!; try done.
    + apply not_elem_of_nil.
    + by rewrite lookup_insert_eq.
    + eapply Whole_ext; [exact HW|done|]. intros x Hx. psimpl.
      rewrite lookup_insert_ne; [done|]. by intros <-.
    + intros x. rewrite elem_of_cons. intros [->|Hx]; [lia|].
      specialize (Hbrk x Hx). lia.
  - (* a node from the freed list *)
    destruct Hfl as (Hfreed & nd & Hp & Hfl).
    apply NoDup_app in Hnd as (Hndt & Hd & Hndf).
    apply NoDup_cons in Hndf as (Hpf & Hndf).
    assert (Hpt : p ∉ addrs t).
    { intros Hin. apply (Hd p Hin). set_solver. }
    unfold wp, newNode. rewrite bind_get, Hfreed. cbn [ptr_eqb nulle negb].
    rewrite (bind_get_left s p _ Hp), bind_modify.
    unfold bind, store, ret. psimpl. rewrite Hp.
    eexists _, _. split; [reflexivity|]. psimpl.
    exists p, fl1. split_and!; try done.
    + by rewrite lookup_insert_eq.
    + eapply Whole_ext; [exact HW|done|]. intros x Hx. psimpl.
      rewrite lookup_insert_ne; [done|]. by intros <-.
    + eapply FreeList_ext; [exact Hfl|]. intros x Hx.
      rewrite lookup_insert_ne; [done|]. by intros <-.
    + apply NoDup_app. split_and!; [done| |done].
      intros x Hx Hin. apply (Hd x Hx). set_solver.
    + intros x Hx. apply Hbrk. set_solver.
Qed.

(** *** Linking the new leaf *)

Lemma attach_spec s n k d fa fc fk fs ctx :
  Whole s (plug E (Frame d fa fc fk fs :: ctx)) ->
  heap s !! n = Some (mkNode k RED nulle nulle nulle) ->
  n ∉ addrs (plug E (Frame d fa fc fk fs :: ctx)) ->
  (k <? fk) = match d with Lft => true | Rgt => false end ->
  exists s',
    (pk <- get_key (Some fa) ;;
     (if k <? pk then set_left (Some fa) (Some n) else set_right (Some fa) (Some n)) ;;;
     set_parent (Some n) (Some fa) ;;;
     ret true) s = Some (true, s') /\
    Whole s' (plug (T n RED E k E) (Frame d fa fc fk fs :: ctx)) /\
    same_outside (n :: addrs (plug E (Frame d fa fc fk fs :: ctx))) s s' /\
    count s' = count s /\ freed s' = freed s /\ brk s' = brk s.
Proof.
  rewrite Whole_focus. intros (Hroot & _ & Hctx & Hnd) Hn Hnin Hdir.
  rewrite addrs_plug in Hnin. unfold same_outside.
  simpl in Hctx. destruct Hctx as (Hf & Hfs & Hc').
  unfold ctx_addrs, frame_addrs in *. simpl in Hroot, Hf, Hnd, Hnin |- *.
  fold (ctx_addrs ctx) in *.
  assert (Hnd1 : NoDup (n :: fa :: addrs fs ++ ctx_addrs ctx)).
  { apply NoDup_cons. split; [done|done]. }
  pose proof Hnd1 as Hnd0. nodup_facts Hnd1.
  destruct d.
  all: eexists; split;
    [ repeat hstep; rewrite Hdir; repeat hstep; reflexivity | ].
  all: psimpl; split_and!; try done;
    [ apply (Whole_focus _ _ (_ :: _)); psimpl; simpl; split_and!; try repr_solve;
      nodup_solve Hnd0
    | intros y Hy; rewrite addrs_plug in Hy; notin_facts Hy; ext_solve ].
Qed.


(** *** [fixInsertion] and [insert] *)

Lemma cells_nonnil_T t : cells t <> [] -> exists a c l k r, t = T a c l k r.
Proof. destruct t; [done|]. by eexists _, _, _, _, _. Qed.

Lemma Upd_Whole s0 T0 s T : Upd s0 T0 s T -> Whole s T.
Proof. by intros (? & _). Qed.

Lemma fixInsertion_spec s n k ctx fuel :
  Whole s (plug (T n RED E k E) ctx) -> cinv ctx 0 -> (length ctx <= fuel)%nat ->
  wp (fixInsertion fuel (Some n)) s
     (fun _ s' => exists T', Upd s (plug (T n RED E k E) ctx) s' T' /\ RB T').
Proof.
  intros HW Hc Hfuel. unfold fixInsertion. apply wp_bind.
  eapply wp_mono.
  { eapply (fixInsertion_loop_spec (length ctx) ctx (Nat.le_refl _)
              s s (plug (T n RED E k E) ctx) n E k E 0 fuel);
      [by apply Upd_refl|by simpl|done|done]. }
  intros _ s1 (T' & HU & m & Hm). simpl.
  destruct (cells_nonnil_T T') as (a & c & l & x & r & ->).
  { destruct HU as (_ & _ & _ & _ & _ & ->). intros Hnil.
    assert (Hin : n ∈ addrs (plug (T n RED E k E) ctx)).
    { rewrite addrs_plug. simpl. set_solver. }
    rewrite addrs_of_cells, Hnil in Hin. by apply elem_of_nil in Hin. }
  pose proof (Upd_Whole _ _ _ _ HU) as HW1.
  change (Whole s1 (plug (T a c l x r) [])) in HW1.
  change (Upd s (plug (T n RED E k E) ctx) s1 (plug (T a c l x r) [])) in HU.
  wstep. assert (Hroot : root s1 = Some a) by apply HW1. rewrite Hroot.
  wgo. apply wp_ret. eexists. split; [eassumption|].
  split; [done|]. simpl in Hm. exists m. exact Hm.
Qed.

Lemma FreeList_same_outside s s' X fl :
  FreeList (heap s) (freed s) fl -> same_outside X s s' -> freed s' = freed s ->
  (forall x, x ∈ fl -> x ∉ X) -> FreeList (heap s') (freed s') fl.
Proof.
  intros Hfl Ho Hf Hd. rewrite Hf. eapply FreeList_ext; [exact Hfl|].
  intros x Hx. apply Ho. by apply Hd.
Qed.

Lemma burb_insert_spec s t fl k :
  BInv s t fl ->
  exists b s' t' fl',
    insert k s = Some (b, s') /\ BInv s' t' fl' /\
    b = negb (bool_decide (k ∈ inorder t)) /\
    inorder t' = AVL.ins k (inorder t) /\
    (b = false -> t' = t /\ root s' = root s /\ count s' = count s) /\
    fl' = (if b then tail fl else default (brk s) (head fl) :: tail fl) /\
    brk s' = match fl with [] => S (brk s) | _ :: _ => brk s end.
Proof.
  intros HI.
  destruct (burb_newNode_spec s t fl k HI)
    as (p & s1 & E1 & n & fl1 & -> & Hnt & Hnf & Hn & HW1 & Hc1 & Hfl1 & Hnd1 & Hbrk1
        & Hfl1e & Hne & Hbrke).
  destruct HI as (HW & Hc & Hs & Hrb & _ & _ & _).
  unfold insert. rewrite (bind_of _ _ _ _ _ E1), bind_get.
  assert (Hroot1 : root s1 = addr t) by apply HW1.
  rewrite Hroot1.
  destruct t as [|a c l x r].
  - (* the first node *)
    cbn [addr ptr_eqb nulle].
    eexists true, _, (T n BLACK E k E), fl1. split; [repeat hstep; reflexivity|].
    unfold BInv, Whole. psimpl. simpl. split_and!; try done.
    all: first
      [ by rewrite lookup_insert_eq
      | by rewrite Hc1, Hc
      | by (split; [done|]; exists 1%nat; simpl; eauto)
      | by (eapply FreeList_ext; [exact Hfl1|]; intros y Hy;
            rewrite !lookup_insert_ne; [done|by intros <-|by intros <-])
      | by (apply NoDup_cons; split; [apply not_elem_of_nil|apply NoDup_nil])
      | by (apply NoDup_cons; split; [done|]; simpl in Hnd1)
      | by (intros y Hy; apply Hbrk1; simpl) ].
  - cbn [addr ptr_eqb nulle]. unfold insert_node.
    rewrite bind_bind, (bind_get_key s1 n _ Hn). cbn [key].
    rewrite bind_bind, bind_get_root, Hroot1, bind_bind.
    destruct HW1 as (_ & Hrep1 & Hndt). pose proof (theight_le_tsize (T a c l x r)) as Hh.
    rewrite (bind_of _ _ _ _ _ (insert_search_spec s1 k (T a c l x r) [] (S (count s1))
                                  Hrep1 ltac:(lia))).
    destruct (find_hole k (T a c l x r) []) as [ctx|] eqn:Eh; cbn [option_map].
    + (* the key is new *)
      assert (HnE : T a c l x r <> E) by done.
      destruct (find_hole_frame k (T a c l x r) [] ctx HnE Eh)
        as (d & fa & fc & fk & fs & ctx' & -> & Hdir).
      destruct (find_hole_plug k n _ _ _ Eh) as [Hp1 Hp2].
      change (plug (tins n k (T a c l x r)) []) with (tins n k (T a c l x r)) in Hp1.
      change (plug (T a c l x r) []) with (T a c l x r) in Hp2.
      assert (HWh : Whole s1 (plug E (Frame d fa fc fk fs :: ctx'))).
      { rewrite Hp2. split_and!; done. }
      destruct (attach_spec s1 n k d fa fc fk fs ctx' HWh Hn) as
        (s2 & E2 & HW2 & Ho2 & Hc2 & Hf2 & Hb2); [by rewrite Hp2|done|].
      cbn [ctx_par faddr].
      rewrite (bind_of _ _ _ _ _ E2). rewrite bind_bind.
      assert (Hlen : (length (Frame d fa fc fk fs :: ctx') <= S (count s1))%nat).
      { pose proof (find_hole_length _ _ _ _ Eh) as Hl.
        cbn [length] in Hl |- *. rewrite Hc1, Hc. lia. }
      assert (Hci : cinv (Frame d fa fc fk fs :: ctx') 0).
      { destruct Hrb as (Hcr & m & Hm).
        eapply (find_hole_cinv k _ m []); [exact Hm|done| |exact Eh].
        rewrite Hcr. done. }
      destruct (fixInsertion_spec s2 n k _ (S (count s1)) HW2 Hci Hlen)
        as ([] & s3 & E3 & T' & HU & HRB).
      rewrite (bind_of _ _ _ _ _ E3). rewrite bind_modify.
      destruct HU as (HW3 & Ho3 & Hc3 & Hf3 & Hb3 & Hcells).
      destruct (addrs_tins n k _ _ _ Eh) as [Hperm Hsize].
      rewrite Hp1 in Hcells, Ho3.
      assert (Hin : inorder T' = AVL.ins k (inorder (T a c l x r))).
      { rewrite inorder_of_cells, Hcells, <- inorder_of_cells. by apply inorder_tins. }
      assert (Hkn : k ∉ inorder (T a c l x r)).
      { intros Hk. apply (find_hole_None k _ []) in Hk; [congruence|done]. }
      assert (Had : addrs T' ≡ₚ n :: addrs (T a c l x r)).
      { by rewrite addrs_of_cells, Hcells, <- addrs_of_cells. }
      eexists true, _, T', fl1. split; [reflexivity|].
      unfold BInv. psimpl. split_and!.
      * destruct HW3 as (? & ? & ?). unfold Whole. psimpl. split_and!; done.
      * rewrite Hc3, Hc2, Hc1, Hc, (tsize_cells T'), Hcells, <- tsize_cells, Hsize. done.
      * rewrite Hin. by apply AVLFacts.sorted_ins.
      * done.
      * assert (Hfl2 : FreeList (heap s2) (freed s2) fl1).
        { eapply FreeList_same_outside; [exact Hfl1|exact Ho2|done|].
          intros y Hy. rewrite Hp2. rewrite not_elem_of_cons. split.
          - by intros ->.
          - apply NoDup_app in Hnd1 as (_ & Hd & _). intros Hin'. by apply (Hd y). }
        eapply FreeList_same_outside; [exact Hfl2|exact Ho3|done|].
        intros y Hy. rewrite Hperm, not_elem_of_cons. split.
        -- by intros ->.
        -- apply NoDup_app in Hnd1 as (_ & Hd & _). intros Hin'. by apply (Hd y).
      * rewrite Had. simpl. apply NoDup_cons. split; [|done].
        rewrite not_elem_of_app. done.
      * intros y Hy. rewrite Hb3, Hb2. apply Hbrk1. rewrite Had in Hy. done.
      * symmetry. apply negb_true_iff. by apply bool_decide_eq_false.
      * done.
      * done.
      * done.
      * by rewrite Hb3, Hb2.
    + (* the key is in the tree: the new node goes to the freed list *)
      assert (Hk : k ∈ inorder (T a c l x r)) by (by apply (find_hole_None k _ [])).
      rewrite bind_ret. unfold deleteNode.
      rewrite bind_bind, bind_get, bind_bind.
      rewrite (bind_set_left s1 n _ _ Hn), bind_modify.
      eexists false, _, (T a c l x r), (n :: fl1). split; [reflexivity|].
      unfold BInv. psimpl. cbn [key color left right parent].
      split_and!; try done.
      * eapply Whole_ext; [split_and!; done|done|]. intros y Hy. psimpl.
        rewrite lookup_insert_ne; [done|]. by intros <-.
      * by rewrite Hc1.
      * simpl. split; [done|]. eexists. split; [by rewrite lookup_insert_eq|].
        simpl. eapply FreeList_ext; [exact Hfl1|]. intros y Hy.
        rewrite lookup_insert_ne; [done|]. by intros <-.
      * rewrite <- Permutation_middle. apply NoDup_cons. split; [|done].
        rewrite not_elem_of_app. done.
      * intros y Hy. apply Hbrk1. rewrite <- Permutation_middle in Hy. done.
      * symmetry. apply negb_false_iff. by apply bool_decide_eq_true.
      * symmetry. by apply AVLFacts.ins_id.
      * intros _. split_and!; [done| |done]. rewrite Hroot1. symmetry. apply HW.
      * by rewrite Hfl1e, Hne.
Qed.

(** The context of the goal [cinvR (F1 :: .. :: ctx) h], where the frames
    are explicit and [ctx] satisfies [cinv ctx N]. *)
Ltac cinvR_solve N :=
  let X := fresh "X" in let HX := fresh "HX" in let HXb := fresh "HXb" in
  intros X HX HXb; cbn [plug fill fdir faddr fcolor fkey fsib];
  destruct_and?;
  apply (rb_plug_blacken _ _ N);
    [ rb_solve | done | first [ simpl; congruence | intros _; assumption ] ].

(** One iteration of the loop of [fixErasure] when the sibling of the
    DOUBLE_BLACK node is BLACK. *)
Lemma db_black_sibling s s0 T0 a l k r d fa fc fk w wl wk wr fctx h :
  Upd s0 T0 s (plug (T a DOUBLE_BLACK l k r)
                 (Frame d fa fc fk (T w BLACK wl wk wr) :: fctx)) ->
  cinv (Frame d fa fc fk (T w BLACK wl wk wr) :: fctx) (S h) ->
  wp (fixErasure_body (Some a)) s (fun res s' =>
    (res = inr tt /\
     exists ctx', Upd s0 T0 s' (plug (T a BLACK l k r) ctx') /\
                  cinvR ctx' h /\ ctx' <> []) \/
    (res = inl (Some fa) /\
     Upd s0 T0 s' (plug (T a BLACK l k r)
                     (Frame d fa (match fc with RED => BLACK | _ => DOUBLE_BLACK end)
                        fk (T w RED wl wk wr) :: fctx)) /\
     rb (T w RED wl wk wr) h)).
Proof.
  intros HU Hc. pose proof (proj1 HU) as HW.
  cbn [cinv fsib fcolor] in Hc. destruct Hc as (Hw & Hc).
  cbn [rb] in Hw. destruct Hw as (m & [= <-] & Hwl & Hwr).
  unfold fixErasure_body.
  destruct d, fc; try (simpl in Hc; tauto); wgo.
  all: destruct wl as [|x [] xl xk xr]; try (simpl in Hwl; tauto); wsimp; wgo.
  all: destruct wr as [|y [] yl yk yr]; try (simpl in Hwr; tauto); wsimp; wgo.
  all: apply wp_ret; cbv beta.
  all: match goal with
       | HU' : Upd _ _ _ _ |- (inr tt = inr tt /\ _) \/ _ =>
           left; split; [done|]; ufocus a HU'; eexists; split; [exact HU'|];
           split; [|done];
           first [ cinvR_solve (S h) | cinvR_solve (S (S h)) ]
       | HU' : Upd _ _ _ _ |- _ \/ (inl _ = inl _ /\ _) =>
           right; split; [done|]; ufocus a HU'; split; [exact HU'|rb_solve]
       end.
Qed.


Lemma cinvR_nil h : cinvR [] h.
Proof. intros X HX _. simpl. by eapply rb_blacken. Qed.

Lemma cinvR_up d fa fk W ctx h :
  cinvR ctx (S h) -> rb W h -> croot W <> DOUBLE_BLACK ->
  cinvR (Frame d fa (dbc ctx) fk W :: ctx) h.
Proof.
  intros HR HW HWc X HX HXb. cbn [plug fill fdir faddr fcolor fkey fsib].
  destruct d.
  - destruct (HR (T fa BLACK X fk W)) as (m & Hm); [simpl; eauto|done|].
    exists m. destruct ctx; simpl in *; done.
  - destruct (HR (T fa BLACK W fk X)) as (m & Hm); [simpl; eauto|done|].
    exists m. destruct ctx; simpl in *; done.
Qed.

(** The loop of [fixErasure]: it ends, the subtree of the DOUBLE_BLACK
    node is intact below a BLACK root (DOUBLE_BLACK if the loop ends at
    the root), and the tree around it is balanced for a subtree one BLACK
    node shorter. *)
Lemma fixErasure_loop_spec N : forall fctx, (length fctx <= N)%nat ->
  forall s s0 T0 a l k r h fuel,
  Upd s0 T0 s (plug (T a DOUBLE_BLACK l k r) fctx) ->
  cinv fctx (S h) -> (2 * length fctx <= fuel)%nat ->
  wp (fixErasure_loop fuel (Some a)) s
     (fun _ s' => exists ctx',
        Upd s0 T0 s' (plug (T a (dbc ctx') l k r) ctx') /\
        cinvR ctx' h /\ (fctx <> [] -> ctx' <> [])).
Proof.
  induction N as [N IH] using lt_wf_ind.
  intros fctx HN s s0 T0 a l k r h fuel HU Hc Hfuel.
  pose proof (proj1 HU) as HW.
  rewrite fixErasure_loop_eq.
  destruct fctx as [|[d fa fc fk fs] fctx'].
  { wgo. apply wp_ret. exists []. split; [exact HU|]. split; [apply cinvR_nil|done]. }
  destruct fuel as [|[|fuel]]; [simpl in Hfuel; lia..|].
  assert (Hlt : (length fctx' < N)%nat) by (simpl in HN; lia).
  assert (Hfuel' : (2 * length fctx' <= fuel)%nat) by (simpl in Hfuel; lia).
  destruct fs as [|w cw wl wk wr]; [simpl in Hc; destruct Hc as [? _]; done|].
  destruct cw; [| |simpl in Hc; tauto].
  - (* Rule 4: the sibling is RED *)
    destruct fc; [simpl in Hc; destruct_and?; done| |simpl in Hc; tauto].
    cbn [cinv fsib fcolor rb] in Hc. destruct Hc as ((Hcl & Hcr & Hwl & Hwr) & Hc).
    destruct d.
    + destruct wl as [|x [] xl xk xr];
        try (simpl in Hwl, Hcl; first [done|tauto|congruence]).
      unfold fixErasure_body. wgo.
      rewrite fixErasure_loop_eq. wgo.
      apply wp_bind.
      match goal with
      | HU' : Upd _ _ ?s1 _ |- wp _ ?s1 _ =>
          ufocus a HU'; eapply wp_mono;
            [eapply (db_black_sibling _ _ _ _ _ _ _ _ _ _ _ _ _ _ _ _ h HU'); simpl; eauto 10|]
      end.
      try clear HW. intros res sx [(-> & ctx' & HUz & HRz & Hnez)|(-> & HUz & Hrbw)].
      * apply wp_ret. exists ctx'. destruct ctx'; [done|]. done.
      * pose proof (proj1 HUz) as HWz. rewrite fixErasure_loop_eq. wgo.
        apply wp_ret. match type of HUz with Upd _ _ _ (plug _ ?c) => exists c end.
        split; [exact HUz|]. split; [|done].
        cinvR_solve (S (S h)).
    + destruct wr as [|x [] xl xk xr];
        try (simpl in Hwr, Hcr; first [done|tauto|congruence]).
      unfold fixErasure_body. wgo.
      rewrite fixErasure_loop_eq. wgo.
      apply wp_bind.
      match goal with
      | HU' : Upd _ _ ?s1 _ |- wp _ ?s1 _ =>
          ufocus a HU'; eapply wp_mono;
            [eapply (db_black_sibling _ _ _ _ _ _ _ _ _ _ _ _ _ _ _ _ h HU'); simpl; eauto 10|]
      end.
      try clear HW. intros res sx [(-> & ctx' & HUz & HRz & Hnez)|(-> & HUz & Hrbw)].
      * apply wp_ret. exists ctx'. destruct ctx'; [done|]. done.
      * pose proof (proj1 HUz) as HWz. rewrite fixErasure_loop_eq. wgo.
        apply wp_ret. match type of HUz with Upd _ _ _ (plug _ ?c) => exists c end.
        split; [exact HUz|]. split; [|done].
        cinvR_solve (S (S h)).
  - (* the sibling is BLACK *)
    wgo. apply wp_bind. eapply wp_mono; [eapply db_black_sibling; [exact HU|exact Hc]|].
    clear HW. intros res sx [(-> & ctx' & HU1 & HR & Hne)|(-> & HU1 & Hrbw)].
    + apply wp_ret. exists ctx'. destruct ctx'; [done|]. done.
    + pose proof (proj1 HU1) as HW1.
      cbn [cinv fsib fcolor] in Hc. destruct Hc as (Hw & Hc).
      destruct fc; [| |done].
      * (* the parent was RED: it absorbs the extra BLACK *)
        destruct Hc as (Hcs & Hne' & Hcb & Hc).
        destruct fctx' as [|[d2 g gc gk gs] fctx'']; [done|].
        rewrite fixErasure_loop_eq. destruct d, d2; wgo.
        all: apply wp_ret; match type of HU1 with Upd _ _ _ (plug _ ?c) => exists c end;
          (split; [exact HU1|]); (split; [|done]).
        all: intros X HX HXb;
          match goal with
          | |- context [plug X (?F :: ?c)] =>
              change (plug X (F :: c)) with (plug (fill F X) c);
              apply (rb_plug_blacken c _ (S h))
          end;
          [ cbn [fill fdir faddr fcolor fkey fsib]; rb_solve | done
          | simpl; congruence ].
      * (* the parent is DOUBLE_BLACK now *)
        destruct d; uup HU1.
        all: eapply wp_mono;
          [ eapply (IH (length fctx') Hlt fctx' (Nat.le_refl _)
                      _ _ _ _ _ _ _ (S h) (S fuel) HU1 Hc); lia | ].
        all: intros _ s2 (ctx'' & HU2 & HR2 & Hne2); cbv beta.
        -- exists (Frame Lft fa (dbc ctx'') fk (T w RED wl wk wr) :: ctx'').
           split; [exact HU2|]. split; [|done].
           apply cinvR_up; [done|done|done].
        -- exists (Frame Rgt fa (dbc ctx'') fk (T w RED wl wk wr) :: ctx'').
           split; [exact HU2|]. split; [|done].
           apply cinvR_up; [done|done|done].
Qed.

(** *** The tree without a key *)

Lemma min_node_spec r : forall c0 m cm,
  r <> E -> min_node r c0 = (m, cm) ->
  (exists b cb kb rb, m = T b cb E kb rb) /\ m = tmin r /\
  plug m cm = plug r c0 /\ plug (tchild m) cm = plug (tdelmin r) c0 /\
  (length cm <= length c0 + theight r)%nat /\
  exists cm0, cm = cm0 ++ c0.
Proof.
  induction r as [|a c l IHl x rt _]; intros c0 m cm Hne; [done|]. simpl.
  destruct l as [|al cl ll xl rl].
  - intros [= <- <-]. split_and!; try done; [by eexists _, _, _, _|lia|by exists []].
  - intros H. destruct (IHl _ _ _ ltac:(done) H) as (Hm & Ht & Hp & Hd & Hlen & cm0 & Hcm).
    split_and!; try done.
    + cbn [length] in Hlen. lia.
    + exists (cm0 ++ [Frame Lft a c x rt]). by rewrite <- app_assoc.
Qed.

Lemma inorder_tmin r :
  r <> E -> inorder r = tkey (tmin r) :: inorder (tdelmin r).
Proof.
  induction r as [|a c l IHl x rt _]; intros Hne; [done|]. simpl.
  destruct l as [|al cl ll xl rl]; [done|].
  rewrite IHl by done. done.
Qed.

Lemma cells_tmin r :
  r <> E -> exists b, addrs r ≡ₚ b :: addrs (tdelmin r) /\
                      (exists cb kb rb, tmin r = T b cb E kb rb) /\
                      tsize r = S (tsize (tdelmin r)).
Proof.
  induction r as [|a c l IHl x rt _]; intros Hne; [done|]. simpl.
  destruct l as [|al cl ll xl rl].
  - exists a. split_and!; [done|by eexists _, _, _|done].
  - destruct IHl as (b & Hp & Hm & Hs); [done|]. exists b. split_and!; [|done|].
    + rewrite Hp. done.
    + simpl in Hs |- *. lia.
Qed.

Lemma find_victim_spec k t : forall ctx0 m cm,
  find_victim k t ctx0 = Some (m, cm) ->
  (exists v cv vl vk vr, m = T v cv vl vk vr /\ (vl = E \/ vr = E)) /\
  plug (tchild m) cm = plug (tdel k t) ctx0 /\
  (length cm <= length ctx0 + theight t)%nat.
Proof.
  induction t as [|a c l IHl x r IHr]; intros ctx0 m cm; [done|]. simpl.
  destruct (k <? x); [|destruct (k >? x)].
  - intros H. destruct (IHl _ _ _ H) as (Hm & Hp & Hlen).
    split_and!; [done|done|cbn [length] in Hlen; lia].
  - intros H. destruct (IHr _ _ _ H) as (Hm & Hp & Hlen).
    split_and!; [done|done|cbn [length] in Hlen; lia].
  - destruct l as [|al cl ll xl rl].
    { intros [= <- <-]. split_and!; [eexists _, _, _, _, _; eauto|done|lia]. }
    destruct r as [|ar cr lr xr rr].
    { intros [= <- <-]. split_and!; [eexists _, _, _, _, _; eauto|done|lia]. }
    destruct (min_node (T ar cr lr xr rr) []) as [m' cm'] eqn:Em.
    intros [= <- <-].
    destruct (min_node_spec (T ar cr lr xr rr) [] m' cm' ltac:(done) Em)
      as ((b & cb & kb & rb & ->) & Ht & Hp & Hd & Hlen & _).
    split_and!.
    + eexists _, _, _, _, _; eauto.
    + rewrite plug_app, Hd. rewrite <- Ht. done.
    + rewrite length_app. cbn [length] in Hlen |- *. lia.
Qed.

Lemma find_victim_None k t ctx0 :
  AVL.sorted (inorder t) -> (find_victim k t ctx0 = None <-> k ∉ inorder t).
Proof.
  revert ctx0. induction t as [|a c l IHl x r IHr]; intros ctx0 Hs; simpl.
  - split; [|done]. intros _. apply not_elem_of_nil.
  - simpl in Hs. apply AVLFacts.sorted_mid in Hs as (Hsl & Hsr & Hlx & Hxr).
    rewrite Forall_forall in Hlx. rewrite Forall_forall in Hxr.
    rewrite not_elem_of_app, not_elem_of_cons.
    destruct (k <? x) eqn:E1; [|destruct (k >? x) eqn:E2].
    + rewrite IHl by done. split; [|tauto]. intros Hk. split_and!; [done|lia|].
      intros Hx. specialize (Hxr _ Hx). lia.
    + rewrite IHr by done. split; [|tauto]. intros Hk. split_and!; [|lia|done].
      intros Hx. specialize (Hlx _ Hx). lia.
    + split.
      * destruct l, r; try done. by destruct (min_node _ _).
      * intros (_ & ? & _). lia.
Qed.

Lemma inorder_tdel k t :
  AVL.sorted (inorder t) -> inorder (tdel k t) = AVL.del k (inorder t).
Proof.
  induction t as [|a c l IHl x r IHr]; intros Hs; simpl; [done|].
  pose proof Hs as Hs0. simpl in Hs.
  apply AVLFacts.sorted_mid in Hs as (Hsl & Hsr & Hlx & Hxr).
  destruct (k <? x) eqn:E1; [|destruct (k >? x) eqn:E2]; simpl.
  - rewrite IHl by done. symmetry. apply AVLFacts.del_mid_lt; [done|lia].
  - rewrite IHr by done. symmetry. apply AVLFacts.del_mid_gt; [done|lia].
  - assert (k = x) as -> by lia. rewrite AVLFacts.del_mid_eq by done.
    destruct l as [|al cl ll xl rl]; [done|].
    destruct r as [|ar cr lr xr rr]; [by rewrite app_nil_r|].
    cbn [inorder]. by rewrite <- inorder_tmin.
Qed.

(** *** Red-black trees: taking a tree apart along a path *)

Lemma croot_plug_cons X Y f ctx : croot (plug X (f :: ctx)) = croot (plug Y (f :: ctx)).
Proof.
  simpl. revert X Y f. induction ctx as [|g ctx IH]; intros X Y f; simpl.
  - unfold fill. by destruct (fdir f).
  - apply (IH (fill f X) (fill f Y) g).
Qed.

Lemma rb_plug_inv ctx : forall t N,
  rb (plug t ctx) N -> croot (plug t ctx) = BLACK ->
  exists n, rb t n /\ cinv ctx n /\ (croot t = RED -> ctx <> [] /\ cblack ctx).
Proof.
  induction ctx as [|f ctx IH]; intros t N Hrb Hc; simpl in *.
  - exists N. split_and!; [done|done|]. congruence.
  - destruct (IH _ _ Hrb Hc) as (n' & Hf & Hci & Hred).
    unfold fill in Hf, Hred. destruct f as [d fa fc fk fs]. simpl in *.
    destruct d, fc; simpl in Hf; try done.
    all: try (destruct Hf as (Hc1 & Hc2 & Hr1 & Hr2); destruct (Hred eq_refl) as [Hne Hb];
              exists n'; split_and!; try done; congruence).
    all: destruct Hf as (m & -> & Hr1 & Hr2); exists m; split_and!; done.
Qed.

Lemma rb_plug_congr ctx : forall t t' N,
  (forall n, rb t n <-> rb t' n) -> croot t = croot t' ->
  (rb (plug t ctx) N <-> rb (plug t' ctx) N) /\
  croot (plug t ctx) = croot (plug t' ctx).
Proof.
  induction ctx as [|f ctx IH]; intros t t' N Hrb Hc; simpl; [by rewrite Hrb|].
  apply IH.
  - intros n. unfold fill. destruct (fdir f), (fcolor f); simpl; rewrite ?Hc;
      try done; try (by rewrite Hrb); by setoid_rewrite Hrb.
  - unfold fill. by destruct (fdir f).
Qed.

Lemma RB_key t c1 d a c x x' sib c2 :
  RB (plug t (c1 ++ Frame d a c x sib :: c2)) ->
  RB (plug t (c1 ++ Frame d a c x' sib :: c2)).
Proof.
  rewrite !plug_app. simpl. unfold fill. simpl. intros [Hc (n & Hn)].
  assert (Hcong : forall u u', (forall n, rb u n <-> rb u' n) -> croot u = croot u' ->
            RB (plug u c2) -> RB (plug u' c2)).
  { intros u u' H1 H2 [Hcu (m & Hm)].
    destruct (rb_plug_congr c2 u u' m H1 H2) as [Hi He].
    split; [congruence|]. exists m. by apply Hi. }
  destruct d; (eapply Hcong; [| |split; [exact Hc|exists n; exact Hn]]);
    first [done | intros; simpl; reflexivity].
Qed.

(** *** [deleteNode] *)

Lemma deleteNode_spec s t fl v nd :
  Whole s t -> heap s !! v = Some nd -> v ∉ addrs t -> v ∉ fl ->
  FreeList (heap s) (freed s) fl ->
  wp (deleteNode (Some v)) s (fun _ s' =>
     Whole s' t /\ FreeList (heap s') (freed s') (v :: fl) /\
     count s' = count s /\ brk s' = brk s).
Proof.
  intros HW Hv Hnt Hnf Hfl. unfold wp, deleteNode.
  eexists tt, _. split.
  { rewrite bind_get. hstep. unfold modify. reflexivity. }
  psimpl. split_and!; try done.
  - eapply Whole_ext; [exact HW|done|]. intros x Hx. psimpl.
    rewrite lookup_insert_ne; [done|]. by intros <-.
  - simpl. split; [done|]. eexists. split; [apply lookup_insert_eq|]. simpl.
    eapply FreeList_ext; [exact Hfl|]. intros x Hx.
    rewrite lookup_insert_ne; [done|]. by intros <-.
Qed.

(** *** Taking the node out of the tree *)

Lemma addrs_blacken t : addrs (blacken t) = addrs t.
Proof. by destruct t. Qed.

Lemma cells_blacken t : cells (blacken t) = cells t.
Proof. by destruct t. Qed.

Lemma splice_nodup v cv vl vk vr rest :
  vl = E \/ vr = E -> NoDup (addrs (T v cv vl vk vr) ++ rest) ->
  NoDup (addrs (blacken (tchild (T v cv vl vk vr))) ++ rest).
Proof.
  rewrite addrs_blacken. intros [->| ->]; simpl.
  - apply NoDup_cons_1_2.
  - destruct vl as [|x cx xl xk xr]; simpl; [apply NoDup_cons_1_2|].
    intros H. apply (NoDup_cons_1_2 v).
    rewrite <- app_assoc in H. simpl in H.
    by rewrite <- Permutation_middle in H.
Qed.

Ltac splice_tac Hnd0 :=
  psimpl; split_and!; try done;
  [ apply (Whole_focus _ _ (_ :: _)); psimpl; simpl; split_and!; try repr_solve;
    nodup_solve Hnd0
  | eexists; hlookup
  | let z := fresh "z" in let Hz := fresh "Hz" in
    intros z Hz; rewrite addrs_plug in Hz; notin_facts Hz; ext_solve ].

(** The node [v] has at most one child and is not the root: the child, if
    any, takes its place and becomes BLACK. *)
Lemma splice_eq s v cv vl vk vr d fa fc fk fs ctx :
  Whole s (plug (T v cv vl vk vr) (Frame d fa fc fk fs :: ctx)) ->
  vl = E \/ vr = E ->
  exists s',
    (forall B (K : M burbTree B),
       (np <- get_parent (Some v) ;;
        npl <- get_left np ;;
        (if ptr_eqb (Some v) npl
         then set_left np (addr (tchild (T v cv vl vk vr)))
         else set_right np (addr (tchild (T v cv vl vk vr)))) ;;;
        (if negb (ptr_eqb (addr (tchild (T v cv vl vk vr))) nulle) then
           set_parent (addr (tchild (T v cv vl vk vr))) np ;;;
           set_color (addr (tchild (T v cv vl vk vr))) BLACK
         else ret tt) ;;;
        K) s = K s') /\
    Whole s' (plug (blacken (tchild (T v cv vl vk vr))) (Frame d fa fc fk fs :: ctx)) /\
    (exists nd, heap s' !! v = Some nd) /\
    same_outside (addrs (plug (T v cv vl vk vr) (Frame d fa fc fk fs :: ctx))) s s' /\
    count s' = count s /\ freed s' = freed s /\ brk s' = brk s.
Proof.
  rewrite Whole_focus. intros (Hroot & Hrep & Hctx & Hnd) Hch.
  unfold same_outside.
  simpl in Hctx. destruct Hctx as (Hf & Hfs & Hc').
  simpl in Hrep. destruct Hrep as (Hv & Hl & Hr).
  unfold ctx_addrs, frame_addrs in *. simpl in Hroot, Hf, Hnd, Hv |- *.
  fold (ctx_addrs ctx) in *.
  pose proof (splice_nodup v cv vl vk vr _ Hch Hnd) as Hnd0.
  destruct vl as [|x cx xl xk xr], vr as [|y cy yl yk yr];
    try (by destruct Hch); simpl in Hl, Hr; destruct_and?;
    destruct fs as [|w cw wl wk wr]; simpl in Hfs; destruct_and?; nodup_facts Hnd;
    destruct d; cbn [tchild addr blacken].
  all: eexists; split;
    [ intros B K; repeat hstep;
      rewrite ?Nat.eqb_refl, ?(proj2 (Nat.eqb_neq _ _)) by ne_solve;
      repeat hstep; reflexivity | ].
  all: splice_tac Hnd0.
Qed.


(** The node [v] is the root and has at most one child: the child, if any,
    becomes the BLACK root. *)
Lemma splice_root_eq s v cv vl vk vr :
  Whole s (T v cv vl vk vr) -> vl = E \/ vr = E ->
  exists s',
    (forall B (K : M burbTree B),
       (rl <- get_left (Some v) ;;
        rr <- get_right (Some v) ;;
        if ptr_eqb rl nulle && ptr_eqb rr nulle then
          set_root nulle ;;; K
        else if ptr_eqb rl nulle then
          set_root rr ;;; set_color rr BLACK ;;; set_parent rr nulle ;;; K
        else
          set_root rl ;;; set_color rl BLACK ;;; set_parent rl nulle ;;; K) s = K s') /\
    Whole s' (blacken (tchild (T v cv vl vk vr))) /\
    (exists nd, heap s' !! v = Some nd) /\
    same_outside (addrs (T v cv vl vk vr)) s s' /\
    count s' = count s /\ freed s' = freed s /\ brk s' = brk s.
Proof.
  intros (Hroot & Hrep & Hnd) Hch. unfold same_outside.
  pose proof (splice_nodup v cv vl vk vr [] Hch) as Hnd0.
  rewrite !app_nil_r in Hnd0. specialize (Hnd0 Hnd).
  simpl in Hrep. destruct Hrep as (Hv & Hl & Hr).
  destruct vl as [|x cx xl xk xr], vr as [|y cy yl yk yr];
    try (by destruct Hch); simpl in Hl, Hr; destruct_and?; nodup_facts Hnd;
    cbn [tchild addr blacken].
  all: eexists; split; [ intros B K; repeat hstep; reflexivity | ].
  all: psimpl; split_and!; try done.
  all: first
    [ by (unfold Whole; psimpl; simpl; split_and!; try repr_solve; exact Hnd0)
    | by (eexists; hlookup)
    | by (let z := fresh "z" in let Hz := fresh "Hz" in
          intros z Hz; notin_facts Hz; ext_solve) ].
Qed.

(** The end of [fixErasure]: the root becomes BLACK. *)
Lemma blacken_root_spec s t :
  Whole s t -> t <> E ->
  wp (rt' <- get_root ;; set_color rt' BLACK) s (fun _ s' =>
     Whole s' (blacken t) /\ same_outside (addrs t) s s' /\
     count s' = count s /\ freed s' = freed s /\ brk s' = brk s).
Proof.
  intros HW Hne. destruct t as [|a c l k r]; [done|].
  assert (Hroot : root s = Some a) by apply HW.
  destruct (set_color_upd s [] a c l k r BLACK HW) as (s' & E1 & HU).
  exists tt, s'. split; [by rewrite bind_get_root, Hroot|].
  destruct HU as (HW' & Ho & Hc & Hf & Hb & _). done.
Qed.

(** *** The nodes of a tree with a hole *)

Lemma cells_plug_split ctx :
  exists L R, forall t, cells (plug t ctx) = L ++ cells t ++ R.
Proof.
  induction ctx as [|[d a c k sib] ctx (L & R & IH)].
  - exists [], []. intros t. simpl. by rewrite app_nil_r.
  - destruct d.
    + exists L, ((a, k) :: cells sib ++ R). intros t. simpl. rewrite IH.
      unfold fill. simpl. by rewrite <- !app_assoc.
    + exists (L ++ cells sib ++ [(a, k)]), R. intros t. simpl. rewrite IH.
      unfold fill. simpl. by rewrite <- !app_assoc.
Qed.

Lemma mid_inj (L R L' R' : list (nat * Z)) x :
  NoDup ((L ++ x :: R).*1) -> L ++ x :: R = L' ++ x :: R' -> L = L' /\ R = R'.
Proof.
  revert L'. induction L as [|y L IH]; intros [|y' L']; simpl; intros Hnd Heq.
  - by injection Heq as ->.
  - injection Heq as -> ->. apply NoDup_cons in Hnd as [Hn _]. exfalso. apply Hn.
    rewrite fmap_app. simpl. set_solver.
  - injection Heq as -> <-. apply NoDup_cons in Hnd as [Hn _]. exfalso. apply Hn.
    rewrite fmap_app. simpl. set_solver.
  - injection Heq as -> Heq. apply NoDup_cons in Hnd as [_ Hnd].
    destruct (IH _ Hnd Heq) as [-> ->]. done.
Qed.

Lemma cells_plug_leaf_inj ctx ctx' v c c' k :
  cells (plug (T v c E k E) ctx) = cells (plug (T v c' E k E) ctx') ->
  NoDup (addrs (plug (T v c E k E) ctx)) ->
  cells (plug E ctx) = cells (plug E ctx').
Proof.
  destruct (cells_plug_split ctx) as (L & R & H).
  destruct (cells_plug_split ctx') as (L' & R' & H').
  rewrite addrs_of_cells, !H, !H'. simpl. intros Heq Hnd.
  destruct (mid_inj _ _ _ _ _ Hnd Heq) as [-> ->]. done.
Qed.

Lemma wp_eq' {A} (m m' : M burbTree A) s s' Q :
  m s = m' s' -> wp m' s' Q -> wp m s Q.
Proof. unfold wp. by intros ->. Qed.

Lemma plug_cons_ne t f ctx : plug t (f :: ctx) <> E.
Proof.
  simpl. assert (H : forall u, u <> E -> plug u ctx <> E).
  { induction ctx as [|g ctx IH]; intros u Hu; simpl; [done|].
    apply IH. unfold fill. by destruct (fdir g). }
  apply H. unfold fill. by destruct (fdir f).
Qed.

Lemma croot_blacken t : croot (blacken t) = BLACK.
Proof. by destruct t. Qed.

Lemma RB_blacken t m : rb t m -> RB (blacken t).
Proof. intros H. split; [apply croot_blacken|]. by eapply rb_blacken. Qed.

(** *** The red-black invariants at the node to splice out *)

Lemma rb_tchild v cv vl vk vr n :
  rb (T v cv vl vk vr) n -> exists m, rb (tchild (T v cv vl vk vr)) m.
Proof.
  destruct cv; simpl; [| |done].
  - intros (_ & _ & Hl & Hr). destruct vl; eauto.
  - intros (m & _ & Hl & Hr). destruct vl; eauto.
Qed.

Ltac rb_leaf_cases Hch vl vr Hl Hr :=
  destruct Hch as [-> | ->]; simpl in *; subst;
  [ destruct vr as [|? [] ? ? ?] | destruct vl as [|? [] ? ? ?] ];
  simpl in *; try done; destruct_and?;
  try (by exists 0%nat);
  try (by destruct Hr as (? & ? & _));
  try (by destruct Hl as (? & ? & _)).

Lemma rb_splice v cv vl vk vr n :
  rb (T v cv vl vk vr) n -> vl = E \/ vr = E ->
  color_eqb cv RED || color_eqb (croot vl) RED || color_eqb (croot vr) RED = true ->
  rb (blacken (tchild (T v cv vl vk vr))) n.
Proof.
  intros Hrb Hch Hc.
  destruct cv; simpl in Hrb; [| |done].
  - destruct Hrb as (Hcl & Hcr & Hl & Hr). rb_leaf_cases Hch vl vr Hl Hr.
  - destruct Hrb as (m & -> & Hl & Hr). rb_leaf_cases Hch vl vr Hl Hr.
Qed.

Lemma rb_db_leaf v cv vl vk vr n :
  rb (T v cv vl vk vr) n -> vl = E \/ vr = E ->
  color_eqb cv RED || color_eqb (croot vl) RED || color_eqb (croot vr) RED = false ->
  cv = BLACK /\ vl = E /\ vr = E /\ n = 1%nat.
Proof.
  intros Hrb Hch Hc.
  destruct cv; simpl in Hrb, Hc; [done| |done].
  destruct Hrb as (m & -> & Hl & Hr). rb_leaf_cases Hch vl vr Hl Hr.
Qed.

Lemma victim_notin v cv vl vk vr cm :
  NoDup (addrs (plug (T v cv vl vk vr) cm)) ->
  v ∉ addrs (plug (blacken (tchild (T v cv vl vk vr))) cm).
Proof.
  rewrite !addrs_plug, addrs_blacken. intros Hnd Hin. simpl in Hnd.
  assert (Hp : (addrs vl ++ v :: addrs vr) ++ ctx_addrs cm
               ≡ₚ v :: addrs vl ++ addrs vr ++ ctx_addrs cm).
  { rewrite <- app_assoc. simpl. by rewrite <- Permutation_middle. }
  rewrite Hp in Hnd. apply NoDup_cons in Hnd as [Hn _]. apply Hn.
  destruct vl; simpl in *; set_solver.
Qed.

Lemma victim_in v cv vl vk vr cm : v ∈ addrs (plug (T v cv vl vk vr) cm).
Proof. rewrite addrs_plug. simpl. set_solver. Qed.

(** *** The program of [fixErasure], by the place of the node *)

Lemma fixErasure_root s v cv vl vk vr fuel :
  Whole s (T v cv vl vk vr) ->
  fixErasure fuel (Some v) s =
    (rl <- get_left (Some v) ;;
     rr <- get_right (Some v) ;;
     if ptr_eqb rl nulle && ptr_eqb rr nulle then
       set_root nulle ;;; deleteNode (Some v)
     else if ptr_eqb rl nulle then
       set_root rr ;;; set_color rr BLACK ;;; set_parent rr nulle ;;;
       deleteNode (Some v)
     else
       set_root rl ;;; set_color rl BLACK ;;; set_parent rl nulle ;;;
       deleteNode (Some v)) s.
Proof.
  intros HW. assert (Hroot : root s = Some v) by apply HW.
  assert (Hv : heap s !! v = Some (mkNode vk cv (addr vl) (addr vr) nulle)) by apply HW.
  unfold fixErasure. change (ptr_eqb (Some v) nulle) with false. cbv iota.
  rewrite bind_get_root, Hroot, (ptr_eqb_refl (Some v)). repeat hstep. reflexivity.
Qed.

Lemma fixErasure_nonroot s v cv vl vk vr f ctx fuel :
  Whole s (plug (T v cv vl vk vr) (f :: ctx)) ->
  fixErasure fuel (Some v) s =
    (if color_eqb cv RED || color_eqb (croot vl) RED || color_eqb (croot vr) RED then
       np <- get_parent (Some v) ;;
       npl <- get_left np ;;
       (if ptr_eqb (Some v) npl
        then set_left np (addr (tchild (T v cv vl vk vr)))
        else set_right np (addr (tchild (T v cv vl vk vr)))) ;;;
       (if negb (ptr_eqb (addr (tchild (T v cv vl vk vr))) nulle) then
          set_parent (addr (tchild (T v cv vl vk vr))) np ;;;
          set_color (addr (tchild (T v cv vl vk vr))) BLACK
        else ret tt) ;;;
       deleteNode (Some v)
     else
       set_color (Some v) DOUBLE_BLACK ;;;
       fixErasure_loop fuel (Some v) ;;;
       np <- get_parent (Some v) ;;
       npl <- get_left np ;;
       (if ptr_eqb (Some v) npl then set_left np nulle else set_right np nulle) ;;;
       deleteNode (Some v) ;;;
       rt' <- get_root ;;
       set_color rt' BLACK) s.
Proof.
  intros HW. pose proof (root_test _ _ _ _ _ _ _ HW) as Hrt.
  apply Whole_focus in HW as (_ & Hrep & _ & _).
  simpl in Hrep. destruct Hrep as (Hv & Hl & Hr).
  unfold fixErasure. change (ptr_eqb (Some v) nulle) with false. cbv iota.
  rewrite bind_get_root, Hrt.
  destruct vl as [|x cx xl xk xr], vr as [|y cy yl yk yr];
    simpl in Hl, Hr; destruct_and?; repeat hstep; reflexivity.
Qed.


(** *** [fixErasure] *)

Lemma FreeList_step s s' X fl :
  FreeList (heap s) (freed s) fl -> same_outside X s s' -> freed s' = freed s ->
  (forall x, x ∈ fl -> x ∉ X) -> FreeList (heap s') (freed s') fl.
Proof. apply FreeList_same_outside. Qed.

Lemma fixErasure_spec s v cv vl vk vr cm fl fuel :
  Whole s (plug (T v cv vl vk vr) cm) -> vl = E \/ vr = E ->
  RB (plug (T v cv vl vk vr) cm) ->
  FreeList (heap s) (freed s) fl ->
  (forall x, x ∈ fl -> x ∉ addrs (plug (T v cv vl vk vr) cm)) ->
  (2 * length cm <= fuel)%nat ->
  wp (fixErasure fuel (Some v)) s (fun _ s' => exists t',
      Whole s' t' /\ RB t' /\
      cells t' = cells (plug (tchild (T v cv vl vk vr)) cm) /\
      FreeList (heap s') (freed s') (v :: fl) /\
      count s' = count s /\ brk s' = brk s).
Proof.
  intros HW Hch [Hcr (N & HN)] Hfl Hdj Hfuel.
  destruct (rb_plug_inv cm _ N HN Hcr) as (n & Hrb & Hci & Hred).
  pose proof (victim_notin v cv vl vk vr cm (proj2 (proj2 HW))) as Hvn.
  assert (Hvfl : v ∉ fl).
  { intros Hin. apply (Hdj _ Hin). apply victim_in. }
  destruct cm as [|f ctx].
  - (* the node is the root *)
    eapply wp_eq; [exact (fixErasure_root s v cv vl vk vr fuel HW)|].
    destruct (splice_root_eq s v cv vl vk vr HW Hch)
      as (s2 & Heq & HW2 & (nd & Hnd2) & Ho & Hc2 & Hf2 & Hb2).
    eapply wp_eq'; [exact (Heq _ (deleteNode (Some v)))|].
    eapply wp_mono.
    { eapply (deleteNode_spec s2 _ fl v nd HW2 Hnd2 Hvn Hvfl).
      eapply FreeList_step; [exact Hfl|exact Ho|exact Hf2|exact Hdj]. }
    intros _ s3 (HW3 & Hfl3 & Hc3 & Hb3). eexists. split; [exact HW3|].
    destruct (rb_tchild _ _ _ _ _ _ Hrb) as (m & Hm).
    split_and!; [by eapply RB_blacken|by rewrite cells_blacken|done|congruence|congruence].
  - eapply wp_eq; [exact (fixErasure_nonroot s v cv vl vk vr f ctx fuel HW)|].
    destruct (color_eqb cv RED || color_eqb (croot vl) RED || color_eqb (croot vr) RED)
      eqn:Hcond.
    + (* the node or its child is RED *)
      destruct f as [d fa fc fk fs].
      destruct (splice_eq s v cv vl vk vr d fa fc fk fs ctx HW Hch)
        as (s2 & Heq & HW2 & (nd & Hnd2) & Ho & Hc2 & Hf2 & Hb2).
      eapply wp_eq'; [exact (Heq _ (deleteNode (Some v)))|].
      eapply wp_mono.
      { eapply (deleteNode_spec s2 _ fl v nd HW2 Hnd2 Hvn Hvfl).
        eapply FreeList_step; [exact Hfl|exact Ho|exact Hf2|exact Hdj]. }
      intros _ s3 (HW3 & Hfl3 & Hc3 & Hb3). eexists. split; [exact HW3|].
      split_and!; [|by apply cells_plug, cells_blacken|done|congruence|congruence].
      split.
      * rewrite <- Hcr. apply croot_plug_cons.
      * eapply rb_plug; [eapply rb_splice; eassumption|exact Hci|].
        rewrite croot_blacken. done.
    + (* the node is a BLACK leaf *)
      destruct (rb_db_leaf _ _ _ _ _ _ Hrb Hch Hcond) as (-> & -> & -> & ->).
      pose proof (Upd_refl _ _ HW) as HU.
      wstep. apply wp_bind. eapply wp_mono.
      { match goal with
        | HU' : Upd _ _ ?s1 _ |- wp _ ?s1 _ =>
            eapply (fixErasure_loop_spec (length (f :: ctx)) (f :: ctx) (Nat.le_refl _)
                      s1 s _ v E vk E 0%nat fuel HU' Hci Hfuel)
        end. }
      intros _ s2 (ctx' & HU2 & HR & Hne).
      destruct ctx' as [|[d' fa' fc' fk' fs'] ctx'']; [by destruct Hne|].
      cbn [dbc] in HU2. pose proof (proj1 HU2) as HW2.
      destruct HU2 as (_ & Ho2 & Hc2 & Hf2 & Hb2 & Hcells).
      assert (Haddrs : addrs (plug (T v BLACK E vk E) (Frame d' fa' fc' fk' fs' :: ctx''))
                       = addrs (plug (T v BLACK E vk E) (f :: ctx))).
      { by rewrite !addrs_of_cells, Hcells. }
      assert (HcE : cells (plug E (Frame d' fa' fc' fk' fs' :: ctx''))
                    = cells (plug E (f :: ctx))).
      { eapply cells_plug_leaf_inj; [exact Hcells|apply HW2]. }
      destruct (splice_eq s2 v BLACK E vk E d' fa' fc' fk' fs' ctx'' HW2 (or_introl eq_refl))
        as (s3 & Heq & HW3 & (nd & Hnd3) & Ho3 & Hc3 & Hf3 & Hb3).
      eapply wp_eq';
        [exact (Heq _ (deleteNode (Some v) ;;; (rt' <- get_root ;; set_color rt' BLACK)))|].
      cbn [tchild blacken] in HW3.
      pose proof (victim_notin v BLACK E vk E _ (proj2 (proj2 HW2))) as Hvn3.
      cbn [tchild blacken] in Hvn3.
      assert (Hfl3 : FreeList (heap s3) (freed s3) fl).
      { eapply FreeList_step; [|exact Ho3|exact Hf3|].
        - eapply FreeList_step; [exact Hfl|exact Ho2|exact Hf2|exact Hdj].
        - intros x Hx. rewrite Haddrs. by apply Hdj. }
      apply wp_bind. eapply wp_mono.
      { eapply (deleteNode_spec s3 _ fl v nd HW3 Hnd3 Hvn3 Hvfl Hfl3). }
      intros _ s4 (HW4 & Hfl4 & Hc4 & Hb4).
      eapply wp_mono.
      { apply (blacken_root_spec s4 _ HW4). apply plug_cons_ne. }
      intros _ s5 (HW5 & Ho5 & Hc5 & Hf5 & Hb5). eexists. split; [exact HW5|].
      split_and!.
      * split; [apply croot_blacken|]. by apply (HR E).
      * rewrite cells_blacken. exact HcE.
      * eapply FreeList_step; [exact Hfl4|exact Ho5|exact Hf5|].
        intros x Hx. rewrite addrs_of_cells, HcE, <- addrs_of_cells.
        apply elem_of_cons in Hx as [->|Hx]; [exact Hvn|].
        intros Hin. apply (Hdj _ Hx). rewrite addrs_plug in Hin |- *.
        simpl in Hin |- *. set_solver.
      * congruence.
      * congruence.
Qed.

(** *** The search of [erase] in the memory *)

Lemma eraseMinValue_spec s r : forall par fuel c0 m cm,
  Repr (heap s) par r -> r <> E -> min_node r c0 = (m, cm) ->
  (theight r <= S fuel)%nat ->
  eraseMinValue fuel (addr r) s = Some (addr m, s).
Proof.
  induction r as [|a c l IHl x rt _]; intros par fuel c0 m cm Hrep Hne Hm Hf; [done|].
  simpl in Hrep. destruct Hrep as (Ha & Hl & Hr). simpl in Hm.
  destruct l as [|al cl ll xl rl].
  - injection Hm as <- <-. destruct fuel; simpl; hstep; reflexivity.
  - destruct fuel as [|fuel]; [simpl in Hf; lia|].
    cbn [eraseMinValue addr]. hstep.
    apply (IHl (Some a) fuel _ m cm Hl ltac:(done) Hm).
    simpl in Hf |- *. lia.
Qed.

Lemma set_key_focus s ctx a c l k r k' :
  Whole s (plug (T a c l k r) ctx) ->
  exists s', set_key (Some a) k' s = Some (tt, s') /\
    Whole s' (plug (T a c l k' r) ctx) /\
    same_outside (addrs (plug (T a c l k r) ctx)) s s' /\
    count s' = count s /\ freed s' = freed s /\ brk s' = brk s.
Proof.
  intros H. pose proof (focus_lookup _ _ _ _ _ _ _ H) as Ha.
  eexists. split.
  { unfold set_key, store. rewrite Ha. reflexivity. }
  cbn [key color left right parent].
  apply Whole_focus in H as (Hroot & Hrep & Hctx & Hnd).
  simpl in Hrep. destruct Hrep as (_ & Hl & Hr).
  pose proof Hnd as Hnd0. nodup_facts Hnd.
  unfold same_outside. psimpl. split_and!; try done.
  - apply Whole_focus. psimpl. simpl. split_and!; repr_solve.
  - intros y Hy. rewrite addrs_plug in Hy. notin_facts Hy. ext_solve.
Qed.

Lemma addrs_plug_congr ctx : forall t t',
  addrs t = addrs t' -> addrs (plug t ctx) = addrs (plug t' ctx).
Proof.
  induction ctx as [|f ctx IH]; intros t t' H; simpl; [done|].
  apply IH. unfold fill. destruct (fdir f); simpl; by rewrite H.
Qed.

Lemma erase_search_spec s k t : forall ctx0 fuel m cm,
  Whole s (plug t ctx0) -> find_victim k t ctx0 = Some (m, cm) ->
  (theight t <= fuel)%nat ->
  exists s', erase_search fuel (addr t) k s = Some (addr m, s') /\
    Whole s' (plug m cm) /\
    same_outside (addrs (plug t ctx0)) s s' /\
    count s' = count s /\ freed s' = freed s /\ brk s' = brk s /\
    addrs (plug m cm) = addrs (plug t ctx0) /\
    (RB (plug t ctx0) -> RB (plug m cm)).
Proof.
  induction t as [|a c l IHl x r IHr]; intros ctx0 fuel m cm HW Hfv Hf; [done|].
  destruct fuel as [|fuel]; [simpl in Hf; lia|].
  pose proof (focus_lookup _ _ _ _ _ _ _ HW) as Ha.
  simpl in Hfv.
  destruct (k <? x) eqn:E1; [|destruct (k >? x) eqn:E2].
  - destruct (IHl (Frame Lft a c x r :: ctx0) fuel m cm HW Hfv
                ltac:(simpl in Hf; lia)) as (s' & E & R).
    exists s'. split; [|exact R].
    cbn [erase_search addr ptr_eqb nulle negb]. hstep. rewrite E1. hstep. exact E.
  - destruct (IHr (Frame Rgt a c x l :: ctx0) fuel m cm HW Hfv
                ltac:(simpl in Hf; lia)) as (s' & E & R).
    exists s'. split; [|exact R].
    cbn [erase_search addr ptr_eqb nulle negb]. hstep. rewrite E1, E2. hstep. exact E.
  - assert (Hsame : forall s0 : burbTree, same_outside (addrs (plug (T a c l x r) ctx0)) s0 s0)
      by (intros s0 y _; done).
    destruct l as [|al cl ll xl rl].
    { injection Hfv as <- <-. exists s. split.
      { cbn [erase_search addr ptr_eqb nulle negb]. hstep. rewrite E1, E2.
        repeat hstep. reflexivity. }
      split_and!; done. }
    destruct r as [|ar cr lr xr rr].
    { injection Hfv as <- <-. exists s. split.
      { cbn [erase_search addr ptr_eqb nulle negb]. hstep. rewrite E1, E2.
        repeat hstep. reflexivity. }
      split_and!; done. }
    destruct (min_node (T ar cr lr xr rr) []) as [m' cm'] eqn:Em.
    injection Hfv as <- <-.
    destruct (min_node_spec (T ar cr lr xr rr) [] m' cm' ltac:(done) Em)
      as ((b & cb & kb & rb & ->) & Ht & Hp & Hd & Hlen & _).
    pose proof HW as HW'. apply Whole_focus in HW' as (_ & Hrep & _ & _).
    simpl in Hrep. destruct Hrep as (_ & _ & Hrr).
    assert (HWm : Whole s (plug (T b cb E kb rb)
                    (cm' ++ Frame Rgt a c x (T al cl ll xl rl) :: ctx0))).
    { rewrite plug_app, Hp. exact HW. }
    pose proof (focus_lookup _ _ _ _ _ _ _ HWm) as Hb.
    destruct (set_key_focus s ctx0 a c (T al cl ll xl rl) x (T ar cr lr xr rr) kb HW)
      as (s' & Eset & HW1 & Ho & Hc1 & Hf1 & Hb1).
    exists s'. split.
    { cbn [erase_search addr ptr_eqb nulle negb]. hstep. rewrite E1, E2.
      repeat hstep.
      rewrite (bind_of _ _ _ _ _ (eraseMinValue_spec s (T ar cr lr xr rr) (Some a) fuel
                 [] _ _ Hrr ltac:(done) Em ltac:(simpl in Hf |- *; lia))).
      cbn [addr]. hstep. rewrite (bind_of _ _ _ _ _ Eset). reflexivity. }
    cbn [tkey]. split_and!; try done.
    + rewrite plug_app, Hp. exact HW1.
    + rewrite plug_app, Hp. simpl. by apply addrs_plug_congr.
    + intros HRB. apply (RB_key _ cm' Rgt a c x kb). rewrite plug_app, Hp. exact HRB.
Qed.

Lemma victim_perm v cv vl vk vr cm :
  vl = E \/ vr = E ->
  addrs (plug (T v cv vl vk vr) cm) ≡ₚ v :: addrs (plug (tchild (T v cv vl vk vr)) cm).
Proof.
  rewrite !addrs_plug. intros [-> | ->]; simpl; [done|].
  assert (Ht : addrs (match vl with E => E | T _ _ _ _ _ => vl end) = addrs vl)
    by (by destruct vl).
  rewrite Ht, <- app_assoc. simpl. symmetry. apply Permutation_middle.
Qed.

(** *** [erase] *)

Lemma burb_erase_spec s t fl k :
  BInv s t fl ->
  exists b s' t' fl',
    erase k s = Some (b, s') /\ BInv s' t' fl' /\
    b = bool_decide (k ∈ inorder t) /\
    inorder t' = AVL.del k (inorder t) /\
    (if b then exists v, fl' = v :: fl else fl' = fl) /\
    brk s' = brk s.
Proof.
  intros (HW & Hc & Hs & HRB & Hfl & Hnd & Hbrk).
  destruct (find_victim k t []) as [[m cm]|] eqn:Efv.
  - assert (Hin : k ∈ inorder t).
    { destruct (decide (k ∈ inorder t)) as [|Hn]; [done|].
      apply (find_victim_None k t []) in Hn; [congruence|done]. }
    destruct (find_victim_spec k t [] m cm Efv)
      as ((v & cv & vl & vk & vr & -> & Hch) & Hpl & Hlen).
    cbn [plug] in Hpl. cbn [length] in Hlen.
    pose proof (theight_le_tsize t) as Hh.
    destruct (erase_search_spec s k t [] (S (count s)) _ _ HW Efv ltac:(lia))
      as (s1 & Es & HW1 & Ho1 & Hc1 & Hf1 & Hb1 & Had & HRB1).
    simpl in Had, Ho1. specialize (HRB1 HRB).
    assert (Hroot : root s = addr t) by apply HW.
    set (s2 := with_count (Nat.pred (count s1)) s1).
    assert (HW2 : Whole s2 (plug (T v cv vl vk vr) cm)) by exact HW1.
    assert (Hdj : forall x, x ∈ fl -> x ∉ addrs (plug (T v cv vl vk vr) cm)).
    { intros x Hx. rewrite Had. apply NoDup_app in Hnd as (_ & Hd & _).
      intros Hx'. by apply (Hd _ Hx'). }
    assert (Hfl2 : FreeList (heap s2) (freed s2) fl).
    { apply (FreeList_step s s2 (addrs t) fl Hfl); [exact Ho1|exact Hf1|].
      intros x Hx. rewrite <- Had. by apply Hdj. }
    destruct (fixErasure_spec s2 v cv vl vk vr cm fl (2 * S (count s)) HW2 Hch HRB1 Hfl2 Hdj
                ltac:(lia))
      as ([] & s3 & Ef & t' & HW3 & HRB3 & Hcells & Hfl3 & Hc3 & Hb3).
    exists true, s3, t', (v :: fl). split.
    { unfold erase. rewrite bind_get, Hroot, (bind_of _ _ _ _ _ Es).
      cbn [addr ptr_eqb nulle]. rewrite bind_modify. fold s2.
      rewrite (bind_of _ _ _ _ _ Ef). reflexivity. }
    rewrite Hpl in Hcells.
    assert (Hino : inorder t' = AVL.del k (inorder t)).
    { rewrite inorder_of_cells, Hcells, <- inorder_of_cells. by apply inorder_tdel. }
    assert (Hadd : addrs t ≡ₚ v :: addrs t').
    { rewrite <- Had, (victim_perm _ _ _ _ _ _ Hch), Hpl.
      by rewrite (addrs_of_cells t'), Hcells, <- addrs_of_cells. }
    assert (Hp : addrs t' ++ v :: fl ≡ₚ addrs t ++ fl).
    { rewrite Hadd. simpl. symmetry. apply Permutation_middle. }
    split; [|split; [by rewrite bool_decide_eq_true_2|split; [done|split; [by exists v|]]]];
      [|by rewrite Hb3].
    unfold BInv. split_and!; try done.
    + rewrite Hc3. unfold s2. psimpl. rewrite Hc1, Hc.
      rewrite <- !length_inorder, Hino.
      rewrite <- (AVLFacts.length_del k (inorder t)) by done. done.
    + rewrite Hino. by apply AVLFacts.sorted_del.
    + rewrite Hp. exact Hnd.
    + intros x Hx. rewrite Hb3. unfold s2. psimpl. rewrite Hb1. apply Hbrk.
      rewrite Hp in Hx. exact Hx.
  - assert (Hn : k ∉ inorder t) by (by apply (find_victim_None k t [])).
    exists false, s, t, fl. split; [by apply (erase_absent s t k)|].
    split; [done|]. split; [by rewrite bool_decide_eq_false_2|].
    split; [by rewrite AVLFacts.del_id|done].
Qed.

(** *** Every sequence of calls *)

Lemma BInv_new : BInv burbTree_new E [].
Proof.
  unfold BInv, Whole, RB. simpl. split_and!; try done.
  - apply NoDup_nil_2.
  - by exists 0%nat.
  - apply NoDup_nil_2.
  - intros x Hx. by apply elem_of_nil in Hx.
Qed.

Lemma BInv_Holds s t fl : BInv s t fl -> Holds s t.
Proof. intros (HW & Hc & _). by split. Qed.

Lemma burb_run_spec ops : forall s t fl (S : gset Z),
  BInv s t fl -> (forall y, y ∈ inorder t <-> y ∈ S) ->
  exists s' t' fl', run ops s = Some s' /\ BInv s' t' fl' /\
    (forall y, y ∈ inorder t' <-> y ∈ live ops S).
Proof.
  induction ops as [|[x|x] ops IH]; intros s t fl S HI HS; simpl.
  - by exists s, t, fl.
  - destruct (burb_insert_spec s t fl x HI) as (b & s' & t' & fl' & E1 & HI' & _ & Hino & _).
    rewrite E1. apply (IH s' t' fl'); [done|].
    intros y. rewrite Hino, AVLFacts.elem_of_ins, HS. set_solver.
  - destruct (burb_erase_spec s t fl x HI) as (b & s' & t' & fl' & E1 & HI' & _ & Hino & _).
    rewrite E1. apply (IH s' t' fl'); [done|].
    intros y. rewrite Hino, AVLFacts.elem_of_del by apply HI. rewrite HS. set_solver.
Qed.

Lemma burb_reachable ops s :
  run ops burbTree_new = Some s ->
  exists t fl, BInv s t fl /\ (forall y, y ∈ inorder t <-> y ∈ live ops ∅).
Proof.
  intros E1.
  destruct (burb_run_spec ops burbTree_new E [] ∅ BInv_new) as (s' & t & fl & E2 & HI & HS).
  { intros y. simpl. set_solver. }
  rewrite E1 in E2. injection E2 as <-. by exists t, fl.
Qed.

(** *** The calls in the states reached from the empty tree *)

Lemma burb_insert_results ops s k :
  run ops burbTree_new = Some s ->
  exists b s' c,
    insert k s = Some (b, s') /\ contains k s = Some (c, s) /\ b = negb c /\
    contains k s' = Some (true, s') /\
    (forall y, y <> k ->
       exists d, contains y s = Some (d, s) /\ contains y s' = Some (d, s')) /\
    (b = false -> (exists t, Whole s t /\ Whole s' t) /\ size s' = size s) /\
    (b = true -> size s' = S (size s)).
Proof.
  intros E1. destruct (burb_reachable ops s E1) as (t & fl & HI & _).
  destruct (burb_insert_spec s t fl k HI) as (b & s' & t' & fl' & E2 & HI' & Hb & Hino & Hsame & _).
  pose proof (BInv_Holds _ _ _ HI) as Hh. pose proof (BInv_Holds _ _ _ HI') as Hh'.
  assert (Hs : AVL.sorted (inorder t)) by apply HI.
  assert (Hs' : AVL.sorted (inorder t')) by apply HI'.
  exists b, s', (bool_decide (k ∈ inorder t)). split_and!; try done.
  - by apply contains_spec.
  - rewrite (contains_spec s' t' k Hh' Hs'). f_equal. f_equal.
    apply bool_decide_eq_true. rewrite Hino, AVLFacts.elem_of_ins. by left.
  - intros y Hy. exists (bool_decide (y ∈ inorder t)). split; [by apply contains_spec|].
    rewrite (contains_spec s' t' y Hh' Hs'). f_equal. f_equal.
    apply bool_decide_ext. rewrite Hino, AVLFacts.elem_of_ins. tauto.
  - intros Hf. destruct (Hsame Hf) as (-> & Hr & Hc). split; [|exact Hc].
    exists t. split; [apply HI|apply HI'].
  - intros Ht. subst b. apply negb_true_iff, bool_decide_eq_false in Ht.
    unfold size. destruct Hh as [_ ->]. destruct Hh' as [_ ->].
    rewrite <- !length_inorder, Hino. by apply AVLFacts.length_ins_new.
Qed.

Lemma burb_erase_results ops s k :
  run ops burbTree_new = Some s ->
  exists b s' c,
    erase k s = Some (b, s') /\ contains k s = Some (c, s) /\ b = c /\
    contains k s' = Some (false, s') /\
    (forall y, y <> k ->
       exists d, contains y s = Some (d, s) /\ contains y s' = Some (d, s')) /\
    (b = false -> s' = s) /\
    (b = true -> S (size s') = size s).
Proof.
  intros E1. destruct (burb_reachable ops s E1) as (t & fl & HI & _).
  destruct (burb_erase_spec s t fl k HI) as (b & s' & t' & fl' & E2 & HI' & Hb & Hino & _).
  pose proof (BInv_Holds _ _ _ HI) as Hh. pose proof (BInv_Holds _ _ _ HI') as Hh'.
  assert (Hs : AVL.sorted (inorder t)) by apply HI.
  assert (Hs' : AVL.sorted (inorder t')) by apply HI'.
  exists b, s', (bool_decide (k ∈ inorder t)). split_and!; try done.
  - by apply contains_spec.
  - rewrite (contains_spec s' t' k Hh' Hs'). f_equal. f_equal.
    apply bool_decide_eq_false. rewrite Hino, AVLFacts.elem_of_del by done. tauto.
  - intros y Hy. exists (bool_decide (y ∈ inorder t)). split; [by apply contains_spec|].
    rewrite (contains_spec s' t' y Hh' Hs'). f_equal. f_equal.
    apply bool_decide_ext. rewrite Hino, AVLFacts.elem_of_del by done. tauto.
  - intros Hf. subst b. apply bool_decide_eq_false in Hf.
    rewrite (erase_absent s t k Hh Hf) in E2. by injection E2 as _ <-.
  - intros Ht. subst b. apply bool_decide_eq_true in Ht.
    unfold size. destruct Hh as [_ ->]. destruct Hh' as [_ ->].
    rewrite <- !length_inorder, Hino. by apply AVLFacts.length_del.
Qed.

Lemma burb_getKeys_live ops s v :
  run ops burbTree_new = Some s -> length v = size s ->
  exists ks, getKeys v s = Some (ks, s) /\
    AVL.sorted ks /\ NoDup ks /\ length ks = size s /\
    forall y, y ∈ ks <-> y ∈ live ops ∅.
Proof.
  intros E1 Hv. destruct (burb_reachable ops s E1) as (t & fl & HI & Hlive).
  pose proof (BInv_Holds _ _ _ HI) as Hh.
  assert (Hs : AVL.sorted (inorder t)) by apply HI.
  destruct Hh as [HW Hc]. unfold size in *.
  exists (inorder t). split_and!; try done.
  - rewrite (getKeys_spec s t v (conj HW Hc)) by lia.
    rewrite <- Hc, <- Hv. by rewrite drop_all, app_nil_r.
  - by apply AVLFacts.sorted_NoDup.
  - rewrite length_inorder. lia.
Qed.

(** *** [checkTree] *)

Lemma tkey_lt_left al cl ll kl rl k (r : list Z) :
  AVL.sorted (inorder (T al cl ll kl rl) ++ k :: r) -> (kl >=? k) = false.
Proof.
  intros Hs. apply AVLFacts.sorted_mid in Hs as (_ & _ & Hl & _).
  rewrite Forall_forall in Hl. specialize (Hl kl). simpl in Hl.
  assert (kl < k) by (apply Hl; set_solver). lia.
Qed.

Lemma tkey_gt_right ar cr lr kr rr k (l : list Z) :
  AVL.sorted (l ++ k :: inorder (T ar cr lr kr rr)) -> (kr <=? k) = false.
Proof.
  intros Hs. apply AVLFacts.sorted_mid in Hs as (_ & _ & _ & Hr).
  rewrite Forall_forall in Hr. specialize (Hr kr). simpl in Hr.
  assert (k < kr) by (apply Hr; set_solver). lia.
Qed.

(** The tests of [checkTree(node, prevCount, currCount)] at the node
    itself pass; what is left is the comparison of the counts. *)
Lemma checkTree_at_node s a c l k r ctx h fuel prev curr :
  Whole s (plug (T a c l k r) ctx) -> rb (T a c l k r) h ->
  AVL.sorted (inorder (T a c l k r)) ->
  checkTree_at (S fuel) (Some a) prev curr s =
    (let curr' := if color_eqb c BLACK then S curr else curr in
     if ptr_eqb (addr l) nulle && ptr_eqb (addr r) nulle then
       if negb (Nat.eqb prev 0) && negb (Nat.eqb curr' prev)
       then ret None else ret (Some curr')
     else
       lres <- (if negb (ptr_eqb (addr l) nulle)
                then checkTree_at fuel (addr l) prev curr'
                else ret (Some 0%nat)) ;;
       match lres with
       | None => ret None
       | Some leftCount =>
           rres <- (if negb (ptr_eqb (addr r) nulle)
                    then checkTree_at fuel (addr r) prev curr'
                    else ret (Some 0%nat)) ;;
           match rres with
           | None => ret None
           | Some rightCount =>
               if Nat.eqb leftCount 0 then ret (Some rightCount)
               else if Nat.eqb rightCount 0 then ret (Some leftCount)
               else if negb (Nat.eqb leftCount rightCount) then ret None
               else ret (Some leftCount)
           end
       end) s.
Proof.
  intros HW Hrb Hs. pose proof (root_test _ _ _ _ _ _ _ HW) as Hrt.
  apply Whole_focus in HW as (_ & Hrep & Hctx & Hnd).
  simpl in Hrep. destruct Hrep as (Ha & Hl & Hr).
  assert (Hkl : forall al cl ll kl rl, l = T al cl ll kl rl -> (kl >=? k) = false).
  { intros al cl ll kl rl ->. by eapply tkey_lt_left. }
  assert (Hkr : forall ar cr lr kr rr, r = T ar cr lr kr rr -> (kr <=? k) = false).
  { intros ar cr lr kr rr ->. by eapply tkey_gt_right. }
  clear Hs.
  destruct l as [|al cl ll kl rl], r as [|ar cr lr kr rr];
    simpl in Hl, Hr; destruct_and?;
    try (pose proof (Hkl _ _ _ _ _ eq_refl) as Hkl');
    try (pose proof (Hkr _ _ _ _ _ eq_refl) as Hkr'); clear Hkl Hkr.
  all: destruct c; simpl in Hrb; [| |done]; destruct_and?;
    simpl in *; subst.
  all: destruct ctx as [|[[] fa fc fk [|w cw wl wk wr]] ctx'];
    simpl in Hctx; destruct_and?;
    unfold ctx_addrs, frame_addrs in Hnd; nodup_facts Hnd;
    cbn [ctx_par faddr] in *.
  all: cbn [checkTree_at];
    repeat first [ hstep | rewrite Hkl' | rewrite Hkr' | rewrite Hrt | progress hsimp ];
    reflexivity.
Qed.


(** [checkTree(node, prevCount, currCount)] on a red-black subtree
    returns the number of BLACK nodes from the root to a leaf. *)
Lemma checkTree_at_spec t : forall ctx s fuel prev curr h,
  t <> E -> Whole s (plug t ctx) -> rb t h -> AVL.sorted (inorder t) ->
  (theight t <= fuel)%nat ->
  prev = 0%nat \/ prev = (h + curr)%nat -> (0 < h + curr)%nat ->
  checkTree_at fuel (addr t) prev curr s = Some (Some (h + curr)%nat, s).
Proof.
  induction t as [|a c l IHl k r IHr];
    intros ctx s fuel prev curr h Hne HW Hrb Hs Hf Hprev Hpos; [done|].
  destruct fuel as [|fuel]; [simpl in Hf; lia|].
  cbn [addr]. rewrite (checkTree_at_node s a c l k r ctx h fuel prev curr HW Hrb Hs).
  cbv zeta.
  assert (Hh : exists hl, rb l hl /\ rb r hl /\
                 (hl + (if color_eqb c BLACK then S curr else curr) = h + curr)%nat).
  { destruct c; simpl in Hrb; [| |done].
    - destruct Hrb as (_ & _ & Hl & Hr). exists h. done.
    - destruct Hrb as (m & -> & Hl & Hr). exists m. split_and!; [done|done|simpl; lia]. }
  destruct Hh as (hl & Hl & Hr & Heq).
  set (curr' := if color_eqb c BLACK then S curr else curr) in *.
  simpl in Hs. apply AVLFacts.sorted_mid in Hs as (Hsl & Hsr & _ & _).
  assert (Hfl : (theight l <= fuel)%nat) by (simpl in Hf; lia).
  assert (Hfr : (theight r <= fuel)%nat) by (simpl in Hf; lia).
  assert (Hprev' : prev = 0%nat \/ prev = (hl + curr')%nat) by (rewrite Heq; exact Hprev).
  assert (Hpos' : (0 < hl + curr')%nat) by (rewrite Heq; exact Hpos).
  pose proof (fun Hn => IHl (Frame Lft a c k r :: ctx) s fuel prev curr' hl Hn HW Hl Hsl Hfl
                          Hprev' Hpos') as IH1.
  pose proof (fun Hn => IHr (Frame Rgt a c k l :: ctx) s fuel prev curr' hl Hn HW Hr Hsr Hfr
                          Hprev' Hpos') as IH2.
  rewrite Heq in IH1, IH2. clear IHl IHr.
  assert (HN0 : (h + curr =? 0)%nat = false) by (apply Nat.eqb_neq; lia).
  destruct l as [|al cl ll kl rl], r as [|ar cr lr kr rr];
    cbn [addr ptr_eqb nulle negb andb].
  - simpl in Hl. subst hl. simpl in Heq. rewrite Heq.
    destruct Hprev as [-> | ->]; [done|]. rewrite Nat.eqb_refl.
    by destruct (h + curr =? 0)%nat.
  - rewrite bind_ret, (bind_of _ _ _ _ _ (IH2 ltac:(done))). by rewrite Nat.eqb_refl.
  - rewrite (bind_of _ _ _ _ _ (IH1 ltac:(done))), bind_ret. by rewrite HN0.
  - rewrite (bind_of _ _ _ _ _ (IH1 ltac:(done))), (bind_of _ _ _ _ _ (IH2 ltac:(done))).
    by rewrite HN0, Nat.eqb_refl.
Qed.

Lemma checkTree_spec s t fl :
  BInv s t fl -> exists n, checkTree s = Some (Some n, s) /\ rb t n.
Proof.
  intros (HW & Hc & Hs & [Hcr (n & Hn)] & _). exists n. split; [|done].
  unfold checkTree. rewrite bind_get.
  assert (Hroot : root s = addr t) by apply HW. rewrite Hroot.
  destruct t as [|a c l k r].
  { simpl in Hn |- *. by subst n. }
  simpl in Hcr. subst c.
  pose proof HW as (_ & (Ha & _) & _).
  cbn [addr ptr_eqb nulle]. repeat hstep.
  pose proof (theight_le_tsize (T a BLACK l k r)) as Hh.
  assert (Hpos : (0 < n + 0)%nat).
  { simpl in Hn. destruct Hn as (m & -> & _). lia. }
  rewrite (bind_of _ _ _ _ _
             (checkTree_at_spec (T a BLACK l k r) [] s (S (count s)) 0 0 n
                ltac:(done) HW Hn Hs ltac:(lia) (or_introl eq_refl) Hpos)).
  pose proof (checkTree_at_spec (T a BLACK l k r) [] s (S (count s)) (n + 0) 0 n
                ltac:(done) HW Hn Hs ltac:(lia) (or_intror eq_refl) Hpos) as H2.
  cbn [addr] in H2. rewrite H2. by rewrite Nat.add_0_r.
Qed.

(** *** The freed list *)

Lemma freedSize_loop_spec s fl : forall p fuel n,
  FreeList (heap s) p fl -> (length fl <= fuel)%nat ->
  freedSize_loop fuel p n s = Some ((n + length fl)%nat, s).
Proof.
  induction fl as [|x fl IH]; intros p fuel n Hfl Hf; simpl in Hfl.
  - subst p. destruct fuel; simpl; unfold ret; do 2 f_equal; simpl; lia.
  - destruct Hfl as (-> & nd & Hx & Hfl).
    destruct fuel as [|fuel]; [simpl in Hf; lia|].
    cbn [freedSize_loop ptr_eqb nulle negb]. rewrite (bind_get_left s x _ Hx).
    rewrite (IH _ fuel (S n) Hfl) by (simpl in Hf; lia).
    do 2 f_equal. simpl. lia.
Qed.

Lemma length_below (l : list nat) n :
  NoDup l -> (forall x, x ∈ l -> (x < n)%nat) -> (length l <= n)%nat.
Proof.
  intros Hnd Hlt.
  assert (H : l ⊆+ seq 0 n).
  { apply NoDup_submseteq; [done|]. intros x Hx. apply elem_of_seq.
    specialize (Hlt x Hx). lia. }
  apply submseteq_length in H. by rewrite length_seq in H.
Qed.

Lemma BInv_freed_length s t fl : BInv s t fl -> (length fl <= brk s)%nat.
Proof.
  intros (_ & _ & _ & _ & _ & Hnd & Hbrk). apply length_below.
  - by apply NoDup_app in Hnd as (_ & _ & ?).
  - intros x Hx. apply Hbrk. set_solver.
Qed.

Lemma freedSize_spec s t fl :
  BInv s t fl -> freedSize s = Some (length fl, s).
Proof.
  intros HI. unfold freedSize. rewrite bind_get.
  rewrite (freedSize_loop_spec s fl (freed s) (brk s) 0).
  - done.
  - apply HI.
  - by eapply BInv_freed_length.
Qed.

Lemma freedPreallocate_spec junk n : forall s t fl,
  BInv s t fl ->
  exists s' fl', freedPreallocate junk n s = Some (tt, s') /\ BInv s' t fl' /\
    length fl' = (n + length fl)%nat /\ root s' = root s /\ count s' = count s /\
    brk s' = (n + brk s)%nat /\
    (forall x, (x < brk s)%nat -> heap s' !! x = heap s !! x).
Proof.
  induction n as [|n IH]; intros s t fl HI.
  - exists s, fl. by split_and!.
  - destruct HI as (HW & Hc & Hs & Hrb & Hfl & Hnd & Hbrk).
    set (s1 := with_freed (Some (brk s))
                 (with_heap (<[brk s := mkNode junk RED (freed s) nulle nulle]>
                              (<[brk s := mkNode junk RED nulle nulle nulle]> (heap s)))
                    (with_brk (S (brk s)) s))).
    assert (Hfresh : forall x, x ∈ addrs t ++ fl -> x <> brk s).
    { intros x Hx ->. specialize (Hbrk _ Hx). lia. }
    assert (HI1 : BInv s1 t (brk s :: fl)).
    { unfold BInv, s1. psimpl. split_and!; try done.
      - eapply Whole_ext; [exact HW|done|]. intros x Hx. psimpl.
        rewrite !lookup_insert_ne; [done|..]; intros <-; apply (Hfresh (brk s)); set_solver.
      - simpl. split; [done|]. eexists. split; [by rewrite lookup_insert_eq|]. simpl.
        eapply FreeList_ext; [exact Hfl|]. intros x Hx.
        rewrite !lookup_insert_ne; [done|..]; intros <-; apply (Hfresh (brk s)); set_solver.
      - rewrite <- Permutation_middle. apply NoDup_cons. split; [|done].
        intros Hin. by apply (Hfresh _ Hin).
      - intros x Hx. rewrite <- Permutation_middle in Hx.
        apply elem_of_cons in Hx as [->|Hx]; [lia|]. specialize (Hbrk _ Hx). lia. }
    destruct (IH s1 t (brk s :: fl) HI1) as (s' & fl' & E1 & HI' & Hlen & Hr & Hc' & Hb & Hh).
    exists s', fl'. split_and!; try done.
    + cbn [freedPreallocate]. unfold createNode.
      rewrite !bind_bind, bind_get, !bind_bind, bind_modify, !bind_bind, bind_modify, bind_ret.
      rewrite bind_get. psimpl.
      erewrite bind_set_left by (psimpl; apply lookup_insert_eq).
      rewrite bind_modify. psimpl. cbn [key color left right parent]. exact E1.
    + rewrite Hlen. simpl. lia.
    + rewrite Hb. unfold s1. psimpl. lia.
    + intros x Hx. rewrite Hh by (unfold s1; psimpl; lia). unfold s1. psimpl.
      rewrite !lookup_insert_ne by lia. done.
Qed.

(** *** [clear] *)

Lemma clear_at_spec t : forall par s fuel,
  Repr (heap s) par t -> NoDup (addrs t) -> (theight t <= fuel)%nat ->
  exists h', clear_at fuel (addr t) s = Some (tt, with_heap h' s) /\
    (forall x, x ∈ addrs t -> h' !! x = None) /\
    (forall x, x ∉ addrs t -> h' !! x = heap s !! x).
Proof.
  induction t as [|a c l IHl k r IHr]; intros par s fuel Hrep Hnd Hf.
  - exists (heap s). split_and!; [|by intros x Hx; apply elem_of_nil in Hx|done].
    destruct fuel; simpl; unfold ret; by destruct s.
  - destruct fuel as [|fuel]; [simpl in Hf; lia|].
    simpl in Hrep. destruct Hrep as (Ha & Hl & Hr).
    simpl in Hnd. pose proof Hnd as Hnd0. nodup_facts Hnd.
    destruct (IHl (Some a) s fuel Hl ltac:(done) ltac:(simpl in Hf; lia))
      as (h1 & E1 & Hin1 & Hout1).
    assert (Hr1 : Repr (heap (with_heap h1 s)) (Some a) r).
    { eapply Repr_ext; [exact Hr|]. intros x Hx. psimpl. apply Hout1.
      intros Hxl. match goal with Hd : dj (addrs l) _ |- _ => apply (Hd x Hxl) end.
      set_solver. }
    destruct (IHr (Some a) (with_heap h1 s) fuel Hr1 ltac:(done) ltac:(simpl in Hf; lia))
      as (h2 & E2 & Hin2 & Hout2).
    cbn [heap with_heap] in Hout2.
    assert (Ha2 : h2 !! a = Some (mkNode k c (addr l) (addr r) par)).
    { rewrite Hout2 by done. rewrite Hout1 by done. exact Ha. }
    exists (delete a h2). split_and!.
    + cbn [clear_at addr ptr_eqb nulle]. rewrite (bind_get_left s a _ Ha). cbn [left].
      rewrite (bind_of _ _ _ _ _ E1).
      assert (Ha1 : heap (with_heap h1 s) !! a = Some (mkNode k c (addr l) (addr r) par)).
      { psimpl. rewrite Hout1 by done. exact Ha. }
      rewrite (bind_get_right _ a _ Ha1). cbn [right].
      rewrite (bind_of _ _ _ _ _ E2). unfold free. psimpl. rewrite Ha2. done.
    + intros x Hx. simpl in Hx. rewrite elem_of_app, elem_of_cons in Hx.
      destruct (decide (x = a)) as [->|Hxa]; [apply lookup_delete_eq|].
      rewrite lookup_delete_ne by done.
      destruct Hx as [Hx|[->|Hx]]; [|done|by apply Hin2].
      rewrite Hout2; [by apply Hin1|].
      intros Hxr. match goal with Hd : dj (addrs l) _ |- _ => apply (Hd x Hx) end.
      set_solver.
    + intros x Hx. simpl in Hx. rewrite not_elem_of_app, not_elem_of_cons in Hx.
      destruct Hx as (Hxl & Hxa & Hxr).
      rewrite lookup_delete_ne by done. rewrite Hout2 by done. by apply Hout1.
Qed.

Lemma clearFreed_loop_spec fl : forall s fuel,
  FreeList (heap s) (freed s) fl -> NoDup fl -> (length fl <= fuel)%nat ->
  exists h', clearFreed_loop fuel s = Some (tt, with_freed nulle (with_heap h' s)) /\
    (forall x, x ∈ fl -> h' !! x = None) /\
    (forall x, x ∉ fl -> h' !! x = heap s !! x).
Proof.
  induction fl as [|x fl IH]; intros s fuel Hfl Hnd Hf; simpl in Hfl.
  - exists (heap s). split_and!; [|by intros y Hy; apply elem_of_nil in Hy|done].
    destruct fuel; simpl; rewrite bind_get, Hfl; simpl; unfold ret; destruct s;
      simpl in *; by subst.
  - destruct Hfl as (Hfreed & nd & Hx & Hfl).
    destruct fuel as [|fuel]; [simpl in Hf; lia|].
    apply NoDup_cons in Hnd as [Hxfl Hnd].
    set (s1 := with_freed (left nd) (with_heap (delete x (heap s)) s)).
    assert (Hfl1 : FreeList (heap s1) (freed s1) fl).
    { unfold s1. psimpl. eapply FreeList_ext; [exact Hfl|]. intros y Hy.
      rewrite lookup_delete_ne; [done|]. by intros <-. }
    destruct (IH s1 fuel Hfl1 Hnd ltac:(simpl in Hf; lia)) as (h' & E1 & Hin & Hout).
    exists h'. split_and!.
    + cbn [clearFreed_loop]. rewrite bind_get, Hfreed. cbn [ptr_eqb nulle negb].
      rewrite (bind_get_left s x _ Hx). unfold free at 1.
      unfold bind at 1. rewrite Hx. rewrite bind_modify. fold s1. rewrite E1. done.
    + intros y Hy. apply elem_of_cons in Hy as [->|Hy]; [|by apply Hin].
      rewrite Hout by done. unfold s1. psimpl. apply lookup_delete_eq.
    + intros y Hy. rewrite not_elem_of_cons in Hy. destruct Hy as [Hyx Hy].
      rewrite Hout by done. unfold s1. psimpl. by rewrite lookup_delete_ne.
Qed.

Lemma clear_spec s t fl :
  BInv s t fl ->
  exists s', clear s = Some (tt, s') /\ BInv s' E [] /\
    root s' = nulle /\ count s' = 0%nat /\ freed s' = nulle /\ brk s' = brk s /\
    (forall x, x ∈ addrs t ++ fl -> heap s' !! x = None) /\
    (forall x, x ∉ addrs t ++ fl -> heap s' !! x = heap s !! x).
Proof.
  intros HI. pose proof (BInv_freed_length _ _ _ HI) as Hlen.
  destruct HI as ((Hroot & Hrep & Hndt) & Hc & Hs & Hrb & Hfl & Hnd & Hbrk).
  pose proof (theight_le_tsize t) as Hh.
  destruct (clear_at_spec t nulle s (S (count s)) Hrep Hndt ltac:(lia))
    as (h1 & E1 & Hin1 & Hout1).
  apply NoDup_app in Hnd as (_ & Hd & Hndf).
  set (s1 := with_count 0 (with_root nulle (with_heap h1 s))).
  assert (Hfl1 : FreeList (heap s1) (freed s1) fl).
  { unfold s1. psimpl. eapply FreeList_ext; [exact Hfl|]. intros x Hx.
    apply Hout1. intros Hxt. by apply (Hd x Hxt). }
  destruct (clearFreed_loop_spec fl s1 (brk s1) Hfl1 Hndf Hlen) as (h2 & E2 & Hin2 & Hout2).
  eexists. split.
  { unfold clear. rewrite bind_get, Hroot, (bind_of _ _ _ _ _ E1), !bind_modify.
    fold s1. unfold clearFreed. rewrite bind_get, (bind_of _ _ _ _ _ E2).
    unfold modify. reflexivity. }
  psimpl. split_and!; try done.
  - unfold BInv, Whole, RB. psimpl. simpl. split_and!; try done.
    + apply NoDup_nil_2.
    + by exists 0%nat.
    + apply NoDup_nil_2.
    + intros x Hx. by apply elem_of_nil in Hx.
  - intros x Hx. apply elem_of_app in Hx as [Hx|Hx]; [|by apply Hin2].
    rewrite Hout2 by (intros Hxf; by apply (Hd x Hx)). unfold s1. psimpl. by apply Hin1.
  - intros x Hx. rewrite not_elem_of_app in Hx. destruct Hx as [Hxt Hxf].
    rewrite Hout2 by done. unfold s1. psimpl. by apply Hout1.
Qed.

(** *** The allocator and the freed list in the states reached from the
    empty tree *)

Lemma burb_alloc_reachable ops : forall s t fl,
  BInv s t fl -> (tsize t + length fl = brk s)%nat ->
  forall s', run ops s = Some s' ->
  exists t' fl', BInv s' t' fl' /\ (tsize t' + length fl' = brk s')%nat.
Proof.
  induction ops as [|[x|x] ops IH]; intros s t fl HI Hn s' E1; simpl in E1.
  - injection E1 as <-. by exists t, fl.
  - destruct (burb_insert_spec s t fl x HI)
      as (b & s1 & t1 & fl1 & E2 & HI1 & Hb & Hino & _ & Hfl & Hbrk).
    rewrite E2 in E1. apply (IH s1 t1 fl1 HI1); [|done].
    assert (Hs : AVL.sorted (inorder t)) by apply HI.
    rewrite <- !length_inorder in *. rewrite Hino, Hbrk, Hfl.
    destruct (decide (x ∈ inorder t)) as [Hin|Hin].
    + rewrite (bool_decide_eq_true_2 _ Hin) in Hb. subst b.
      rewrite AVLFacts.ins_id by done. destruct fl; simpl in *; lia.
    + rewrite (bool_decide_eq_false_2 _ Hin) in Hb. subst b.
      rewrite AVLFacts.length_ins_new by done. destruct fl; simpl in *; lia.
  - destruct (burb_erase_spec s t fl x HI)
      as (b & s1 & t1 & fl1 & E2 & HI1 & Hb & Hino & Hfl & Hbrk).
    rewrite E2 in E1. apply (IH s1 t1 fl1 HI1); [|done].
    rewrite <- !length_inorder in *. rewrite Hino, Hbrk.
    destruct (decide (x ∈ inorder t)) as [Hin|Hin].
    + rewrite (bool_decide_eq_true_2 _ Hin) in Hb. subst b.
      destruct Hfl as (v & ->). pose proof (AVLFacts.length_del x _ Hin). simpl. lia.
    + rewrite (bool_decide_eq_false_2 _ Hin) in Hb. subst b. subst fl1.
      by rewrite AVLFacts.del_id.
Qed.

End BURBFacts.

(** ** Facts about the left-leaning red-black embedding *)

Module LLRBFacts.
Import LLRB.
Local Open Scope monad_scope.

Ltac lrun := unfold bind, ret, modify, get, fail; simpl.

Lemma same_but_rotations_refl s : same_but_rotations s s.
Proof. by unfold same_but_rotations. Qed.

Lemma same_but_rotations_trans s1 s2 s3 :
  same_but_rotations s1 s2 -> same_but_rotations s2 s3 -> same_but_rotations s1 s3.
Proof. unfold same_but_rotations. intros H1 H2. destruct_and?. split_and!; congruence. Qed.

Lemma inorder_updateSize cfg p : inorder (updateSize cfg p) = inorder p.
Proof. destruct p; simpl; [done|]. by destruct (ENABLE_PREFERRED_TEST cfg). Qed.

Lemma updateSize_not_null cfg p : p <> nullptr -> updateSize cfg p <> nullptr.
Proof. destruct p; simpl; [done|]. by destruct (ENABLE_PREFERRED_TEST cfg). Qed.

Lemma rotateLeft_ok cfg p s :
  exists p' s', rotateLeft cfg p s = Some (p', s') /\ inorder p' = inorder p /\
    same_but_rotations s s' /\ (p <> nullptr -> p' <> nullptr).
Proof.
  destruct p as [|i k c l [|i1 k1 c1 l1 r1 n1] n]; simpl.
  1,2: eexists _, s; split; [reflexivity|]; split_and!; try done;
       apply same_but_rotations_refl.
  eexists _, _. split; [reflexivity|]. split_and!; try done.
  simpl. destruct (ENABLE_PREFERRED_TEST cfg); simpl; by rewrite <- app_assoc.
Qed.

Lemma rotateRight_ok cfg p s :
  exists p' s', rotateRight cfg p s = Some (p', s') /\ inorder p' = inorder p /\
    same_but_rotations s s' /\ (p <> nullptr -> p' <> nullptr).
Proof.
  destruct p as [|i k c [|i1 k1 c1 l1 r1 n1] rt n]; simpl.
  1,2: eexists _, s; split; [reflexivity|]; split_and!; try done;
       apply same_but_rotations_refl.
  eexists _, _. split; [reflexivity|]. split_and!; try done.
  simpl. destruct (ENABLE_PREFERRED_TEST cfg); simpl; by rewrite <- app_assoc.
Qed.

Lemma inorder_flipColors p : inorder (flipColors p) = inorder p.
Proof.
  destruct p as [|i k c [|i1 k1 c1 l1 r1 n1] [|i2 k2 c2 l2 r2 n2] n]; simpl; try done.
  by destruct (_ || _).
Qed.

Lemma flipColors_not_null p : p <> nullptr -> flipColors p <> nullptr.
Proof.
  destruct p as [|i k c [|i1 k1 c1 l1 r1 n1] [|i2 k2 c2 l2 r2 n2] n]; simpl; try done.
  by destruct (_ || _).
Qed.

Lemma fixUp_ok cfg p s :
  exists p' s', fixUp cfg p s = Some (p', s') /\ inorder p' = inorder p /\
    same_but_rotations s s' /\ (p <> nullptr -> p' <> nullptr).
Proof.
  unfold fixUp.
  assert (H1 : exists p1 s1,
            (if isRed (right_of p) && negb (isRed (left_of p))
             then rotateLeft cfg p else ret p) s = Some (p1, s1) /\
            inorder p1 = inorder p /\ same_but_rotations s s1 /\
            (p <> nullptr -> p1 <> nullptr)).
  { destruct (_ && _); [apply rotateLeft_ok|].
    exists p, s. split_and!; first [done | apply same_but_rotations_refl]. }
  destruct H1 as (p1 & s1 & E1 & Hi1 & Hs1 & Hn1).
  assert (H2 : exists p2 s2,
            (if isRed (left_of p1) && isRed (left_of (left_of p1))
             then rotateRight cfg p1 else ret p1) s1 = Some (p2, s2) /\
            inorder p2 = inorder p1 /\ same_but_rotations s1 s2 /\
            (p1 <> nullptr -> p2 <> nullptr)).
  { destruct (isRed (left_of p1) && isRed (left_of (left_of p1))); [apply rotateRight_ok|].
    exists p1, s1. split_and!; first [done | apply same_but_rotations_refl]. }
  destruct H2 as (p2 & s2 & E2 & Hi2 & Hs2 & Hn2).
  eexists _, s2. split.
  { unfold bind at 1. rewrite E1. unfold bind at 1. rewrite E2. reflexivity. }
  split_and!.
  - rewrite inorder_updateSize.
    destruct (isRed (left_of p2) && isRed (right_of p2));
      [rewrite inorder_flipColors|]; congruence.
  - by eapply same_but_rotations_trans.
  - intros Hp. apply updateSize_not_null.
    destruct (isRed (left_of p2) && isRed (right_of p2));
      [apply flipColors_not_null|]; auto.
Qed.

Lemma llrb_contains_from_spec p x :
  AVL.sorted (inorder p) -> contains_from p x = bool_decide (x ∈ inorder p).
Proof.
  induction p as [|i k c l IHl rt IHr n]; simpl; [done|].
  intros Hs. apply AVLFacts.sorted_mid in Hs as (Hsl & Hsr & Hlk & Hkr).
  rewrite Forall_forall in Hlk. rewrite Forall_forall in Hkr.
  destruct (x <? k) eqn:E1; [|destruct (x >? k) eqn:E2].
  - rewrite IHl by done. apply bool_decide_ext.
    rewrite elem_of_app, elem_of_cons. split; [tauto|].
    intros [H|[H|H]]; [done|lia|]. specialize (Hkr _ H). lia.
  - rewrite IHr by done. apply bool_decide_ext.
    rewrite elem_of_app, elem_of_cons. split; [tauto|].
    intros [H|[H|H]]; [|lia|done]. specialize (Hlk _ H). lia.
  - symmetry. apply bool_decide_eq_true. assert (x = k) as -> by lia. set_solver.
Qed.

(** [insert(p, x)] on a subtree in key order. *)
Lemma insert_at_ok cfg x p : forall s,
  AVL.sorted (inorder p) ->
  exists p' s', insert_at cfg p x s = Some (p', s') /\ p' <> nullptr /\
    inorder p' = AVL.ins x (inorder p) /\
    root s' = root s /\ r s' = r s /\
    (x ∈ inorder p -> a s' = false /\ count s' = count s /\
                      freed s' = freed s /\ brk s' = brk s) /\
    (x ∉ inorder p -> a s' = true /\ count s' = S (count s) /\
                      freed s' = left_of (freed s) /\
                      brk s' = match freed s with
                               | nullptr => S (brk s)
                               | node _ _ _ _ _ _ => brk s
                               end).
Proof.
  induction p as [|i k c l IHl rt IHr n]; intros s Hs.
  - cbn [insert_at]. unfold newNode. lrun.
    destruct (freed s) as [|fp fk fc fnext frt fn] eqn:Ef; lrun.
    all: eexists _, _; split; [reflexivity|]; simpl; split_and!; try done.
    all: intros H; by apply not_elem_of_nil in H.
  - cbn [insert_at]. simpl in Hs. pose proof Hs as Hs0.
    apply AVLFacts.sorted_mid in Hs as (Hsl & Hsr & Hlk & Hkr).
    rewrite Forall_forall in Hlk. rewrite Forall_forall in Hkr.
    destruct (x <? k) eqn:E1; [|destruct (x >? k) eqn:E2].
    + destruct (IHl s Hsl) as (l' & s1 & El & Hn & Hi & Hr1 & Hr2 & Hin & Hout).
      destruct (fixUp_ok cfg (node i k c l' rt n) s1)
        as (p' & s' & Ef & Hif & (Q1 & Q2 & Q3 & Q4 & Q5 & Q6) & Hnf).
      exists p', s'. split.
      { unfold bind. rewrite El. unfold ret. exact Ef. }
      simpl in *. split_and!; [by apply Hnf|..].
      * rewrite Hif. simpl. rewrite Hi. symmetry. apply AVLFacts.ins_mid_lt; [done|lia].
      * congruence.
      * congruence.
      * intros Hx. rewrite elem_of_app, elem_of_cons in Hx.
        destruct Hx as [Hx|[->|Hx]]; [|lia|specialize (Hkr _ Hx); lia].
        destruct (Hin Hx) as (? & ? & ? & ?). split_and!; congruence.
      * intros Hx. rewrite not_elem_of_app in Hx. destruct Hx as [Hx _].
        destruct (Hout Hx) as (? & ? & ? & ?). split_and!; congruence.
    + destruct (IHr s Hsr) as (r' & s1 & El & Hn & Hi & Hr1 & Hr2 & Hin & Hout).
      destruct (fixUp_ok cfg (node i k c l r' n) s1)
        as (p' & s' & Ef & Hif & (Q1 & Q2 & Q3 & Q4 & Q5 & Q6) & Hnf).
      exists p', s'. split.
      { unfold bind. rewrite El. unfold ret. exact Ef. }
      simpl in *. split_and!; [by apply Hnf|..].
      * rewrite Hif. simpl. rewrite Hi. symmetry. apply AVLFacts.ins_mid_gt; [done|lia].
      * congruence.
      * congruence.
      * intros Hx. rewrite elem_of_app, elem_of_cons in Hx.
        destruct Hx as [Hx|[->|Hx]]; [specialize (Hlk _ Hx); lia|lia|].
        destruct (Hin Hx) as (? & ? & ? & ?). split_and!; congruence.
      * intros Hx. rewrite not_elem_of_app, not_elem_of_cons in Hx.
        destruct Hx as (_ & _ & Hx).
        destruct (Hout Hx) as (? & ? & ? & ?). split_and!; congruence.
    + assert (x = k) as -> by lia.
      destruct (fixUp_ok cfg (node i k c l rt n) (with_a false s))
        as (p' & s' & Ef & Hif & (Q1 & Q2 & Q3 & Q4 & Q5 & Q6) & Hnf).
      exists p', s'. split.
      { unfold bind, modify, ret. exact Ef. }
      simpl in *. split_and!; [by apply Hnf|..]; try done.
      * rewrite Hif. simpl. symmetry. by apply AVLFacts.ins_mid_eq.
      * intros Hx. exfalso. apply Hx. set_solver.
Qed.

Lemma inorder_set_color p c : inorder (set_color p c) = inorder p.
Proof. by destruct p. Qed.

Lemma insert_ok cfg x s :
  AVL.sorted (inorder (root s)) ->
  exists b s', insert cfg x s = Some (b, s') /\
    b = negb (bool_decide (x ∈ inorder (root s))) /\
    inorder (root s') = AVL.ins x (inorder (root s)) /\
    count s' = (if b then S (count s) else count s) /\
    (root s <> nullptr -> getColor (root s') = BLACK) /\
    freed s' = (if b then left_of (freed s) else freed s) /\
    brk s' = (if b then match freed s with
                        | nullptr => S (brk s)
                        | node _ _ _ _ _ _ => brk s
                        end
              else brk s).
Proof.
  intros Hs. unfold insert. lrun.
  destruct (root s) as [|i k c l rt n] eqn:Er.
  - unfold newNode. lrun.
    destruct (freed s) as [|fp fk fc fnext frt fn] eqn:Ef; lrun.
    all: eexists _, _; split; [reflexivity|]; simpl; split_and!; try done.
  - destruct (insert_at_ok cfg x (node i k c l rt n) (with_a false s) Hs)
      as (p' & s1 & E1 & Hn & Hi & Hr1 & Hr2 & Hin & Hout).
    rewrite E1. eexists _, _. split; [reflexivity|]. simpl.
    rewrite inorder_set_color. split_and!; try done.
    + destruct (decide (x ∈ inorder (node i k c l rt n))) as [Hx|Hx].
      * rewrite (bool_decide_eq_true_2 _ Hx). by destruct (Hin Hx) as (-> & _).
      * rewrite (bool_decide_eq_false_2 _ Hx). by destruct (Hout Hx) as (-> & _).
    + destruct (decide (x ∈ inorder (node i k c l rt n))) as [Hx|Hx].
      * destruct (Hin Hx) as (Ha & Hc & _). by rewrite Ha, Hc.
      * destruct (Hout Hx) as (Ha & Hc & _). by rewrite Ha, Hc.
    + intros _. by destruct p'.
    + destruct (decide (x ∈ inorder (node i k c l rt n))) as [Hx|Hx].
      * destruct (Hin Hx) as (Ha & _ & Hf & _). by rewrite Ha, Hf.
      * destruct (Hout Hx) as (Ha & _ & Hf & _). by rewrite Ha, Hf.
    + destruct (decide (x ∈ inorder (node i k c l rt n))) as [Hx|Hx].
      * destruct (Hin Hx) as (Ha & _ & _ & Hb). by rewrite Ha, Hb.
      * destruct (Hout Hx) as (Ha & _ & _ & Hb). by rewrite Ha, Hb.
Qed.

(** *** The colours *)

Ltac lrun_in E := unfold bind, ret, modify, get, fail in E; simpl in E.

(** Splits the hypotheses on the shape of subtrees. *)
Ltac hyps :=
  repeat match goal with
  | H : _ /\ _ |- _ => destruct H
  | H : False |- _ => destruct H
  | H : match ?h with O => False | S _ => _ end |- _ => destruct h; [destruct H|]
  | H : true = false |- _ => discriminate H
  | H : false = true |- _ => discriminate H
  | H : S _ = O |- _ => discriminate H
  | H : O = S _ |- _ => discriminate H
  end.

(** Runs the tests of a restructuring function in [E]. *)
Ltac tests E :=
  repeat first
    [ progress (lrun_in E)
    | match goal with
      | H : isRed ?x = _ |- _ =>
          match type of E with context [isRed x] => rewrite H in E end
      end
    | match type of E with
      | context [isRed ?x] =>
          is_var x; destruct x as [|? ? [|] ? ? ?]; simpl in *; hyps
      end ].

Ltac sized_goal EN :=
  unfold sized, checkSize_throws; rewrite ?EN; simpl;
  first [reflexivity | apply negb_false_iff, Nat.eqb_eq; simpl in *; lia].

Ltac sized_hyps EN :=
  repeat match goal with
  | H : sized _ _ |- _ =>
      unfold sized, checkSize_throws in H; rewrite ?EN in H; simpl in H;
      try (apply negb_false_iff, Nat.eqb_eq in H)
  end.

Ltac finish EN :=
  sized_hyps EN; unfold RED, BLACK in *; cbn [llrb almost isRed andb];
  repeat match goal with
  | |- _ /\ _ => split
  | |- sized _ _ => sized_goal EN
  end; try done.

(** The three steps that end [insert(p, x)], after the insertion into one
    of the subtrees of [p]. *)
Lemma fixUp_llrb cfg i k c l rt n h s p' s' :
  fixUp cfg (node i k c l rt n) s = Some (p', s') ->
  llrb cfg rt h ->
  (llrb cfg l h \/ (c = BLACK /\ almost cfg l h /\ isRed rt = false)) ->
  (c = RED -> isRed l && isRed rt = false) ->
  if c then almost cfg p' h else llrb cfg p' (S h).
Proof.
  intros E Hr Hl Hc.
  destruct (ENABLE_PREFERRED_TEST cfg) eqn:EN.
  all: destruct c; [specialize (Hc eq_refl)|clear Hc].
  all: destruct Hl as [Hl|(? & Hl & Hrr)]; try discriminate.
  all: destruct rt as [|ir kr [|] rl rr nr], l as [|il kl [|] ll lr nl];
    simpl in Hr, Hl; try (simpl in Hc); try discriminate; hyps.
  all: unfold fixUp, rotateLeft, rotateRight, updateSize in E; rewrite ?EN in E;
    tests E.
  all: injection E as <- <-.
  all: finish EN.
Qed.

(** [insert(p, x)] on a left-leaning red-black subtree. *)
Lemma insert_at_llrb cfg x p : forall h s p' s',
  llrb cfg p h -> insert_at cfg p x s = Some (p', s') ->
  if isRed p then almost cfg p' h else llrb cfg p' h.
Proof.
  induction p as [|i k c l IHl rt IHr n]; intros h s p' s' Hp E.
  - cbn [insert_at] in E. unfold newNode in E. lrun_in E. simpl in Hp. subst h.
    destruct (freed s) as [|fp fk fc fnext frt fn]; lrun_in E;
      injection E as <- <-; simpl; split_and!; try done.
    all: unfold sized; simpl; apply andb_false_r.
  - cbn [insert_at] in E.
    assert (Hk : exists h', h = (if c then h' else S h') /\
              llrb cfg l h' /\ llrb cfg rt h' /\ isRed rt = false /\
              (c = RED -> isRed l = false)).
    { simpl in Hp. destruct c; hyps; eexists; split_and!; try done. }
    destruct Hk as (h' & -> & Hl & Hr & Hrr & Hcl).
    unfold bind in E.
    destruct (x <? k) eqn:E1; [|destruct (x >? k) eqn:E2].
    + destruct (insert_at cfg l x s) as [[l' s1]|] eqn:El; [|discriminate].
      unfold ret in E. pose proof (IHl _ _ _ _ Hl El) as Hl'.
      apply (fixUp_llrb _ _ _ _ _ _ _ h') in E; [by destruct c|done|..].
      * destruct (isRed l) eqn:Eil; [|by left].
        right. destruct c; [by specialize (Hcl eq_refl)|done].
      * intros ->. rewrite Hrr. apply andb_false_r.
    + destruct (insert_at cfg rt x s) as [[r' s1]|] eqn:Er; [|discriminate].
      unfold ret in E. pose proof (IHr _ _ _ _ Hr Er) as Hr'. rewrite Hrr in Hr'.
      apply (fixUp_llrb _ _ _ _ _ _ _ h') in E; [by destruct c|done|by left|].
      intros ->. by rewrite Hcl.
    + unfold modify, ret in E.
      apply (fixUp_llrb _ _ _ _ _ _ _ h') in E; [by destruct c|done|by left|].
      intros ->. by rewrite Hcl.
Qed.

Lemma llrb_set_black cfg p h :
  almost cfg p h \/ llrb cfg p h -> p <> nullptr ->
  exists h', llrb cfg (set_color p BLACK) h'.
Proof.
  destruct p as [|i k [|] l rt n]; [done|..]; simpl; intros H _.
  - exists (S h). destruct H as [H|H]; hyps; split_and!; try done.
  - exists h. destruct H as [H|H]; hyps; split_and!; try done.
Qed.

Lemma fixUp_freed cfg p s p' s' :
  fixUp cfg p s = Some (p', s') -> freed s' = freed s /\ brk s' = brk s.
Proof.
  intros E. destruct (fixUp_ok cfg p s) as (p1 & s1 & E1 & _ & Hs & _).
  rewrite E1 in E. injection E as <- <-. unfold same_but_rotations in Hs. tauto.
Qed.

Lemma insert_at_freed cfg x p : forall s p' s',
  insert_at cfg p x s = Some (p', s') -> freed s = nullptr -> freed s' = nullptr.
Proof.
  induction p as [|i k c l IHl rt IHr n]; intros s p' s' E Hf.
  - cbn [insert_at] in E. unfold newNode in E. lrun_in E. rewrite Hf in E.
    lrun_in E. by injection E as <- <-.
  - cbn [insert_at] in E. unfold bind in E.
    destruct (x <? k); [|destruct (x >? k)].
    + destruct (insert_at cfg l x s) as [[l' s1]|] eqn:El; [|discriminate].
      apply fixUp_freed in E as [-> _]. eauto.
    + destruct (insert_at cfg rt x s) as [[r' s1]|] eqn:Er; [|discriminate].
      apply fixUp_freed in E as [-> _]. eauto.
    + unfold modify, ret in E. by apply fixUp_freed in E as [-> _].
Qed.

(** [insert(x)] keeps the invariant; the root is BLACK afterwards, but when
    the root of an empty tree was taken from the freed list. *)
Lemma insert_LInv cfg x s :
  LInv cfg s ->
  exists b s', insert cfg x s = Some (b, s') /\ LInv cfg s' /\
    (root s <> nullptr \/ freed s = nullptr -> isRed (root s') = false) /\
    (freed s = nullptr -> freed s' = nullptr).
Proof.
  intros (Hs & Hc & h & Hh).
  destruct (insert_ok cfg x s Hs) as (b & s' & E & Hb & Hi & Hc' & Hcol).
  exists b, s'. split; [done|].
  assert (Hs' : AVL.sorted (inorder (root s'))).
  { rewrite Hi. by apply AVLFacts.sorted_ins. }
  assert (Hn' : count s' = length (inorder (root s'))).
  { rewrite Hc', Hi, Hb, Hc.
    destruct (decide (x ∈ inorder (root s))) as [Hk|Hk].
    - rewrite (bool_decide_eq_true_2 _ Hk). simpl. by rewrite AVLFacts.ins_id.
    - rewrite (bool_decide_eq_false_2 _ Hk). simpl.
      by rewrite AVLFacts.length_ins_new. }
  unfold LInv. unfold insert in E. lrun_in E.
  destruct (root s) as [|i k c l rt n] eqn:Er.
  - unfold newNode in E. lrun_in E.
    destruct (freed s) as [|fp fk fc fnext frt fn] eqn:Ef; lrun_in E;
      injection E as <- <-; simpl in *.
    + split_and!; try done. exists 1%nat. split_and!; try done.
      unfold sized. simpl. apply andb_false_r.
    + split_and!; try done; [|by intros [|]].
      exists 0%nat. split_and!; try done.
      unfold sized. simpl. apply andb_false_r.
  - destruct (insert_at cfg (node i k c l rt n) x (with_a false s))
      as [[p1 s1]|] eqn:E1; [|discriminate].
    injection E as <- <-. simpl in Hs', Hn', Hi |- *.
    pose proof (insert_at_llrb _ _ _ _ _ _ _ Hh E1) as H1.
    destruct (insert_at_ok cfg x (node i k c l rt n) (with_a false s) Hs)
      as (p2 & s2 & E2 & Hn2 & _).
    rewrite E1 in E2. injection E2 as <- <-.
    split_and!; try done.
    + apply (llrb_set_black _ _ h); [|done]. destruct (isRed _); tauto.
    + intros _. by destruct p1.
    + intros Hf. by apply (insert_at_freed _ _ _ _ _ _ E1).
Qed.

Lemma getColor_isRed p : getColor p = isRed p.
Proof. by destruct p. Qed.

(** [checkTree(node, prevCount, currCount)] on a left-leaning red-black
    subtree in key order returns the number of BLACK nodes on a path from
    the root of the tree to a leaf. *)
Lemma checkTree_at_llrb cfg p : forall h prev curr,
  p <> nullptr -> llrb cfg p h -> AVL.sorted (inorder p) ->
  prev = 0%nat \/ prev = (curr + h)%nat ->
  checkTree_at cfg p prev curr = Some (curr + h)%nat.
Proof.
  induction p as [|i k c l IHl rt IHr n]; intros h prev curr Hn Hp Hs Hprev; [done|].
  simpl in Hs. apply AVLFacts.sorted_mid in Hs as (Hsl & Hsr & Hlk & Hkr).
  cbn [llrb] in Hp. destruct Hp as (Hrr & Hcl & Hsz & Hh).
  cbn [checkTree_at]. unfold sized in Hsz. rewrite Hsz.
  set (curr' := if eqb c BLACK then S curr else curr).
  assert (Hh' : exists hl, llrb cfg l hl /\ llrb cfg rt hl /\
                  (curr' + hl = curr + h)%nat).
  { subst curr'. destruct c; simpl; hyps; eexists; split_and!; try done; lia. }
  destruct Hh' as (hl & Hl & Hr & Heq).
  assert (HL : l <> nullptr -> checkTree_at cfg l prev curr' = Some (curr + h)%nat).
  { intros Hx. rewrite <- Heq. apply IHl; try done. lia. }
  assert (HR : rt <> nullptr -> checkTree_at cfg rt prev curr' = Some (curr + h)%nat).
  { intros Hx. rewrite <- Heq. apply IHr; try done. lia. }
  assert (Hc1 : eqb c RED && eqb (getColor l) RED = false).
  { rewrite getColor_isRed. by destruct c, (isRed l). }
  assert (Hc2 : eqb (getColor rt) RED = false).
  { by rewrite getColor_isRed, Hrr. }
  rewrite Hc1, Hc2.
  assert (Hk1 : match l with nullptr => false | node _ kl _ _ _ _ => kl >=? k end
                = false).
  { destruct l as [|il kl cl ll lr nl]; [done|]. simpl in Hlk.
    apply Forall_app in Hlk as [_ Hlk]. apply Forall_cons in Hlk as [Hlk _]. lia. }
  assert (Hk2 : match rt with nullptr => false | node _ kr _ _ _ _ => kr <=? k end
                = false).
  { destruct rt as [|ir kr cr rl rr nr]; [done|]. simpl in Hkr.
    apply Forall_app in Hkr as [_ Hkr]. apply Forall_cons in Hkr as [Hkr _]. lia. }
  rewrite Hk1, Hk2.
  destruct l as [|il kl cl ll lr nl], rt as [|ir kr cr rl rr nr].
  - simpl in Hl. subst hl. rewrite Nat.add_0_r in Heq. rewrite Heq.
    destruct Hprev as [->| ->]; [done|]. by rewrite Nat.eqb_refl, andb_false_r.
  - simpl in Hl, Hr, Hrr. subst. hyps.
  - rewrite HL by done. destruct (curr + h)%nat eqn:Ez; done.
  - rewrite HL, HR by done. destruct (curr + h)%nat eqn:Ez; [done|].
    cbn [Nat.eqb]. by rewrite Nat.eqb_refl.
Qed.

(** [checkTree()] passes on a tree that satisfies the invariant, unless its
    root is RED. *)
Lemma checkTree_LInv cfg s :
  LInv cfg s -> isRed (root s) = false -> exists n, checkTree cfg s = Some n.
Proof.
  intros (Hs & Hc & h & Hh) Hr. unfold checkTree.
  destruct (root s) as [|i k c l rt n] eqn:Er; [by eexists|].
  rewrite getColor_isRed, Hr. cbn [eqb negb BLACK].
  rewrite (checkTree_at_llrb cfg _ h 0 0) by (done || by left).
  rewrite (checkTree_at_llrb cfg _ h (0 + h) 0) by (done || by right).
  by eexists.
Qed.

(** *** [erase] *)

Lemma sbr_rotL s : same_but_rotations s (with_rotateL (S (rotateL s)) s).
Proof. by unfold same_but_rotations. Qed.

Lemma sbr_rotR s : same_but_rotations s (with_rotateR (S (rotateR s)) s).
Proof. by unfold same_but_rotations. Qed.

(** Splits the hypotheses on the order of the keys. *)
Ltac order_hyps :=
  repeat match goal with
  | H : AVL.sorted (_ ++ _ :: _) |- _ =>
      apply AVLFacts.sorted_mid in H as (? & ? & ? & ?)
  | H : Forall _ (_ ++ _) |- _ => apply Forall_app in H as [? ?]
  | H : Forall _ (_ :: _) |- _ => apply Forall_cons in H as [? ?]
  end.

(** [balance(p)] when both subtrees of [p] are left-leaning red-black trees
    of the same black height. *)
Lemma balance_llrb cfg i k c l rt n h s :
  llrb cfg l h -> llrb cfg rt h ->
  (c = RED -> isRed l = false /\ isRed rt = false) ->
  exists q s', balance cfg (node i k c l rt n) s = Some (q, s') /\
    llrb cfg q (if c then h else S h) /\
    (c = BLACK -> isRed l && isRed rt = false -> isRed q = false) /\
    inorder q = inorder l ++ k :: inorder rt /\ same_but_rotations s s'.
Proof.
  intros Hl Hr Hc. cbn [balance].
  destruct (fixUp_ok cfg (node i k c l rt n) s) as (q & s' & E & Hi & Hs & _).
  exists q, s'. split; [done|]. split_and!; [| |done|done].
  - destruct (ENABLE_PREFERRED_TEST cfg) eqn:EN.
    all: destruct c; [destruct (Hc eq_refl) as [Hc1 Hc2]|clear Hc].
    all: destruct rt as [|ir kr [|] rl rr nr], l as [|il kl [|] ll lr nl];
      simpl in Hr, Hl; try discriminate; hyps.
    all: unfold fixUp, rotateLeft, rotateRight, updateSize in E; rewrite ?EN in E;
      tests E.
    all: injection E as <- <-.
    all: finish EN.
  - intros -> Hb. clear Hc.
    destruct rt as [|ir kr [|] rl rr nr], l as [|il kl [|] ll lr nl];
      simpl in Hr, Hl, Hb; try discriminate; hyps.
    all: unfold fixUp, rotateLeft, rotateRight, updateSize in E;
      destruct (ENABLE_PREFERRED_TEST cfg); tests E.
    all: by injection E as <- <-.
Qed.

(** [moveRedLeft(p)] on a RED node whose left child and left grandchild
    are BLACK: afterwards the left child, or its left child, is RED. *)
Lemma moveRedLeft_spec cfg i k l rt n h s :
  llrb cfg (node i k RED l rt n) h -> l <> nullptr -> isRed (left_of l) = false ->
  AVL.sorted (inorder l ++ k :: inorder rt) ->
  exists i1 k1 c1 l1 r1 n1 s' hl,
    moveRedLeft cfg (node i k RED l rt n) s = Some (node i1 k1 c1 l1 r1 n1, s') /\
    same_but_rotations s s' /\
    inorder l1 ++ k1 :: inorder r1 = inorder l ++ k :: inorder rt /\
    erasable cfg l1 hl /\ llrb cfg r1 hl /\ h = (if c1 then hl else S hl) /\
    (c1 = RED -> isRed l1 = false /\ isRed r1 = false) /\ k <= k1.
Proof.
  intros Hp Hl Hll Hs.
  destruct (ENABLE_PREFERRED_TEST cfg) eqn:EN.
  all: destruct l as [|il kl cl ll lr nl]; [done|clear Hl].
  all: unfold RED in Hp; cbn [llrb] in Hp; simpl in Hll; hyps.
  all: destruct cl; simpl in *; try discriminate; hyps.
  all: destruct rt as [|ir kr [|] rl rr nr]; simpl in *; try discriminate; hyps.
  all: destruct (isRed rl) eqn:Erl.
  all: try (destruct rl as [|irl krl [|] rll rlr nrl]; simpl in *; try discriminate; hyps).
  all: unfold moveRedLeft, rotateLeft, rotateRight, updateSize; simpl; rewrite ?EN, ?Erl;
    lrun; rewrite ?EN; simpl.
  all: do 8 eexists; split; [reflexivity|].
  all: match goal with
       | |- _ /\ _ /\ _ /\ _ /\ ?e /\ _ => assert (He : e) by reflexivity
       end.
  all: split_and!; try done.
  all: try (by unfold same_but_rotations).
  all: try (simpl; by rewrite <- ?app_assoc).
  all: try (unfold erasable; split; [|done]).
  all: try finish EN.
  all: order_hyps; lia.
Qed.

(** [moveRedRight(p)] on a RED node whose right child is BLACK and has a
    BLACK left child: afterwards the right child is RED, or it is a BLACK
    node with a RED right child and holds the key of [p]. *)
Lemma moveRedRight_spec cfg i k l rt n h s :
  llrb cfg (node i k RED l rt n) h -> rt <> nullptr -> isRed (left_of rt) = false ->
  AVL.sorted (inorder l ++ k :: inorder rt) ->
  exists i1 k1 c1 l1 r1 n1 s' hl,
    moveRedRight cfg (node i k RED l rt n) s = Some (node i1 k1 c1 l1 r1 n1, s') /\
    same_but_rotations s s' /\
    inorder l1 ++ k1 :: inorder r1 = inorder l ++ k :: inorder rt /\
    llrb cfg l1 hl /\ h = (if c1 then hl else S hl) /\
    (c1 = RED -> isRed l1 = false /\ isRed r1 = false) /\
    ((k1 = k /\ erasable cfg r1 hl) \/
     (k1 < k /\ forall x, k <= x -> right_heavy cfg r1 hl x)).
Proof.
  intros Hp Hr Hrl Hs.
  destruct (ENABLE_PREFERRED_TEST cfg) eqn:EN.
  all: destruct rt as [|ir kr cr rl rr nr]; [done|clear Hr].
  all: unfold RED in Hp; cbn [llrb] in Hp; simpl in Hrl; hyps.
  all: destruct cr; simpl in *; try discriminate; hyps.
  all: destruct l as [|il kl [|] ll lr nl]; simpl in *; try discriminate; hyps.
  all: destruct (isRed ll) eqn:Ell.
  all: try (destruct ll as [|ill kll [|] lll llr nll]; simpl in *; try discriminate; hyps).
  all: unfold moveRedRight, rotateLeft, rotateRight, updateSize; simpl; rewrite ?EN, ?Ell;
    lrun; rewrite ?EN; simpl.
  all: do 8 eexists; split; [reflexivity|].
  all: match goal with
       | |- _ /\ _ /\ _ /\ ?e /\ _ => assert (He : e) by reflexivity
       end.
  all: split_and!; try done.
  all: try (by unfold same_but_rotations).
  all: try (simpl; by rewrite <- ?app_assoc).
  all: try finish EN.
  all: first
    [ left; split; [reflexivity|]; unfold erasable; split; [finish EN|done]
    | right; split; [order_hyps; lia|]; intros x Hx; cbn [right_heavy];
      sized_hyps EN; split_and!; try done; try sized_goal EN; finish EN ].
Qed.

Lemma erased_sbr_l f s s1 s2 :
  same_but_rotations s s1 -> erased f s1 s2 -> erased f s s2.
Proof.
  unfold same_but_rotations, erased. intros (Q1 & Q2 & Q3 & Q4 & Q5 & Q6).
  rewrite Q1, Q2, Q3, Q4, Q6. tauto.
Qed.

Lemma erased_sbr_r f s s1 s2 :
  erased f s s1 -> same_but_rotations s1 s2 -> erased f s s2.
Proof.
  unfold same_but_rotations, erased. intros H (Q1 & Q2 & Q3 & Q4 & Q5 & Q6).
  rewrite Q1, Q2, Q3, Q4, Q5, Q6. tauto.
Qed.

Lemma llrb_node_inv cfg i k c l rt n h :
  llrb cfg (node i k c l rt n) h ->
  exists hl, h = (if c then hl else S hl) /\ llrb cfg l hl /\ llrb cfg rt hl /\
    isRed rt = false /\ (c = RED -> isRed l = false) /\
    sized cfg (node i k c l rt n).
Proof. simpl. destruct c; intros; hyps; eexists; split_and!; try done. Qed.

Lemma null_or_not (p : Node) : p = nullptr \/ p <> nullptr.
Proof. destruct p; [by left|by right]. Qed.

Lemma llrb_0_null cfg p : llrb cfg p 0 -> isRed p = false -> p = nullptr.
Proof. destruct p as [|i k [|] l rt n]; simpl; [done|done|]. intros; hyps. Qed.

Lemma inorder_not_nil p : p <> nullptr -> inorder p <> [].
Proof. destruct p; [done|]. simpl. intros _. by destruct (inorder p1). Qed.

Lemma tail_app_cons (xs ys : list Z) : xs <> [] -> tail (xs ++ ys) = tail xs ++ ys.
Proof. by destruct xs. Qed.

Lemma deleteMin_eq cfg fuel i k c l rt n :
  l <> nullptr ->
  deleteMin cfg (S fuel) (node i k c l rt n) =
  (p <- (if negb (isRed l) && negb (isRed (left_of l))
         then moveRedLeft cfg (node i k c l rt n) else ret (node i k c l rt n)) ;;
   l' <- deleteMin cfg fuel (left_of p) ;;
   balance cfg (set_left p l')).
Proof. by destruct l. Qed.

(** [deleteMin(p)] on a subtree whose root or whose left child is RED
    removes the node with the smallest key and returns a left-leaning
    red-black tree of the same black height. *)
Lemma deleteMin_spec cfg : forall fuel p h s,
  (length (inorder p) < fuel)%nat -> erasable cfg p h -> AVL.sorted (inorder p) ->
  exists q s', deleteMin cfg fuel p s = Some (q, s') /\
    llrb cfg q h /\ (isRed p = false -> isRed q = false) /\
    inorder q = tail (inorder p) /\ erased true s s'.
Proof.
  induction fuel as [|fuel IH]; intros p h s Hlen (Hp & Hred) Hs; [lia|].
  destruct p as [|i k c l rt n]; [done|].
  destruct (llrb_node_inv _ _ _ _ _ _ _ _ Hp) as (hl & -> & Hl & Hr & Hrr & Hcl & Hsz).
  simpl in Hred.
  destruct (null_or_not l) as [->|Hln].
  - simpl in Hl. subst hl. rewrite orb_false_r in Hred. subst c.
    apply llrb_0_null in Hr; [subst rt|done].
    cbn [deleteMin deleteNode]. lrun. eexists _, _. split; [reflexivity|].
    simpl. split_and!; try done.
  - rewrite deleteMin_eq by done. simpl in Hlen, Hs.
    destruct (negb (isRed l) && negb (isRed (left_of l))) eqn:Ec.
    + apply andb_true_iff in Ec as [Ec1 Ec2].
      apply negb_true_iff in Ec1, Ec2. rewrite Ec1, orb_false_r in Hred. subst c.
      destruct (moveRedLeft_spec cfg i k l rt n hl s Hp Hln Ec2 Hs)
        as (i1 & k1 & c1 & l1 & r1 & n1 & s1 & h1 & E1 & Hs1 & Hi1 & Hl1 & Hr1 &
            -> & Hc1 & Hk1).
      destruct (IH l1 h1 s1) as (l2 & s2 & E2 & Hl2 & Hcol2 & Hi2 & Hs2).
      { apply (f_equal length) in Hi1. rewrite !length_app in Hi1. simpl in Hi1.
        rewrite length_app in Hlen. simpl in Hlen. lia. }
      { done. }
      { rewrite <- Hi1 in Hs. by apply AVLFacts.sorted_mid in Hs as (? & _). }
      destruct (balance_llrb cfg i1 k1 c1 l2 r1 n1 h1 s2 Hl2 Hr1)
        as (q & s3 & E3 & Hq & _ & Hi3 & Hs3).
      { intros Hc. destruct (Hc1 Hc). auto. }
      exists q, s3. split.
      { unfold RED in E1. unfold bind at 1. rewrite E1. cbn [left_of].
        unfold bind at 1. rewrite E2. exact E3. }
      split_and!; try done.
      * cbn [inorder]. rewrite Hi3, Hi2, <- Hi1. symmetry. apply tail_app_cons.
        apply inorder_not_nil. destruct Hl1 as [_ Hl1]. by destruct l1.
      * eapply erased_sbr_l; [done|]. by eapply erased_sbr_r.
    + assert (Hel : erasable cfg l hl /\ (c = RED -> isRed l = false)).
      { split; [|done]. split; [done|].
        destruct (isRed l) eqn:E1; [done|]. simpl in Ec. simpl.
        by apply negb_false_iff in Ec. }
      destruct Hel as [Hel _].
      destruct (IH l hl s) as (l2 & s2 & E2 & Hl2 & Hcol2 & Hi2 & Hs2).
      { rewrite length_app in Hlen. simpl in Hlen. lia. }
      { done. }
      { by apply AVLFacts.sorted_mid in Hs as (? & _). }
      destruct (balance_llrb cfg i k c l2 rt n hl s2 Hl2 Hr)
        as (q & s3 & E3 & Hq & Hcol3 & Hi3 & Hs3).
      { intros Hc. split; [|done]. apply Hcol2. auto. }
      exists q, s3. split.
      { unfold bind at 1. unfold ret at 1. cbn [left_of]. unfold bind at 1.
        rewrite E2. exact E3. }
      split_and!; try done.
      * simpl. intros ->. apply Hcol3; [done|]. rewrite Hrr. apply andb_false_r.
      * cbn [inorder]. rewrite Hi3, Hi2. symmetry. apply tail_app_cons.
        by apply inorder_not_nil.
      * by eapply erased_sbr_r.
Qed.

Lemma mem_mid_lt (xs ys : list Z) (k x : Z) :
  AVL.sorted (xs ++ k :: ys) -> x < k ->
  bool_decide (x ∈ xs ++ k :: ys) = bool_decide (x ∈ xs).
Proof.
  intros Hs Hx. apply bool_decide_ext. rewrite elem_of_app, elem_of_cons.
  apply AVLFacts.sorted_mid in Hs as (_ & _ & _ & Hk). rewrite Forall_forall in Hk.
  split; [|tauto]. intros [H|[H|H]]; [done|lia|]. specialize (Hk _ H). lia.
Qed.

Lemma mem_mid_gt (xs ys : list Z) (k x : Z) :
  AVL.sorted (xs ++ k :: ys) -> k < x ->
  bool_decide (x ∈ xs ++ k :: ys) = bool_decide (x ∈ ys).
Proof.
  intros Hs Hx. apply bool_decide_ext. rewrite elem_of_app, elem_of_cons.
  apply AVLFacts.sorted_mid in Hs as (_ & _ & Hk & _). rewrite Forall_forall in Hk.
  split; [|tauto]. intros [H|[H|H]]; [|lia|done]. specialize (Hk _ H). lia.
Qed.

Lemma mem_mid_eq (xs ys : list Z) (k : Z) : bool_decide (k ∈ xs ++ k :: ys) = true.
Proof. apply bool_decide_eq_true. set_solver. Qed.

(** The descent of [erase(p, x)] into the left subtree, and [balance]. *)
Lemma erase_descend_left cfg x fuel i k c l rt n hl s :
  erase_at_ok cfg x fuel ->
  (length (inorder l) < fuel)%nat -> AVL.sorted (inorder l ++ k :: inorder rt) ->
  x < k -> erase_pre cfg l hl x -> llrb cfg rt hl ->
  (c = RED -> isRed l = false /\ isRed rt = false) ->
  exists q s',
    (l' <- erase_at cfg fuel l x ;; balance cfg (node i k c l' rt n)) s
      = Some (q, s') /\
    llrb cfg q (if c then hl else S hl) /\
    (c = BLACK -> isRed rt = false -> isRed q = false) /\
    inorder q = AVL.del x (inorder l ++ k :: inorder rt) /\
    erased (bool_decide (x ∈ inorder l ++ k :: inorder rt)) s s'.
Proof.
  intros IH Hlen Hs Hx Hpre Hr Hc.
  pose proof Hs as Hs0. apply AVLFacts.sorted_mid in Hs0 as (Hsl & _).
  destruct (IH l hl s Hlen Hsl Hpre) as (l2 & s2 & E2 & Hl2 & Hcol2 & Hi2 & Hs2).
  destruct (balance_llrb cfg i k c l2 rt n hl s2 Hl2 Hr)
    as (q & s3 & E3 & Hq & Hcol3 & Hi3 & Hs3).
  { intros Hcr. destruct (Hc Hcr). auto. }
  exists q, s3. split; [unfold bind; by rewrite E2|].
  split_and!; try done.
  - intros Hcb Hrr. apply Hcol3; [done|]. rewrite Hrr. apply andb_false_r.
  - rewrite Hi3, Hi2. symmetry. by apply AVLFacts.del_mid_lt.
  - rewrite mem_mid_lt by done. by eapply erased_sbr_r.
Qed.

(** The descent of [erase(p, x)] into the right subtree, and [balance]. *)
Lemma erase_descend_right cfg x fuel i k c l rt n hl s :
  erase_at_ok cfg x fuel ->
  (length (inorder rt) < fuel)%nat -> AVL.sorted (inorder l ++ k :: inorder rt) ->
  k < x -> erase_pre cfg rt hl x -> llrb cfg l hl ->
  (c = RED -> isRed l = false /\ isRed rt = false) ->
  exists q s',
    (r' <- erase_at cfg fuel rt x ;; balance cfg (node i k c l r' n)) s
      = Some (q, s') /\
    llrb cfg q (if c then hl else S hl) /\
    (c = BLACK -> isRed l = false -> isRed q = false) /\
    inorder q = AVL.del x (inorder l ++ k :: inorder rt) /\
    erased (bool_decide (x ∈ inorder l ++ k :: inorder rt)) s s'.
Proof.
  intros IH Hlen Hs Hx Hpre Hl Hc.
  pose proof Hs as Hs0. apply AVLFacts.sorted_mid in Hs0 as (_ & Hsr & _).
  destruct (IH rt hl s Hlen Hsr Hpre) as (r2 & s2 & E2 & Hr2 & Hcol2 & Hi2 & Hs2).
  destruct (balance_llrb cfg i k c l r2 n hl s2 Hl Hr2)
    as (q & s3 & E3 & Hq & Hcol3 & Hi3 & Hs3).
  { intros Hcr. destruct (Hc Hcr). auto. }
  exists q, s3. split; [unfold bind; by rewrite E2|].
  split_and!; try done.
  - intros Hcb Hrr. apply Hcol3; [done|]. by rewrite Hrr.
  - rewrite Hi3, Hi2. symmetry. by apply AVLFacts.del_mid_gt.
  - rewrite mem_mid_gt by done. by eapply erased_sbr_r.
Qed.

Lemma key_min p s :
  p <> nullptr ->
  exists kq, key_of (min p) s = Some (kq, s) /\ inorder p = kq :: tail (inorder p).
Proof.
  induction p as [|i k c l IHl rt IHr n]; [done|]. intros _.
  destruct l as [|il kl cl ll lr nl].
  - simpl. by exists k.
  - destruct IHl as (kq & E & Hi); [done|]. exists kq. split; [exact E|].
    change (inorder (node i k c (node il kl cl ll lr nl) rt n))
      with (inorder (node il kl cl ll lr nl) ++ k :: inorder rt).
    rewrite Hi at 1. simpl. by destruct (inorder ll).
Qed.

(** The replacement of the key of [p] by its in-order successor. *)
Lemma erase_successor cfg fuel i k c l rt n hl s :
  (length (inorder rt) < fuel)%nat -> AVL.sorted (inorder l ++ k :: inorder rt) ->
  erasable cfg rt hl -> llrb cfg l hl ->
  (c = RED -> isRed l = false /\ isRed rt = false) ->
  exists q s',
    (kq <- key_of (min rt) ;; r' <- deleteMin cfg fuel rt ;;
     balance cfg (set_right (set_key (node i k c l rt n) kq) r')) (with_r true s)
      = Some (q, s') /\
    llrb cfg q (if c then hl else S hl) /\
    (c = BLACK -> isRed l = false -> isRed q = false) /\
    inorder q = AVL.del k (inorder l ++ k :: inorder rt) /\
    erased true s s'.
Proof.
  intros Hlen Hs Hpre Hl Hc.
  pose proof Hs as Hs0. apply AVLFacts.sorted_mid in Hs0 as (_ & Hsr & _).
  assert (Hrn : rt <> nullptr) by (destruct Hpre as [_ H]; by destruct rt).
  destruct (key_min rt (with_r true s) Hrn) as (kq & E1 & Hi1).
  destruct (deleteMin_spec cfg fuel rt hl (with_r true s) Hlen Hpre Hsr)
    as (r2 & s2 & E2 & Hr2 & Hcol2 & Hi2 & Hs2).
  destruct (balance_llrb cfg i kq c l r2 n hl s2 Hl Hr2)
    as (q & s3 & E3 & Hq & Hcol3 & Hi3 & Hs3).
  { intros Hcr. destruct (Hc Hcr). auto. }
  exists q, s3. split.
  { unfold bind at 1. rewrite E1. unfold bind at 1. rewrite E2. exact E3. }
  split_and!; try done.
  - intros Hcb Hrr. apply Hcol3; [done|]. by rewrite Hrr.
  - rewrite Hi3, Hi2, AVLFacts.del_mid_eq by done. by rewrite Hi1 at 2.
  - eapply erased_sbr_r; [|done]. unfold erased in *. simpl in Hs2. tauto.
Qed.

Lemma updateSize_node cfg i k c l rt n :
  exists n', updateSize cfg (node i k c l rt n) = node i k c l rt n' /\
    sized cfg (node i k c l rt n').
Proof.
  unfold updateSize, sized, checkSize_throws.
  destruct (ENABLE_PREFERRED_TEST cfg); eexists; (split; [reflexivity|]); simpl.
  - by rewrite Nat.eqb_refl.
  - done.
Qed.

Lemma rotateRight_node cfg i k c il kl cl ll lr nl rt n s :
  exists n' nn,
    rotateRight cfg (node i k c (node il kl cl ll lr nl) rt n) s =
      Some (node il kl c ll (node i k RED lr rt n') nn,
            with_rotateR (S (rotateR s)) s) /\
    sized cfg (node i k RED lr rt n').
Proof.
  destruct (updateSize_node cfg i k RED lr rt n) as (n' & En' & Hn').
  exists n'. eexists. split; [|done].
  unfold rotateRight. unfold bind, modify, ret. by rewrite En'.
Qed.

Lemma prefer_predecessor_never cfg p : prefer_predecessor cfg p = false.
Proof. unfold prefer_predecessor, FORCE_SUCCESSOR. by destruct (ENABLE_PREFERRED_TEST cfg). Qed.

(** [erase(p, x)], whatever the number of levels. *)
Lemma erase_at_all cfg x : forall fuel, erase_at_ok cfg x fuel.
Proof.
  induction fuel as [|fuel IH]; intros p h s Hlen Hs Hpre; [lia|].
  destruct p as [|i k c l rt n].
  - cbn [erase_at]. lrun. eexists _, _. split; [reflexivity|].
    destruct Hpre as [[_ ->]|[[_ H]|H]]; try done.
  - cbn [erase_at]. simpl in Hlen, Hs. rewrite length_app in Hlen. simpl in Hlen.
    cbn [inorder isRed].
    destruct (x <? k) eqn:Exk.
    + (* the left subtree *)
      destruct Hpre as [[? _]|[[Hp Hred]|Hrh]]; [done| |simpl in Hrh; lia].
      destruct (llrb_node_inv _ _ _ _ _ _ _ _ Hp)
        as (hl & -> & Hl & Hr & Hrr & Hcl & Hsz).
      simpl in Hred.
      destruct (negb (isRed l) && negb match l with nullptr => true | _ => false end
                && negb (isRed (left_of l))) eqn:Ec.
      * apply andb_true_iff in Ec as [Ec Ec3]. apply andb_true_iff in Ec as [Ec1 Ec2].
        apply negb_true_iff in Ec1, Ec3.
        assert (Hln : l <> nullptr) by (by destruct l).
        rewrite Ec1, orb_false_r in Hred. subst c.
        destruct (moveRedLeft_spec cfg i k l rt n hl s Hp Hln Ec3 Hs)
          as (i1 & k1 & c1 & l1 & r1 & n1 & s1 & h1 & E1 & Hs1 & Hi1 & Hl1 & Hr1 &
              -> & Hc1 & Hk1).
        rewrite <- Hi1 in Hs |- *.
        destruct (erase_descend_left cfg x fuel i1 k1 c1 l1 r1 n1 h1 s1 IH)
          as (q & s3 & E3 & Hq & _ & Hi3 & Hs3); try done.
        { apply (f_equal length) in Hi1. rewrite !length_app in Hi1. simpl in Hi1. lia. }
        { lia. }
        { right. by left. }
        exists q, s3. split.
        { unfold RED in E1. unfold bind at 1. rewrite E1. exact E3. }
        split_and!; try done. by eapply erased_sbr_l.
      * destruct (erase_descend_left cfg x fuel i k c l rt n hl s IH)
          as (q & s3 & E3 & Hq & Hcol3 & Hi3 & Hs3); try done.
        { lia. }
        { lia. }
        { destruct l as [|il kl cl ll lr nl]; [left; by split|].
          right. left. split; [done|]. simpl in Ec |- *.
          rewrite andb_true_r in Ec. by destruct cl, (isRed ll). }
        { intros Hc. split; auto. }
        exists q, s3. split; [exact E3|].
        split_and!; try done. intros ->. by apply Hcol3.
    + (* the node itself or the right subtree *)
      assert (Hkx : k <= x) by lia.
      destruct (isRed l) eqn:Eil.
      * destruct Hpre as [[? _]|[[Hp Hred]|Hrh]]; [done| |simpl in Hrh; hyps; congruence].
        destruct (llrb_node_inv _ _ _ _ _ _ _ _ Hp)
          as (hl & -> & Hl & Hr & Hrr & Hcl & Hsz).
        destruct c; [specialize (Hcl eq_refl); congruence|].
        destruct l as [|il kl [|] ll lr nl]; try discriminate.
        destruct (llrb_node_inv _ _ _ _ _ _ _ _ Hl)
          as (hl' & -> & Hll & Hlr & Hlrr & Hlcl & Hlsz).
        specialize (Hlcl eq_refl).
        destruct (rotateRight_node cfg i k false il kl true ll lr nl rt n s)
          as (n' & nn & Er & Hn').
        unfold bind at 1. rewrite Er. cbv beta iota.
        rewrite andb_false_r. unfold RED. cbn [isRed negb andb].
        unfold ret at 1, bind at 1. cbn [key_of]. unfold ret at 1, bind at 1.
        assert (Hkl : kl < k) by (simpl in Hs; order_hyps; lia).
        replace (x =? kl) with false by lia.
        cbn [right_of set_right].
        simpl in Hs, Hlen. rewrite length_app in Hlen. simpl in Hlen.
        cbn [inorder]. rewrite <- app_assoc in Hs |- *. simpl in Hs |- *.
        destruct (erase_descend_right cfg x fuel il kl false ll
                    (node i k RED lr rt n') nn hl'
                    (with_rotateR (S (rotateR s)) s) IH)
          as (q & s3 & E3 & Hq & Hcol3 & Hi3 & Hs3); try done.
        { simpl. rewrite length_app. simpl. lia. }
        { lia. }
        { right. left. split; [|done]. simpl. split_and!; try done. }
        exists q, s3. split; [exact E3|].
        split_and!; try done. intros _. by apply Hcol3.
      * assert (Hf : exists hl, h = (if c then hl else S hl) /\ llrb cfg l hl /\
                  llrb cfg rt hl /\ (c = RED -> isRed rt = false) /\
                  (c = BLACK -> isRed rt = true) /\ sized cfg (node i k c l rt n)).
        { destruct Hpre as [[? _]|[[Hp Hred]|Hrh]]; [done| |].
          - destruct (llrb_node_inv _ _ _ _ _ _ _ _ Hp)
              as (hl & -> & Hl & Hr & Hrr & Hcl & Hsz).
            simpl in Hred. rewrite Eil, orb_false_r in Hred. subst c.
            exists hl. split_and!; try done.
          - simpl in Hrh. destruct Hrh as (-> & _ & Hrr & _ & Hsz & Hh).
            destruct h as [|hl]; [done|]. exists hl. split_and!; try done; tauto. }
        destruct Hf as (hl & -> & Hl & Hr & Hcr & Hcb & Hsz). clear Hpre.
        assert (Hc : c = RED -> isRed l = false /\ isRed rt = false) by auto.
        unfold bind at 1, ret at 1. cbv beta iota.
        destruct ((x =? k) && match rt with nullptr => true | _ => false end) eqn:Ed.
        -- apply andb_true_iff in Ed as [Ed1 Ed2].
           assert (x = k) as -> by lia. destruct rt; [|done]. clear Ed1 Ed2.
           destruct c; [|by specialize (Hcb eq_refl)].
           simpl in Hr. subst hl. apply llrb_0_null in Hl; [subst l|done].
           unfold deleteNode. lrun. eexists _, _. split; [reflexivity|].
           simpl. rewrite Z.eqb_refl. split_and!; try done.
           rewrite bool_decide_eq_true_2 by set_solver. by unfold erased.
        -- destruct (negb (isRed rt) && negb match rt with nullptr => true | _ => false end
                     && negb (isRed (left_of rt))) eqn:Ec2.
           ++ apply andb_true_iff in Ec2 as [Ec2 Ec5].
              apply andb_true_iff in Ec2 as [Ec3 Ec4].
              apply negb_true_iff in Ec3, Ec5.
              assert (Hrn : rt <> nullptr) by (by destruct rt).
              destruct c; [|specialize (Hcb eq_refl); congruence].
              assert (Hp : llrb cfg (node i k RED l rt n) hl).
              { unfold RED. cbn [llrb]. rewrite Eil. split_and!; try done. }
              destruct (moveRedRight_spec cfg i k l rt n hl s Hp Hrn Ec5 Hs)
                as (i1 & k1 & c1 & l1 & r1 & n1 & s1 & h1 & E1 & Hs1 & Hi1 & Hl1 &
                    -> & Hc1 & Hd).
              unfold RED in E1. unfold bind at 1. rewrite E1.
              cbn [key_of]. unfold bind at 1, ret at 1.
              rewrite <- Hi1 in Hs |- *.
              assert (Hlen1 : (length (inorder r1) < fuel)%nat).
              { apply (f_equal length) in Hi1. rewrite !length_app in Hi1.
                simpl in Hi1. lia. }
              destruct (x =? k1) eqn:Exk1.
              ** assert (x = k1) as -> by lia.
                 destruct Hd as [[-> Her]|[Hlt _]]; [|lia].
                 rewrite prefer_predecessor_never. cbn [right_of].
                 destruct (erase_successor cfg fuel i1 k c1 l1 r1 n1 h1 s1)
                   as (q & s3 & E3 & Hq & _ & Hi3 & Hs3); try done.
                 exists q, s3. split; [exact E3|].
                 split_and!; try done. rewrite mem_mid_eq.
                 by eapply erased_sbr_l.
              ** cbn [right_of set_right].
                 destruct (erase_descend_right cfg x fuel i1 k1 c1 l1 r1 n1 h1 s1 IH)
                   as (q & s3 & E3 & Hq & _ & Hi3 & Hs3); try done.
                 { destruct Hd as [[-> _]|[Hlt _]]; lia. }
                 { destruct Hd as [[_ Her]|[_ Hrh]]; [right; by left|].
                   right. right. by apply Hrh. }
                 exists q, s3. split; [exact E3|].
                 split_and!; try done. by eapply erased_sbr_l.
           ++ unfold bind at 1, ret at 1. cbn [key_of]. unfold bind at 1, ret at 1.
              assert (Hpre : rt = nullptr \/ erasable cfg rt hl).
              { destruct rt as [|ir kr cr rl rr nr]; [by left|right].
                split; [done|]. simpl in Ec2 |- *. rewrite andb_true_r in Ec2.
                by destruct cr, (isRed rl). }
              destruct (x =? k) eqn:Exk2.
              ** assert (x = k) as -> by lia.
                 simpl in Ed.
                 destruct Hpre as [->|Her]; [done|].
                 rewrite prefer_predecessor_never. cbn [right_of].
                 destruct (erase_successor cfg fuel i k c l rt n hl s)
                   as (q & s3 & E3 & Hq & Hcol3 & Hi3 & Hs3); try done.
                 { lia. }
                 exists q, s3. split; [exact E3|].
                 split_and!; try done.
                 --- intros ->. by apply Hcol3.
                 --- by rewrite mem_mid_eq.
              ** cbn [right_of set_right].
                 destruct (erase_descend_right cfg x fuel i k c l rt n hl s IH)
                   as (q & s3 & E3 & Hq & Hcol3 & Hi3 & Hs3); try done.
                 { lia. }
                 { lia. }
                 { destruct Hpre as [->|Her]; [left|right; by left].
                   split; [done|]. by simpl in Hr. }
                 exists q, s3. split; [exact E3|].
                 split_and!; try done. intros ->. by apply Hcol3.
Qed.

Lemma inorder_set_color' p c : inorder (set_color p c) = inorder p.
Proof. by destruct p. Qed.

(** [erase(x)] keeps the invariant and leaves a BLACK root. *)
Lemma erase_LInv cfg x s :
  LInv cfg s ->
  exists s', erase cfg x s = Some (bool_decide (x ∈ inorder (root s)), s') /\
    LInv cfg s' /\ isRed (root s') = false /\
    inorder (root s') = AVL.del x (inorder (root s)) /\
    a s' = a s /\ brk s' = brk s /\
    (if bool_decide (x ∈ inorder (root s))
     then left_of (freed s') = freed s /\ freed s' <> nullptr
     else freed s' = freed s).
Proof.
  intros (Hs & Hc & h & Hh). unfold erase.
  unfold bind, modify, get, ret. cbn [root with_r count].
  destruct (root s) as [|i k c l rt n] eqn:Er.
  - exists (with_r false s). simpl. rewrite Er. split_and!; try done.
    unfold LInv. simpl. rewrite Er. split_and!; try done. by exists 0%nat.
  - destruct (llrb_node_inv _ _ _ _ _ _ _ _ Hh)
      as (hl & -> & Hl & Hr & Hrr & Hcl & Hsz).
    set (p := if negb (isRed l) && negb (isRed rt)
              then set_color (node i k c l rt n) RED else node i k c l rt n).
    assert (Hp : exists hp, erasable cfg p hp /\ inorder p = inorder l ++ k :: inorder rt).
    { subst p. rewrite Hrr, andb_true_r. destruct (isRed l) eqn:Eil; simpl.
      - eexists. split; [split; [exact Hh|]|done]. simpl. rewrite Eil. apply orb_true_r.
      - exists hl. split; [|done]. split; [|done]. unfold RED. cbn [llrb].
        rewrite Eil. split_and!; try done. }
    destruct Hp as (hp & Hp & Hip).
    destruct (erase_at_all cfg x (S (count s)) p hp (with_r false s))
      as (q & s2 & E2 & Hq & _ & Hi2 & Hs2).
    { rewrite Hip, Hc. simpl. lia. }
    { by rewrite Hip. }
    { right. by left. }
    rewrite Hip in Hi2, Hs2. fold p. rewrite E2. cbn [inorder].
    eexists. split.
    { f_equal. f_equal. unfold erased in Hs2. simpl. tauto. }
    simpl.
    assert (Hi3 : inorder match q with
                          | nullptr => nullptr
                          | node _ _ _ _ _ _ => set_color q BLACK
                          end = AVL.del x (inorder l ++ k :: inorder rt)).
    { rewrite <- Hi2. by destruct q. }
    unfold erased in Hs2. simpl in Hs2.
    destruct Hs2 as (Q1 & Q2 & Q3 & Q4 & Q5 & Q6).
    split_and!; try done.
    + unfold LInv. simpl. rewrite Hi3. split_and!.
      * by apply AVLFacts.sorted_del.
      * rewrite Q5. destruct (decide (x ∈ inorder l ++ k :: inorder rt)) as [Hx|Hx].
        -- rewrite (bool_decide_eq_true_2 _ Hx).
           pose proof (AVLFacts.length_del x _ Hx). simpl in Hc. lia.
        -- rewrite (bool_decide_eq_false_2 _ Hx). rewrite AVLFacts.del_id by done.
           exact Hc.
      * destruct q as [|qi qk qc ql qr qn]; [by exists 0%nat|].
        apply (llrb_set_black _ _ hp); [by right|done].
    + by destruct q.
Qed.

Lemma llrb_size cfg p : forall h, llrb cfg p h -> (2 ^ h <= length (inorder p) + 1)%nat.
Proof.
  induction p as [|i k c l IHl rt IHr n]; intros h Hp.
  - simpl in Hp. subst h. simpl. lia.
  - destruct (llrb_node_inv _ _ _ _ _ _ _ _ Hp) as (hl & -> & Hl & Hr & _).
    specialize (IHl _ Hl). specialize (IHr _ Hr).
    simpl. rewrite length_app. simpl. destruct c; simpl; lia.
Qed.

Lemma llrb_height cfg p : forall h,
  llrb cfg p h -> (height p <= 2 * h + (if isRed p then 1 else 0))%nat.
Proof.
  induction p as [|i k c l IHl rt IHr n]; intros h Hp; [simpl; lia|].
  destruct (llrb_node_inv _ _ _ _ _ _ _ _ Hp) as (hl & -> & Hl & Hr & Hrr & Hcl & _).
  specialize (IHl _ Hl). specialize (IHr _ Hr). rewrite Hrr in IHr.
  simpl. destruct c.
  - rewrite Hcl in IHl by done. lia.
  - destruct (isRed l); lia.
Qed.

(** *** [deleteMax] *)

Lemma removelast_mid (xs ys : list Z) (k : Z) :
  ys <> [] -> removelast (xs ++ k :: ys) = xs ++ k :: removelast ys.
Proof.
  intros Hy. rewrite removelast_app by done. f_equal. simpl. by destruct ys.
Qed.

Lemma removelast_end (xs : list Z) (k : Z) : removelast (xs ++ [k]) = xs.
Proof. apply removelast_last. Qed.

(** [deleteMax(p)] on a subtree whose root or left child is RED, or whose
    right child is RED, removes the node with the largest key and returns
    a left-leaning red-black tree of the same black height. *)
Lemma deleteMax_spec cfg : forall fuel p h s,
  (length (inorder p) < fuel)%nat -> AVL.sorted (inorder p) ->
  erasable cfg p h \/ (exists x, right_heavy cfg p h x) ->
  exists q s', deleteMax cfg fuel p s = Some (q, s') /\
    llrb cfg q h /\ (isRed p = false -> isRed q = false) /\
    inorder q = removelast (inorder p) /\ erased true s s'.
Proof.
  induction fuel as [|fuel IH]; intros p h s Hlen Hs Hpre; [lia|].
  destruct p as [|i k c l rt n].
  { destruct Hpre as [[_ H]|[x H]]; done. }
  cbn [deleteMax]. simpl in Hlen, Hs. rewrite length_app in Hlen. simpl in Hlen.
  cbn [inorder isRed left_of].
  destruct (isRed l) eqn:Eil.
  - destruct Hpre as [[Hp Hred]|[x Hrh]]; [|simpl in Hrh; hyps; congruence].
    destruct (llrb_node_inv _ _ _ _ _ _ _ _ Hp)
      as (hl & -> & Hl & Hr & Hrr & Hcl & Hsz).
    destruct c; [specialize (Hcl eq_refl); congruence|].
    destruct l as [|il kl [|] ll lr nl]; try discriminate.
    destruct (llrb_node_inv _ _ _ _ _ _ _ _ Hl)
      as (hl' & -> & Hll & Hlr & Hlrr & Hlcl & Hlsz).
    specialize (Hlcl eq_refl).
    destruct (rotateRight_node cfg i k false il kl true ll lr nl rt n s)
      as (n' & nn & Er & Hn').
    unfold bind at 1. rewrite Er. cbv beta iota.
    unfold RED. cbn [isRed negb andb]. unfold ret at 1, bind at 1.
    cbn [right_of set_right].
    simpl in Hs, Hlen. rewrite length_app in Hlen. simpl in Hlen.
    cbn [inorder]. rewrite <- app_assoc in Hs |- *. simpl in Hs |- *.
    destruct (IH (node i k RED lr rt n') hl' (with_rotateR (S (rotateR s)) s))
      as (r2 & s2 & E2 & Hr2 & _ & Hi2 & Hs2).
    { simpl. rewrite length_app. simpl. lia. }
    { simpl. by apply AVLFacts.sorted_mid in Hs as (_ & ? & _). }
    { left. split; [|done]. simpl. split_and!; try done. }
    destruct (balance_llrb cfg il kl false ll r2 nn hl' s2 Hll Hr2)
      as (q & s3 & E3 & Hq & Hcol3 & Hi3 & Hs3); [done|].
    unfold RED in E2.
    exists q, s3. split; [unfold bind; rewrite E2; exact E3|].
    split_and!; try done.
    + intros _. apply Hcol3; [done|]. by rewrite Hlcl.
    + rewrite Hi3, Hi2. simpl. symmetry. apply removelast_mid.
      by destruct (inorder lr).
    + eapply erased_sbr_l; [apply sbr_rotR|]. by eapply erased_sbr_r.
  - assert (Hf : exists hl, h = (if c then hl else S hl) /\ llrb cfg l hl /\
              llrb cfg rt hl /\ (c = RED -> isRed rt = false) /\
              (c = BLACK -> isRed rt = true) /\ sized cfg (node i k c l rt n)).
    { destruct Hpre as [[Hp Hred]|[x Hrh]].
      - destruct (llrb_node_inv _ _ _ _ _ _ _ _ Hp)
          as (hl & -> & Hl & Hr & Hrr & Hcl & Hsz).
        simpl in Hred. rewrite Eil, orb_false_r in Hred. subst c.
        exists hl. split_and!; try done.
      - simpl in Hrh. destruct Hrh as (-> & _ & Hrr & _ & Hsz & Hh).
        destruct h as [|hl]; [done|]. exists hl. split_and!; try done; tauto. }
    destruct Hf as (hl & -> & Hl & Hr & Hcr & Hcb & Hsz). clear Hpre.
    unfold bind at 1, ret at 1. cbv beta iota.
    destruct (null_or_not rt) as [->|Hrn].
    + destruct c; [|by specialize (Hcb eq_refl)].
      simpl in Hr. subst hl. apply llrb_0_null in Hl; [subst l|done].
      unfold deleteNode. lrun. eexists _, _. split; [reflexivity|].
      simpl. split_and!; try done.
    + assert (Ecase : forall (K : Node -> M llrbTree Node), exists q s',
                (p <- (if negb (isRed rt) && negb (isRed (left_of rt))
                       then moveRedRight cfg (node i k c l rt n)
                       else ret (node i k c l rt n)) ;;
                 r' <- deleteMax cfg fuel (right_of p) ;;
                 balance cfg (set_right p r')) s = Some (q, s') /\
                llrb cfg q (if c then hl else S hl) /\
                (c = false -> isRed q = false) /\
                inorder q = removelast (inorder l ++ k :: inorder rt) /\
                erased true s s').
      { intros _.
        destruct (negb (isRed rt) && negb (isRed (left_of rt))) eqn:Ec2.
        - apply andb_true_iff in Ec2 as [Ec3 Ec5]. apply negb_true_iff in Ec3, Ec5.
          destruct c; [|specialize (Hcb eq_refl); congruence].
          assert (Hp : llrb cfg (node i k RED l rt n) hl).
          { unfold RED. cbn [llrb]. rewrite Eil. split_and!; try done. }
          destruct (moveRedRight_spec cfg i k l rt n hl s Hp Hrn Ec5 Hs)
            as (i1 & k1 & c1 & l1 & r1 & n1 & s1 & h1 & E1 & Hs1 & Hi1 & Hl1 &
                -> & Hc1 & Hd).
          unfold RED in E1. unfold bind at 1. rewrite E1. cbn [right_of set_right].
          rewrite <- Hi1 in Hs |- *.
          assert (Hr1n : r1 <> nullptr).
          { destruct Hd as [[_ [_ H]]|[_ H]]; [by destruct r1|].
            specialize (H k ltac:(lia)). by destruct r1. }
          destruct (IH r1 h1 s1) as (r2 & s2 & E2 & Hr2 & Hcol2 & Hi2 & Hs2).
          { apply (f_equal length) in Hi1. rewrite !length_app in Hi1.
            simpl in Hi1. lia. }
          { by apply AVLFacts.sorted_mid in Hs as (_ & ? & _). }
          { destruct Hd as [[_ Her]|[_ Hrh]]; [by left|].
            right. exists k. apply Hrh. lia. }
          destruct (balance_llrb cfg i1 k1 c1 l1 r2 n1 h1 s2 Hl1 Hr2)
            as (q & s3 & E3 & Hq & _ & Hi3 & Hs3).
          { intros Hc. destruct (Hc1 Hc). auto. }
          exists q, s3. split; [unfold bind; rewrite E2; exact E3|].
          split_and!; try done.
          + rewrite Hi3, Hi2. symmetry. apply removelast_mid.
            by apply inorder_not_nil.
          + eapply erased_sbr_l; [done|]. by eapply erased_sbr_r.
        - unfold bind at 1, ret at 1. cbn [right_of set_right].
          destruct (IH rt hl s) as (r2 & s2 & E2 & Hr2 & Hcol2 & Hi2 & Hs2).
          { lia. }
          { by apply AVLFacts.sorted_mid in Hs as (_ & ? & _). }
          { left. split; [done|].
            destruct rt as [|ir kr cr rl rr nr]; [done|]. simpl in Ec2 |- *.
            by destruct cr, (isRed rl). }
          destruct (balance_llrb cfg i k c l r2 n hl s2 Hl Hr2)
            as (q & s3 & E3 & Hq & Hcol3 & Hi3 & Hs3).
          { intros Hc. split; [done|]. apply Hcol2. auto. }
          exists q, s3. split; [unfold bind; rewrite E2; exact E3|].
          split_and!; try done.
          + intros ->. apply Hcol3; [done|]. by rewrite Eil.
          + rewrite Hi3, Hi2. symmetry. apply removelast_mid.
            by apply inorder_not_nil.
          + by eapply erased_sbr_r. }
      destruct rt as [|ir kr cr rl rr nr]; [done|]. cbv beta iota.
      apply (Ecase (fun p => ret p)).
Qed.

(** *** The public [deleteMin] and [deleteMax] *)

Lemma getSize_llrb cfg p : forall h,
  ENABLE_PREFERRED_TEST cfg = true -> llrb cfg p h -> getSize p = length (inorder p).
Proof.
  induction p as [|i k c l IHl rt IHr n]; intros h EN Hp; [done|].
  destruct (llrb_node_inv _ _ _ _ _ _ _ _ Hp) as (hl & -> & Hl & Hr & _ & _ & Hsz).
  unfold sized, checkSize_throws in Hsz. rewrite EN in Hsz. simpl in Hsz.
  apply negb_false_iff, Nat.eqb_eq in Hsz. simpl. rewrite length_app. simpl.
  rewrite Hsz, (IHl _ EN Hl), (IHr _ EN Hr). lia.
Qed.

Lemma empty_checked_LInv cfg s :
  LInv cfg s -> empty_checked cfg s = Some (Nat.eqb (count s) 0, s).
Proof.
  intros (_ & Hc & h & Hh). unfold empty_checked. lrun.
  destruct (ENABLE_PREFERRED_TEST cfg) eqn:EN; [|done]. simpl.
  by rewrite (getSize_llrb cfg _ h EN Hh), Hc, Nat.eqb_refl.
Qed.

(** The root as [erase(x)], [deleteMin()] and [deleteMax()] hand it to the
    recursive function. *)
Lemma root_erasable cfg i k c l rt n h :
  llrb cfg (node i k c l rt n) h ->
  exists hp,
    erasable cfg (if negb (isRed l) && negb (isRed rt)
                  then set_color (node i k c l rt n) RED
                  else node i k c l rt n) hp.
Proof.
  intros Hh.
  destruct (llrb_node_inv _ _ _ _ _ _ _ _ Hh)
    as (hl & -> & Hl & Hr & Hrr & Hcl & Hsz).
  rewrite Hrr, andb_true_r. destruct (isRed l) eqn:Eil; simpl.
  - eexists. split; [exact Hh|]. simpl. rewrite Eil. apply orb_true_r.
  - exists hl. split; [|done]. unfold RED. cbn [llrb].
    rewrite Eil. split_and!; try done.
Qed.

Lemma sorted_tail ks : AVL.sorted ks -> AVL.sorted (tail ks).
Proof. destruct ks; simpl; tauto. Qed.

Lemma sorted_removelast ks : AVL.sorted ks -> AVL.sorted (removelast ks).
Proof.
  intros Hs. destruct ks as [|k ks _] using rev_ind; [done|].
  rewrite removelast_last. by apply AVLFacts.sorted_app in Hs as (? & _).
Qed.

Lemma length_removelast (ks : list Z) :
  ks <> [] -> S (length (removelast ks)) = length ks.
Proof.
  intros Hn. destruct ks as [|k ks _] using rev_ind; [done|].
  rewrite removelast_last, length_app. simpl. lia.
Qed.

(** What [deleteMin()] and [deleteMax()] do with the subtree [q] that the
    recursive function returns. *)
Lemma delete_root_finish cfg s s2 q hp (f : list Z -> list Z) :
  LInv cfg s -> root s <> nullptr ->
  llrb cfg q hp -> inorder q = f (inorder (root s)) ->
  AVL.sorted (f (inorder (root s))) ->
  S (length (f (inorder (root s)))) = length (inorder (root s)) ->
  a s2 = a s -> brk s2 = brk s -> r s2 = true -> count s2 = Nat.pred (count s) ->
  left_of (freed s2) = freed s -> freed s2 <> nullptr ->
  exists s',
    (modify (with_root q) ;;;
     e <- empty_checked cfg ;;
     (if e then ret tt
      else t <- get ;;
           match root t with
           | nullptr => fail
           | node _ _ _ _ _ _ => modify (with_root (set_color (root t) BLACK))
           end) ;;;
     t <- get ;; ret (r t)) s2 = Some (true, s') /\
    LInv cfg s' /\ isRed (root s') = false /\
    inorder (root s') = f (inorder (root s)) /\
    left_of (freed s') = freed s /\ freed s' <> nullptr /\ brk s' = brk s.
Proof.
  intros (Hs & Hc & _) Hrn Hq Hi Hsf Hlf Q2 Q3 Q4 Q5 Q6 Q7.
  assert (HI2 : LInv cfg (with_root q s2)).
  { unfold LInv. simpl. rewrite Hi. split_and!; [done|lia|by exists hp]. }
  unfold bind at 1, modify at 1. unfold bind at 1.
  rewrite (empty_checked_LInv cfg _ HI2). simpl (count _).
  destruct (Nat.eqb (count s2) 0) eqn:Ez2.
  - exists (with_root q s2). split; [lrun; by rewrite Q4|].
    split_and!; try done. simpl.
    apply Nat.eqb_eq in Ez2. destruct HI2 as (_ & Hc2 & _). simpl in Hc2.
    destruct q; [done|]. simpl in Hc2. rewrite length_app in Hc2. simpl in Hc2. lia.
  - destruct q as [|qi qk qc ql qr qn].
    { exfalso. apply Nat.eqb_neq in Ez2. destruct HI2 as (_ & Hc2 & _).
      simpl in Hc2. lia. }
    eexists. split; [lrun; by rewrite Q4|]. simpl.
    destruct HI2 as (Hs2 & Hc2 & _). unfold LInv. simpl in *.
    split_and!; try done.
    apply (llrb_set_black cfg (node qi qk qc ql qr qn) hp); [by right|done].
Qed.

(** [deleteMin()] keeps the invariant and leaves a BLACK root. *)
Lemma deleteMin_root_LInv cfg s :
  LInv cfg s ->
  exists s', deleteMin_root cfg s = Some (negb (Nat.eqb (count s) 0), s') /\
    LInv cfg s' /\ isRed (root s') = false /\
    inorder (root s') = tail (inorder (root s)) /\
    (if Nat.eqb (count s) 0 then s' = s
     else left_of (freed s') = freed s /\ freed s' <> nullptr /\ brk s' = brk s).
Proof.
  intros HI. pose proof HI as (Hs & Hc & h & Hh). unfold deleteMin_root.
  unfold bind at 1. rewrite empty_checked_LInv by done.
  destruct (Nat.eqb (count s) 0) eqn:Ez.
  { exists s. split; [done|]. apply Nat.eqb_eq in Ez. rewrite Ez in Hc.
    destruct (root s) as [|i k c l rt n] eqn:Er.
    - split_and!; try done.
    - simpl in Hc. rewrite length_app in Hc. simpl in Hc. lia. }
  apply Nat.eqb_neq in Ez.
  unfold bind at 1, get at 1.
  assert (Hrn : root s <> nullptr).
  { intros Er. rewrite Er in Hc. simpl in Hc. lia. }
  destruct (root s) as [|i k c l rt n] eqn:Er; [done|].
  destruct (root_erasable cfg i k c l rt n h Hh) as (hp & Hp).
  destruct (negb (isRed l) && negb (isRed rt)) eqn:Ec.
  all: unfold bind at 1; unfold modify at 1, ret at 1;
    unfold bind at 1; unfold modify at 1;
    unfold bind at 1; unfold get at 1; cbn [root count with_r with_root];
    rewrite ?Er; unfold bind at 1.
  all: match goal with
       | |- context [deleteMin ?c ?f ?P ?SX] =>
           destruct (deleteMin_spec c f P hp SX)
             as (q & s2 & E2 & Hq & _ & Hi2 & Hs2);
           [simpl; rewrite length_app; simpl; simpl in Hc;
            rewrite length_app in Hc; simpl in Hc; lia
           |exact Hp|exact Hs|rewrite E2]
       end.
  all: unfold erased in Hs2; simpl in Hs2;
    destruct Hs2 as (Q1 & Q2 & Q3 & Q4 & Q5 & Q6 & Q7).
  all: destruct (delete_root_finish cfg s s2 q hp (@tail Z) HI) as (s' & E3 & H3);
    try done; rewrite ?Er; simpl in Hi2 |- *; try done;
    [by apply sorted_tail in Hs|by destruct (inorder l)|].
  all: exists s'; split; [exact E3|]; rewrite Er in H3; simpl in H3; tauto.
Qed.

(** [deleteMax()] keeps the invariant and leaves a BLACK root. *)
Lemma deleteMax_root_LInv cfg s :
  LInv cfg s ->
  exists s', deleteMax_root cfg s = Some (negb (Nat.eqb (count s) 0), s') /\
    LInv cfg s' /\ isRed (root s') = false /\
    inorder (root s') = removelast (inorder (root s)) /\
    (if Nat.eqb (count s) 0 then s' = s
     else left_of (freed s') = freed s /\ freed s' <> nullptr /\ brk s' = brk s).
Proof.
  intros HI. pose proof HI as (Hs & Hc & h & Hh). unfold deleteMax_root.
  unfold bind at 1. rewrite empty_checked_LInv by done.
  destruct (Nat.eqb (count s) 0) eqn:Ez.
  { exists s. split; [done|]. apply Nat.eqb_eq in Ez. rewrite Ez in Hc.
    destruct (root s) as [|i k c l rt n] eqn:Er.
    - split_and!; try done.
    - simpl in Hc. rewrite length_app in Hc. simpl in Hc. lia. }
  apply Nat.eqb_neq in Ez.
  unfold bind at 1, get at 1.
  assert (Hrn : root s <> nullptr).
  { intros Er. rewrite Er in Hc. simpl in Hc. lia. }
  destruct (root s) as [|i k c l rt n] eqn:Er; [done|].
  destruct (root_erasable cfg i k c l rt n h Hh) as (hp & Hp).
  destruct (negb (isRed l) && negb (isRed rt)) eqn:Ec.
  all: unfold bind at 1; unfold modify at 1, ret at 1;
    unfold bind at 1; unfold modify at 1;
    unfold bind at 1; unfold get at 1; cbn [root count with_r with_root];
    rewrite ?Er; unfold bind at 1.
  all: match goal with
       | |- context [deleteMax ?c ?f ?P ?SX] =>
           destruct (deleteMax_spec c f P hp SX)
             as (q & s2 & E2 & Hq & _ & Hi2 & Hs2);
           [simpl; rewrite length_app; simpl; simpl in Hc;
            rewrite length_app in Hc; simpl in Hc; lia
           |exact Hs|left; exact Hp|rewrite E2]
       end.
  all: unfold erased in Hs2; simpl in Hs2;
    destruct Hs2 as (Q1 & Q2 & Q3 & Q4 & Q5 & Q6 & Q7).
  all: destruct (delete_root_finish cfg s s2 q hp (@removelast Z) HI)
         as (s' & E3 & H3);
    try done; rewrite ?Er; simpl in Hi2 |- *; try done;
    [by apply sorted_removelast in Hs
    |apply length_removelast; by destruct (inorder l)|].
  all: exists s'; split; [exact E3|]; rewrite Er in H3; simpl in H3; tauto.
Qed.

(** *** [min], [max] and [getKeys] *)

Lemma key_max p s :
  p <> nullptr ->
  exists kq, key_of (max p) s = Some (kq, s) /\ last (inorder p) = Some kq.
Proof.
  induction p as [|i k c l IHl rt IHr n]; [done|]. intros _.
  destruct rt as [|ir kr cr rl rr nr].
  - simpl. exists k. split; [done|]. by rewrite last_snoc.
  - destruct IHr as (kq & E & Hi); [done|]. exists kq. split; [exact E|].
    change (inorder (node i k c l (node ir kr cr rl rr nr) n))
      with (inorder l ++ k :: inorder (node ir kr cr rl rr nr)).
    rewrite last_app, last_cons, Hi. done.
Qed.

Lemma getKeys_at_skeleton p : forall v i,
  getKeys_at p v i = AVL.getKeys_at (skeleton p) v i.
Proof.
  induction p as [|ip k c l IHl rt IHr n]; intros v i; [done|].
  cbn [getKeys_at skeleton AVL.getKeys_at].
  assert (E1 : match l with
               | nullptr => Some (v, i)
               | node _ _ _ _ _ _ => getKeys_at l v i
               end = match skeleton l with
                     | AVL.nullptr => Some (v, i)
                     | AVL.node _ _ _ _ _ => AVL.getKeys_at (skeleton l) v i
                     end).
  { destruct l; [done|]. by rewrite IHl. }
  rewrite E1. destruct (match skeleton l with AVL.nullptr => _ | _ => _ end)
    as [[v1 i1]|]; [|done].
  destruct (AVL.store v1 i1 k) as [[v2 i2]|]; [|done].
  destruct rt; [done|]. by rewrite IHr.
Qed.

Lemma inorder_skeleton p : AVL.inorder (skeleton p) = inorder p.
Proof. induction p; simpl; [done|]. congruence. Qed.

(** [getKeys(v)] succeeds exactly when [v] has room for the keys. *)
Lemma llrb_getKeys_spec (s : llrbTree) (v : list Z) :
  ((length (inorder (root s)) <= length v)%nat ->
     getKeys s v = Some (inorder (root s) ++ drop (length (inorder (root s))) v)) /\
  ((length v < length (inorder (root s)))%nat -> getKeys s v = None).
Proof.
  unfold getKeys. destruct (root s) as [|ip k c l rt n] eqn:Er.
  - simpl. split; [|lia]. intros _. by rewrite drop_0.
  - rewrite getKeys_at_skeleton, <- inorder_skeleton. split.
    + intros Hle. by rewrite AVLFacts.getKeys_at_fits.
    + intros Hlt. by rewrite AVLFacts.getKeys_at_overrun.
Qed.

(** *** Sequences of calls *)

(** [freedPreallocate(n, x)] prepends [n] new nodes to the freed list. *)
Lemma llrb_freedPreallocate_spec n x : forall s,
  exists s', freedPreallocate n x s = Some (tt, s') /\
    root s' = root s /\ count s' = count s /\
    freedSize s' = (freedSize s + n)%nat /\ brk s' = (brk s + n)%nat /\
    a s' = a s /\ r s' = r s.
Proof.
  induction n as [|n IH]; intros s; simpl.
  - exists s. split_and!; try done; lia.
  - lrun.
    destruct (IH (with_freed (node (brk s) x RED (freed s) nullptr 1)
                    (with_brk (S (brk s)) s)))
      as (s' & E & Hr & Hc & Hf & Hb & Ha & Hrr).
    exists s'. split; [exact E|]. unfold freedSize in *. simpl in *.
    split_and!; try done; lia.
Qed.

Lemma LInv_new cfg : LInv cfg llrbTree_new.
Proof. unfold LInv. simpl. split_and!; try done. by exists 0%nat. Qed.

(** Every sequence of calls of [insert], [erase], [deleteMin] and
    [deleteMax] on a tree that satisfies the invariant succeeds and keeps
    it. *)
Lemma llrb_calls_spec cfg cs : forall s,
  LInv cfg s ->
  exists s', run_calls cfg cs s = Some s' /\ LInv cfg s' /\
    inorder (root s') = keys_after cs (inorder (root s)).
Proof.
  induction cs as [|[x|x| | |n x] cs IH]; intros s HI; simpl.
  - eauto.
  - destruct (insert_LInv cfg x s HI) as (b & s1 & E & HI1 & _).
    destruct (insert_ok cfg x s) as (b' & s1' & E' & _ & Hi & _); [by destruct HI|].
    rewrite E in E'. injection E' as <- <-. unfold bind. rewrite E, <- Hi.
    by apply IH.
  - destruct (erase_LInv cfg x s HI) as (s1 & E & HI1 & _ & Hi & _).
    unfold bind. rewrite E, <- Hi. by apply IH.
  - destruct (deleteMin_root_LInv cfg s HI) as (s1 & E & HI1 & _ & Hi & _).
    unfold bind. rewrite E, <- Hi. by apply IH.
  - destruct (deleteMax_root_LInv cfg s HI) as (s1 & E & HI1 & _ & Hi & _).
    unfold bind. rewrite E, <- Hi. by apply IH.
  - destruct (llrb_freedPreallocate_spec n x s) as (s1 & E & Hr & Hc & _).
    rewrite E, <- Hr. apply IH. unfold LInv. by rewrite Hr, Hc.
Qed.

Lemma llrb_reachable cfg cs s :
  run_calls cfg cs llrbTree_new = Some s ->
  LInv cfg s /\ inorder (root s) = keys_after cs [].
Proof.
  intros E.
  destruct (llrb_calls_spec cfg cs llrbTree_new (LInv_new cfg)) as (s' & E' & HI & HX).
  rewrite E in E'. by injection E' as <-.
Qed.

Lemma llrb_calls_app cfg c1 c2 s :
  run_calls cfg (c1 ++ c2) s = run_calls cfg c1 s ≫= run_calls cfg c2.
Proof.
  revert s. induction c1 as [|c c1 IH]; intros s; simpl; [done|].
  destruct (do_call cfg c s) as [[b s1]|]; [apply IH|done].
Qed.

Lemma keys_after_app c1 c2 ks :
  keys_after (c1 ++ c2) ks = keys_after c2 (keys_after c1 ks).
Proof. revert ks. induction c1 as [|[x|x| | |n x] c1 IH]; intros ks; simpl; auto. Qed.

Lemma keys_after_inserts ks : forall X y,
  y ∈ keys_after (map CInsert ks) X <-> y ∈ ks \/ y ∈ X.
Proof.
  induction ks as [|k ks IH]; intros X y; simpl.
  - set_solver.
  - rewrite IH, AVLFacts.elem_of_ins. set_solver.
Qed.

Lemma keys_after_erases es : forall X y,
  AVL.sorted X -> y ∈ keys_after (map CErase es) X <-> y ∈ X /\ y ∉ es.
Proof.
  induction es as [|k es IH]; intros X y HX; simpl.
  - set_solver.
  - rewrite IH by (by apply AVLFacts.sorted_del).
    rewrite AVLFacts.elem_of_del by done. set_solver.
Qed.

Lemma llrb_contains_keys cfg cs s y :
  run_calls cfg cs llrbTree_new = Some s ->
  contains s y = bool_decide (y ∈ keys_after cs []).
Proof.
  intros E. destruct (llrb_reachable cfg cs s E) as ((Hs & _) & HX).
  unfold contains. rewrite llrb_contains_from_spec by done. by rewrite HX.
Qed.

(** Calls of [insert] alone leave the freed list empty and the root BLACK. *)
Lemma llrb_inserts_spec cfg ks : forall s,
  LInv cfg s -> freed s = nullptr -> isRed (root s) = false ->
  exists s', run_calls cfg (map CInsert ks) s = Some s' /\ LInv cfg s' /\
    freed s' = nullptr /\ isRed (root s') = false.
Proof.
  induction ks as [|k ks IH]; intros s HI Hf Hr; simpl; [eauto|].
  destruct (insert_LInv cfg k s HI) as (b & s1 & E & HI1 & Hr1 & Hf1).
  unfold bind. rewrite E. apply IH; auto.
Qed.

(** Calls of [erase] do not empty the freed list. *)
Lemma llrb_erases_freed cfg es : forall s s',
  LInv cfg s -> run_calls cfg (map CErase es) s = Some s' ->
  freed s <> nullptr -> freed s' <> nullptr.
Proof.
  induction es as [|k es IH]; intros s s' HI E Hf; simpl in E.
  - by injection E as <-.
  - destruct (erase_LInv cfg k s HI) as (s1 & E1 & HI1 & _ & _ & _ & _ & Hfr).
    unfold bind in E. rewrite E1 in E. apply (IH s1 s' HI1 E).
    destruct (bool_decide _); [tauto|congruence].
Qed.

Lemma llrb_reused_root cfg x s p k c nx rt n :
  root s = nullptr -> freed s = node p k c nx rt n ->
  exists s', insert cfg x s = Some (true, s') /\ checkTree cfg s' = None.
Proof.
  intros Hr Hf. unfold insert, newNode. lrun. rewrite Hr. lrun. rewrite Hf. lrun.
  eexists. split; [reflexivity|]. unfold checkTree. simpl. done.
Qed.

Lemma freedSize_push s s' :
  left_of (freed s') = freed s -> freed s' <> nullptr ->
  freedSize s' = S (freedSize s).
Proof.
  unfold freedSize. destruct (freed s'); [done|]. simpl. by intros ->.
Qed.

Lemma freedSize_pop s s' :
  freed s' = left_of (freed s) -> freedSize s' = Nat.pred (freedSize s).
Proof. unfold freedSize. intros ->. by destruct (freed s). Qed.

(** Every node that was allocated is in the tree or on the freed list. *)
Lemma llrb_calls_alloc cfg cs : forall s s',
  LInv cfg s -> (count s + freedSize s = brk s)%nat ->
  run_calls cfg cs s = Some s' -> (count s' + freedSize s' = brk s')%nat.
Proof.
  induction cs as [|[x|x| | |n x] cs IH]; intros s s' HI Hn E; simpl in E.
  - by injection E as <-.
  - destruct (insert_LInv cfg x s HI) as (b & s1 & E1 & HI1 & _).
    destruct (insert_ok cfg x s) as (b' & s1' & E' & _ & _ & Hc & _ & Hf & Hb);
      [by destruct HI|].
    rewrite E1 in E'. injection E' as <- <-. unfold bind in E. rewrite E1 in E.
    apply (IH s1 s' HI1); [|done]. rewrite Hc, Hb. destruct b; [|unfold freedSize in *; by rewrite Hf].
    rewrite (freedSize_pop s s1 Hf). unfold freedSize in *.
    destruct (freed s); simpl in *; lia.
  - destruct (erase_LInv cfg x s HI) as (s1 & E1 & HI1 & _ & Hi & _ & Hb & Hf).
    unfold bind in E. rewrite E1 in E. apply (IH s1 s' HI1); [|done].
    destruct HI as (Hs & Hc & _). destruct HI1 as (_ & Hc1 & _).
    rewrite Hc1, Hi, Hb. rewrite Hc in Hn.
    destruct (decide (x ∈ inorder (root s))) as [Hx|Hx].
    + rewrite (bool_decide_eq_true_2 _ Hx) in Hf. destruct Hf as [Hf1 Hf2].
      rewrite (freedSize_push s s1 Hf1 Hf2).
      pose proof (AVLFacts.length_del x _ Hx). lia.
    + rewrite (bool_decide_eq_false_2 _ Hx) in Hf. unfold freedSize in *.
      rewrite Hf, AVLFacts.del_id by done. done.
  - destruct (deleteMin_root_LInv cfg s HI) as (s1 & E1 & HI1 & _ & Hi & Hf).
    unfold bind in E. rewrite E1 in E. apply (IH s1 s' HI1); [|done].
    destruct (Nat.eqb (count s) 0) eqn:Ez; [by subst s1|].
    destruct Hf as (Hf1 & Hf2 & Hb).
    destruct HI as (Hs & Hc & _). destruct HI1 as (_ & Hc1 & _).
    rewrite Hc1, Hi, Hb, (freedSize_push s s1 Hf1 Hf2).
    apply Nat.eqb_neq in Ez. rewrite Hc in Hn, Ez.
    destruct (inorder (root s)); simpl in *; [done|lia].
  - destruct (deleteMax_root_LInv cfg s HI) as (s1 & E1 & HI1 & _ & Hi & Hf).
    unfold bind in E. rewrite E1 in E. apply (IH s1 s' HI1); [|done].
    destruct (Nat.eqb (count s) 0) eqn:Ez; [by subst s1|].
    destruct Hf as (Hf1 & Hf2 & Hb).
    destruct HI as (Hs & Hc & _). destruct HI1 as (_ & Hc1 & _).
    rewrite Hc1, Hi, Hb, (freedSize_push s s1 Hf1 Hf2).
    apply Nat.eqb_neq in Ez. rewrite Hc in Hn, Ez.
    assert (Hne : inorder (root s) <> []) by (by destruct (inorder (root s))).
    pose proof (length_removelast _ Hne). lia.
  - destruct (llrb_freedPreallocate_spec n x s) as (s1 & E1 & Hr & Hc & Hf & Hb & _).
    rewrite E1 in E. apply (IH s1 s'); [|lia|done].
    unfold LInv. by rewrite Hr, Hc.
Qed.

(** *** The addresses of the nodes *)

Lemma cells_keys p : (cells p).*2 = inorder p.
Proof.
  induction p as [|i k c l IHl rt IHr n]; [done|].
  cbn [cells inorder]. by rewrite fmap_app, fmap_cons, IHl, IHr.
Qed.

Lemma cells_updateSize cfg p : cells (updateSize cfg p) = cells p.
Proof. destruct p; simpl; [done|]. by destruct (ENABLE_PREFERRED_TEST cfg). Qed.

Lemma cells_flipColors p : cells (flipColors p) = cells p.
Proof.
  destruct p as [|i k c [|i1 k1 c1 l1 r1 n1] [|i2 k2 c2 l2 r2 n2] n]; simpl; try done.
  by destruct (_ || _).
Qed.

Lemma cells_set_color p c : cells (set_color p c) = cells p.
Proof. by destruct p. Qed.

Lemma rotateLeft_cells cfg p s q s' :
  rotateLeft cfg p s = Some (q, s') -> cells q = cells p /\ same_but_rotations s s'.
Proof.
  destruct p as [|i k c l [|i1 k1 c1 l1 r1 n1] n]; simpl.
  1,2: intros [= <- <-]; split; [done|apply same_but_rotations_refl].
  lrun. intros [= <- <-]. split; [|by unfold same_but_rotations].
  destruct (ENABLE_PREFERRED_TEST cfg); simpl; by rewrite <- app_assoc.
Qed.

Lemma rotateRight_cells cfg p s q s' :
  rotateRight cfg p s = Some (q, s') -> cells q = cells p /\ same_but_rotations s s'.
Proof.
  destruct p as [|i k c [|i1 k1 c1 l1 r1 n1] rt n]; simpl.
  1,2: intros [= <- <-]; split; [done|apply same_but_rotations_refl].
  lrun. intros [= <- <-]. split; [|by unfold same_but_rotations].
  destruct (ENABLE_PREFERRED_TEST cfg); simpl; by rewrite <- app_assoc.
Qed.

Lemma fixUp_cells cfg p s q s' :
  fixUp cfg p s = Some (q, s') -> cells q = cells p /\ same_but_rotations s s'.
Proof.
  unfold fixUp. unfold bind at 1.
  destruct ((if isRed (right_of p) && negb (isRed (left_of p))
             then rotateLeft cfg p else ret p) s) as [[p1 s1]|] eqn:E1; [|done].
  unfold bind at 1.
  destruct ((if isRed (left_of p1) && isRed (left_of (left_of p1))
             then rotateRight cfg p1 else ret p1) s1) as [[p2 s2]|] eqn:E2; [|done].
  intros [= <- <-].
  assert (H1 : cells p1 = cells p /\ same_but_rotations s s1).
  { destruct (_ && _); [by eapply rotateLeft_cells|].
    injection E1 as <- <-. split; [done|apply same_but_rotations_refl]. }
  assert (H2 : cells p2 = cells p1 /\ same_but_rotations s1 s2).
  { destruct (isRed (left_of p1) && isRed (left_of (left_of p1)));
      [by eapply rotateRight_cells|].
    injection E2 as <- <-. split; [done|apply same_but_rotations_refl]. }
  destruct H1 as [H1 Q1], H2 as [H2 Q2]. split.
  - rewrite cells_updateSize.
    destruct (isRed (left_of p2) && isRed (right_of p2));
      [rewrite cells_flipColors|]; congruence.
  - by eapply same_but_rotations_trans.
Qed.

Lemma balance_cells cfg p s q s' :
  balance cfg p s = Some (q, s') -> cells q = cells p /\ same_but_rotations s s'.
Proof.
  destruct p; [|apply fixUp_cells].
  intros [= <- <-]. split; [done|apply same_but_rotations_refl].
Qed.

Lemma flipColors_node i k c l rt n :
  exists c' l' rt', flipColors (node i k c l rt n) = node i k c' l' rt' n.
Proof.
  destruct l as [|i1 k1 c1 l1 r1 n1], rt as [|i2 k2 c2 l2 r2 n2]; simpl;
    try (by eexists _, _, _).
  destruct (_ || _); by eexists _, _, _.
Qed.

Lemma moveRedLeft_cells cfg p s q s' :
  moveRedLeft cfg p s = Some (q, s') -> cells q = cells p.
Proof.
  unfold moveRedLeft. rewrite <- (cells_flipColors p).
  destruct (flipColors p) as [|i k c l rt n]; [by intros [= <- <-]|].
  cbn [right_of]. destruct rt as [|ir kr cr rl rr nr]; [by intros [= <- <-]|].
  destruct (isRed rl); [|by intros [= <- <-]].
  unfold bind at 1.
  destruct (rotateRight cfg (node ir kr cr rl rr nr) s) as [[r1 s1]|] eqn:E1; [|done].
  unfold bind at 1. cbn [set_right].
  destruct (rotateLeft cfg (node i k c l r1 n) s1) as [[p2 s2]|] eqn:E2; [|done].
  intros [= <- <-]. rewrite cells_flipColors.
  apply rotateLeft_cells in E2 as [-> _]. apply rotateRight_cells in E1 as [E1 _].
  cbn [cells]. by rewrite E1.
Qed.

Lemma moveRedRight_cells cfg p s q s' :
  moveRedRight cfg p s = Some (q, s') -> cells q = cells p.
Proof.
  unfold moveRedRight. rewrite <- (cells_flipColors p).
  destruct (flipColors p) as [|i k c l rt n]; [by intros [= <- <-]|].
  cbn [left_of]. destruct l as [|il kl cl ll lr nl]; [by intros [= <- <-]|].
  destruct (isRed ll); [|by intros [= <- <-]].
  unfold bind at 1.
  destruct (rotateRight cfg (node i k c (node il kl cl ll lr nl) rt n) s)
    as [[p2 s2]|] eqn:E2; [|done].
  intros [= <- <-]. rewrite cells_flipColors.
  by apply rotateRight_cells in E2 as [-> _].
Qed.

(** *** The node that [erase] removes *)

Lemma victim_node i k c l rt n x :
  cell_of (victim (node i k c l rt n) x) =
  if x <? k then cell_of (victim l x)
  else if x >? k then cell_of (victim rt x)
  else match rt with
       | nullptr => Some (i, k)
       | node _ _ _ _ _ _ => cell_of (min rt)
       end.
Proof.
  unfold victim. simpl. destruct (x <? k); [done|]. destruct (x >? k); [done|].
  by destruct rt.
Qed.

Lemma cell_min_head p : cell_of (min p) = head (cells p).
Proof.
  induction p as [|i k c l IHl rt IHr n]; [done|].
  destruct l as [|il kl cl ll lr nl]; [done|].
  change (min (node i k c (node il kl cl ll lr nl) rt n))
    with (min (node il kl cl ll lr nl)).
  rewrite IHl. cbn [cells]. by destruct (cells ll).
Qed.

Lemma victim_recolor i k c c' l rt n n' x :
  cell_of (victim (node i k c l rt n) x) = cell_of (victim (node i k c' l rt n') x).
Proof. by rewrite !victim_node. Qed.

Lemma victim_set_color p c x : cell_of (victim (set_color p c) x) = cell_of (victim p x).
Proof. destruct p; [done|]. apply victim_recolor. Qed.

Lemma victim_updateSize cfg p x :
  cell_of (victim (updateSize cfg p) x) = cell_of (victim p x).
Proof.
  destruct p; [done|]. simpl. destruct (ENABLE_PREFERRED_TEST cfg); [|done].
  apply victim_recolor.
Qed.

Lemma victim_flipColors p x : cell_of (victim (flipColors p) x) = cell_of (victim p x).
Proof.
  destruct p as [|i k c [|i1 k1 c1 l1 r1 n1] [|i2 k2 c2 l2 r2 n2] n]; simpl; try done.
  destruct (_ || _); [|done]. rewrite !(victim_node i k).
  rewrite (victim_recolor i1 k1 (negb c1) c1 l1 r1 n1 n1).
  rewrite (victim_recolor i2 k2 (negb c2) c2 l2 r2 n2 n2).
  by rewrite !cell_min_head.
Qed.

Lemma rotateRight_victim cfg i k c l rt n s q s' x :
  rotateRight cfg (node i k c l rt n) s = Some (q, s') ->
  AVL.sorted (inorder (node i k c l rt n)) -> k <= x ->
  cell_of (victim q x) = cell_of (victim (node i k c l rt n) x).
Proof.
  destruct l as [|il kl cl ll lr nl]; [by intros [= <- <-]|].
  unfold rotateRight, bind, modify, ret. cbv beta iota.
  intros [= <- <-] Hs Hx. simpl in Hs. order_hyps.
  rewrite (victim_node il kl).
  replace (x <? kl) with false by lia. replace (x >? kl) with true by lia.
  destruct (ENABLE_PREFERRED_TEST cfg); rewrite !(victim_node i k);
    by replace (x <? k) with false by lia.
Qed.

Lemma rotateLeft_victim cfg i k c l rt n s q s' x :
  rotateLeft cfg (node i k c l rt n) s = Some (q, s') ->
  AVL.sorted (inorder (node i k c l rt n)) -> x < k ->
  cell_of (victim q x) = cell_of (victim (node i k c l rt n) x).
Proof.
  destruct rt as [|ir kr cr rl rr nr]; [by intros [= <- <-]|].
  unfold rotateLeft, bind, modify, ret. cbv beta iota.
  intros [= <- <-] Hs Hx. simpl in Hs. order_hyps.
  rewrite (victim_node ir kr).
  replace (x <? kr) with true by lia.
  destruct (ENABLE_PREFERRED_TEST cfg); rewrite !(victim_node i k);
    by replace (x <? k) with true by lia.
Qed.

Lemma moveRedLeft_victim cfg i k c l rt n s q s' x :
  moveRedLeft cfg (node i k c l rt n) s = Some (q, s') ->
  AVL.sorted (inorder (node i k c l rt n)) -> x < k ->
  cell_of (victim q x) = cell_of (victim (node i k c l rt n) x).
Proof.
  unfold moveRedLeft. intros E Hs Hx.
  rewrite <- (victim_flipColors (node i k c l rt n)).
  rewrite <- (inorder_flipColors (node i k c l rt n)) in Hs.
  destruct (flipColors_node i k c l rt n) as (c' & l' & rt' & Ef). rewrite Ef in *.
  cbn [right_of] in E. destruct rt' as [|ir kr cr rl rr nr]; [by injection E as <- <-|].
  destruct (isRed rl); [|by injection E as <- <-].
  unfold bind at 1 in E.
  destruct (rotateRight cfg (node ir kr cr rl rr nr) s) as [[r1 s1]|] eqn:E1; [|done].
  unfold bind at 1 in E. cbn [set_right] in E.
  destruct (rotateLeft cfg (node i k c' l' r1 n) s1) as [[p2 s2]|] eqn:E2; [|done].
  injection E as <- <-. rewrite victim_flipColors.
  destruct (rotateRight_ok cfg (node ir kr cr rl rr nr) s) as (r1' & s1' & E1' & Hi1 & _).
  rewrite E1 in E1'. injection E1' as <- <-.
  rewrite (rotateLeft_victim _ _ _ _ _ _ _ _ _ _ x E2); [|cbn [inorder]; by rewrite Hi1|done].
  rewrite !(victim_node i k). by replace (x <? k) with true by lia.
Qed.

Lemma moveRedRight_victim cfg i k c l rt n s q s' x :
  moveRedRight cfg (node i k c l rt n) s = Some (q, s') ->
  AVL.sorted (inorder (node i k c l rt n)) -> k <= x ->
  cell_of (victim q x) = cell_of (victim (node i k c l rt n) x).
Proof.
  unfold moveRedRight. intros E Hs Hx.
  rewrite <- (victim_flipColors (node i k c l rt n)).
  rewrite <- (inorder_flipColors (node i k c l rt n)) in Hs.
  destruct (flipColors_node i k c l rt n) as (c' & l' & rt' & Ef). rewrite Ef in *.
  cbn [left_of] in E. destruct l' as [|il kl cl ll lr nl]; [by injection E as <- <-|].
  destruct (isRed ll); [|by injection E as <- <-].
  unfold bind at 1 in E.
  destruct (rotateRight cfg (node i k c' (node il kl cl ll lr nl) rt' n) s)
    as [[p2 s2]|] eqn:E2; [|done].
  injection E as <- <-. rewrite victim_flipColors.
  by apply (rotateRight_victim _ _ _ _ _ _ _ _ _ _ x E2).
Qed.

Lemma llrb_victim_in p x w : cell_of (victim p x) = Some w -> w ∈ cells p.
Proof.
  induction p as [|i k c l IHl rt IHr n]; [done|].
  rewrite victim_node. cbn [cells]. rewrite elem_of_app, elem_of_cons.
  destruct (x <? k); [auto|]. destruct (x >? k); [auto|].
  destruct rt as [|ir kr cr rl rr nr]; [intros [= <-]; auto|].
  rewrite cell_min_head. intros H. apply head_Some_elem_of in H. auto.
Qed.

Lemma victim_absent p x : x ∉ inorder p -> cell_of (victim p x) = None.
Proof.
  induction p as [|i k c l IHl rt IHr n]; [done|].
  cbn [inorder]. rewrite victim_node, elem_of_app, elem_of_cons. intros Hx.
  destruct (x <? k) eqn:E1; [apply IHl; tauto|].
  destruct (x >? k) eqn:E2; [apply IHr; tauto|].
  exfalso. apply Hx. right. left. lia.
Qed.

(** *** What the removal does to the cells *)

Lemma move_key_other x v c : c.2 <> x -> c.2 <> v.2 -> move_key x v c = [c].
Proof.
  unfold move_key. intros H1 H2.
  apply Z.eqb_neq in H1, H2. by rewrite H1, H2.
Qed.

Lemma flat_map_move_id x v cs :
  Forall (fun c => c.2 <> x /\ c.2 <> v.2) cs -> flat_map (move_key x v) cs = cs.
Proof.
  induction 1 as [|c cs [? ?] _ IH]; simpl; [done|].
  by rewrite move_key_other, IH.
Qed.

Lemma splice_left x v A c B :
  AVL.sorted ((A ++ c :: B).*2) -> x < c.2 ->
  (forall w, v = Some w -> w ∈ A) ->
  splice x v (A ++ c :: B) = splice x v A ++ c :: B.
Proof.
  intros Hs Hx Hv. destruct v as [w|]; [|done]. simpl. rewrite flat_map_app. f_equal.
  apply flat_map_move_id.
  rewrite fmap_app, fmap_cons in Hs.
  apply AVLFacts.sorted_mid in Hs as (_ & _ & HA & HB).
  specialize (Hv w eq_refl).
  assert (Hw : w.2 < c.2).
  { rewrite Forall_forall in HA. apply HA. by apply list_elem_of_fmap_2. }
  constructor; [lia|]. rewrite Forall_fmap in HB.
  eapply Forall_impl; [exact HB|]. simpl. intros; lia.
Qed.

Lemma splice_right x v A c B :
  AVL.sorted ((A ++ c :: B).*2) -> c.2 < x ->
  (forall w, v = Some w -> w ∈ B) ->
  splice x v (A ++ c :: B) = A ++ c :: splice x v B.
Proof.
  intros Hs Hx Hv. destruct v as [w|]; [|done]. simpl. rewrite flat_map_app.
  rewrite fmap_app, fmap_cons in Hs.
  apply AVLFacts.sorted_mid in Hs as (_ & _ & HA & HB).
  specialize (Hv w eq_refl).
  assert (Hw : c.2 < w.2).
  { rewrite Forall_forall in HB. apply HB. by apply list_elem_of_fmap_2. }
  f_equal.
  - apply flat_map_move_id. rewrite Forall_fmap in HA.
    eapply Forall_impl; [exact HA|]. simpl. intros; lia.
  - simpl. rewrite move_key_other by lia. done.
Qed.

Lemma splice_succ x i j y A B :
  AVL.sorted ((A ++ (i, x) :: (j, y) :: B).*2) ->
  splice x (Some (j, y)) (A ++ (i, x) :: (j, y) :: B) = A ++ (i, y) :: B.
Proof.
  intros Hs. rewrite fmap_app, !fmap_cons in Hs. simpl in Hs.
  apply AVLFacts.sorted_mid in Hs as (_ & HsB & HA & HB).
  simpl in HsB. destruct HsB as [HB' _].
  apply Forall_cons in HB as [Hxy HB].
  simpl. rewrite flat_map_app. simpl. unfold move_key at 2 3. simpl.
  rewrite !Z.eqb_refl. replace (y =? x) with false by lia.
  f_equal.
  - apply flat_map_move_id. rewrite Forall_fmap in HA.
    eapply Forall_impl; [exact HA|]. simpl. intros; lia.
  - simpl. f_equal. apply flat_map_move_id. rewrite Forall_fmap in HB, HB'.
    apply Forall_and. split.
    + eapply Forall_impl; [exact HB|]. simpl. intros; lia.
    + eapply Forall_impl; [exact HB'|]. simpl. intros; lia.
Qed.

Lemma sbr_freed s s' : same_but_rotations s s' -> freed s' = freed s.
Proof. by intros (_ & ? & _). Qed.

(** [deleteMin(p)] removes the first node of [p] in order and puts it at
    the head of the freed list. *)
Lemma deleteMin_cells cfg : forall fuel p h s q s',
  (length (inorder p) < fuel)%nat -> erasable cfg p h -> AVL.sorted (inorder p) ->
  deleteMin cfg fuel p s = Some (q, s') ->
  exists j y cj nj,
    cells p = (j, y) :: cells q /\ freed s' = node j y cj (freed s) nullptr nj.
Proof.
  induction fuel as [|fuel IH]; intros p h s q s' Hlen (Hp & Hred) Hs E; [lia|].
  destruct p as [|i k c l rt n]; [done|].
  destruct (llrb_node_inv _ _ _ _ _ _ _ _ Hp) as (hl & -> & Hl & Hr & Hrr & Hcl & Hsz).
  simpl in Hred.
  destruct (null_or_not l) as [->|Hln].
  - simpl in Hl. subst hl. rewrite orb_false_r in Hred. subst c.
    apply llrb_0_null in Hr; [subst rt|done].
    cbn [deleteMin deleteNode] in E. unfold bind, ret, modify, get in E. simpl in E.
    injection E as <- <-. by eexists _, _, _, _.
  - rewrite deleteMin_eq in E by done. simpl in Hlen, Hs.
    destruct (negb (isRed l) && negb (isRed (left_of l))) eqn:Ec.
    + apply andb_true_iff in Ec as [Ec1 Ec2].
      apply negb_true_iff in Ec1, Ec2. rewrite Ec1, orb_false_r in Hred. subst c.
      destruct (moveRedLeft_spec cfg i k l rt n hl s Hp Hln Ec2 Hs)
        as (i1 & k1 & c1 & l1 & r1 & n1 & s1 & h1 & E1 & Hs1 & Hi1 & Hl1 & Hr1 &
            -> & Hc1 & Hk1).
      unfold RED in E1. unfold bind at 1 in E. rewrite E1 in E. cbn [left_of] in E.
      unfold bind at 1 in E.
      destruct (deleteMin cfg fuel l1 s1) as [[l2 s2]|] eqn:E2; [|done].
      destruct (IH l1 h1 s1 l2 s2) as (j & y & cj & nj & Hc2 & Hf2); [| | |done|].
      { apply (f_equal length) in Hi1. rewrite !length_app in Hi1. simpl in Hi1.
        rewrite length_app in Hlen. simpl in Hlen. lia. }
      { done. }
      { rewrite <- Hi1 in Hs. by apply AVLFacts.sorted_mid in Hs as (? & _). }
      cbn [set_left] in E. apply balance_cells in E as [Hq Hsb].
      exists j, y, cj, nj. split.
      * apply moveRedLeft_cells in E1. cbn [cells] in E1 |- *.
        by rewrite <- E1, Hc2, Hq.
      * by rewrite (sbr_freed _ _ Hsb), Hf2, (sbr_freed _ _ Hs1).
    + assert (Hel : erasable cfg l hl).
      { split; [done|].
        destruct (isRed l) eqn:E1; [done|]. simpl in Ec. simpl.
        by apply negb_false_iff in Ec. }
      unfold bind at 1, ret at 1 in E. cbn [left_of] in E. unfold bind at 1 in E.
      destruct (deleteMin cfg fuel l s) as [[l2 s2]|] eqn:E2; [|done].
      destruct (IH l hl s l2 s2) as (j & y & cj & nj & Hc2 & Hf2); [| | |done|].
      { rewrite length_app in Hlen. simpl in Hlen. lia. }
      { done. }
      { by apply AVLFacts.sorted_mid in Hs as (? & _). }
      cbn [set_left] in E. apply balance_cells in E as [Hq Hsb].
      exists j, y, cj, nj. split.
      * cbn [cells]. by rewrite Hc2, Hq.
      * by rewrite (sbr_freed _ _ Hsb), Hf2.
Qed.

(** The replacement of the key of [p] by its in-order successor. *)
Lemma erase_successor_cells cfg fuel i k c l rt n hl s q s' :
  (length (inorder rt) < fuel)%nat -> AVL.sorted (inorder l ++ k :: inorder rt) ->
  erasable cfg rt hl ->
  (kq <- key_of (min rt) ;; r' <- deleteMin cfg fuel rt ;;
   balance cfg (set_right (set_key (node i k c l rt n) kq) r')) s = Some (q, s') ->
  exists j y cj nj,
    cell_of (victim (node i k c l rt n) k) = Some (j, y) /\
    cells q = splice k (Some (j, y)) (cells (node i k c l rt n)) /\
    freed s' = node j y cj (freed s) nullptr nj.
Proof.
  intros Hlen Hs Hpre E.
  pose proof Hs as Hs0. apply AVLFacts.sorted_mid in Hs0 as (_ & Hsr & _).
  assert (Hrn : rt <> nullptr) by (destruct Hpre as [_ H]; by destruct rt).
  destruct (key_min rt s Hrn) as (kq & E1 & Hi1).
  unfold bind at 1 in E. rewrite E1 in E. unfold bind at 1 in E.
  destruct (deleteMin cfg fuel rt s) as [[r2 s2]|] eqn:E2; [|done].
  destruct (deleteMin_cells cfg fuel rt hl s r2 s2 Hlen Hpre Hsr E2)
    as (j & y & cj & nj & Hc2 & Hf2).
  assert (kq = y) as ->.
  { rewrite <- cells_keys, Hc2 in Hi1. simpl in Hi1. by injection Hi1 as ->. }
  cbn [set_key set_right] in E. apply balance_cells in E as [Hq Hsb].
  exists j, y, cj, nj. split_and!.
  - rewrite victim_node, Z.ltb_irrefl.
    replace (k >? k) with false by lia.
    destruct rt; [done|]. by rewrite cell_min_head, Hc2.
  - rewrite Hq. cbn [cells]. rewrite Hc2. symmetry. apply splice_succ.
    rewrite <- Hc2. change ((cells l ++ (i, k) :: cells rt).*2)
      with ((cells (node i k c l rt n)).*2). by rewrite cells_keys.
  - by rewrite (sbr_freed _ _ Hsb).
Qed.

Lemma descend_left_cells cfg x i k c l rt n l2 s1 s2 q s' :
  AVL.sorted (inorder l ++ k :: inorder rt) -> x < k ->
  cells l2 = splice x (cell_of (victim l x)) (cells l) /\
  (x ∈ inorder l -> exists j y cj nj,
     cell_of (victim l x) = Some (j, y) /\ freed s2 = node j y cj (freed s1) nullptr nj) ->
  balance cfg (node i k c l2 rt n) s2 = Some (q, s') ->
  cells q = splice x (cell_of (victim (node i k c l rt n) x)) (cells (node i k c l rt n)) /\
  (x ∈ inorder l ++ k :: inorder rt -> exists j y cj nj,
     cell_of (victim (node i k c l rt n) x) = Some (j, y) /\
     freed s' = node j y cj (freed s1) nullptr nj).
Proof.
  intros Hs Hx [Hc Hf] E. apply balance_cells in E as [Hq Hsb].
  rewrite victim_node. replace (x <? k) with true by lia. split.
  - rewrite Hq. cbn [cells]. rewrite Hc. symmetry. apply (splice_left x _ _ (i, k)).
    + change ((cells l ++ (i, k) :: cells rt).*2)
        with ((cells (node i k c l rt n)).*2). by rewrite cells_keys.
    + done.
    + intros w. apply llrb_victim_in.
  - intros Hin. rewrite (sbr_freed _ _ Hsb). apply Hf.
    apply AVLFacts.sorted_mid in Hs as (_ & _ & _ & Hk). rewrite Forall_forall in Hk.
    apply elem_of_app in Hin as [H|H]; [done|].
    apply elem_of_cons in H as [H|H]; [lia|]. specialize (Hk _ H). lia.
Qed.

Lemma descend_right_cells cfg x i k c l rt n r2 s1 s2 q s' :
  AVL.sorted (inorder l ++ k :: inorder rt) -> k < x ->
  cells r2 = splice x (cell_of (victim rt x)) (cells rt) /\
  (x ∈ inorder rt -> exists j y cj nj,
     cell_of (victim rt x) = Some (j, y) /\ freed s2 = node j y cj (freed s1) nullptr nj) ->
  balance cfg (node i k c l r2 n) s2 = Some (q, s') ->
  cells q = splice x (cell_of (victim (node i k c l rt n) x)) (cells (node i k c l rt n)) /\
  (x ∈ inorder l ++ k :: inorder rt -> exists j y cj nj,
     cell_of (victim (node i k c l rt n) x) = Some (j, y) /\
     freed s' = node j y cj (freed s1) nullptr nj).
Proof.
  intros Hs Hx [Hc Hf] E. apply balance_cells in E as [Hq Hsb].
  rewrite victim_node. replace (x <? k) with false by lia.
  replace (x >? k) with true by lia. split.
  - rewrite Hq. cbn [cells]. rewrite Hc. symmetry. apply (splice_right x _ _ (i, k)).
    + change ((cells l ++ (i, k) :: cells rt).*2)
        with ((cells (node i k c l rt n)).*2). by rewrite cells_keys.
    + done.
    + intros w. apply llrb_victim_in.
  - intros Hin. rewrite (sbr_freed _ _ Hsb). apply Hf.
    apply AVLFacts.sorted_mid in Hs as (_ & _ & Hk & _). rewrite Forall_forall in Hk.
    apply elem_of_app in Hin as [H|H]; [specialize (Hk _ H); lia|].
    apply elem_of_cons in H as [H|H]; [lia|done].
Qed.

(** [erase(p, x)]: the cells of the result and the node put on the freed
    list. *)
Lemma erase_at_cells cfg x : forall fuel p h s q s',
  (length (inorder p) < fuel)%nat -> AVL.sorted (inorder p) -> erase_pre cfg p h x ->
  erase_at cfg fuel p x s = Some (q, s') ->
  cells q = splice x (cell_of (victim p x)) (cells p) /\
  (x ∈ inorder p -> exists j y cj nj,
     cell_of (victim p x) = Some (j, y) /\ freed s' = node j y cj (freed s) nullptr nj).
Proof.
  induction fuel as [|fuel IH]; intros p h s q s' Hlen Hs Hpre HE; [lia|].
  destruct p as [|i k c l rt n].
  - cbn [erase_at] in HE. unfold bind, modify, ret in HE. injection HE as <- <-.
    split; [done|]. intros H. by apply elem_of_nil in H.
  - cbn [erase_at] in HE. simpl in Hlen, Hs. rewrite length_app in Hlen. simpl in Hlen.
    cbn [inorder]. revert HE. cbn [isRed].
    destruct (x <? k) eqn:Exk.
    + (* the left subtree *)
      destruct Hpre as [[? _]|[[Hp Hred]|Hrh]]; [done| |simpl in Hrh; lia].
      destruct (llrb_node_inv _ _ _ _ _ _ _ _ Hp)
        as (hl & -> & Hl & Hr & Hrr & Hcl & Hsz).
      simpl in Hred.
      destruct (negb (isRed l) && negb match l with nullptr => true | _ => false end
                && negb (isRed (left_of l))) eqn:Ec.
      * apply andb_true_iff in Ec as [Ec Ec3]. apply andb_true_iff in Ec as [Ec1 Ec2].
        apply negb_true_iff in Ec1, Ec3.
        assert (Hln : l <> nullptr) by (by destruct l).
        rewrite Ec1, orb_false_r in Hred. subst c.
        destruct (moveRedLeft_spec cfg i k l rt n hl s Hp Hln Ec3 Hs)
          as (i1 & k1 & c1 & l1 & r1 & n1 & s1 & h1 & E1 & Hs1 & Hi1 & Hl1 & Hr1 &
              -> & Hc1 & Hk1).
        unfold RED in E1. unfold bind at 1. rewrite E1. cbn [left_of set_left].
        unfold bind at 1.
        destruct (erase_at cfg fuel l1 x s1) as [[l2 s2]|] eqn:E2; [|done].
        intros HE.
        pose proof (moveRedLeft_cells _ _ _ _ _ E1) as Hce.
        pose proof (moveRedLeft_victim _ _ _ _ _ _ _ _ _ _ x E1 Hs ltac:(lia)) as Hve.
        destruct (descend_left_cells cfg x i1 k1 c1 l1 r1 n1 l2 s1 s2 q s') as [HA HB].
        { by rewrite Hi1. }
        { lia. }
        { apply (IH l1 h1 s1 l2 s2); [| |right; by left|done].
          - apply (f_equal length) in Hi1. rewrite !length_app in Hi1. simpl in Hi1. lia.
          - rewrite <- Hi1 in Hs. by apply AVLFacts.sorted_mid in Hs as (? & _). }
        { exact HE. }
        rewrite Hve, Hce in HA. rewrite Hve, Hi1 in HB.
        split; [exact HA|]. intros Hin. rewrite <- (sbr_freed _ _ Hs1). by apply HB.
      * unfold bind at 1, ret at 1. cbn [left_of set_left]. unfold bind at 1.
        destruct (erase_at cfg fuel l x s) as [[l2 s2]|] eqn:E2; [|done].
        intros HE.
        apply (descend_left_cells cfg x i k c l rt n l2 s s2 q s'); [done|lia| |done].
        apply (IH l hl s l2 s2); [lia| | |done].
        { by apply AVLFacts.sorted_mid in Hs as (? & _). }
        { destruct l as [|il kl cl ll lr nl]; [left; by split|].
          right. left. split; [done|]. simpl in Ec |- *.
          rewrite andb_true_r in Ec. by destruct cl, (isRed ll). }
    + (* the node itself or the right subtree *)
      assert (Hkx : k <= x) by lia.
      destruct (isRed l) eqn:Eil.
      * destruct Hpre as [[? _]|[[Hp Hred]|Hrh]]; [done| |simpl in Hrh; hyps; congruence].
        destruct (llrb_node_inv _ _ _ _ _ _ _ _ Hp)
          as (hl & -> & Hl & Hr & Hrr & Hcl & Hsz).
        destruct c; [specialize (Hcl eq_refl); congruence|].
        destruct l as [|il kl [|] ll lr nl]; try discriminate.
        destruct (llrb_node_inv _ _ _ _ _ _ _ _ Hl)
          as (hl' & -> & Hll & Hlr & Hlrr & Hlcl & Hlsz).
        specialize (Hlcl eq_refl).
        destruct (rotateRight_node cfg i k false il kl true ll lr nl rt n s)
          as (n' & nn & Er & Hn').
        pose proof (rotateRight_cells _ _ _ _ _ Er) as [Hce _].
        pose proof (rotateRight_victim _ _ _ _ _ _ _ _ _ _ x Er Hs Hkx) as Hve.
        unfold RED in Hce, Hve.
        unfold bind at 1. rewrite Er. cbv beta iota.
        rewrite andb_false_r. unfold RED. cbn [isRed negb andb].
        unfold ret at 1, bind at 1. cbn [key_of]. unfold ret at 1, bind at 1.
        assert (Hkl : kl < k) by (simpl in Hs; order_hyps; lia).
        replace (x =? kl) with false by lia.
        cbn [right_of set_right].
        simpl in Hs, Hlen. rewrite length_app in Hlen. simpl in Hlen.
        rewrite <- app_assoc in Hs. simpl in Hs.
        unfold bind at 1.
        destruct (erase_at cfg fuel (node i k true lr rt n') x
                    (with_rotateR (S (rotateR s)) s)) as [[r2 s2]|] eqn:E2; [|done].
        intros HE.
        destruct (descend_right_cells cfg x il kl false ll (node i k true lr rt n') nn
                    r2 (with_rotateR (S (rotateR s)) s) s2 q s') as [HA HB].
        { done. }
        { lia. }
        { apply (IH (node i k true lr rt n') hl' _ r2 s2); [| | |done].
          - simpl. rewrite length_app. simpl. lia.
          - by apply AVLFacts.sorted_mid in Hs as (_ & ? & _).
          - right. left. split; [|done]. simpl. split_and!; try done. }
        { exact HE. }
        rewrite Hve, Hce in HA. rewrite Hve in HB. split; [exact HA|].
        intros Hin. apply HB. cbn [inorder]. cbn [inorder] in Hin.
        by rewrite <- app_assoc in Hin.
      * assert (Hf : exists hl, h = (if c then hl else S hl) /\ llrb cfg l hl /\
                  llrb cfg rt hl /\ (c = RED -> isRed rt = false) /\
                  (c = BLACK -> isRed rt = true) /\ sized cfg (node i k c l rt n)).
        { destruct Hpre as [[? _]|[[Hp Hred]|Hrh]]; [done| |].
          - destruct (llrb_node_inv _ _ _ _ _ _ _ _ Hp)
              as (hl & -> & Hl & Hr & Hrr & Hcl & Hsz).
            simpl in Hred. rewrite Eil, orb_false_r in Hred. subst c.
            exists hl. split_and!; try done.
          - simpl in Hrh. destruct Hrh as (-> & _ & Hrr & _ & Hsz & Hh).
            destruct h as [|hl]; [done|]. exists hl. split_and!; try done; tauto. }
        destruct Hf as (hl & -> & Hl & Hr & Hcr & Hcb & Hsz). clear Hpre.
        unfold bind at 1, ret at 1. cbv beta iota.
        destruct ((x =? k) && match rt with nullptr => true | _ => false end) eqn:Ed.
        -- apply andb_true_iff in Ed as [Ed1 Ed2].
           assert (x = k) as -> by lia. destruct rt; [|done]. clear Ed1 Ed2.
           destruct c; [|by specialize (Hcb eq_refl)].
           simpl in Hr. subst hl. apply llrb_0_null in Hl; [subst l|done].
           unfold deleteNode. unfold bind, ret, modify, get. simpl.
           intros [= <- <-]. rewrite victim_node, Z.ltb_irrefl.
           replace (k >? k) with false by lia. split.
           ++ simpl. unfold move_key. simpl. by rewrite Z.eqb_refl.
           ++ intros _. by eexists _, _, _, _.
        -- destruct (negb (isRed rt) && negb match rt with nullptr => true | _ => false end
                     && negb (isRed (left_of rt))) eqn:Ec2.
           ++ apply andb_true_iff in Ec2 as [Ec2 Ec5].
              apply andb_true_iff in Ec2 as [Ec3 Ec4].
              apply negb_true_iff in Ec3, Ec5.
              assert (Hrn : rt <> nullptr) by (by destruct rt).
              destruct c; [|specialize (Hcb eq_refl); congruence].
              assert (Hp : llrb cfg (node i k RED l rt n) hl).
              { unfold RED. cbn [llrb]. rewrite Eil. split_and!; try done. }
              destruct (moveRedRight_spec cfg i k l rt n hl s Hp Hrn Ec5 Hs)
                as (i1 & k1 & c1 & l1 & r1 & n1 & s1 & h1 & E1 & Hs1 & Hi1 & Hl1 &
                    -> & Hc1 & Hd).
              unfold RED in E1. unfold bind at 1. rewrite E1.
              cbn [key_of]. unfold bind at 1, ret at 1.
              pose proof (moveRedRight_cells _ _ _ _ _ E1) as Hce.
              pose proof (moveRedRight_victim _ _ _ _ _ _ _ _ _ _ x E1 Hs Hkx) as Hve.
              assert (Hlen1 : (length (inorder r1) < fuel)%nat).
              { apply (f_equal length) in Hi1. rewrite !length_app in Hi1.
                simpl in Hi1. lia. }
              assert (Hs' : AVL.sorted (inorder l1 ++ k1 :: inorder r1)) by (by rewrite Hi1).
              destruct (x =? k1) eqn:Exk1.
              ** assert (x = k1) as -> by lia.
                 destruct Hd as [[-> Her]|[Hlt _]]; [|lia].
                 rewrite prefer_predecessor_never. cbn [right_of].
                 unfold bind at 1, modify at 1. intros HE.
                 destruct (erase_successor_cells cfg fuel i1 k c1 l1 r1 n1 h1
                             (with_r true s1) q s' Hlen1 Hs' Her HE)
                   as (j & y & cj & nj & Hv & Hq & Hfr).
                 rewrite Hce in Hq. rewrite Hve in Hv. rewrite Hv.
                 split; [exact Hq|]. intros _. exists j, y, cj, nj. split; [done|].
                 rewrite Hfr. simpl. by rewrite (sbr_freed _ _ Hs1).
              ** cbn [right_of set_right]. unfold bind at 1.
                 destruct (erase_at cfg fuel r1 x s1) as [[r2 s2]|] eqn:E2; [|done].
                 intros HE.
                 destruct (descend_right_cells cfg x i1 k1 c1 l1 r1 n1 r2 s1 s2 q s')
                   as [HA HB].
                 { done. }
                 { destruct Hd as [[-> _]|[Hlt _]]; lia. }
                 { apply (IH r1 h1 s1 r2 s2); [done| | |done].
                   - by apply AVLFacts.sorted_mid in Hs' as (_ & ? & _).
                   - destruct Hd as [[_ Her]|[_ Hrh]]; [right; by left|].
                     right. right. by apply Hrh. }
                 { exact HE. }
                 rewrite Hve, Hce in HA. rewrite Hve, Hi1 in HB.
                 split; [exact HA|]. intros Hin.
                 rewrite <- (sbr_freed _ _ Hs1). by apply HB.
           ++ unfold bind at 1, ret at 1. cbn [key_of]. unfold bind at 1, ret at 1.
              assert (Hpre : rt = nullptr \/ erasable cfg rt hl).
              { destruct rt as [|ir kr cr rl rr nr]; [by left|right].
                split; [done|]. simpl in Ec2 |- *. rewrite andb_true_r in Ec2.
                by destruct cr, (isRed rl). }
              destruct (x =? k) eqn:Exk2.
              ** assert (x = k) as -> by lia.
                 simpl in Ed.
                 destruct Hpre as [->|Her]; [done|].
                 rewrite prefer_predecessor_never. cbn [right_of].
                 unfold bind at 1, modify at 1. intros HE.
                 destruct (erase_successor_cells cfg fuel i k c l rt n hl
                             (with_r true s) q s' ltac:(lia) Hs Her HE)
                   as (j & y & cj & nj & Hv & Hq & Hfr).
                 rewrite Hv. split; [exact Hq|]. intros _.
                 exists j, y, cj, nj. split; [done|]. exact Hfr.
              ** cbn [right_of set_right]. unfold bind at 1.
                 destruct (erase_at cfg fuel rt x s) as [[r2 s2]|] eqn:E2; [|done].
                 intros HE.
                 apply (descend_right_cells cfg x i k c l rt n r2 s s2 q s');
                   [done|lia| |done].
                 apply (IH rt hl s r2 s2); [lia| | |done].
                 { by apply AVLFacts.sorted_mid in Hs as (_ & ? & _). }
                 { destruct Hpre as [->|Her]; [left|right; by left].
                   split; [done|]. by simpl in Hr. }
Qed.

(** [erase(x)]: the cells of the tree afterwards and the node put on the
    freed list. *)
Lemma erase_cells cfg x s :
  LInv cfg s ->
  exists s', erase cfg x s = Some (bool_decide (x ∈ inorder (root s)), s') /\
    cells (root s') = splice x (cell_of (victim (root s) x)) (cells (root s)) /\
    (x ∈ inorder (root s) -> exists j y cj nj,
       cell_of (victim (root s) x) = Some (j, y) /\
       freed s' = node j y cj (freed s) nullptr nj).
Proof.
  intros HI. pose proof HI as (Hs & Hc & h & Hh).
  destruct (erase_LInv cfg x s HI) as (s' & E & _).
  exists s'. split; [exact E|].
  revert E. unfold erase. unfold bind, modify, get, ret. cbn [root with_r count].
  destruct (root s) as [|i k c l rt n] eqn:Er.
  - intros E. apply (f_equal (fmap snd)) in E. simpl in E. injection E as <-.
    simpl. rewrite Er. split; [done|].
    intros H. by apply elem_of_nil in H.
  - destruct (llrb_node_inv _ _ _ _ _ _ _ _ Hh)
      as (hl & -> & Hl & Hr & Hrr & Hcl & Hsz).
    set (p := if negb (isRed l) && negb (isRed rt)
              then set_color (node i k c l rt n) RED else node i k c l rt n).
    assert (Hp : exists hp, erasable cfg p hp /\ inorder p = inorder l ++ k :: inorder rt /\
                   cells p = cells (node i k c l rt n) /\
                   cell_of (victim p x) = cell_of (victim (node i k c l rt n) x)).
    { subst p. rewrite Hrr, andb_true_r. destruct (isRed l) eqn:Eil; simpl.
      - eexists. split; [split; [exact Hh|]|done]. simpl. rewrite Eil. apply orb_true_r.
      - exists hl. split; [|split; [done|split; [done|apply victim_recolor]]].
        split; [|done]. unfold RED. cbn [llrb].
        rewrite Eil. split_and!; try done. }
    destruct Hp as (hp & Hp & Hip & Hcp & Hvp).
    destruct (erase_at cfg (S (count s)) p x (with_r false s)) as [[q s2]|] eqn:E2; [|done].
    intros E. apply (f_equal (fmap snd)) in E. simpl in E. injection E as <-.
    destruct (erase_at_cells cfg x (S (count s)) p hp (with_r false s) q s2)
      as [HA HB]; [| |right; by left|done|].
    { rewrite Hip, Hc. simpl. lia. }
    { by rewrite Hip. }
    rewrite Hvp, Hcp in HA. rewrite Hvp, Hip in HB. cbn [root freed with_root].
    split.
    + rewrite <- HA. destruct q; [done|]. apply cells_set_color.
    + intros Hin. destruct (HB Hin) as (j & y & cj & nj & Hv & Hf). by exists j, y, cj, nj.
Qed.

(** *** The node that holds a key *)

Lemma find_cells p x i k c l rt n :
  find p x = node i k c l rt n ->
  k = x /\
  cell_of (victim p x) =
    match rt with
    | nullptr => Some (i, x)
    | node _ _ _ _ _ _ => cell_of (min rt)
    end /\
  exists A B, cells p = A ++ (i, x) :: cells rt ++ B.
Proof.
  induction p as [|ip kp cp lp IHl rp IHr np]; [done|].
  rewrite victim_node. cbn [find cells].
  destruct (x <? kp) eqn:E1; [|destruct (x >? kp) eqn:E2].
  - intros H. destruct (IHl H) as (-> & Hv & A & B & HA). split; [done|].
    split; [done|]. exists A, (B ++ (ip, kp) :: cells rp).
    rewrite HA. repeat (rewrite <- ?app_assoc; simpl). done.
  - intros H. destruct (IHr H) as (-> & Hv & A & B & HA). split; [done|].
    split; [done|]. exists (cells lp ++ (ip, kp) :: A), B.
    rewrite HA. repeat (rewrite <- ?app_assoc; simpl). done.
  - intros [= -> -> -> -> -> ->]. assert (k = x) as -> by lia.
    split; [done|]. split; [done|]. exists (cells l), []. by rewrite app_nil_r.
Qed.

Lemma find_llrb cfg p x i k c l rt n : forall h,
  llrb cfg p h -> find p x = node i k c l rt n ->
  exists h', llrb cfg (node i k c l rt n) h'.
Proof.
  induction p as [|ip kp cp lp IHl rp IHr np]; [done|]. intros h Hp.
  destruct (llrb_node_inv _ _ _ _ _ _ _ _ Hp) as (hl & -> & Hl & Hr & _).
  cbn [find].
  destruct (x <? kp); [by apply (IHl hl)|]. destruct (x >? kp); [by apply (IHr hl)|].
  intros <-. eauto.
Qed.

Lemma llrb_right_left cfg i k c l rt n h :
  llrb cfg (node i k c l rt n) h -> rt <> nullptr -> l <> nullptr.
Proof.
  intros Hp Hrt ->.
  destruct (llrb_node_inv _ _ _ _ _ _ _ _ Hp) as (hl & -> & Hl & Hr & Hrr & _).
  simpl in Hl. subst hl. by apply llrb_0_null in Hr.
Qed.

(** *** [insert] and the addresses *)

Lemma insert_at_cells cfg x p : forall s p' s',
  insert_at cfg p x s = Some (p', s') -> x ∉ inorder p ->
  exists A B, cells p = A ++ B /\ cells p' = A ++ (next_addr s, x) :: B.
Proof.
  induction p as [|i k c l IHl rt IHr n]; intros s p' s'.
  - cbn [insert_at]. unfold newNode, next_addr. unfold bind, modify, get, ret. simpl.
    destruct (freed s); intros [= <- <-] _; by exists [], [].
  - cbn [insert_at inorder]. rewrite elem_of_app, elem_of_cons. intros E Hx.
    unfold bind at 1 in E.
    destruct (x <? k) eqn:E1; [|destruct (x >? k) eqn:E2].
    + unfold bind at 1 in E.
      destruct (insert_at cfg l x s) as [[l' s1]|] eqn:El; [|done].
      unfold ret at 1 in E. apply fixUp_cells in E as [-> _].
      destruct (IHl _ _ _ El) as (A & B & HA & HB); [tauto|].
      exists A, (B ++ (i, k) :: cells rt). cbn [cells]. rewrite HA, HB.
      repeat (rewrite <- ?app_assoc; simpl). done.
    + unfold bind at 1 in E.
      destruct (insert_at cfg rt x s) as [[r' s1]|] eqn:Er; [|done].
      unfold ret at 1 in E. apply fixUp_cells in E as [-> _].
      destruct (IHr _ _ _ Er) as (A & B & HA & HB); [tauto|].
      exists (cells l ++ (i, k) :: A), B. cbn [cells]. rewrite HA, HB.
      repeat (rewrite <- ?app_assoc; simpl). done.
    + exfalso. apply Hx. right. left. lia.
Qed.

Lemma insert_cells cfg x s b s' :
  insert cfg x s = Some (b, s') -> x ∉ inorder (root s) ->
  exists A B, cells (root s) = A ++ B /\ cells (root s') = A ++ (next_addr s, x) :: B.
Proof.
  unfold insert. unfold bind at 1, modify at 1. unfold bind at 1, get at 1.
  cbn [root with_a].
  destruct (root s) as [|i k c l rt n] eqn:Er.
  - unfold newNode, next_addr. unfold bind, modify, get, ret. simpl.
    destruct (freed s); intros [= <- <-] _; by exists [], [].
  - unfold bind at 1.
    destruct (insert_at cfg (node i k c l rt n) x (with_a false s))
      as [[p' s1]|] eqn:E1; [|done].
    unfold bind, modify, get, ret. intros [= <- <-] Hx.
    destruct (insert_at_cells cfg x _ _ _ _ E1 Hx) as (A & B & HA & HB).
    exists A, B. split; [done|]. cbn [root with_root]. by rewrite cells_set_color.
Qed.

(** [fixUp] leaves a left-leaning red-black tree as it is. *)
Lemma fixUp_llrb_id cfg p h s : llrb cfg p h -> fixUp cfg p s = Some (p, s).
Proof.
  destruct p as [|i k c l rt n]; [done|]. intros Hp.
  destruct (llrb_node_inv _ _ _ _ _ _ _ _ Hp) as (hl & -> & Hl & Hr & Hrr & Hcl & Hsz).
  unfold fixUp. cbn [right_of left_of]. rewrite Hrr. cbn [andb].
  unfold bind at 1, ret at 1. cbn [left_of].
  assert (Hll : isRed l && isRed (left_of l) = false).
  { destruct l as [|il kl [|] ll lr nl]; try done. simpl in Hl |- *. by hyps. }
  rewrite Hll. unfold bind at 1, ret at 1. cbn [left_of right_of].
  rewrite Hrr, andb_false_r. unfold ret. do 2 f_equal.
  unfold sized, checkSize_throws in Hsz. unfold updateSize.
  destruct (ENABLE_PREFERRED_TEST cfg); [|done].
  simpl in Hsz. apply negb_false_iff, Nat.eqb_eq in Hsz. by rewrite <- Hsz.
Qed.

(** [insert(p, x)] of a key that is present changes nothing in the
    subtree. *)
Lemma insert_at_present cfg x p : forall h s,
  llrb cfg p h -> AVL.sorted (inorder p) -> x ∈ inorder p ->
  insert_at cfg p x s = Some (p, with_a false s).
Proof.
  induction p as [|i k c l IHl rt IHr n]; intros h s Hp Hs Hx.
  - by apply elem_of_nil in Hx.
  - pose proof (fixUp_llrb_id cfg _ h (with_a false s) Hp) as Hfix.
    destruct (llrb_node_inv _ _ _ _ _ _ _ _ Hp) as (hl & -> & Hl & Hr & _).
    cbn [inorder] in Hs, Hx.
    apply AVLFacts.sorted_mid in Hs as (Hsl & Hsr & Hlk & Hkr).
    rewrite Forall_forall in Hlk. rewrite Forall_forall in Hkr.
    apply elem_of_app in Hx. rewrite elem_of_cons in Hx.
    cbn [insert_at]. unfold bind at 1.
    destruct (x <? k) eqn:E1; [|destruct (x >? k) eqn:E2].
    + assert (Hin : x ∈ inorder l).
      { destruct Hx as [H|[H|H]]; [done|lia|]. specialize (Hkr _ H). lia. }
      unfold bind at 1. rewrite (IHl hl s Hl Hsl Hin). unfold ret at 1. exact Hfix.
    + assert (Hin : x ∈ inorder rt).
      { destruct Hx as [H|[H|H]]; [|lia|done]. specialize (Hlk _ H). lia. }
      unfold bind at 1. rewrite (IHr hl s Hr Hsr Hin). unfold ret at 1. exact Hfix.
    + unfold bind, modify, ret. exact Hfix.
Qed.

(** [insert(x)] of a key that is present paints the root BLACK and
    changes nothing else in the tree. *)
Lemma insert_present cfg x s :
  LInv cfg s -> x ∈ inorder (root s) ->
  insert cfg x s =
    Some (false, with_root (set_color (root s) BLACK) (with_a false s)).
Proof.
  intros (Hs & Hc & h & Hh) Hx. unfold insert.
  unfold bind at 1, modify at 1. unfold bind at 1, get at 1. cbn [root with_a].
  destruct (root s) as [|i k c l rt n] eqn:Er; [by apply elem_of_nil in Hx|].
  unfold bind at 1.
  rewrite (insert_at_present cfg x _ h (with_a false s) Hh Hs Hx).
  unfold bind, modify, get, ret. reflexivity.
Qed.

(** *** [insert] and [erase] on a tree that satisfies the invariant *)

Lemma llrb_contains_inorder cfg s x :
  LInv cfg s -> contains s x = bool_decide (x ∈ inorder (root s)).
Proof. intros (Hs & _). unfold contains. by apply llrb_contains_from_spec. Qed.

Lemma size_checked_LInv cfg s :
  LInv cfg s -> size_checked cfg s = Some (count s, s).
Proof.
  intros (_ & Hc & h & Hh). unfold size_checked. lrun.
  destruct (ENABLE_PREFERRED_TEST cfg) eqn:EN; [|done]. simpl.
  by rewrite (getSize_llrb cfg _ h EN Hh), Hc, Nat.eqb_refl.
Qed.

Lemma llrb_insert_full cfg s x :
  LInv cfg s ->
  exists s', insert cfg x s = Some (negb (contains s x), s') /\ LInv cfg s' /\
    contains s' x = true /\
    (forall y, y <> x -> contains s' y = contains s y) /\
    (contains s x = true ->
       root s' = set_color (root s) BLACK /\ count s' = count s /\
       freed s' = freed s /\ brk s' = brk s) /\
    (contains s x = false ->
       count s' = S (count s) /\ freed s' = left_of (freed s) /\
       brk s' = match freed s with
                | nullptr => S (brk s)
                | node _ _ _ _ _ _ => brk s
                end /\
       exists A B, cells (root s) = A ++ B /\
         cells (root s') = A ++ (next_addr s, x) :: B).
Proof.
  intros HI. pose proof HI as (Hs & Hc & _).
  destruct (insert_LInv cfg x s HI) as (b & s' & E & HI' & _).
  destruct (insert_ok cfg x s Hs) as (b' & s1 & E' & Hb & Hi & Hc' & _ & Hf & Hbrk).
  rewrite E in E'. injection E' as <- <-.
  rewrite (llrb_contains_inorder cfg s x HI). rewrite <- Hb.
  exists s'. split; [done|]. split; [done|].
  split_and!.
  - rewrite (llrb_contains_inorder cfg s' x HI'). apply bool_decide_eq_true.
    rewrite Hi, AVLFacts.elem_of_ins. by left.
  - intros y Hy. rewrite (llrb_contains_inorder cfg s' y HI'),
      (llrb_contains_inorder cfg s y HI).
    apply bool_decide_ext. rewrite Hi, AVLFacts.elem_of_ins. tauto.
  - intros Hin. apply bool_decide_eq_true in Hin.
    rewrite (insert_present cfg x s HI Hin) in E. by injection E as <- <-.
  - intros Hin. rewrite Hin in Hb. simpl in Hb. subst b.
    apply bool_decide_eq_false in Hin. split_and!; try done.
    by apply (insert_cells cfg x s true s').
Qed.

Lemma llrb_erase_full cfg s x :
  LInv cfg s ->
  exists s', erase cfg x s = Some (contains s x, s') /\ LInv cfg s' /\
    isRed (root s') = false /\
    contains s' x = false /\
    (forall y, y <> x -> contains s' y = contains s y) /\
    inorder (root s') = AVL.del x (inorder (root s)) /\
    brk s' = brk s /\
    (contains s x = false ->
       cells (root s') = cells (root s) /\ count s' = count s /\ freed s' = freed s) /\
    (contains s x = true ->
       S (count s') = count s /\
       exists j y cj nj,
         cell_of (victim (root s) x) = Some (j, y) /\
         freed s' = node j y cj (freed s) nullptr nj /\
         cells (root s') = splice x (Some (j, y)) (cells (root s))).
Proof.
  intros HI. pose proof HI as (Hs & Hc & _).
  destruct (erase_LInv cfg x s HI) as (s' & E & HI' & Hr' & Hi & _ & Hbrk & Hf).
  destruct (erase_cells cfg x s HI) as (s1 & E1 & Hce & Hv).
  rewrite E in E1. injection E1 as <-.
  pose proof HI' as (Hs' & Hc' & _).
  rewrite (llrb_contains_inorder cfg s x HI).
  exists s'. split; [done|]. split; [done|]. split; [done|]. split_and!; try done.
  - rewrite (llrb_contains_inorder cfg s' x HI'). apply bool_decide_eq_false.
    rewrite Hi, AVLFacts.elem_of_del by done. tauto.
  - intros y Hy. rewrite (llrb_contains_inorder cfg s' y HI'),
      (llrb_contains_inorder cfg s y HI).
    apply bool_decide_ext. rewrite Hi, AVLFacts.elem_of_del by done. tauto.
  - intros Hin. rewrite Hin in Hf. apply bool_decide_eq_false in Hin.
    rewrite (victim_absent _ _ Hin) in Hce. split_and!; try done.
    rewrite Hc', Hc, Hi. by rewrite AVLFacts.del_id.
  - intros Hin. apply bool_decide_eq_true in Hin. split.
    + rewrite Hc', Hc, Hi. pose proof (AVLFacts.length_del x _ Hin).
      destruct (inorder (root s)); [by apply elem_of_nil in Hin|]. simpl in *. lia.
    + destruct (Hv Hin) as (j & y & cj & nj & Hvj & Hfj).
      exists j, y, cj, nj. by rewrite <- Hvj.
Qed.

End LLRBFacts.

(** ** The documented properties *)

Module AVLClaims.
Import AVL AVLFacts.

(** C3 (avlTree): for N unique keys, inserted in any order into an empty
    tree and then erased in any order, no call fails, the tree holds N keys
    after the insertions, and after the erasures [size() == 0],
    [empty() == true] and the root is null. *)
Theorem insert_all_erase_all_drains cfg (ks es : list Z) :
  NoDup ks -> es ≡ₚ ks ->
  exists s1 s2,
    run cfg (map Insert ks) avlTree_new = Some s1 /\ size s1 = length ks /\
    run cfg (map Erase es) s1 = Some s2 /\
    run cfg (map Insert ks ++ map Erase es) avlTree_new = Some s2 /\
    size s2 = 0%nat /\ empty s2 = true /\ root s2 = nullptr.
Proof.
  intros Hnd Hperm.
  destruct (run_spec cfg (map Insert ks) avlTree_new ∅ Inv_new)
    as (s1 & E1 & HI1 & HX1 & _).
  { simpl. set_solver. }
  destruct (run_spec cfg (map Erase es) s1 (list_to_set ks) HI1)
    as (s2 & E2 & HI2 & HX2 & _).
  { intros y. rewrite HX1, live_inserts. set_solver. }
  assert (Hnil : inorder (root s2) = []).
  { destruct (inorder (root s2)) as [|y l] eqn:E; [done|]. exfalso.
    assert (Hy : y ∈ y :: l) by set_solver.
    apply HX2 in Hy. rewrite live_erases in Hy.
    apply elem_of_difference in Hy as [Hy1 Hy2]. apply Hy2.
    rewrite elem_of_list_to_set in Hy1 |- *. by rewrite Hperm. }
  exists s1, s2. split_and!.
  - done.
  - unfold size. destruct HI1 as (Hb & _ & ->).
    apply Permutation_length, NoDup_Permutation.
    + by apply sorted_NoDup, bst_sorted.
    + done.
    + intros y. rewrite HX1, live_inserts. set_solver.
  - done.
  - by rewrite run_app, E1.
  - unfold size. destruct HI2 as (_ & _ & ->). by rewrite Hnil.
  - unfold empty. destruct HI2 as (_ & _ & ->). by rewrite Hnil.
  - by apply inorder_nil.
Qed.

Lemma insert_all_erase_all_drains_witness :
  NoDup [5; 3; 8; 1; 4] /\ [4; 8; 5; 1; 3] ≡ₚ [5; 3; 8; 1; 4] /\
  exists s1 s2,
    run (Config true false) (map Insert [5; 3; 8; 1; 4]) avlTree_new = Some s1 /\
    size s1 = length [5; 3; 8; 1; 4] /\
    run (Config true false) (map Erase [4; 8; 5; 1; 3]) s1 = Some s2 /\
    run (Config true false) (map Insert [5; 3; 8; 1; 4] ++ map Erase [4; 8; 5; 1; 3])
      avlTree_new = Some s2 /\
    size s2 = 0%nat /\ empty s2 = true /\ root s2 = nullptr.
Proof.
  assert (H1 : NoDup [5; 3; 8; 1; 4]).
  { apply (bool_decide_unpack (NoDup [5; 3; 8; 1; 4])). vm_compute. exact I. }
  assert (H2 : [4; 8; 5; 1; 3] ≡ₚ [5; 3; 8; 1; 4]).
  { apply NoDup_Permutation; [|exact H1|set_solver].
    apply (bool_decide_unpack (NoDup [4; 8; 5; 1; 3])). vm_compute. exact I. }
  split; [exact H1|]. split; [exact H2|].
  exact (insert_all_erase_all_drains (Config true false) _ _ H1 H2).
Defined.

(** In every state reached from the empty tree, [getKeys] on a vector of
    [size()] elements returns a strictly ascending sequence without
    repetition whose elements are exactly the keys inserted and not erased
    since. *)
Lemma avl_getKeys_ascending_live cfg ops s v :
  run cfg ops avlTree_new = Some s -> length v = size s ->
  exists ks, getKeys s v = Some ks /\ ks = inorder (root s) /\
    sorted ks /\ NoDup ks /\ length ks = size s /\
    forall y, y ∈ ks <-> y ∈ live ops ∅.
Proof.
  intros E Hv. destruct (reachable _ _ _ E) as (HI & HX & _).
  pose proof (Inv_sorted _ HI) as Hs. destruct HI as (_ & _ & Hc).
  unfold size in Hv. exists (inorder (root s)). split_and!; try done.
  - unfold getKeys. destruct (root s) as [|ip k b l rt] eqn:Er.
    + simpl in *. rewrite Hc in Hv. by destruct v.
    + rewrite getKeys_at_fits by (done || lia).
      rewrite <- Hc, <- Hv. simpl. by rewrite drop_all, app_nil_r.
  - by apply sorted_NoDup.
Qed.

(** C9 (avlTree): in every reachable state [getKeys(v)] stores with
    [v[i++] = key] and succeeds exactly when [v] has at least [size()]
    elements; it then overwrites the elements at indices [0 .. size()-1]
    with the keys and leaves the rest of [v] as it was.  On a shorter
    vector a store is out of bounds. *)
Theorem getKeys_unchecked_store cfg ops s v :
  run cfg ops avlTree_new = Some s ->
  ((size s <= length v)%nat ->
     getKeys s v = Some (inorder (root s) ++ drop (size s) v) /\
     length (inorder (root s)) = size s) /\
  ((length v < size s)%nat -> getKeys s v = None).
Proof.
  intros E. destruct (reachable _ _ _ E) as (HI & _ & _).
  destruct HI as (_ & _ & Hc). unfold size. rewrite Hc. unfold getKeys.
  destruct (root s) as [|ip k b l rt] eqn:Er.
  - simpl. split; [|lia]. intros _. by rewrite drop_0.
  - split.
    + intros Hle. by rewrite getKeys_at_fits.
    + intros Hlt. by rewrite getKeys_at_overrun.
Qed.

Lemma getKeys_unchecked_store_witness :
  exists s,
    run (Config false false) [Insert 2; Insert 1; Insert 3] avlTree_new = Some s /\
    ((size s <= length [7; 7; 7; 7])%nat ->
       getKeys s [7; 7; 7; 7] = Some (inorder (root s) ++ drop (size s) [7; 7; 7; 7]) /\
       length (inorder (root s)) = size s) /\
    ((length [7; 7; 7; 7] < size s)%nat -> getKeys s [7; 7; 7; 7] = None).
Proof.
  eexists. split; [vm_compute; reflexivity|].
  apply (getKeys_unchecked_store (Config false false) [Insert 2; Insert 1; Insert 3]
           _ [7; 7; 7; 7]).
  vm_compute; reflexivity.
Defined.

(** C10 (avlTree): in every reachable state every node the allocator has
    handed out is in the tree or on the freed list.  [erase(x)] returns
    [true] exactly when [x] is in the tree, and it never changes the
    allocator's state.  A successful [erase] splices exactly one node,
    the victim, out of the tree and makes it the head of the freed list,
    its [left] pointing at the former head, so [freedSize()] grows by one;
    a failed [erase] leaves the tree and the freed list as they were.
    [clear()] empties both. *)
Theorem erase_prepends_spliced_node cfg ops s x :
  run cfg ops avlTree_new = Some s ->
  (count s + freedSize s = brk s)%nat /\
  freedSize (clear s) = 0%nat /\ size (clear s) = 0%nat /\
  exists b s',
    erase cfg x s = Some (b, s') /\ b = contains s x /\
    contains s' x = false /\ brk s' = brk s /\
    (b = false ->
       root s' = root s /\ freed s' = freed s /\ freedSize s' = freedSize s) /\
    (b = true ->
       S (size s') = size s /\
       exists qa qk qb ql qr,
         victim cfg (root s) x = node qa qk qb ql qr /\
         addrs (root s) ≡ₚ qa :: addrs (root s') /\
         freed s' = node qa qk qb (freed s) qr /\
         freedSize s' = S (freedSize s)).
Proof.
  intros E. destruct (reachable _ _ _ E) as (HI & _ & Hacc).
  split; [done|]. split; [done|]. split; [done|].
  destruct (erase_spec cfg x s HI) as (b & s' & Ee & HI' & Hb & Hino & Hbrk & Hno & Hyes).
  exists b, s'. split_and!; [done| | |done| |].
  - unfold contains. rewrite contains_from_spec; [done|apply HI].
  - unfold contains. rewrite contains_from_spec by apply HI'.
    apply bool_decide_eq_false. rewrite Hino, elem_of_del; [tauto|].
    apply bst_sorted, HI.
  - intros ->. symmetry in Hb. apply bool_decide_eq_false in Hb.
    destruct (Hno Hb) as (? & ? & Hf). unfold freedSize. by rewrite Hf.
  - intros ->. symmetry in Hb. apply bool_decide_eq_true in Hb.
    destruct (Hyes Hb) as (Hc & qa & qk & qb & ql & qr & Hv & Hf & Her).
    split; [exact Hc|].
    exists qa, qk, qb, ql, qr. split_and!; [done| |done|].
    + by eapply erased_addrs.
    + unfold freedSize. by rewrite Hf.
Qed.

Lemma erase_prepends_spliced_node_witness :
  exists s s1 s2 qa qk qb ql qr,
    run (Config false false) [Insert 2; Insert 1; Insert 3; Erase 1] avlTree_new = Some s /\
    (count s + freedSize s = brk s)%nat /\
    erase (Config false false) 2 s = Some (true, s1) /\
    victim (Config false false) (root s) 2 = node qa qk qb ql qr /\
    addrs (root s) ≡ₚ qa :: addrs (root s1) /\
    freed s1 = node qa qk qb (freed s) qr /\
    freedSize s = 1%nat /\ freedSize s1 = 2%nat /\ brk s1 = brk s /\
    erase (Config false false) 7 s = Some (false, s2) /\
    root s2 = root s /\ freed s2 = freed s /\ brk s2 = brk s.
Proof.
  pose (cfg := Config false false).
  pose (ops := [Insert 2; Insert 1; Insert 3; Erase 1]).
  destruct (run cfg ops avlTree_new) as [s|] eqn:E; [|vm_compute in E; discriminate].
  destruct (erase_prepends_spliced_node cfg ops s 2 E)
    as (Hacc & _ & _ & b1 & s1 & E1 & Hb1 & _ & Hk1 & _ & Hyes).
  destruct (erase_prepends_spliced_node cfg ops s 7 E)
    as (_ & _ & _ & b2 & s2 & E2 & Hb2 & _ & Hk2 & Hno & _).
  assert (Ht : b1 = true).
  { rewrite Hb1. vm_compute in E. injection E as <-. vm_compute. reflexivity. }
  assert (Hf : b2 = false).
  { rewrite Hb2. vm_compute in E. injection E as <-. vm_compute. reflexivity. }
  destruct (Hyes Ht) as (_ & qa & qk & qb & ql & qr & Hv & Hp & Hfr & Hn).
  destruct (Hno Hf) as (Hr2 & Hf2 & _).
  rewrite Ht in E1. rewrite Hf in E2.
  exists s, s1, s2, qa, qk, qb, ql, qr.
  split; [exact E|]. split; [exact Hacc|]. split; [exact E1|]. split; [exact Hv|].
  split; [exact Hp|]. split; [exact Hfr|].
  assert (H1 : freedSize s = 1%nat).
  { vm_compute in E. injection E as <-. vm_compute. reflexivity. }
  split; [exact H1|]. split; [rewrite Hn, H1; reflexivity|].
  split; [exact Hk1|]. split; [exact E2|]. split; [exact Hr2|]. split; [exact Hf2|exact Hk2].
Defined.

(** C5, as stated, fails: with ENABLE_PREFERRED_TEST (and without
    INVERT_PREFERRED_TEST) erasing the key of a two-child node whose
    balance factor is 0 splices out the rightmost node of the LEFT subtree
    (the in-order predecessor), not the leftmost node of the right
    subtree. *)
Lemma preferred_tie_takes_predecessor :
  let cfg := Config true false in
  exists s s' i l rt,
    run cfg [Insert 2; Insert 1; Insert 3] avlTree_new = Some s /\
    root s = node i 2 0 l rt /\ l <> nullptr /\ rt <> nullptr /\
    erase cfg 2 s = Some (true, s') /\
    addr_of (freed s') = addr_of (rightmost l) /\
    addr_of (freed s') <> addr_of (leftmost rt) /\
    inorder (root s') = [1; 3] /\
    (exists l' rt', root s' = node i 1 1 l' rt').
Proof.
  intros cfg.
  exists (AvlTree (node 0 2 0 (node 1 1 0 nullptr nullptr) (node 2 3 0 nullptr nullptr))
            3 false true false nullptr 0 0 0 0 0 0 0 0 3).
  eexists _, 0%nat, (node 1 1 0 nullptr nullptr), (node 2 3 0 nullptr nullptr).
  split; [vm_compute; reflexivity|]. split; [reflexivity|].
  split; [discriminate|]. split; [discriminate|].
  split; [vm_compute; reflexivity|].
  split; [reflexivity|]. split; [vm_compute; discriminate|].
  split; [reflexivity|]. eexists _, _. reflexivity.
Qed.

(** C5, amended: with ENABLE_PREFERRED_TEST, when the node holding the key
    has two children, [erase] splices out the rightmost node of the left
    subtree if the balance factor is -1 or 0, and the leftmost node of the
    right subtree if it is +1: a tie goes to the LEFT subtree.  Under
    INVERT_PREFERRED_TEST the tie goes to the right subtree instead.  The
    spliced node becomes the head of the freed list and the key is gone
    from the in-order sequence. *)
Theorem erase_preferred_replacement cfg ops s x i k b l rt :
  run cfg ops avlTree_new = Some s ->
  ENABLE_PREFERRED_TEST cfg = true ->
  find (root s) x = node i k b l rt -> l <> nullptr -> rt <> nullptr ->
  -1 <= b <= 1 /\ k = x /\
  exists s' qa qk qb ql qr,
    erase cfg x s = Some (true, s') /\
    (if INVERT_PREFERRED_TEST cfg
     then (if b =? -1 then rightmost l else leftmost rt)
     else (if b =? 1 then leftmost rt else rightmost l)) = node qa qk qb ql qr /\
    freed s' = node qa qk qb (freed s) qr /\
    inorder (root s') = del x (inorder (root s)).
Proof.
  intros E Hen Hfind Hl Hrt. destruct (reachable _ _ _ E) as (HI & _ & _).
  assert (Hfacts : forall p, avl p -> find p x = node i k b l rt ->
                     -1 <= b <= 1 /\ k = x /\ x ∈ inorder p).
  { induction p as [|ip kp bp lp IHl rp IHr]; [done|].
    intros Ha Hf. simpl in Ha. destruct Ha as (Hb & Hr & Hal & Har).
    rewrite find_node_eq in Hf. simpl.
    destruct (x <? kp) eqn:E1; [|destruct (x >? kp) eqn:E2].
    - destruct (IHl Hal Hf) as (? & ? & ?). split; [done|split; [done|set_solver]].
    - destruct (IHr Har Hf) as (? & ? & ?). split; [done|split; [done|set_solver]].
    - injection Hf as -> -> -> -> ->. split; [lia|]. split; [lia|].
      assert (x = k) as -> by lia. set_solver. }
  destruct (Hfacts (root s)) as (Hb & Hk & Hin); [apply HI|done|].
  split; [done|]. split; [done|].
  destruct (erase_spec cfg x s HI) as (b' & s' & Ee & _ & Hb' & Hdel & _ & _ & Hyes).
  rewrite (bool_decide_eq_true_2 _ Hin) in Hb'. subst b'.
  destruct (Hyes Hin) as (_ & qa & qk & qb & ql & qr & Hv & Hf & _).
  exists s', qa, qk, qb, ql, qr. split_and!; [done| |done..].
  rewrite <- Hv. unfold victim. rewrite Hfind.
  destruct rt; [done|]. destruct l; [done|].
  unfold prefer_left. rewrite Hen.
  destruct (INVERT_PREFERRED_TEST cfg).
  - assert (b = -1 \/ b = 0 \/ b = 1) as [ -> | [ -> | -> ] ] by lia; done.
  - assert (b = -1 \/ b = 0 \/ b = 1) as [ -> | [ -> | -> ] ] by lia; done.
Qed.

Lemma erase_preferred_replacement_witness :
  exists s i k b l rt,
    run (Config true false) [Insert 2; Insert 1; Insert 3] avlTree_new = Some s /\
    find (root s) 2 = node i k b l rt /\ l <> nullptr /\ rt <> nullptr /\
    -1 <= b <= 1 /\ k = 2 /\
    exists s' qa qk qb ql qr,
      erase (Config true false) 2 s = Some (true, s') /\
      (if INVERT_PREFERRED_TEST (Config true false)
       then (if b =? -1 then rightmost l else leftmost rt)
       else (if b =? 1 then leftmost rt else rightmost l)) = node qa qk qb ql qr /\
      freed s' = node qa qk qb (freed s) qr /\
      inorder (root s') = del 2 (inorder (root s)).
Proof.
  eexists _, _, _, _, _, _.
  split; [vm_compute; reflexivity|]. split; [vm_compute; reflexivity|].
  split; [done|]. split; [done|].
  apply (erase_preferred_replacement (Config true false) [Insert 2; Insert 1; Insert 3]
           _ 2 0%nat 2 0 (node 1 1 0 nullptr nullptr) (node 2 3 0 nullptr nullptr));
    try (vm_compute; reflexivity); done.
Defined.

(** C7 (avlTree): if the insertion of [x] into a subtree [p] performs a
    rotation, it performs exactly one, the height-changed flag [h] is clear
    when the call returns, the new subtree is balanced and has the height
    [p] had before the insertion, and for every path [c] of ancestors above
    [p] the insertion into the whole tree returns the same ancestors (same
    nodes, keys, balance factors and other subtrees) around the new
    subtree, in the same final state: nothing above is rebalanced. *)
Theorem insert_rotation_halts_propagation c p x s p' s1 :
  p <> nullptr -> avl p -> sorted (inorder p) -> on_path x c ->
  insert_at p x s = Some (p', s1) ->
  insert_rotations s1 <> insert_rotations s ->
  insert_rotations s1 = S (insert_rotations s) /\
  h s1 = false /\ avl p' /\ height p' = height p /\
  insert_at (plug c p) x s = Some (plug c p', s1).
Proof.
  intros Hnn Havl Hs Hpath E Hrot.
  destruct (insert_at_rot p x Hnn Havl Hs s p' s1 E) as [?|(Hr & Hh & Hht)]; [done|].
  destruct (insert_at_spec p x s Hnn Havl Hs) as (p2 & s2 & E2 & Hpost).
  rewrite E in E2. injection E2 as <- <-. destruct Hpost as (Hal' & _).
  split_and!; try done. by apply insert_at_plug.
Qed.

Lemma insert_rotation_halts_propagation_witness :
  let c := [CFrame Lft 7 10 (-1) nullptr; CFrame Rgt 8 0 1 nullptr] in
  let p := node 0 1 1 nullptr (node 1 2 0 nullptr nullptr) in
  let s := AvlTree nullptr 2 false true false nullptr 0 0 0 0 0 0 0 0 2 in
  let p' := node 1 2 0 (node 0 1 0 nullptr nullptr) (node 2 3 0 nullptr nullptr) in
  let s1 := AvlTree nullptr 2 false true false nullptr 0 0 0 0 0 0 0 1 3 in
  insert_at p 3 s = Some (p', s1) /\
  insert_rotations s1 = S (insert_rotations s) /\
  h s1 = false /\ avl p' /\ height p' = height p /\
  insert_at (plug c p) 3 s = Some (plug c p', s1).
Proof.
  intros c p s p' s1.
  assert (E : insert_at p 3 s = Some (p', s1)) by (vm_compute; reflexivity).
  split; [exact E|].
  apply (insert_rotation_halts_propagation c p 3 s p' s1).
  - done.
  - simpl. lia.
  - simpl. repeat constructor; lia.
  - repeat constructor; simpl; lia.
  - exact E.
  - vm_compute. lia.
Defined.

(** In every reachable state [insert(k)] returns [true] exactly when [k]
    was absent, and [k] is present afterwards; when [k] was present the
    root, the size, the freed list and the allocator are unchanged.
    [erase(k)] returns [true] exactly when [k] was present, and [k] is
    absent afterwards; when [k] was absent the root, the size and the
    freed list are unchanged.  No other key is affected, and the size
    changes by one exactly when the call returns [true]. *)
Lemma avl_insert_erase_results cfg ops s k :
  run cfg ops avlTree_new = Some s ->
  (exists b s',
     insert k s = Some (b, s') /\ b = negb (contains s k) /\
     contains s' k = true /\
     (forall y, y <> k -> contains s' y = contains s y) /\
     (b = false -> root s' = root s /\ size s' = size s /\
                   freed s' = freed s /\ brk s' = brk s) /\
     (b = true -> size s' = S (size s))) /\
  (exists b s',
     erase cfg k s = Some (b, s') /\ b = contains s k /\
     contains s' k = false /\
     (forall y, y <> k -> contains s' y = contains s y) /\
     (b = false -> root s' = root s /\ size s' = size s /\
                   freed s' = freed s /\ brk s' = brk s) /\
     (b = true -> S (size s') = size s)).
Proof.
  intros E. destruct (reachable _ _ _ E) as (HI & _ & _).
  pose proof (Inv_sorted _ HI) as Hs.
  assert (Hc : forall y, contains s y = bool_decide (y ∈ inorder (root s))).
  { intros y. apply contains_from_spec, HI. }
  split.
  - destruct (insert_spec k s HI) as (b & s' & Ei & HI' & Hb & Hin & Hdup & Hnew).
    assert (Hc' : forall y, contains s' y = bool_decide (y ∈ ins k (inorder (root s)))).
    { intros y. rewrite <- Hin. apply contains_from_spec, HI'. }
    exists b, s'. split_and!.
    + done.
    + by rewrite Hc.
    + rewrite Hc'. apply bool_decide_eq_true. rewrite elem_of_ins. by left.
    + intros y Hy. rewrite Hc, Hc'. apply bool_decide_ext. rewrite elem_of_ins.
      tauto.
    + intros ->. symmetry in Hb. apply negb_false_iff, bool_decide_eq_true in Hb.
      destruct (Hdup Hb) as (? & ? & ? & ?). done.
    + intros ->. symmetry in Hb. apply negb_true_iff, bool_decide_eq_false in Hb.
      by destruct (Hnew Hb) as (? & _).
  - destruct (erase_spec cfg k s HI) as (b & s' & Ee & HI' & Hb & Hdel & Hbrk & Hno & Hyes).
    assert (Hc' : forall y, contains s' y = bool_decide (y ∈ del k (inorder (root s)))).
    { intros y. rewrite <- Hdel. apply contains_from_spec, HI'. }
    exists b, s'. split_and!.
    + done.
    + by rewrite Hc.
    + rewrite Hc'. apply bool_decide_eq_false. rewrite elem_of_del by done. tauto.
    + intros y Hy. rewrite Hc, Hc'. apply bool_decide_ext. rewrite elem_of_del by done.
      tauto.
    + intros ->. symmetry in Hb. apply bool_decide_eq_false in Hb.
      destruct (Hno Hb) as (? & ? & ?). done.
    + intros ->. symmetry in Hb. apply bool_decide_eq_true in Hb.
      by destruct (Hyes Hb) as (? & _).
Qed.

(** The invariants that [checkTree] tests hold in every state reached
    from the empty tree, and no call fails on the way. *)
Lemma avl_invariants_reachable cfg ops :
  exists s, run cfg ops avlTree_new = Some s /\
    bst (root s) /\ bal_in_range (root s) /\ avl (root s) /\
    checkTree s = true /\ size s = length (inorder (root s)).
Proof.
  destruct (run_spec cfg ops avlTree_new ∅ Inv_new) as (s & E & (Hb & Ha & Hc) & _).
  { simpl. set_solver. }
  exists s. split_and!; try done.
  - by apply avl_bal_in_range.
  - apply bst_checkTree; [done|]. by apply avl_bal_in_range.
Qed.

End AVLClaims.

Module BURBClaims.
Import BURB BURBFacts.
Local Open Scope monad_scope.

(** C6, amended: when the sibling of the DOUBLE_BLACK node [p] is BLACK and
    both children of the sibling are BLACK (or null), one iteration of the
    loop of [fixErasure] colours [p] BLACK and the sibling RED and moves to
    the parent [q].  If [q] was RED it becomes BLACK and the loop ends
    there; otherwise [q] becomes DOUBLE_BLACK, and the loop performs
    another iteration from [q] unless [q] is the root. *)
Theorem fixErasure_rule3_step s p q w np nq nw fuel :
  heap s !! p = Some np -> parent np = Some q ->
  heap s !! q = Some nq -> sibling_of (Some p) nq = Some w ->
  heap s !! w = Some nw -> color nw = BLACK ->
  getColor (left nw) s = Some (BLACK, s) ->
  getColor (right nw) s = Some (BLACK, s) ->
  p <> q -> p <> w -> q <> w ->
  color np = DOUBLE_BLACK -> root s <> Some p ->
  let s' := rule3 p q w np nq nw s in
  fixErasure_body (Some p) s = Some (inl (Some q), s') /\
  fixErasure_loop (S fuel) (Some p) s = fixErasure_loop fuel (Some q) s' /\
  get_color (Some p) s' = Some (BLACK, s') /\
  get_color (Some w) s' = Some (RED, s') /\
  get_color (Some q) s' =
    Some (if color_eqb (color nq) RED then BLACK else DOUBLE_BLACK, s') /\
  (color nq = RED \/ root s = Some q ->
     fixErasure_loop fuel (Some q) s' = Some (tt, s')) /\
  (color nq <> RED -> root s <> Some q ->
     fixErasure_loop fuel (Some q) s' =
       match fuel with
       | O => None
       | S fuel' =>
           (res <- fixErasure_body (Some q) ;;
            match res with
            | inl p' => fixErasure_loop fuel' p'
            | inr _ => ret tt
            end) s'
       end).
Proof.
  intros Hp Hpar Hq Hw Hnw Hcw Hl Hr Hpq Hpw Hqw Hdb Hroot s'.
  pose proof (fixErasure_body_rule3 s p q w np nq nw Hp Hpar Hq Hw Hnw Hcw Hl Hr
                Hpq Hpw Hqw) as Hbody.
  fold s' in Hbody.
  assert (Hlq : heap s' !! q =
                Some (recolor (if color_eqb (color nq) RED then BLACK else DOUBLE_BLACK) nq)).
  { unfold s', rule3. simpl. by rewrite lookup_insert_eq. }
  assert (Hlw : heap s' !! w = Some (recolor RED nw)).
  { unfold s', rule3. simpl. rewrite lookup_insert_ne by done.
    by rewrite lookup_insert_eq. }
  assert (Hlp : heap s' !! p = Some (recolor BLACK np)).
  { unfold s', rule3. simpl. rewrite !lookup_insert_ne by done.
    by rewrite lookup_insert_eq. }
  split; [done|]. split.
  { rewrite fixErasure_loop_eq. rewrite bind_get_root.
    rewrite (ptr_eqb_root_ne _ _ Hroot). cbn [negb].
    rewrite bind_bind, (bind_get_color s p np Hp), Hdb. rewrite !bind_ret.
    cbn [color_eqb]. by rewrite (bind_of _ _ _ _ _ Hbody). }
  split; [unfold get_color, bind, load, ret; by rewrite Hlp|].
  split; [unfold get_color, bind, load, ret; by rewrite Hlw|].
  split; [unfold get_color, bind, load, ret; by rewrite Hlq|].
  split.
  - intros Hstop. rewrite fixErasure_loop_eq, bind_get_root.
    change (root s') with (root s).
    destruct (ptr_eqb (Some q) (root s)) eqn:Eq.
    + by destruct fuel.
    + destruct Hstop as [Hred|Hrt].
      * cbn [negb]. rewrite bind_bind, (bind_get_color s' q _ Hlq).
        rewrite Hred. by destruct fuel.
      * rewrite Hrt, ptr_eqb_refl in Eq. done.
  - intros Hnr Hrt. rewrite fixErasure_loop_eq, bind_get_root.
    change (root s') with (root s). rewrite (ptr_eqb_root_ne _ _ Hrt). cbn [negb].
    rewrite bind_bind, (bind_get_color s' q _ Hlq).
    destruct (color nq); [done|..]; by destruct fuel.
Qed.

Lemma fixErasure_rule3_step_witness :
  exists s0 s np nq nw,
    run [Insert 1; Insert 2; Insert 3; Insert 4; Erase 4] burbTree_new = Some s0 /\
    set_color (Some 0%nat) DOUBLE_BLACK s0 = Some (tt, s) /\
    let s' := rule3 0 1 2 np nq nw s in
    fixErasure_body (Some 0%nat) s = Some (inl (Some 1%nat), s') /\
    fixErasure_loop 4 (Some 0%nat) s = fixErasure_loop 3 (Some 1%nat) s' /\
    get_color (Some 0%nat) s' = Some (BLACK, s') /\
    get_color (Some 2%nat) s' = Some (RED, s') /\
    get_color (Some 1%nat) s' =
      Some (if color_eqb (color nq) RED then BLACK else DOUBLE_BLACK, s') /\
    (color nq = RED \/ root s = Some 1%nat ->
       fixErasure_loop 3 (Some 1%nat) s' = Some (tt, s')) /\
    (color nq <> RED -> root s <> Some 1%nat ->
       fixErasure_loop 3 (Some 1%nat) s' =
         (res <- fixErasure_body (Some 1%nat) ;;
          match res with
          | inl p' => fixErasure_loop 2 p'
          | inr _ => ret tt
          end) s').
Proof.
  eexists _, _, (mkNode 1 DOUBLE_BLACK nulle nulle (Some 1%nat)),
    (mkNode 2 BLACK (Some 0%nat) (Some 2%nat) nulle),
    (mkNode 3 BLACK nulle nulle (Some 1%nat)).
  split; [vm_compute; reflexivity|]. split; [vm_compute; reflexivity|].
  apply (fixErasure_rule3_step _ 0 1 2 _ _ _ 3);
    try (vm_compute; reflexivity); try lia; discriminate.
Defined.

(** C6, as stated, fails when the parent is RED: after
    [insert 1 .. insert 6; erase 6] the node holding 3 has a RED parent
    (4) and a BLACK sibling (5) without children.  With the node holding 3
    DOUBLE_BLACK, one iteration of the loop colours the sibling RED and
    the parent BLACK, not DOUBLE_BLACK, and the loop does not iterate
    again from the parent. *)
Lemma rule3_red_parent_stops :
  exists s0 s1 s2,
    run [Insert 1; Insert 2; Insert 3; Insert 4; Insert 5; Insert 6; Erase 6]
      burbTree_new = Some s0 /\
    set_color (Some 2%nat) DOUBLE_BLACK s0 = Some (tt, s1) /\
    get_key (Some 2%nat) s1 = Some (3, s1) /\
    get_parent (Some 2%nat) s1 = Some (Some 3%nat, s1) /\
    get_color (Some 3%nat) s1 = Some (RED, s1) /\
    get_right (Some 3%nat) s1 = Some (Some 4%nat, s1) /\
    get_color (Some 4%nat) s1 = Some (BLACK, s1) /\
    get_left (Some 4%nat) s1 = Some (nulle, s1) /\
    get_right (Some 4%nat) s1 = Some (nulle, s1) /\
    fixErasure_body (Some 2%nat) s1 = Some (inl (Some 3%nat), s2) /\
    get_color (Some 4%nat) s2 = Some (RED, s2) /\
    get_color (Some 3%nat) s2 = Some (BLACK, s2) /\
    forall fuel, fixErasure_loop fuel (Some 3%nat) s2 = Some (tt, s2).
Proof.
  eexists _, _, _.
  split; [vm_compute; reflexivity|]. split; [vm_compute; reflexivity|].
  split; [vm_compute; reflexivity|]. split; [vm_compute; reflexivity|].
  split; [vm_compute; reflexivity|]. split; [vm_compute; reflexivity|].
  split; [vm_compute; reflexivity|]. split; [vm_compute; reflexivity|].
  split; [vm_compute; reflexivity|]. split; [vm_compute; reflexivity|].
  split; [vm_compute; reflexivity|]. split; [vm_compute; reflexivity|].
  intros fuel. rewrite fixErasure_loop_eq. vm_compute. reflexivity.
Qed.

(** The invariants that [checkTree] tests hold in every state reached from
    the empty tree, and no call fails on the way: the memory holds a tree
    [t] whose keys are in strictly ascending order, whose root is BLACK,
    in which no RED node has a RED child and no node is DOUBLE_BLACK, and
    in which every path from the root to a leaf has the same number [n] of
    BLACK nodes; [size()] is the number of its nodes. *)
Theorem burb_invariants_reachable ops :
  exists s t, run ops burbTree_new = Some s /\ Whole s t /\ size s = tsize t /\
    AVL.sorted (inorder t) /\ croot t = BLACK /\ exists n, rb t n.
Proof.
  destruct (burb_run_spec ops burbTree_new E [] ∅ BInv_new)
    as (s & t & fl & E1 & (HW & Hc & Hs & [Hr Hn] & _) & _).
  { intros y. simpl. set_solver. }
  by exists s, t.
Qed.

End BURBClaims.

Module LLRBClaims.
Import LLRB LLRBFacts.
Local Open Scope monad_scope.

(** C8 (llrbTree): in every state reached from a new tree, whatever
    ENABLE_PREFERRED_TEST and INVERT_PREFERRED_TEST are and whatever the
    sizes of the subtrees, [erase(x)] of a key whose node has a right
    child (such a node has a left child as well) replaces the key by its
    in-order successor: the test that guards the predecessor branch is
    constantly false (FORCE_SUCCESSOR); the call returns [true]; the node
    that held [x] stays in the tree, at the same place in the order, and
    now holds the smallest key [y] of its right subtree; the node that
    held [y], the leftmost node of the right subtree, has left the tree
    and is the head of the freed list; every other node holds the key it
    held. *)
Theorem erase_forces_successor cfg cs s x i k c l rt n :
  run_calls cfg cs llrbTree_new = Some s ->
  find (root s) x = node i k c l rt n -> rt <> nullptr ->
  (forall p, prefer_predecessor cfg p = false) /\
  k = x /\ l <> nullptr /\
  exists s' j y cj nj A B,
    cell_of (min rt) = Some (j, y) /\
    erase cfg x s = Some (true, s') /\
    cells (root s) = A ++ (i, x) :: (j, y) :: B /\
    cells (root s') = A ++ (i, y) :: B /\
    freed s' = node j y cj (freed s) nullptr nj /\
    inorder (root s') = AVL.del x (inorder (root s)) /\
    size_checked cfg s' = Some (Nat.pred (count s), s').
Proof.
  intros E Hfind Hrt. destruct (llrb_reachable cfg cs s E) as (HI & _).
  pose proof HI as (Hs & Hc & h & Hh).
  split; [apply prefer_predecessor_never|].
  destruct (find_cells _ _ _ _ _ _ _ _ Hfind) as (-> & Hv & A & B & HA).
  split; [done|]. split.
  { destruct (find_llrb cfg _ _ _ _ _ _ _ _ h Hh Hfind) as (h' & Hn).
    by apply (llrb_right_left cfg i x c l rt n h'). }
  assert (Hin : x ∈ inorder (root s)).
  { rewrite <- cells_keys, HA, fmap_app, fmap_cons. set_solver. }
  destruct (llrb_erase_full cfg s x HI)
    as (s' & Ee & HI' & _ & _ & _ & Hi & _ & _ & Hyes).
  assert (Hcx : contains s x = true).
  { rewrite (llrb_contains_inorder cfg s x HI). by apply bool_decide_eq_true. }
  rewrite Hcx in Ee. destruct (Hyes Hcx) as (Hn & j & y & cj & nj & Hvj & Hf & Hce).
  assert (Hm : cell_of (min rt) = Some (j, y)).
  { rewrite <- Hvj, Hv. by destruct rt. }
  pose proof Hm as Hh'. rewrite cell_min_head in Hh'.
  apply head_Some in Hh' as (rest & Hrest).
  rewrite Hrest in HA. simpl in HA.
  exists s', j, y, cj, nj, A, (rest ++ B). split_and!; try done.
  - rewrite Hce, HA. apply splice_succ. by rewrite <- HA, cells_keys.
  - rewrite (size_checked_LInv cfg s' HI'). do 2 f_equal. lia.
Qed.

Lemma erase_forces_successor_witness :
  exists s s',
    run_calls (Config true false)
      [CInsert 5; CInsert 3; CInsert 8; CInsert 1; CInsert 4; CInsert 9; CInsert 0]
      llrbTree_new = Some s /\
    contains s 5 = true /\
    (getSize (right_of (find (root s) 5)) <= getSize (left_of (find (root s) 5)))%nat /\
    erase (Config true false) 5 s = Some (true, s') /\
    cells (root s) = [(6%nat, 0); (3%nat, 1); (1%nat, 3); (4%nat, 4);
                      (0%nat, 5); (2%nat, 8); (5%nat, 9)] /\
    cells (root s') = [(6%nat, 0); (3%nat, 1); (1%nat, 3); (4%nat, 4);
                       (0%nat, 8); (5%nat, 9)] /\
    cell_of (freed s') = Some (2%nat, 8) /\
    inorder (root s') = [0; 1; 3; 4; 8; 9].
Proof.
  pose (cfg := Config true false).
  pose (cs := [CInsert 5; CInsert 3; CInsert 8; CInsert 1; CInsert 4; CInsert 9;
               CInsert 0]).
  destruct (run_calls cfg cs llrbTree_new) as [s|] eqn:E;
    [|vm_compute in E; discriminate].
  destruct (find (root s) 5) as [|i k c l rt n] eqn:Hfind.
  { exfalso. vm_compute in E. injection E as <-. vm_compute in Hfind. discriminate. }
  assert (Hrt : rt <> nullptr).
  { vm_compute in E. injection E as <-. vm_compute in Hfind.
    injection Hfind as <- <- <- <- <- <-. discriminate. }
  destruct (erase_forces_successor cfg cs s 5 i k c l rt n E Hfind Hrt)
    as (_ & _ & _ & s' & j & y & cj & nj & A & B & Hm & Ee & HA & HB & Hf & Hi & _).
  exists s, s'. split; [exact E|].
  vm_compute in E. injection E as <-. vm_compute in Hfind.
  injection Hfind as <- <- <- <- <- <-.
  vm_compute in Hm. injection Hm as <- <-.
  split; [vm_compute; reflexivity|]. split; [vm_compute; lia|].
  split; [exact Ee|]. split; [vm_compute; reflexivity|].
  vm_compute in HA.
  assert (A = [(6%nat, 0); (3%nat, 1); (1%nat, 3); (4%nat, 4)] /\ B = [(5%nat, 9)])
    as [-> ->].
  { do 4 (destruct A as [|? A]; [discriminate HA|injection HA as <- HA]).
    destruct A as [|? A]; [by injection HA as <-|].
    injection HA as _ HA.
    do 2 (destruct A as [|? A]; [discriminate HA|injection HA as _ HA]).
    destruct A; discriminate HA. }
  split; [exact HB|]. split; [by rewrite Hf|].
  rewrite Hi. vm_compute. reflexivity.
Defined.

(** C1 fails for llrbTree: after [insert(1); erase(1); insert(2)] on an
    empty tree the root is RED.  [insert] on an empty tree asks [newNode]
    for a BLACK node, but [newNode] colours every node it takes from the
    freed list RED, and [insert] does not recolour the root on that
    path. *)
Theorem llrb_root_red_after_reuse cfg :
  exists s i k l rt n,
    run cfg [Insert 1; Erase 1; Insert 2] llrbTree_new = Some s /\
    root s = node i k RED l rt n /\ isRed (root s) = true /\
    inorder (root s) = [2] /\ size s = 1%nat.
Proof.
  destruct cfg as [[] []]; eexists _, _, _, _, _, _;
    (split; [vm_compute; reflexivity|]); split_and!; reflexivity.
Qed.

End LLRBClaims.

Module TreeClaims.
Import AVLFacts BURBFacts AVLClaims LLRBFacts.

(** C2, as stated, fails: a call that returns [false] does not always
    leave the tree as it was (the default builds are evaluated).  In
    llrbTree an [erase] of an absent key restructures the tree on its way
    down: after the insertion of 2, 3, 4 and 5, [erase(1)] returns
    [false] and the key of the root changes from 3 to 4.  In llrbTree an
    [insert] of a key that is present paints a RED root BLACK.  In
    burbTree an [insert] of a key that is present takes a node before it
    searches and puts it on the freed list afterwards: the allocator
    hands out a node and [freedSize()] goes from 0 to 1. *)
Theorem false_result_changes_state :
  (exists s s' i c l rt n i' c' l' rt' n',
     LLRB.run (LLRB.Config false false)
       [LLRB.Insert 2; LLRB.Insert 3; LLRB.Insert 4; LLRB.Insert 5]
       LLRB.llrbTree_new = Some s /\
     LLRB.contains s 1 = false /\
     LLRB.erase (LLRB.Config false false) 1 s = Some (false, s') /\
     LLRB.root s = LLRB.node i 3 c l rt n /\
     LLRB.root s' = LLRB.node i' 4 c' l' rt' n' /\
     LLRB.root s' <> LLRB.root s) /\
  (exists s s',
     LLRB.run (LLRB.Config false false)
       [LLRB.Insert 1; LLRB.Erase 1; LLRB.Insert 2]
       LLRB.llrbTree_new = Some s /\
     LLRB.contains s 2 = true /\
     LLRB.insert (LLRB.Config false false) 2 s = Some (false, s') /\
     LLRB.isRed (LLRB.root s) = true /\ LLRB.isRed (LLRB.root s') = false /\
     LLRB.root s' <> LLRB.root s) /\
  (exists s s',
     BURB.run [BURB.Insert 1] BURB.burbTree_new = Some s /\
     BURB.contains 1 s = Some (true, s) /\
     BURB.insert 1 s = Some (false, s') /\
     BURB.freedSize s = Some (0%nat, s) /\ BURB.freedSize s' = Some (1%nat, s') /\
     BURB.brk s' = S (BURB.brk s) /\ s' <> s).
Proof.
  split; [|split].
  - eexists _, _, _, _, _, _, _, _, _, _, _, _;
      (split; [vm_compute; reflexivity|]);
      (split; [vm_compute; reflexivity|]);
      (split; [vm_compute; reflexivity|]);
      (split; [reflexivity|]); (split; [reflexivity|]); discriminate.
  - eexists _, _;
      (split; [vm_compute; reflexivity|]);
      (split; [vm_compute; reflexivity|]);
      (split; [vm_compute; reflexivity|]);
      (split; [reflexivity|]); (split; [reflexivity|]); discriminate.
  - eexists _, _.
    split; [vm_compute; reflexivity|]. split; [vm_compute; reflexivity|].
    split; [vm_compute; reflexivity|]. split; [vm_compute; reflexivity|].
    split; [vm_compute; reflexivity|]. split; [reflexivity|].
    intros H. apply (f_equal BURB.brk) in H. vm_compute in H. discriminate.
Qed.

(** C2, amended.  avlTree, burbTree and llrbTree, in every state reached
    from the empty tree by calls of [insert] and [erase] (for llrbTree
    also of [deleteMin()], [deleteMax()] and [freedPreallocate]):
    [insert(k)] returns [true] exactly when [k] was absent, and [k] is
    present afterwards; [erase(k)] returns [true] exactly when [k] was
    present, and [k] is absent afterwards.  No other key is affected, and
    the size changes by one exactly when the call returns [true].
    When [insert] returns [false]: in avlTree the root, the size, the
    freed list and the allocator are unchanged; in burbTree the memory
    holds the same tree (same nodes, links and colours) and the size is
    unchanged, but one node has been put on the freed list if it was
    empty, allocated for that; in llrbTree the root has been painted
    BLACK and nothing else in the tree, the size, the freed list or the
    allocator has changed ([size()] returns [count] without throwing).  When [erase] returns [false]: in avlTree the
    root, the size, the freed list and the allocator are unchanged; in
    burbTree the whole state, memory included, is unchanged; in llrbTree
    the same nodes hold the same keys in the same order, and the size,
    the freed list and the allocator are unchanged, but the links and the
    colours of the nodes may have changed. *)
Theorem insert_erase_results cfg ops s opsb sb cfgl cs sl k :
  AVL.run cfg ops AVL.avlTree_new = Some s ->
  BURB.run opsb BURB.burbTree_new = Some sb ->
  LLRB.run_calls cfgl cs LLRB.llrbTree_new = Some sl ->
  (exists b s',
     AVL.insert k s = Some (b, s') /\ b = negb (AVL.contains s k) /\
     AVL.contains s' k = true /\
     (forall y, y <> k -> AVL.contains s' y = AVL.contains s y) /\
     (b = false -> AVL.root s' = AVL.root s /\ AVL.size s' = AVL.size s /\
                   AVL.freed s' = AVL.freed s /\ AVL.brk s' = AVL.brk s) /\
     (b = true -> AVL.size s' = S (AVL.size s))) /\
  (exists b s',
     AVL.erase cfg k s = Some (b, s') /\ b = AVL.contains s k /\
     AVL.contains s' k = false /\
     (forall y, y <> k -> AVL.contains s' y = AVL.contains s y) /\
     (b = false -> AVL.root s' = AVL.root s /\ AVL.size s' = AVL.size s /\
                   AVL.freed s' = AVL.freed s /\ AVL.brk s' = AVL.brk s) /\
     (b = true -> S (AVL.size s') = AVL.size s)) /\
  (exists b s' c,
     BURB.insert k sb = Some (b, s') /\ BURB.contains k sb = Some (c, sb) /\
     b = negb c /\ BURB.contains k s' = Some (true, s') /\
     (forall y, y <> k ->
        exists d, BURB.contains y sb = Some (d, sb) /\
                  BURB.contains y s' = Some (d, s')) /\
     (b = false ->
        (exists t, BURB.Whole sb t /\ BURB.Whole s' t) /\
        BURB.size s' = BURB.size sb /\
        exists n, BURB.freedSize sb = Some (n, sb) /\
          BURB.freedSize s' = Some (Nat.max 1 n, s') /\
          BURB.brk s' = if Nat.eqb n 0 then S (BURB.brk sb) else BURB.brk sb) /\
     (b = true -> BURB.size s' = S (BURB.size sb))) /\
  (exists b s' c,
     BURB.erase k sb = Some (b, s') /\ BURB.contains k sb = Some (c, sb) /\
     b = c /\ BURB.contains k s' = Some (false, s') /\
     (forall y, y <> k ->
        exists d, BURB.contains y sb = Some (d, sb) /\
                  BURB.contains y s' = Some (d, s')) /\
     (b = false -> s' = sb) /\
     (b = true -> S (BURB.size s') = BURB.size sb)) /\
  (exists b s',
     LLRB.insert cfgl k sl = Some (b, s') /\ b = negb (LLRB.contains sl k) /\
     LLRB.contains s' k = true /\
     (forall y, y <> k -> LLRB.contains s' y = LLRB.contains sl y) /\
     LLRB.size_checked cfgl sl = Some (LLRB.count sl, sl) /\
     LLRB.size_checked cfgl s' = Some (LLRB.count s', s') /\
     (b = false ->
        LLRB.root s' = LLRB.set_color (LLRB.root sl) LLRB.BLACK /\
        LLRB.count s' = LLRB.count sl /\
        LLRB.freed s' = LLRB.freed sl /\ LLRB.brk s' = LLRB.brk sl) /\
     (b = true -> LLRB.count s' = S (LLRB.count sl))) /\
  (exists b s',
     LLRB.erase cfgl k sl = Some (b, s') /\ b = LLRB.contains sl k /\
     LLRB.contains s' k = false /\
     (forall y, y <> k -> LLRB.contains s' y = LLRB.contains sl y) /\
     LLRB.size_checked cfgl s' = Some (LLRB.count s', s') /\
     (b = false ->
        LLRB.cells (LLRB.root s') = LLRB.cells (LLRB.root sl) /\
        LLRB.count s' = LLRB.count sl /\
        LLRB.freed s' = LLRB.freed sl /\ LLRB.brk s' = LLRB.brk sl) /\
     (b = true -> S (LLRB.count s') = LLRB.count sl)).
Proof.
  intros E Eb El. destruct (avl_insert_erase_results cfg ops s k E) as [H1 H2].
  split; [exact H1|]. split; [exact H2|].
  split; [|split; [by apply (burb_erase_results opsb)|]].
  - destruct (burb_insert_results opsb sb k Eb)
      as (b & s' & c & Ei & Ec & Hb & Hk & Hy & Hno & Hyes).
    destruct (burb_reachable opsb sb Eb) as (t & fl & HI & _).
    destruct (burb_insert_spec sb t fl k HI)
      as (b' & s1 & t1 & fl1 & Ei' & HI1 & _ & _ & _ & Hfl & Hbrk).
    rewrite Ei in Ei'. injection Ei' as <- <-.
    exists b, s', c. split_and!; try done.
    intros Hbf. destruct (Hno Hbf) as [Hw Hsz]. split; [done|]. split; [done|].
    exists (length fl). split; [by apply (freedSize_spec sb t)|].
    rewrite (freedSize_spec s' t1 fl1 HI1), Hfl, Hbrk, Hbf.
    split; [|by destruct fl]. destruct fl; simpl; do 2 f_equal; lia.
  - destruct (llrb_reachable cfgl cs sl El) as (HI & _).
    split.
    + destruct (llrb_insert_full cfgl sl k HI)
        as (s' & Ei & HI' & Hk & Hy & Hdup & Hnew).
      eexists _, s'. split; [exact Ei|]. split; [done|]. split; [done|].
      split; [done|]. split; [by apply size_checked_LInv|].
      split; [by apply size_checked_LInv|]. split.
      * intros Hb. apply negb_false_iff in Hb. by apply Hdup.
      * intros Hb. apply negb_true_iff in Hb. by apply Hnew.
    + destruct (llrb_erase_full cfgl sl k HI)
        as (s' & Ee & HI' & _ & Hk & Hy & _ & Hbrk & Hno & Hyes).
      eexists _, s'. split; [exact Ee|]. split; [done|]. split; [done|].
      split; [done|]. split; [by apply size_checked_LInv|]. split.
      * intros Hb. destruct (Hno Hb) as (? & ? & ?). done.
      * intros Hb. by apply Hyes.
Qed.

Lemma insert_erase_results_witness :
  exists s sb sl s1 s2 s3 s4 s5 s6,
    AVL.run (AVL.Config false false) [AVL.Insert 2; AVL.Insert 1; AVL.Insert 3]
      AVL.avlTree_new = Some s /\
    BURB.run [BURB.Insert 1; BURB.Insert 2; BURB.Erase 1; BURB.Insert 3]
      BURB.burbTree_new = Some sb /\
    LLRB.run_calls (LLRB.Config false false)
      [LLRB.CInsert 2; LLRB.CInsert 3; LLRB.CInsert 4; LLRB.CInsert 5]
      LLRB.llrbTree_new = Some sl /\
    AVL.insert 3 s = Some (false, s1) /\ AVL.root s1 = AVL.root s /\
    AVL.erase (AVL.Config false false) 4 s = Some (false, s2) /\
    AVL.root s2 = AVL.root s /\
    BURB.insert 3 sb = Some (false, s3) /\ BURB.size s3 = BURB.size sb /\
    BURB.freedSize s3 = Some (1%nat, s3) /\ BURB.brk s3 = S (BURB.brk sb) /\
    BURB.erase 4 sb = Some (false, s4) /\ s4 = sb /\
    LLRB.insert (LLRB.Config false false) 3 sl = Some (false, s5) /\
    LLRB.root s5 = LLRB.root sl /\
    LLRB.erase (LLRB.Config false false) 1 sl = Some (false, s6) /\
    LLRB.cells (LLRB.root s6) = LLRB.cells (LLRB.root sl) /\
    LLRB.freed s6 = LLRB.freed sl.
Proof.
  pose (cfg := AVL.Config false false).
  pose (ops := [AVL.Insert 2; AVL.Insert 1; AVL.Insert 3]).
  pose (opsb := [BURB.Insert 1; BURB.Insert 2; BURB.Erase 1; BURB.Insert 3]).
  pose (cfgl := LLRB.Config false false).
  pose (cs := [LLRB.CInsert 2; LLRB.CInsert 3; LLRB.CInsert 4; LLRB.CInsert 5]).
  destruct (AVL.run cfg ops AVL.avlTree_new) as [s|] eqn:E;
    [|vm_compute in E; discriminate].
  destruct (BURB.run opsb BURB.burbTree_new) as [sb|] eqn:Eb;
    [|vm_compute in Eb; discriminate].
  destruct (LLRB.run_calls cfgl cs LLRB.llrbTree_new) as [sl|] eqn:El;
    [|vm_compute in El; discriminate].
  destruct (insert_erase_results cfg ops s opsb sb cfgl cs sl 3 E Eb El)
    as ((b1 & s1 & A1 & A2 & _ & _ & A3 & _) & _ &
        (b3 & s3 & c3 & B1 & B2 & B3 & _ & _ & B4 & _) & _ &
        (b5 & s5 & C1 & C2 & _ & _ & _ & _ & C3 & _) & _).
  destruct (insert_erase_results cfg ops s opsb sb cfgl cs sl 4 E Eb El)
    as (_ & (b2 & s2 & D1 & D2 & _ & _ & D3 & _) & _ &
        (b4 & s4 & c4 & F1 & F2 & F3 & _ & _ & F4 & _) & _).
  destruct (insert_erase_results cfg ops s opsb sb cfgl cs sl 1 E Eb El)
    as (_ & _ & _ & _ & _ & (b6 & s6 & G1 & G2 & _ & _ & _ & G3 & _)).
  exists s, sb, sl, s1, s2, s3, s4, s5, s6.
  split; [exact E|]. split; [exact Eb|]. split; [exact El|].
  vm_compute in E. injection E as <-.
  vm_compute in Eb. injection Eb as <-.
  vm_compute in El. injection El as <-.
  vm_compute in A2. subst b1. vm_compute in D2. subst b2.
  vm_compute in B2. injection B2 as <-. simpl in B3. subst b3.
  vm_compute in F2. injection F2 as <-. subst b4.
  vm_compute in C2. subst b5. vm_compute in G2. subst b6.
  destruct (A3 eq_refl) as (A4 & _). destruct (D3 eq_refl) as (D4 & _).
  destruct (B4 eq_refl) as (_ & B5 & n & B6 & B7 & B8).
  vm_compute in B6. injection B6 as <-.
  destruct (C3 eq_refl) as (C4 & _). destruct (G3 eq_refl) as (G4 & _ & G5 & _).
  split; [exact A1|]. split; [exact A4|]. split; [exact D1|]. split; [exact D4|].
  split; [exact B1|]. split; [exact B5|]. split; [exact B7|]. split; [exact B8|].
  split; [exact F1|]. split; [exact (F4 eq_refl)|].
  split; [exact C1|]. split; [exact C4|]. split; [exact G1|]. split; [exact G4|exact G5].
Defined.

(** C4.  avlTree and burbTree: in every state reached from the empty tree
    by calls of [insert] and [erase], [getKeys] on a vector of [size()]
    elements returns a strictly ascending sequence without repetition
    whose elements are exactly the keys inserted and not erased since;
    burbTree's [getKeys] leaves the state as it was. *)
Theorem getKeys_ascending_live cfg ops s v opsb sb vb :
  AVL.run cfg ops AVL.avlTree_new = Some s -> length v = AVL.size s ->
  BURB.run opsb BURB.burbTree_new = Some sb -> length vb = BURB.size sb ->
  (exists ks, AVL.getKeys s v = Some ks /\ ks = AVL.inorder (AVL.root s) /\
     AVL.sorted ks /\ NoDup ks /\ length ks = AVL.size s /\
     forall y, y ∈ ks <-> y ∈ AVL.live ops ∅) /\
  (exists ks, BURB.getKeys vb sb = Some (ks, sb) /\
     AVL.sorted ks /\ NoDup ks /\ length ks = BURB.size sb /\
     forall y, y ∈ ks <-> y ∈ BURB.live opsb ∅).
Proof.
  intros E Hv Eb Hvb.
  split; [by apply (avl_getKeys_ascending_live cfg)|].
  by apply burb_getKeys_live.
Qed.

Lemma getKeys_ascending_live_witness :
  let ops := [AVL.Insert 2; AVL.Insert 1; AVL.Erase 2; AVL.Insert 3; AVL.Insert 1] in
  let opsb := [BURB.Insert 2; BURB.Insert 1; BURB.Erase 2; BURB.Insert 3; BURB.Insert 1] in
  exists s sb,
    AVL.run (AVL.Config false false) ops AVL.avlTree_new = Some s /\
    BURB.run opsb BURB.burbTree_new = Some sb /\
  (exists ks, AVL.getKeys s [0; 0] = Some ks /\ ks = AVL.inorder (AVL.root s) /\
     AVL.sorted ks /\ NoDup ks /\ length ks = AVL.size s /\
     forall y, y ∈ ks <-> y ∈ AVL.live ops ∅) /\
  (exists ks, BURB.getKeys [0; 0] sb = Some (ks, sb) /\
     AVL.sorted ks /\ NoDup ks /\ length ks = BURB.size sb /\
     forall y, y ∈ ks <-> y ∈ BURB.live opsb ∅).
Proof.
  intros ops opsb. eexists _, _.
  split; [vm_compute; reflexivity|]. split; [vm_compute; reflexivity|].
  apply (getKeys_ascending_live (AVL.Config false false) ops _ [0; 0] opsb _ [0; 0]);
    first [reflexivity | vm_compute; reflexivity].
Defined.

End TreeClaims.

(** ** Further properties of the code *)

Module AVLProps.
Import AVL AVLFacts.

(** avlTree, [contains(x)]: in every state reached from the empty tree by
    calls of [insert] and [erase] it returns [true] exactly for the keys
    that have been inserted and not erased since. *)
Theorem avl_contains_live cfg ops s x :
  run cfg ops avlTree_new = Some s ->
  contains s x = bool_decide (x ∈ live ops ∅).
Proof.
  intros E. destruct (reachable _ _ _ E) as ((Hb & _) & HX & _).
  unfold contains. rewrite contains_from_spec by done.
  apply bool_decide_ext, HX.
Qed.

Lemma avl_contains_live_witness :
  exists s,
    run (Config false false) [Insert 1; Insert 2; Erase 1; Insert 3] avlTree_new = Some s /\
    contains s 2 = bool_decide (2 ∈ live [Insert 1; Insert 2; Erase 1; Insert 3] ∅) /\
    contains s 1 = bool_decide (1 ∈ live [Insert 1; Insert 2; Erase 1; Insert 3] ∅).
Proof.
  eexists. split; [vm_compute; reflexivity|].
  split; apply (avl_contains_live (Config false false)
                  [Insert 1; Insert 2; Erase 1; Insert 3]); vm_compute; reflexivity.
Defined.

(** avlTree, allocation: in every state reached from the empty tree every
    node the allocator handed out is in the tree or on the freed list
    ([size() + freedSize()] is the number of nodes allocated), and
    [insert(x)] returns [true] exactly when [x] is absent.  An [insert] of
    a key that is present allocates nothing and leaves the tree and the
    freed list as they were.  An [insert] of a new key puts one node into
    the tree, with key [x]: the head of the freed list when there is one,
    the freed list becoming its rest, and a newly allocated node only
    when the freed list is empty. *)
Theorem avl_insert_reuses_freed cfg ops s x :
  run cfg ops avlTree_new = Some s ->
  (size s + freedSize s = brk s)%nat /\
  exists s', insert x s = Some (negb (contains s x), s') /\
    (contains s x = true ->
       root s' = root s /\ size s' = size s /\
       freed s' = freed s /\ freedSize s' = freedSize s /\ brk s' = brk s) /\
    (contains s x = false ->
       contains s' x = true /\ size s' = S (size s) /\
       freedSize s' = Nat.pred (freedSize s) /\
       brk s' = (if Nat.eqb (freedSize s) 0 then S (brk s) else brk s) /\
       exists i A B,
         cells (root s) = A ++ B /\ cells (root s') = A ++ (i, x) :: B /\
         match freed s with
         | nullptr => i = brk s /\ freed s' = nullptr
         | node j _ _ nx _ => i = j /\ freed s' = nx
         end).
Proof.
  intros E. destruct (reachable _ _ _ E) as (HI & _ & Hacc).
  split; [exact Hacc|].
  destruct (insert_spec x s HI) as (b & s' & E1 & HI' & Hb & Hino & Hdup & Hnew).
  assert (Hc : contains s x = bool_decide (x ∈ inorder (root s))).
  { unfold contains. apply contains_from_spec, HI. }
  assert (Hc' : contains s' x = bool_decide (x ∈ inorder (root s'))).
  { unfold contains. apply contains_from_spec, HI'. }
  exists s'. rewrite Hc, <- Hb. split; [done|]. unfold freedSize, size. split.
  - intros Hin. apply bool_decide_eq_true in Hin.
    destruct (Hdup Hin) as (-> & -> & -> & ->). done.
  - intros Hin. apply bool_decide_eq_false in Hin.
    destruct (Hnew Hin) as (Hn & i & A & B & Hal & HA & HB).
    split. { rewrite Hc', Hino. apply bool_decide_eq_true, elem_of_ins. by left. }
    split; [done|].
    destruct Hal as [(Hf & -> & Hbrk & Hf')|(k & b0 & nx & rt & Hf & Hf' & Hbrk)].
    + rewrite Hf, Hf', Hbrk. split; [done|]. split; [done|]. by exists (brk s), A, B.
    + rewrite Hf, Hf', Hbrk. split; [done|]. split; [done|]. by exists i, A, B.
Qed.

Lemma avl_insert_reuses_freed_witness :
  exists s s1 s2 i,
    run (Config false false) [Insert 1; Insert 2; Erase 1] avlTree_new = Some s /\
    (size s + freedSize s = brk s)%nat /\
    insert 5 s = Some (true, s1) /\ addr_of (freed s) = Some i /\
    freedSize s = 1%nat /\ freedSize s1 = 0%nat /\ brk s1 = brk s /\
    cells (root s1) = cells (root s) ++ [(i, 5)] /\
    insert 2 s = Some (false, s2) /\
    root s2 = root s /\ freed s2 = freed s /\ brk s2 = brk s.
Proof.
  pose (ops := [Insert 1; Insert 2; Erase 1]).
  destruct (run (Config false false) ops avlTree_new) as [s|] eqn:E;
    [|vm_compute in E; discriminate].
  destruct (avl_insert_reuses_freed (Config false false) ops s 5 E)
    as (Hacc & s1 & E1 & _ & _).
  destruct (avl_insert_reuses_freed (Config false false) ops s 2 E)
    as (_ & s2 & E2 & Hdup & _).
  exists s, s1, s2, 0%nat. split; [exact E|]. split; [exact Hacc|].
  vm_compute in E. injection E as <-.
  destruct (Hdup ltac:(vm_compute; reflexivity)) as (Hr & _ & Hfr & _ & Hbr).
  split; [exact E1|]. split; [vm_compute; reflexivity|].
  split; [vm_compute; reflexivity|].
  vm_compute in E1. injection E1 as <-.
  split; [vm_compute; reflexivity|]. split; [vm_compute; reflexivity|].
  split; [vm_compute; reflexivity|].
  split; [exact E2|]. split; [exact Hr|]. split; [exact Hfr|exact Hbr].
Defined.


(** The height of an AVL tree is logarithmic in the number of its nodes. *)
Lemma avl_height_bound p :
  avl p -> 2 ^ (height p / 2) <= Z.of_nat (length (inorder p)) + 1.
Proof.
  induction p as [|i k b l IHl rt IHr]; simpl.
  - intros _. change (0 / 2) with 0. simpl. lia.
  - intros (Hb & Hr & Hl & Hrt). specialize (IHl Hl). specialize (IHr Hrt).
    rewrite length_app. simpl. rewrite Nat2Z.inj_add, Nat2Z.inj_succ.
    pose proof (height_nonneg l) as Hl0. pose proof (height_nonneg rt) as Hr0.
    set (hl := height l) in *. set (hr := height rt) in *.
    set (m := Z.max hl hr).
    destruct (Z_le_gt_dec (1 + m) 1) as [Hs|Hs].
    { assert (Hd : (1 + m) / 2 = 0) by (apply Z.div_small; lia).
      rewrite Hd. simpl. lia. }
    assert (Hd : (1 + m) / 2 = 1 + (m - 1) / 2).
    { replace (1 + m) with ((m - 1) + 1 * 2) by lia. rewrite Z.div_add by lia. lia. }
    rewrite Hd, Z.pow_add_r by (try apply Z.div_pos; lia).
    assert (H1 : 2 ^ ((m - 1) / 2) <= 2 ^ (hl / 2)).
    { apply Z.pow_le_mono_r; [lia|]. apply Z.div_le_mono; lia. }
    assert (H2 : 2 ^ ((m - 1) / 2) <= 2 ^ (hr / 2)).
    { apply Z.pow_le_mono_r; [lia|]. apply Z.div_le_mono; lia. }
    change (2 ^ 1) with 2. lia.
Qed.

(** avlTree, height: in every state reached from the empty tree by calls
    of [insert] and [erase], the height [h] of the tree satisfies
    [2^(h/2) <= size() + 1]: the paths that [contains], [insert] and
    [erase] follow are logarithmic in the number of keys. *)
Theorem avl_height_logarithmic cfg ops s :
  run cfg ops avlTree_new = Some s ->
  2 ^ (height (root s) / 2) <= Z.of_nat (size s) + 1.
Proof.
  intros E. destruct (reachable _ _ _ E) as ((_ & Ha & Hc) & _ & _).
  unfold size. rewrite Hc. by apply avl_height_bound.
Qed.

Lemma avl_height_logarithmic_witness :
  exists s,
    run (Config false false) [Insert 1; Insert 2; Insert 3; Insert 4; Insert 5]
      avlTree_new = Some s /\
    2 ^ (height (root s) / 2) <= Z.of_nat (size s) + 1.
Proof.
  eexists. split; [vm_compute; reflexivity|].
  apply (avl_height_logarithmic (Config false false)
           [Insert 1; Insert 2; Insert 3; Insert 4; Insert 5]).
  vm_compute. reflexivity.
Defined.

End AVLProps.

Module BURBProps.
Import BURB BURBFacts.
Local Open Scope monad_scope.

Lemma burb_run_app o1 o2 s : run (o1 ++ o2) s = run o1 s ≫= run o2.
Proof.
  revert s. induction o1 as [|o o1 IH]; intros s; simpl; [done|].
  destruct (step o s) as [[b s1]|]; [apply IH|done].
Qed.

Lemma burb_live_inserts ks (X : gset Z) :
  live (map Insert ks) X = list_to_set ks ∪ X.
Proof.
  revert X. induction ks as [|k ks IH]; intros X; simpl.
  - set_solver.
  - rewrite IH. set_solver.
Qed.

Lemma burb_live_erases es (X : gset Z) :
  live (map Erase es) X = X ∖ list_to_set es.
Proof.
  revert X. induction es as [|k es IH]; intros X; simpl.
  - set_solver.
  - rewrite IH. set_solver.
Qed.

Lemma burb_inorder_nil t : inorder t = [] -> t = E.
Proof.
  destruct t; [done|]. simpl. intros E1. symmetry in E1.
  by apply app_cons_not_nil in E1.
Qed.

(** burbTree, [checkTree()]: in every state reached from the empty tree
    by calls of [insert] and [erase], no call fails and [checkTree()]
    returns without throwing and without changing the state; the count it
    returns is 0 exactly when the tree is empty. *)
Theorem burb_checkTree_passes ops :
  exists s n, run ops burbTree_new = Some s /\
    checkTree s = Some (Some n, s) /\ (n = 0%nat <-> root s = nulle).
Proof.
  destruct (burb_run_spec ops burbTree_new E [] ∅ BInv_new) as (s & t & fl & E1 & HI & _).
  { intros y. simpl. set_solver. }
  destruct (checkTree_spec s t fl HI) as (n & E2 & Hn).
  exists s, n. split; [done|]. split; [done|].
  destruct HI as ((Hroot & _) & _ & _ & [Hcr _] & _). rewrite Hroot.
  destruct t as [|a c l k r]; simpl in *; [done|]. subst c.
  destruct Hn as (m & -> & _). done.
Qed.

(** burbTree, [contains(key)]: in every state reached from the empty tree
    it returns [true] exactly for the keys that have been inserted and not
    erased since, and it leaves the state as it was. *)
Theorem burb_contains_live ops s x :
  run ops burbTree_new = Some s ->
  contains x s = Some (bool_decide (x ∈ live ops ∅), s).
Proof.
  intros E1. destruct (burb_reachable ops s E1) as (t & fl & HI & Hlive).
  rewrite (contains_spec s t x (BInv_Holds _ _ _ HI)) by apply HI.
  f_equal. f_equal. apply bool_decide_ext, Hlive.
Qed.

Lemma burb_contains_live_witness :
  exists s,
    run [Insert 1; Insert 2; Erase 1; Insert 3] burbTree_new = Some s /\
    contains 2 s = Some (bool_decide (2 ∈ live [Insert 1; Insert 2; Erase 1; Insert 3] ∅), s) /\
    contains 1 s = Some (bool_decide (1 ∈ live [Insert 1; Insert 2; Erase 1; Insert 3] ∅), s).
Proof.
  eexists. split; [vm_compute; reflexivity|].
  split; apply (burb_contains_live [Insert 1; Insert 2; Erase 1; Insert 3]);
    vm_compute; reflexivity.
Defined.

(** burbTree: for N unique keys, inserted in any order into an empty tree
    and then erased in any order, no call fails, the tree holds N keys
    after the insertions, and after the erasures [size() == 0],
    [empty() == true] and the root is null. *)
Theorem burb_insert_all_erase_all_drains (ks es : list Z) :
  NoDup ks -> es ≡ₚ ks ->
  exists s1 s2,
    run (map Insert ks) burbTree_new = Some s1 /\ size s1 = length ks /\
    run (map Erase es) s1 = Some s2 /\
    run (map Insert ks ++ map Erase es) burbTree_new = Some s2 /\
    size s2 = 0%nat /\ empty s2 = true /\ root s2 = nulle.
Proof.
  intros Hnd Hperm.
  destruct (burb_run_spec (map Insert ks) burbTree_new E [] ∅ BInv_new)
    as (s1 & t1 & fl1 & E1 & HI1 & HX1).
  { intros y. simpl. set_solver. }
  destruct (burb_run_spec (map Erase es) s1 t1 fl1 (list_to_set ks) HI1)
    as (s2 & t2 & fl2 & E2 & HI2 & HX2).
  { intros y. rewrite HX1, burb_live_inserts. set_solver. }
  assert (Hnil : inorder t2 = []).
  { destruct (inorder t2) as [|y l] eqn:E3; [done|]. exfalso.
    assert (Hy : y ∈ y :: l) by set_solver.
    apply HX2 in Hy. rewrite burb_live_erases in Hy.
    apply elem_of_difference in Hy as [Hy1 Hy2]. apply Hy2.
    rewrite elem_of_list_to_set in Hy1 |- *. by rewrite Hperm. }
  apply burb_inorder_nil in Hnil. subst t2.
  exists s1, s2. split_and!.
  - done.
  - unfold size. destruct HI1 as (_ & -> & Hs & _). rewrite <- length_inorder.
    apply Permutation_length, NoDup_Permutation.
    + by apply AVLFacts.sorted_NoDup.
    + done.
    + intros y. rewrite HX1, burb_live_inserts. set_solver.
  - done.
  - by rewrite burb_run_app, E1.
  - unfold size. by destruct HI2 as (_ & -> & _).
  - unfold empty. by destruct HI2 as (_ & -> & _).
  - by destruct HI2 as ((-> & _) & _).
Qed.

Lemma burb_insert_all_erase_all_drains_witness :
  exists s1 s2,
    run (map Insert [3; 1; 2]) burbTree_new = Some s1 /\ size s1 = length [3; 1; 2] /\
    run (map Erase [2; 3; 1]) s1 = Some s2 /\
    run (map Insert [3; 1; 2] ++ map Erase [2; 3; 1]) burbTree_new = Some s2 /\
    size s2 = 0%nat /\ empty s2 = true /\ root s2 = nulle.
Proof.
  apply (burb_insert_all_erase_all_drains [3; 1; 2] [2; 3; 1]).
  - apply (bool_decide_unpack (NoDup [3; 1; 2])). vm_compute. exact I.
  - apply NoDup_Permutation.
    + apply (bool_decide_unpack (NoDup [2; 3; 1])). vm_compute. exact I.
    + apply (bool_decide_unpack (NoDup [3; 1; 2])). vm_compute. exact I.
    + intros x. set_solver.
Defined.

(** burbTree, [rotateLeft(node)]: when [node] has a right child, the call
    succeeds; the right child takes the place of [node] below the parent
    of [node] (or as the root), [node] becomes its left child and adopts
    its former left subtree; all child and parent links are consistent
    afterwards, the in-order sequence of nodes and keys is the same, and
    nothing outside the tree is written. *)
Theorem rotateLeft_keeps_order s ctx a c l k b c' rl k' rr :
  Whole s (plug (T a c l k (T b c' rl k' rr)) ctx) ->
  exists s', rotateLeft (Some a) s = Some (tt, s') /\
    Whole s' (plug (T b c' (T a c l k rl) k' rr) ctx) /\
    cells (plug (T b c' (T a c l k rl) k' rr) ctx) =
      cells (plug (T a c l k (T b c' rl k' rr)) ctx) /\
    same_outside (addrs (plug (T a c l k (T b c' rl k' rr)) ctx)) s s' /\
    count s' = count s /\ freed s' = freed s.
Proof.
  intros H. destruct (rotateLeft_upd _ _ _ _ _ _ _ _ _ _ _ H)
    as (s' & E1 & HW & Ho & Hc & Hf & _ & Hcells).
  by exists s'.
Qed.

Lemma rotateLeft_keeps_order_witness :
  exists s s',
    run [Insert 1; Insert 2] burbTree_new = Some s /\
    rotateLeft (Some 0%nat) s = Some (tt, s') /\
    Whole s' (T 1 RED (T 0 BLACK E 1 E) 2 E).
Proof.
  eexists _, _. split; [vm_compute; reflexivity|].
  assert (HW : Whole
                 (BurbTree (Some 0%nat) 2 None 0 0 2
                    (<[1%nat := mkNode 2 RED None None (Some 0%nat)]>
                       (<[0%nat := mkNode 1 BLACK None (Some 1%nat) None]> ∅)))
                 (plug (T 0 BLACK E 1 (T 1 RED E 2 E)) [])).
  { unfold Whole. simpl. split_and!; try done.
    apply (bool_decide_unpack (NoDup [0%nat; 1%nat])). vm_compute. exact I. }
  destruct (rotateLeft_keeps_order _ [] 0 BLACK E 1 1 RED E 2 E HW)
    as (s' & E1 & HW' & _).
  vm_compute in E1. injection E1 as <-. split; [vm_compute; reflexivity|].
  exact HW'.
Defined.

(** burbTree, [rotateRight(node)]: the mirror image of [rotateLeft]. *)
Theorem rotateRight_keeps_order s ctx a c b c' ll k' lr k r :
  Whole s (plug (T a c (T b c' ll k' lr) k r) ctx) ->
  exists s', rotateRight (Some a) s = Some (tt, s') /\
    Whole s' (plug (T b c' ll k' (T a c lr k r)) ctx) /\
    cells (plug (T b c' ll k' (T a c lr k r)) ctx) =
      cells (plug (T a c (T b c' ll k' lr) k r) ctx) /\
    same_outside (addrs (plug (T a c (T b c' ll k' lr) k r) ctx)) s s' /\
    count s' = count s /\ freed s' = freed s.
Proof.
  intros H. destruct (rotateRight_upd _ _ _ _ _ _ _ _ _ _ _ H)
    as (s' & E1 & HW & Ho & Hc & Hf & _ & Hcells).
  by exists s'.
Qed.

Lemma rotateRight_keeps_order_witness :
  exists s s',
    run [Insert 2; Insert 1] burbTree_new = Some s /\
    rotateRight (Some 0%nat) s = Some (tt, s') /\
    Whole s' (T 1 RED E 1 (T 0 BLACK E 2 E)).
Proof.
  eexists _, _. split; [vm_compute; reflexivity|].
  assert (HW : Whole
                 (BurbTree (Some 0%nat) 2 None 0 0 2
                    (<[1%nat := mkNode 1 RED None None (Some 0%nat)]>
                       (<[0%nat := mkNode 2 BLACK (Some 1%nat) None None]> ∅)))
                 (plug (T 0 BLACK (T 1 RED E 1 E) 2 E) [])).
  { unfold Whole. simpl. split_and!; try done.
    apply (bool_decide_unpack (NoDup [1%nat; 0%nat])). vm_compute. exact I. }
  destruct (rotateRight_keeps_order _ [] 0 BLACK 1 RED E 1 E 2 E HW)
    as (s' & E1 & HW' & _).
  vm_compute in E1. injection E1 as <-. split; [vm_compute; reflexivity|].
  exact HW'.
Defined.

(** *** Every sequence of public calls *)

Lemma calls_spec cs : forall s t fl (S : gset Z),
  BInv s t fl -> (forall y, y ∈ inorder t <-> y ∈ S) ->
  exists s' t' fl', run_calls cs s = Some s' /\ BInv s' t' fl' /\
    (forall y, y ∈ inorder t' <-> y ∈ live_calls cs S).
Proof.
  induction cs as [|[x|x|junk n|] cs IH]; intros s t fl S HI HS; simpl.
  - by exists s, t, fl.
  - destruct (burb_insert_spec s t fl x HI) as (b & s' & t' & fl' & E1 & HI' & _ & Hino & _).
    unfold bind. rewrite E1. cbn [ret]. apply (IH s' t' fl'); [done|].
    intros y. rewrite Hino, AVLFacts.elem_of_ins, HS. set_solver.
  - destruct (burb_erase_spec s t fl x HI) as (b & s' & t' & fl' & E1 & HI' & _ & Hino & _).
    unfold bind. rewrite E1. cbn [ret]. apply (IH s' t' fl'); [done|].
    intros y. rewrite Hino, AVLFacts.elem_of_del by apply HI. rewrite HS. set_solver.
  - destruct (freedPreallocate_spec junk n s t fl HI) as (s' & fl' & E1 & HI' & _).
    rewrite E1. by apply (IH s' t fl').
  - destruct (clear_spec s t fl HI) as (s' & E1 & HI' & _).
    rewrite E1. apply (IH s' E []); [done|]. intros y. simpl. set_solver.
Qed.

Lemma calls_reachable cs s :
  run_calls cs burbTree_new = Some s ->
  exists t fl, BInv s t fl /\ (forall y, y ∈ inorder t <-> y ∈ live_calls cs ∅).
Proof.
  intros E1.
  destruct (calls_spec cs burbTree_new E [] ∅ BInv_new) as (s' & t & fl & E2 & HI & HS).
  { intros y. simpl. set_solver. }
  rewrite E1 in E2. injection E2 as <-. by exists t, fl.
Qed.

(** burbTree: for every sequence of calls of [insert], [erase],
    [freedPreallocate] and [clear] applied to a new container, no call
    fails (every loop ends, no null pointer is dereferenced, nothing is
    deleted twice), and afterwards the memory holds a tree [t] with
    consistent child and parent links whose keys are strictly ascending in
    order and are exactly the keys inserted and not erased or cleared
    since; the root is BLACK, no RED node has a RED child, no node is
    DOUBLE_BLACK, every path from the root to a null child has the same
    number of BLACK nodes, [size()] is the number of nodes, and
    [checkTree()] returns without throwing. *)
Theorem burb_calls_keep_invariants cs :
  exists s t n, run_calls cs burbTree_new = Some s /\
    Whole s t /\ size s = tsize t /\ AVL.sorted (inorder t) /\
    (forall y, y ∈ inorder t <-> y ∈ live_calls cs ∅) /\
    croot t = BLACK /\ rb t n /\ checkTree s = Some (Some n, s).
Proof.
  destruct (calls_spec cs burbTree_new E [] ∅ BInv_new) as (s & t & fl & E1 & HI & HS).
  { intros y. simpl. set_solver. }
  destruct (checkTree_spec s t fl HI) as (n & E2 & Hn).
  destruct HI as (HW & Hc & Hs & [Hr _] & _).
  by exists s, t, n.
Qed.

(** burbTree, [contains(key)] and [getKeys(v)]: after every sequence of
    calls of [insert], [erase], [freedPreallocate] and [clear] on a new
    container, [contains] returns [true] exactly for the keys inserted and
    not erased or cleared since, and [getKeys] on a vector of at least
    [size()] elements overwrites the first [size()] elements with exactly
    these keys in strictly ascending order and leaves the other elements
    as they were; neither changes the container. *)
Theorem burb_lookup_after_calls cs s x v :
  run_calls cs burbTree_new = Some s -> (size s <= length v)%nat ->
  contains x s = Some (bool_decide (x ∈ live_calls cs ∅), s) /\
  exists ks, getKeys v s = Some (ks ++ drop (size s) v, s) /\
    length ks = size s /\ AVL.sorted ks /\
    forall y, y ∈ ks <-> y ∈ live_calls cs ∅.
Proof.
  intros E1 Hv. destruct (calls_reachable cs s E1) as (t & fl & HI & Hlive).
  pose proof (BInv_Holds _ _ _ HI) as Hh.
  assert (Hs : AVL.sorted (inorder t)) by apply HI.
  split.
  - rewrite (contains_spec s t x Hh Hs). f_equal. f_equal. apply bool_decide_ext, Hlive.
  - exists (inorder t). destruct Hh as [HW Hc]. unfold size in *.
    split_and!; try done.
    + rewrite (getKeys_spec s t v (conj HW Hc)) by lia. by rewrite Hc.
    + rewrite length_inorder. lia.
Qed.

Lemma burb_lookup_after_calls_witness :
  let cs := [CInsert 5; CInsert 3; CPreallocate 0 2; CErase 5; CClear; CInsert 7;
             CInsert 4; CInsert 7] in
  exists s,
    run_calls cs burbTree_new = Some s /\
    contains 4 s = Some (bool_decide (4 ∈ live_calls cs ∅), s) /\
    exists ks, getKeys [0; 0; 9] s = Some (ks ++ drop (size s) [0; 0; 9], s) /\
      length ks = size s /\ AVL.sorted ks /\
      forall y, y ∈ ks <-> y ∈ live_calls cs ∅.
Proof.
  intros cs. eexists. split; [vm_compute; reflexivity|].
  apply (burb_lookup_after_calls cs _ 4 [0; 0; 9]); [vm_compute; reflexivity|].
  vm_compute. lia.
Defined.

(** burbTree, the freed list: in every state reached from a new container
    by calls of [insert] and [erase], every node the allocator handed out
    is in the tree or on the freed list ([size() + freedSize()] is the
    number of nodes allocated).  [erase(x)] returns [true] exactly when
    [x] is in the tree; it then puts one node at the head of the freed
    list, and otherwise leaves the freed list as it was; it allocates
    nothing.  [insert(x)] returns [true] exactly when [x] is absent; it
    then takes the head of the freed list when there is one and allocates
    only when the freed list is empty.  An [insert] of a key that is
    present takes its node before it searches and puts it back at the
    head of the freed list afterwards: when the freed list was empty it
    allocates a node, and [freedSize()] goes from 0 to 1. *)
Theorem burb_freed_list_accounting ops s x :
  run ops burbTree_new = Some s ->
  exists n c fl,
    freedSize s = Some (n, s) /\ (size s + n = brk s)%nat /\
    contains x s = Some (c, s) /\
    FreeList (heap s) (freed s) fl /\ n = length fl /\
    (exists s' fl', erase x s = Some (c, s') /\
       FreeList (heap s') (freed s') fl' /\
       (if c then exists v, fl' = v :: fl else fl' = fl) /\
       freedSize s' = Some ((if c then S n else n), s') /\ brk s' = brk s) /\
    (exists s' fl', insert x s = Some (negb c, s') /\
       FreeList (heap s') (freed s') fl' /\
       fl' = (if c then default (brk s) (head fl) :: tail fl else tail fl) /\
       freedSize s' = Some ((if c then Nat.max 1 n else Nat.pred n), s') /\
       brk s' = if Nat.eqb n 0 then S (brk s) else brk s).
Proof.
  intros E1.
  destruct (burb_alloc_reachable ops burbTree_new E [] BInv_new eq_refl s E1)
    as (t & fl & HI & Hn).
  assert (Hs : AVL.sorted (inorder t)) by apply HI.
  exists (length fl), (bool_decide (x ∈ inorder t)), fl.
  split; [by apply (freedSize_spec s t)|].
  split; [unfold size; destruct HI as (_ & -> & _); exact Hn|].
  split; [apply contains_spec; [by apply (BInv_Holds s t fl)|done]|].
  split; [apply HI|]. split; [done|]. split.
  - destruct (burb_erase_spec s t fl x HI)
      as (b & s1 & t1 & fl1 & E2 & HI1 & Hb & _ & Hfl & Hbrk).
    subst b. exists s1, fl1. split; [done|]. split; [apply HI1|].
    split; [done|]. split; [|done].
    rewrite (freedSize_spec s1 t1 fl1 HI1).
    destruct (bool_decide (x ∈ inorder t)); [destruct Hfl as (v & ->)|subst fl1]; done.
  - destruct (burb_insert_spec s t fl x HI)
      as (b & s1 & t1 & fl1 & E2 & HI1 & Hb & _ & _ & Hfl & Hbrk).
    subst b. exists s1, fl1. split; [done|]. split; [apply HI1|].
    split; [by rewrite Hfl; destruct (bool_decide (x ∈ inorder t))|]. split.
    + rewrite (freedSize_spec s1 t1 fl1 HI1), Hfl.
      destruct (bool_decide (x ∈ inorder t)), fl; simpl; do 2 f_equal; lia.
    + rewrite Hbrk. by destruct fl.
Qed.

Lemma burb_freed_list_accounting_witness :
  exists s s1 s2 s3 s4,
    run [Insert 1; Insert 2; Erase 1; Erase 7] burbTree_new = Some s /\
    freedSize s = Some (1%nat, s) /\ size s = 1%nat /\ brk s = 2%nat /\
    erase 2 s = Some (true, s1) /\ freedSize s1 = Some (2%nat, s1) /\ brk s1 = 2%nat /\
    erase 7 s = Some (false, s2) /\ freedSize s2 = Some (1%nat, s2) /\ brk s2 = 2%nat /\
    insert 7 s = Some (true, s3) /\ freedSize s3 = Some (0%nat, s3) /\ brk s3 = 2%nat /\
    insert 2 s = Some (false, s4) /\ freedSize s4 = Some (1%nat, s4) /\ brk s4 = 2%nat.
Proof.
  pose (ops := [Insert 1; Insert 2; Erase 1; Erase 7]).
  destruct (run ops burbTree_new) as [s|] eqn:E; [|vm_compute in E; discriminate].
  destruct (burb_freed_list_accounting ops s 2 E)
    as (n & c & fl & Hn & Hacc & Hc & _ & _ & (s1 & fl1 & E1 & _ & _ & F1 & B1)
        & (s4 & fl4 & E4 & _ & _ & F4 & B4)).
  destruct (burb_freed_list_accounting ops s 7 E)
    as (n' & c' & fl' & Hn' & _ & Hc' & _ & _ & (s2 & fl2 & E2 & _ & _ & F2 & B2)
        & (s3 & fl3 & E3 & _ & _ & F3 & B3)).
  assert (Hs : freedSize s = Some (1%nat, s) /\ size s = 1%nat /\ brk s = 2%nat /\
               contains 2 s = Some (true, s) /\ contains 7 s = Some (false, s)).
  { vm_compute in E. injection E as <-. vm_compute. done. }
  destruct Hs as (Hf & Hsz & Hbrk & H2 & H7).
  rewrite Hf in Hn, Hn'. injection Hn as <-. injection Hn' as <-.
  rewrite H2 in Hc. injection Hc as <-. rewrite H7 in Hc'. injection Hc' as <-.
  rewrite Hbrk in *. simpl in *.
  exists s, s1, s2, s3, s4. done.
Defined.

(** burbTree, [freedPreallocate(n)]: in every state reached from a new
    container it succeeds, puts [n] newly allocated nodes on the freed
    list ([freedSize()] grows by [n]) and leaves the tree, its size and
    every node allocated before as they were. *)
Theorem burb_freedPreallocate_grows cs s junk n :
  run_calls cs burbTree_new = Some s ->
  exists m s', freedSize s = Some (m, s) /\
    freedPreallocate junk n s = Some (tt, s') /\
    freedSize s' = Some ((n + m)%nat, s') /\
    root s' = root s /\ size s' = size s /\ brk s' = (n + brk s)%nat /\
    (forall x, (x < brk s)%nat -> heap s' !! x = heap s !! x).
Proof.
  intros E1. destruct (calls_reachable cs s E1) as (t & fl & HI & _).
  destruct (freedPreallocate_spec junk n s t fl HI)
    as (s' & fl' & E2 & HI' & Hlen & Hr & Hc & Hb & Hh).
  exists (length fl), s'. split; [by apply (freedSize_spec s t)|].
  split; [done|]. split; [|done].
  by rewrite (freedSize_spec s' t fl' HI'), Hlen.
Qed.

Lemma burb_freedPreallocate_grows_witness :
  exists s m s',
    run_calls [CInsert 1; CInsert 2; CErase 1] burbTree_new = Some s /\
    freedSize s = Some (m, s) /\
    freedPreallocate 0 3 s = Some (tt, s') /\
    freedSize s' = Some ((3 + m)%nat, s').
Proof.
  eexists.
  destruct (burb_freedPreallocate_grows [CInsert 1; CInsert 2; CErase 1] _ 0 3
              ltac:(vm_compute; reflexivity)) as (m & s' & H1 & H2 & H3 & _).
  exists m, s'. split; [vm_compute; reflexivity|]. done.
Defined.

(** burbTree, [clear()]: in every state reached from a new container it
    succeeds and leaves an empty container ([size() == 0], null root,
    empty freed list) that satisfies the invariants again; every node of
    the tree and of the freed list has been deleted exactly once, and no
    other storage is touched. *)
Theorem burb_clear_empties cs s :
  run_calls cs burbTree_new = Some s ->
  exists s' t fl, clear s = Some (tt, s') /\
    Whole s t /\ FreeList (heap s) (freed s) fl /\
    (forall x, x ∈ addrs t ++ fl -> heap s' !! x = None) /\
    (forall x, x ∉ addrs t ++ fl -> heap s' !! x = heap s !! x) /\
    root s' = nulle /\ size s' = 0%nat /\ empty s' = true /\
    freedSize s' = Some (0%nat, s') /\ checkTree s' = Some (Some 0%nat, s').
Proof.
  intros E1. destruct (calls_reachable cs s E1) as (t & fl & HI & _).
  destruct (clear_spec s t fl HI) as (s' & E2 & HI' & Hr & Hc & Hf & Hb & Hin & Hout).
  exists s', t, fl. split_and!; try done; try apply HI.
  - unfold empty. by rewrite Hc.
  - by rewrite (freedSize_spec s' E [] HI').
  - destruct (checkTree_spec s' E [] HI') as (n & E3 & Hn). simpl in Hn. by subst n.
Qed.

Lemma burb_clear_empties_witness :
  exists s s',
    run_calls [CInsert 1; CInsert 2; CInsert 3; CErase 2] burbTree_new = Some s /\
    clear s = Some (tt, s') /\ root s' = nulle /\ size s' = 0%nat.
Proof.
  eexists.
  destruct (burb_clear_empties [CInsert 1; CInsert 2; CInsert 3; CErase 2] _
              ltac:(vm_compute; reflexivity)) as (s' & t & fl & H1 & _ & _ & _ & _ & H2 & H3 & _).
  exists s'. split; [vm_compute; reflexivity|]. done.
Defined.

(** *** The height of a red-black tree *)

Lemma rb_size t : forall n, rb t n -> (2 ^ n <= tsize t + 1)%nat.
Proof.
  induction t as [|a c l IHl k r IHr]; intros n; simpl.
  - intros ->. simpl. lia.
  - destruct c; [| |done].
    + intros (_ & _ & Hl & Hr). specialize (IHl _ Hl). lia.
    + intros (m & -> & Hl & Hr). specialize (IHl _ Hl). specialize (IHr _ Hr).
      simpl. lia.
Qed.

Lemma rb_height t : forall n,
  rb t n -> (theight t <= 2 * n + match croot t with RED => 1 | _ => 0 end)%nat.
Proof.
  induction t as [|a c l IHl k r IHr]; intros n; simpl.
  - lia.
  - destruct c; [| |done].
    + intros (Hcl & Hcr & Hl & Hr). specialize (IHl _ Hl). specialize (IHr _ Hr).
      rewrite Hcl in IHl. rewrite Hcr in IHr. lia.
    + intros (m & -> & Hl & Hr). specialize (IHl _ Hl). specialize (IHr _ Hr).
      destruct (croot l), (croot r); lia.
Qed.

(** burbTree, height: after every sequence of calls of [insert], [erase],
    [freedPreallocate] and [clear] on a new container, the height [h] of
    the tree satisfies [2^(h/2) <= size() + 1]: the loops of [contains],
    [insert], [erase] and of the two repair functions are logarithmic in
    the number of keys. *)
Theorem burb_height_logarithmic cs s :
  run_calls cs burbTree_new = Some s ->
  exists t, Whole s t /\ (2 ^ (theight t / 2) <= size s + 1)%nat.
Proof.
  intros E1. destruct (calls_reachable cs s E1) as (t & fl & HI & _).
  destruct HI as (HW & Hc & _ & [Hcr (n & Hn)] & _).
  exists t. split; [done|]. unfold size. rewrite Hc.
  pose proof (rb_size t n Hn) as H1. pose proof (rb_height t n Hn) as H2.
  rewrite Hcr in H2.
  assert (H3 : (theight t / 2 <= n)%nat).
  { apply Nat.Div0.div_le_upper_bound. lia. }
  pose proof (Nat.pow_le_mono_r 2 _ _ ltac:(lia) H3). lia.
Qed.

Lemma burb_height_logarithmic_witness :
  exists s,
    run_calls [CInsert 1; CInsert 2; CInsert 3; CInsert 4; CErase 2] burbTree_new = Some s /\
    exists t, Whole s t /\ (2 ^ (theight t / 2) <= size s + 1)%nat.
Proof.
  eexists. split; [vm_compute; reflexivity|].
  apply (burb_height_logarithmic [CInsert 1; CInsert 2; CInsert 3; CInsert 4; CErase 2]).
  vm_compute. reflexivity.
Defined.

End BURBProps.

Module LLRBProps.
Import LLRB LLRBFacts.
Local Open Scope monad_scope.

(** llrbTree, [insert(x)] and [contains(x)]: on every tree whose keys are
    in ascending order (whatever its colours), [insert] returns, and it
    returns [true] exactly when [contains(x)] was [false]; afterwards the
    keys are still in ascending order, [contains(x)] is [true], no other
    key is gained or lost, and [count] has grown by one exactly when it
    returned [true].  When the tree was not empty the root is BLACK
    afterwards. *)
Theorem llrb_insert_keeps_order cfg x s :
  AVL.sorted (inorder (root s)) ->
  exists b s', insert cfg x s = Some (b, s') /\
    b = negb (contains s x) /\
    AVL.sorted (inorder (root s')) /\
    inorder (root s') = AVL.ins x (inorder (root s)) /\
    contains s' x = true /\
    (forall y, y <> x -> contains s' y = contains s y) /\
    count s' = (if b then S (count s) else count s) /\
    (root s <> nullptr -> getColor (root s') = BLACK).
Proof.
  intros Hs. destruct (insert_ok cfg x s Hs) as (b & s' & E1 & Hb & Hi & Hc & Hcol & _).
  assert (Hs' : AVL.sorted (inorder (root s'))).
  { rewrite Hi. by apply AVLFacts.sorted_ins. }
  exists b, s'. unfold contains.
  rewrite !llrb_contains_from_spec by done. split_and!; try done.
  - apply bool_decide_eq_true. rewrite Hi, AVLFacts.elem_of_ins. by left.
  - intros y Hy. rewrite llrb_contains_from_spec by done.
    rewrite llrb_contains_from_spec by done.
    apply bool_decide_ext. rewrite Hi, AVLFacts.elem_of_ins. tauto.
Qed.

Lemma llrb_insert_keeps_order_witness :
  exists s,
    run (Config false false) [Insert 2; Insert 1; Insert 3] llrbTree_new = Some s /\
    exists b s',
      insert (Config false false) 5 s = Some (b, s') /\
      b = negb (contains s 5) /\
      inorder (root s') = AVL.ins 5 (inorder (root s)) /\
      contains s' 5 = true.
Proof.
  eexists. split; [vm_compute; reflexivity|].
  match goal with
  | |- exists b s', insert _ _ ?s = _ /\ _ =>
      destruct (llrb_insert_keeps_order (Config false false) 5 s)
        as (b & s' & E1 & Hb & _ & Hi & Hc & _)
  end.
  { simpl. repeat match goal with
           | |- _ /\ _ => split
           | |- Forall _ _ => constructor
           | |- True => exact I
           end; lia. }
  by exists b, s'.
Defined.

(** llrbTree: every sequence of [insert] calls on a new tree succeeds;
    afterwards the keys of the tree, in order, are strictly ascending and
    are exactly the keys inserted, and [count] is their number. *)
Theorem llrb_inserts_build_set cfg (ks : list Z) :
  exists s, run cfg (map Insert ks) llrbTree_new = Some s /\
    AVL.sorted (inorder (root s)) /\
    (forall y, y ∈ inorder (root s) <-> y ∈ ks) /\
    count s = length (inorder (root s)) /\
    (forall y, contains s y = bool_decide (y ∈ ks)).
Proof.
  assert (H : forall ks s (X : list Z),
            AVL.sorted (inorder (root s)) -> count s = length (inorder (root s)) ->
            (forall y, y ∈ inorder (root s) <-> y ∈ X) ->
            exists s', run cfg (map Insert ks) s = Some s' /\
              AVL.sorted (inorder (root s')) /\
              count s' = length (inorder (root s')) /\
              (forall y, y ∈ inorder (root s') <-> y ∈ X ++ ks)).
  { clear ks. induction ks as [|k ks IH]; intros s X Hs Hc HX; simpl.
    - exists s. split_and!; try done. intros y. by rewrite app_nil_r.
    - destruct (insert_ok cfg k s Hs) as (b & s1 & E1 & Hb & Hi & Hc1 & _).
      rewrite E1.
      destruct (IH s1 (X ++ [k])) as (s' & E2 & Hs' & Hc' & HX').
      + rewrite Hi. by apply AVLFacts.sorted_ins.
      + rewrite Hc1, Hi, Hb, Hc.
        destruct (decide (k ∈ inorder (root s))) as [Hk|Hk].
        * rewrite (bool_decide_eq_true_2 _ Hk). simpl. by rewrite AVLFacts.ins_id.
        * rewrite (bool_decide_eq_false_2 _ Hk). simpl.
          by rewrite AVLFacts.length_ins_new.
      + intros y. rewrite Hi, AVLFacts.elem_of_ins, HX. set_solver.
      + exists s'. split_and!; try done. intros y. rewrite HX', <- app_assoc. done. }
  destruct (H ks llrbTree_new [] I eq_refl) as (s & E1 & Hs & Hc & HX).
  { intros y. simpl. done. }
  exists s. split_and!; try done.
  intros y. unfold contains. rewrite llrb_contains_from_spec by done.
  apply bool_decide_ext, HX.
Qed.

(** llrbTree, the colour of a reused root: when the tree is empty and the
    freed list is not, [insert(x)] takes the head of the freed list for
    the root; [newNode] colours a reused node RED whatever colour is asked
    for and [insert] does not recolour it, so the tree consists of a RED
    root and [checkTree()] throws. *)
Theorem llrb_reused_root_is_red cfg x s p k c nx rt n :
  root s = nullptr -> freed s = node p k c nx rt n ->
  exists s', insert cfg x s = Some (true, s') /\
    root s' = node p x RED nullptr nullptr 1 /\ freed s' = nx /\
    count s' = S (count s) /\ brk s' = brk s /\
    checkTree cfg s' = None.
Proof.
  intros Hr Hf. unfold insert, newNode. lrun. rewrite Hr. lrun. rewrite Hf. lrun.
  eexists. split; [reflexivity|]. unfold checkTree. simpl. done.
Qed.

Lemma llrb_reused_root_is_red_witness :
  exists s,
    run (Config false false) [Insert 1; Insert 2; Erase 1; Erase 2] llrbTree_new = Some s /\
    exists s',
      insert (Config false false) 7 s = Some (true, s') /\
      checkTree (Config false false) s' = None.
Proof.
  eexists. split; [vm_compute; reflexivity|].
  match goal with
  | |- exists s', insert _ _ ?s = _ /\ _ =>
      destruct (llrb_reused_root_is_red (Config false false) 7 s _ _ _ _ _ _
                  eq_refl eq_refl)
        as (s' & E1 & _ & _ & _ & _ & Hc)
  end.
  by exists s'.
Defined.

(** llrbTree: every sequence of calls of [insert], [erase], [deleteMin()],
    [deleteMax()]
    and [freedPreallocate] on a new tree succeeds (no null pointer is
    dereferenced, the recursions end, [empty()] does not throw);
    afterwards the keys of the tree, in order, are strictly ascending and
    are the keys that the calls leave ([keys_after]), [contains] finds
    exactly these, [count] is their number, no node has a RED right child,
    no RED node has a RED left child, every path from the root to a null
    pointer holds the same number [h] of BLACK nodes and, in a build with
    ENABLE_PREFERRED_TEST, every node stores the size that [checkSize]
    expects.  (The root may be RED.) *)
Theorem llrb_calls_keep_invariants cfg cs :
  exists s h, run_calls cfg cs llrbTree_new = Some s /\
    inorder (root s) = keys_after cs [] /\
    AVL.sorted (inorder (root s)) /\
    (forall y, contains s y = bool_decide (y ∈ keys_after cs [])) /\
    count s = length (keys_after cs []) /\
    llrb cfg (root s) h.
Proof.
  destruct (llrb_calls_spec cfg cs llrbTree_new (LInv_new cfg)) as (s & E & HI & HX).
  simpl in HX. pose proof HI as (Hs & Hc & h & Hh).
  exists s, h. split_and!; try done.
  - intros y. by apply (llrb_contains_keys cfg).
  - by rewrite <- HX.
Qed.

(** llrbTree, [erase(k)] in every state reached from a new tree by calls of
    [insert], [erase], [deleteMin()], [deleteMax()]
    and [freedPreallocate]: the call returns,
    and it returns [true] exactly when [contains(k)] was [true]; afterwards
    [contains(k)] is [false], no other key is gained or lost, [count] has
    dropped by one exactly when the call returned [true], in which case one
    node has been prepended to the freed list (otherwise the list is
    unchanged), and [checkTree()] returns without throwing. *)
Theorem llrb_erase_results cfg cs s k :
  run_calls cfg cs llrbTree_new = Some s ->
  exists s' n, erase cfg k s = Some (contains s k, s') /\
    contains s' k = false /\
    (forall y, y <> k -> contains s' y = contains s y) /\
    count s' = (if contains s k then Nat.pred (count s) else count s) /\
    (if contains s k then left_of (freed s') = freed s /\ freed s' <> nullptr
     else freed s' = freed s) /\
    checkTree cfg s' = Some n.
Proof.
  intros E. destruct (llrb_reachable cfg cs s E) as (HI & HX).
  destruct (erase_LInv cfg k s HI) as (s' & E1 & HI1 & Hr1 & Hi1 & _ & _ & Hf1).
  destruct (checkTree_LInv cfg s' HI1 Hr1) as (n & Hn).
  pose proof HI as (Hs & Hc & _). pose proof HI1 as (Hs1 & Hc1 & _).
  exists s', n. unfold contains.
  rewrite !llrb_contains_from_spec by done.
  split_and!; try done.
  - apply bool_decide_eq_false. rewrite Hi1, AVLFacts.elem_of_del by done. tauto.
  - intros y Hy. rewrite !llrb_contains_from_spec by done.
    apply bool_decide_ext. rewrite Hi1, AVLFacts.elem_of_del by done. tauto.
  - rewrite Hc1, Hc, Hi1.
    destruct (decide (k ∈ inorder (root s))) as [Hx|Hx].
    + rewrite (bool_decide_eq_true_2 _ Hx).
      pose proof (AVLFacts.length_del k _ Hx). lia.
    + rewrite (bool_decide_eq_false_2 _ Hx). by rewrite AVLFacts.del_id.
Qed.

Lemma llrb_erase_results_witness :
  exists s,
    run_calls (Config false false) [CInsert 4; CInsert 2; CInsert 6; CErase 4]
      llrbTree_new = Some s /\
    exists s' n, erase (Config false false) 2 s = Some (contains s 2, s') /\
      contains s' 2 = false /\ checkTree (Config false false) s' = Some n.
Proof.
  eexists. split; [vm_compute; reflexivity|].
  match goal with
  | |- exists s' n, erase _ _ ?s = _ /\ _ =>
      destruct (llrb_erase_results (Config false false)
                  [CInsert 4; CInsert 2; CInsert 6; CErase 4] s 2)
        as (s' & n & E1 & Hc & _ & _ & _ & Hn)
  end.
  { vm_compute. reflexivity. }
  by exists s', n.
Defined.

(** llrbTree, [checkTree()] in every state reached from a new tree by
    calls of [insert], [erase], [deleteMin()], [deleteMax()]
    and [freedPreallocate]: it throws
    exactly when the root is RED.  Nothing else that [checkTree] tests (a
    RED right child, a RED left child of a RED node, the order of the keys,
    the stored sizes, the number of BLACK nodes on the paths) ever fails. *)
Theorem llrb_checkTree_throws_iff_red_root cfg cs s :
  run_calls cfg cs llrbTree_new = Some s ->
  checkTree cfg s = None <-> isRed (root s) = true.
Proof.
  intros E. destruct (llrb_reachable cfg cs s E) as (HI & _). split.
  - intros Hn. destruct (isRed (root s)) eqn:Er; [done|].
    destruct (checkTree_LInv cfg s HI Er) as (n & Hn'). congruence.
  - intros Hr. unfold checkTree. destruct (root s); [done|].
    simpl in Hr. subst. done.
Qed.

Lemma llrb_checkTree_throws_iff_red_root_witness :
  exists s,
    run_calls (Config false false) [CInsert 1; CErase 1; CInsert 2] llrbTree_new
      = Some s /\
    (checkTree (Config false false) s = None <-> isRed (root s) = true) /\
    isRed (root s) = true.
Proof.
  eexists. split; [vm_compute; reflexivity|]. split; [|reflexivity].
  apply (llrb_checkTree_throws_iff_red_root (Config false false)
           [CInsert 1; CErase 1; CInsert 2]).
  vm_compute. reflexivity.
Defined.

(** llrbTree, [insert(x)] in every state reached from a new tree by calls
    of [insert], [erase], [deleteMin()], [deleteMax()]
    and [freedPreallocate]: unless the tree
    is empty while the freed list is not, [checkTree()] returns without
    throwing after the call. *)
Theorem llrb_insert_passes_checkTree cfg cs s x :
  run_calls cfg cs llrbTree_new = Some s ->
  root s <> nullptr \/ freed s = nullptr ->
  exists b s' n, insert cfg x s = Some (b, s') /\ checkTree cfg s' = Some n.
Proof.
  intros E Hor. destruct (llrb_reachable cfg cs s E) as (HI & _).
  destruct (insert_LInv cfg x s HI) as (b & s' & E1 & HI1 & Hr1 & _).
  destruct (checkTree_LInv cfg s' HI1 (Hr1 Hor)) as (n & Hn).
  by exists b, s', n.
Qed.

Lemma llrb_insert_passes_checkTree_witness :
  exists s,
    run_calls (Config false false) [CInsert 1; CInsert 2; CErase 1] llrbTree_new
      = Some s /\
    exists b s' n, insert (Config false false) 3 s = Some (b, s') /\
      checkTree (Config false false) s' = Some n.
Proof.
  eexists. split; [vm_compute; reflexivity|].
  apply (llrb_insert_passes_checkTree (Config false false)
           [CInsert 1; CInsert 2; CErase 1]).
  - vm_compute. reflexivity.
  - left. simpl. done.
Defined.

(** llrbTree: after calls of [insert] alone on a new tree the freed list is
    empty, the root is BLACK and [checkTree()] returns without throwing. *)
Theorem llrb_inserts_pass_checkTree cfg ks :
  exists s n, run_calls cfg (map CInsert ks) llrbTree_new = Some s /\
    freed s = nullptr /\ isRed (root s) = false /\ checkTree cfg s = Some n.
Proof.
  destruct (llrb_inserts_spec cfg ks llrbTree_new (LInv_new cfg) eq_refl eq_refl)
    as (s & E & HI & Hf & Hr).
  destruct (checkTree_LInv cfg s HI Hr) as (n & Hn).
  by exists s, n.
Qed.

(** llrbTree, height: in every state reached from a new tree by calls of
    [insert], [erase], [deleteMin()], [deleteMax()]
    and [freedPreallocate] the height [h] of
    the tree satisfies [2^(h/2) <= count + 1]: the recursions of
    [contains], [insert], [erase], [deleteMin] and [deleteMax] are
    logarithmic in the number of keys. *)
Theorem llrb_height_logarithmic cfg cs s :
  run_calls cfg cs llrbTree_new = Some s ->
  (2 ^ (height (root s) / 2) <= count s + 1)%nat.
Proof.
  intros E. destruct (llrb_reachable cfg cs s E) as ((_ & Hc & h & Hh) & _).
  rewrite Hc.
  pose proof (llrb_size cfg _ h Hh) as H1. pose proof (llrb_height cfg _ h Hh) as H2.
  assert (H3 : (height (root s) / 2 <= h)%nat).
  { apply Nat.lt_succ_r, Nat.Div0.div_lt_upper_bound.
    destruct (isRed (root s)); lia. }
  pose proof (Nat.pow_le_mono_r 2 _ _ ltac:(lia) H3). lia.
Qed.

Lemma llrb_height_logarithmic_witness :
  exists s,
    run_calls (Config false false)
      [CInsert 1; CInsert 2; CInsert 3; CInsert 4; CErase 2; CDeleteMax]
      llrbTree_new = Some s /\
    (2 ^ (height (root s) / 2) <= count s + 1)%nat.
Proof.
  eexists. split; [vm_compute; reflexivity|].
  apply (llrb_height_logarithmic (Config false false)
           [CInsert 1; CInsert 2; CInsert 3; CInsert 4; CErase 2; CDeleteMax]).
  vm_compute. reflexivity.
Defined.

(** llrbTree: for N >= 1 unique keys, inserted in any order into a new tree
    and then erased in any order, no call fails; after the insertions the
    tree holds N keys, after the erasures [count] is 0 and the root is
    null, but the freed list is not empty, so that the next [insert] takes
    its RED node for the root and [checkTree()] throws. *)
Theorem llrb_insert_all_erase_all_drains cfg (ks es : list Z) x :
  NoDup ks -> es ≡ₚ ks -> ks <> [] ->
  exists s1 s2 s3,
    run_calls cfg (map CInsert ks) llrbTree_new = Some s1 /\
    count s1 = length ks /\
    run_calls cfg (map CErase es) s1 = Some s2 /\
    count s2 = 0%nat /\ root s2 = nullptr /\ freed s2 <> nullptr /\
    insert cfg x s2 = Some (true, s3) /\ checkTree cfg s3 = None.
Proof.
  intros Hnd Hperm Hne.
  destruct (llrb_calls_spec cfg (map CInsert ks) llrbTree_new (LInv_new cfg))
    as (s1 & E1 & HI1 & HX1).
  destruct (llrb_calls_spec cfg (map CErase es) s1 HI1) as (s2 & E2 & HI2 & HX2).
  simpl in HX1.
  assert (Hin1 : forall y, y ∈ inorder (root s1) <-> y ∈ ks).
  { intros y. rewrite HX1, keys_after_inserts. set_solver. }
  assert (Hnil : inorder (root s2) = []).
  { destruct (inorder (root s2)) as [|y l] eqn:E3; [done|]. exfalso.
    assert (Hy : y ∈ y :: l) by set_solver.
    rewrite HX2, keys_after_erases in Hy by (by destruct HI1).
    destruct Hy as [Hy1 Hy2]. apply Hy2. rewrite Hperm. by apply Hin1. }
  assert (Hr2 : root s2 = nullptr).
  { destruct (root s2) as [|i k c l rt n]; [done|]. simpl in Hnil.
    by destruct (inorder l). }
  assert (Hf2 : freed s2 <> nullptr).
  { destruct es as [|e es].
    { apply Permutation_nil_l in Hperm. by subst. }
    simpl in E2.
    destruct (erase_LInv cfg e s1 HI1) as (s1' & E1' & HI1' & _ & _ & _ & _ & Hfr).
    unfold bind in E2. rewrite E1' in E2.
    rewrite bool_decide_eq_true_2 in Hfr.
    - apply (llrb_erases_freed cfg es s1' s2 HI1' E2). tauto.
    - apply Hin1. rewrite <- Hperm. set_solver. }
  destruct (freed s2) as [|fp fk fc fnx frt fn] eqn:Ef; [done|].
  destruct (llrb_reused_root cfg x s2 fp fk fc fnx frt fn Hr2 Ef) as (s3 & E3 & Hc3).
  exists s1, s2, s3. split_and!; try done.
  - destruct HI1 as (Hs & -> & _).
    apply Permutation_length, NoDup_Permutation.
    + by apply AVLFacts.sorted_NoDup.
    + done.
    + done.
  - destruct HI2 as (_ & -> & _). by rewrite Hnil.
  - by rewrite Ef.
Qed.

Lemma llrb_insert_all_erase_all_drains_witness :
  exists s1 s2 s3,
    run_calls (Config false false) (map CInsert [3; 1; 2]) llrbTree_new = Some s1 /\
    count s1 = 3%nat /\
    run_calls (Config false false) (map CErase [2; 3; 1]) s1 = Some s2 /\
    count s2 = 0%nat /\ root s2 = nullptr /\ freed s2 <> nullptr /\
    insert (Config false false) 7 s2 = Some (true, s3) /\
    checkTree (Config false false) s3 = None.
Proof.
  apply (llrb_insert_all_erase_all_drains (Config false false) [3; 1; 2] [2; 3; 1] 7).
  - repeat (constructor; [set_solver|]). constructor.
  - eapply perm_trans; [apply perm_swap|]. apply perm_skip, perm_swap.
  - done.
Defined.

(** llrbTree, [min()] and [deleteMin()] in every state reached from a new
    tree by calls of [insert], [erase], [deleteMin()], [deleteMax()]
    and [freedPreallocate].
    On an empty tree [deleteMin()] returns [false] and changes nothing,
    while [min()] dereferences a null pointer.  Otherwise [min()] returns
    the smallest key and [deleteMin()] returns [true]: afterwards exactly
    that key is gone, [count] has dropped by one, one node has been
    prepended to the freed list and [checkTree()] returns without
    throwing. *)
Theorem llrb_deleteMin_results cfg cs s :
  run_calls cfg cs llrbTree_new = Some s ->
  (count s = 0%nat ->
     deleteMin_root cfg s = Some (false, s) /\ min_root s = None) /\
  (count s <> 0%nat ->
     exists m s' n,
       min_root s = Some (m, s) /\ inorder (root s) = m :: inorder (root s') /\
       deleteMin_root cfg s = Some (true, s') /\
       contains s' m = false /\
       (forall y, y <> m -> contains s' y = contains s y) /\
       S (count s') = count s /\
       left_of (freed s') = freed s /\ freed s' <> nullptr /\
       checkTree cfg s' = Some n).
Proof.
  intros E. destruct (llrb_reachable cfg cs s E) as (HI & _).
  destruct (deleteMin_root_LInv cfg s HI) as (s' & E1 & HI1 & Hr1 & Hi1 & Hf1).
  pose proof HI as (Hs & Hc & _). pose proof HI1 as (Hs1 & Hc1 & _).
  split.
  - intros Hz. rewrite Hz in E1, Hf1. simpl in E1, Hf1. subst s'. split; [done|].
    unfold min_root. lrun. rewrite Hz in Hc.
    destruct (root s); [done|]. simpl in Hc. rewrite length_app in Hc.
    simpl in Hc. lia.
  - intros Hz. apply Nat.eqb_neq in Hz. rewrite Hz in E1, Hf1. simpl in E1.
    assert (Hrn : root s <> nullptr).
    { intros Er. rewrite Er in Hc. simpl in Hc. apply Nat.eqb_neq in Hz. lia. }
    destruct (key_min (root s) s Hrn) as (m & Em & Him).
    destruct (checkTree_LInv cfg s' HI1 Hr1) as (n & Hn).
    rewrite <- Hi1 in Him.
    assert (Hm : m ∉ inorder (root s')).
    { rewrite Him in Hs. simpl in Hs. destruct Hs as [Hm _].
      rewrite Forall_forall in Hm. intros Hin. specialize (Hm _ Hin). lia. }
    exists m, s', n. unfold contains.
    rewrite !llrb_contains_from_spec by done.
    split_and!; try done; try tauto.
    + by apply bool_decide_eq_false.
    + intros y Hy. rewrite !llrb_contains_from_spec by done.
      apply bool_decide_ext. rewrite Him. set_solver.
    + rewrite Hc, Hc1, Him. done.
Qed.

Lemma llrb_deleteMin_results_witness :
  exists s,
    run_calls (Config false false) [CInsert 5; CInsert 3; CInsert 8; CDeleteMax]
      llrbTree_new = Some s /\
    exists m s' n,
      min_root s = Some (m, s) /\
      deleteMin_root (Config false false) s = Some (true, s') /\
      checkTree (Config false false) s' = Some n.
Proof.
  eexists. split; [vm_compute; reflexivity|].
  match goal with
  | |- exists m s' n, min_root ?s = _ /\ _ =>
      destruct (llrb_deleteMin_results (Config false false)
                  [CInsert 5; CInsert 3; CInsert 8; CDeleteMax] s) as [_ H]
  end.
  { vm_compute. reflexivity. }
  destruct H as (m & s' & n & Em & _ & Ed & _ & _ & _ & _ & _ & Hn).
  { simpl. lia. }
  by exists m, s', n.
Defined.

(** llrbTree, [max()] and [deleteMax()] in every state reached from a new
    tree by calls of [insert], [erase], [deleteMin()], [deleteMax()]
    and [freedPreallocate].
    On an empty tree [deleteMax()] returns [false] and changes nothing,
    while [max()] dereferences a null pointer.  Otherwise [max()] returns
    the largest key and [deleteMax()] returns [true]: afterwards exactly
    that key is gone, [count] has dropped by one, one node has been
    prepended to the freed list and [checkTree()] returns without
    throwing. *)
Theorem llrb_deleteMax_results cfg cs s :
  run_calls cfg cs llrbTree_new = Some s ->
  (count s = 0%nat ->
     deleteMax_root cfg s = Some (false, s) /\ max_root s = None) /\
  (count s <> 0%nat ->
     exists m s' n,
       max_root s = Some (m, s) /\ inorder (root s) = inorder (root s') ++ [m] /\
       deleteMax_root cfg s = Some (true, s') /\
       contains s' m = false /\
       (forall y, y <> m -> contains s' y = contains s y) /\
       S (count s') = count s /\
       left_of (freed s') = freed s /\ freed s' <> nullptr /\
       checkTree cfg s' = Some n).
Proof.
  intros E. destruct (llrb_reachable cfg cs s E) as (HI & _).
  destruct (deleteMax_root_LInv cfg s HI) as (s' & E1 & HI1 & Hr1 & Hi1 & Hf1).
  pose proof HI as (Hs & Hc & _). pose proof HI1 as (Hs1 & Hc1 & _).
  split.
  - intros Hz. rewrite Hz in E1, Hf1. simpl in E1, Hf1. subst s'. split; [done|].
    unfold max_root. lrun. rewrite Hz in Hc.
    destruct (root s); [done|]. simpl in Hc. rewrite length_app in Hc.
    simpl in Hc. lia.
  - intros Hz. apply Nat.eqb_neq in Hz. rewrite Hz in E1, Hf1. simpl in E1.
    assert (Hrn : root s <> nullptr).
    { intros Er. rewrite Er in Hc. simpl in Hc. apply Nat.eqb_neq in Hz. lia. }
    destruct (key_max (root s) s Hrn) as (m & Em & Him).
    destruct (checkTree_LInv cfg s' HI1 Hr1) as (n & Hn).
    assert (Hsplit : inorder (root s) = inorder (root s') ++ [m]).
    { rewrite Hi1. destruct (inorder (root s)) as [|z zs _] using rev_ind; [done|].
      rewrite last_snoc in Him. injection Him as ->. by rewrite removelast_last. }
    assert (Hm : m ∉ inorder (root s')).
    { rewrite Hsplit in Hs. apply AVLFacts.sorted_app in Hs as (_ & _ & Hm).
      rewrite Forall_forall in Hm. intros Hin. specialize (Hm _ Hin).
      apply Forall_cons in Hm as [Hm _]. lia. }
    exists m, s', n. unfold contains.
    rewrite !llrb_contains_from_spec by done.
    split_and!; try done; try tauto.
    + by apply bool_decide_eq_false.
    + intros y Hy. rewrite !llrb_contains_from_spec by done.
      apply bool_decide_ext. rewrite Hsplit. set_solver.
    + rewrite Hc, Hc1, Hsplit, length_app. simpl. lia.
Qed.

Lemma llrb_deleteMax_results_witness :
  exists s,
    run_calls (Config false false) [CInsert 5; CInsert 3; CInsert 8; CDeleteMin]
      llrbTree_new = Some s /\
    exists m s' n,
      max_root s = Some (m, s) /\
      deleteMax_root (Config false false) s = Some (true, s') /\
      checkTree (Config false false) s' = Some n.
Proof.
  eexists. split; [vm_compute; reflexivity|].
  match goal with
  | |- exists m s' n, max_root ?s = _ /\ _ =>
      destruct (llrb_deleteMax_results (Config false false)
                  [CInsert 5; CInsert 3; CInsert 8; CDeleteMin] s) as [_ H]
  end.
  { vm_compute. reflexivity. }
  destruct H as (m & s' & n & Em & _ & Ed & _ & _ & _ & _ & _ & Hn).
  { simpl. lia. }
  by exists m, s', n.
Defined.

(** llrbTree, [getKeys(v)] in every state reached from a new tree by calls
    of [insert], [erase], [deleteMin()], [deleteMax()]
    and [freedPreallocate]: it stores with
    [v[i++] = key] and succeeds exactly when [v] has at least [count]
    elements; it then overwrites the elements at the indices below [count]
    with the keys, strictly ascending and without repetition, and leaves
    the rest of [v] as it was.  On a shorter vector a store is out of
    bounds. *)
Theorem llrb_getKeys_results cfg cs s v :
  run_calls cfg cs llrbTree_new = Some s ->
  ((count s <= length v)%nat ->
     getKeys s v = Some (keys_after cs [] ++ drop (count s) v) /\
     AVL.sorted (keys_after cs []) /\ NoDup (keys_after cs []) /\
     length (keys_after cs []) = count s) /\
  ((length v < count s)%nat -> getKeys s v = None).
Proof.
  intros E. destruct (llrb_reachable cfg cs s E) as ((Hs & Hc & _) & HX).
  destruct (llrb_getKeys_spec s v) as [H1 H2]. rewrite <- Hc in H1, H2.
  rewrite <- HX. split; [|done]. intros Hle. split_and!; try done.
  - rewrite H1 by done. by rewrite Hc.
  - by apply AVLFacts.sorted_NoDup.
Qed.

Lemma llrb_getKeys_results_witness :
  exists s,
    run_calls (Config false false) [CInsert 2; CInsert 1; CInsert 3; CErase 2]
      llrbTree_new = Some s /\
    getKeys s [7; 7; 7] = Some [1; 3; 7] /\ getKeys s [7] = None.
Proof.
  eexists. split; [vm_compute; reflexivity|].
  match goal with
  | |- getKeys ?s _ = _ /\ _ =>
      pose proof (llrb_getKeys_results (Config false false)
                    [CInsert 2; CInsert 1; CInsert 3; CErase 2] s [7; 7; 7]
                    ltac:(vm_compute; reflexivity)) as [H1 _];
      pose proof (llrb_getKeys_results (Config false false)
                    [CInsert 2; CInsert 1; CInsert 3; CErase 2] s [7]
                    ltac:(vm_compute; reflexivity)) as [_ H2]
  end.
  split.
  - destruct H1 as (H1 & _); [simpl; lia|]. exact H1.
  - apply H2. simpl. lia.
Defined.

(** llrbTree, the freed list: in every state reached from a new tree by
    calls of [insert], [erase], [deleteMin()], [deleteMax()] and
    [freedPreallocate], every node that was allocated is in the tree or on
    the freed list ([count + freedSize()] is the number of nodes
    allocated).  [insert(x)] returns [true] exactly when [x] is absent;
    it then puts into the tree, with key [x], the head of the freed list
    when there is one, the freed list becoming its rest, and a newly
    allocated node only when the freed list is empty; an [insert] of a
    key that is present leaves the freed list and the allocator as they
    were.  [erase(x)] returns [true] exactly when [x] is present; it then
    puts the node that leaves the tree at the head of the freed list; an
    [erase] of an absent key leaves the freed list as it was, and no
    [erase] allocates.  [freedPreallocate(n, x)] allocates [n] nodes and
    puts them on the freed list; the tree is unchanged. *)
Theorem llrb_freed_list_accounting cfg cs s :
  run_calls cfg cs llrbTree_new = Some s ->
  (count s + freedSize s = brk s)%nat /\
  (forall x, exists s',
     insert cfg x s = Some (negb (contains s x), s') /\
     (contains s x = true ->
        freed s' = freed s /\ freedSize s' = freedSize s /\
        brk s' = brk s /\ count s' = count s) /\
     (contains s x = false ->
        freed s' = left_of (freed s) /\ freedSize s' = Nat.pred (freedSize s) /\
        brk s' = (if Nat.eqb (freedSize s) 0 then S (brk s) else brk s) /\
        count s' = S (count s) /\
        exists A B, cells (root s) = A ++ B /\
          cells (root s') = A ++ (next_addr s, x) :: B)) /\
  (forall x, exists s',
     erase cfg x s = Some (contains s x, s') /\ brk s' = brk s /\
     (contains s x = false ->
        freed s' = freed s /\ freedSize s' = freedSize s /\ count s' = count s) /\
     (contains s x = true ->
        exists j y cj nj,
          cell_of (victim (root s) x) = Some (j, y) /\
          freed s' = node j y cj (freed s) nullptr nj /\
          freedSize s' = S (freedSize s) /\ S (count s') = count s)) /\
  (forall n x, exists s', freedPreallocate n x s = Some (tt, s') /\
     freedSize s' = (freedSize s + n)%nat /\ brk s' = (brk s + n)%nat /\
     root s' = root s /\ count s' = count s).
Proof.
  intros E. destruct (llrb_reachable cfg cs s E) as (HI & _).
  split_and!.
  - by apply (llrb_calls_alloc cfg cs llrbTree_new s (LInv_new cfg)).
  - intros x.
    destruct (llrb_insert_full cfg s x HI) as (s' & E' & _ & _ & _ & Hdup & Hnew).
    exists s'. split; [done|]. split.
    + intros Hc. destruct (Hdup Hc) as (_ & Hn & Hf & Hb).
      unfold freedSize. by rewrite Hf.
    + intros Hc. destruct (Hnew Hc) as (Hn & Hf & Hb & Hce).
      split; [done|]. split; [by apply freedSize_pop|]. split; [|done].
      rewrite Hb. unfold freedSize. by destruct (freed s).
  - intros x.
    destruct (llrb_erase_full cfg s x HI)
      as (s' & E' & _ & _ & _ & _ & _ & Hb & Hno & Hyes).
    exists s'. split; [done|]. split; [done|]. split.
    + intros Hc. destruct (Hno Hc) as (_ & Hn & Hf). unfold freedSize. by rewrite Hf.
    + intros Hc. destruct (Hyes Hc) as (Hn & j & y & cj & nj & Hv & Hf & _).
      exists j, y, cj, nj. split; [done|]. split; [done|]. split; [|done].
      unfold freedSize. by rewrite Hf.
  - intros n x.
    destruct (llrb_freedPreallocate_spec n x s) as (s' & E' & Hr & Hc & Hf & Hb & _).
    by exists s'.
Qed.

Lemma llrb_freed_list_accounting_witness :
  exists s s1 s2 s3 s4,
    run_calls (Config false false)
      [CInsert 1; CInsert 2; CPreallocate 2 0; CErase 1; CInsert 3] llrbTree_new
      = Some s /\
    (count s + freedSize s = brk s)%nat /\ freedSize s = 2%nat /\
    insert (Config false false) 9 s = Some (true, s1) /\
    freed s1 = left_of (freed s) /\ freedSize s1 = 1%nat /\ brk s1 = brk s /\
    insert (Config false false) 2 s = Some (false, s2) /\
    freed s2 = freed s /\ brk s2 = brk s /\
    erase (Config false false) 2 s = Some (true, s3) /\
    freedSize s3 = 3%nat /\ left_of (freed s3) = freed s /\ brk s3 = brk s /\
    erase (Config false false) 7 s = Some (false, s4) /\
    freed s4 = freed s /\ brk s4 = brk s.
Proof.
  pose (cfg := Config false false).
  pose (cs := [CInsert 1; CInsert 2; CPreallocate 2 0; CErase 1; CInsert 3]).
  destruct (run_calls cfg cs llrbTree_new) as [s|] eqn:E;
    [|vm_compute in E; discriminate].
  destruct (llrb_freed_list_accounting cfg cs s E) as (Hacc & Hins & Her & _).
  destruct (Hins 9) as (s1 & E1 & _ & N1). destruct (Hins 2) as (s2 & E2 & D2 & _).
  destruct (Her 2) as (s3 & E3 & B3 & _ & Y3). destruct (Her 7) as (s4 & E4 & B4 & N4 & _).
  exists s, s1, s2, s3, s4. split; [exact E|]. split; [exact Hacc|].
  vm_compute in E. injection E as <-.
  destruct (N1 ltac:(vm_compute; reflexivity)) as (F1 & G1 & K1 & _).
  destruct (D2 ltac:(vm_compute; reflexivity)) as (F2 & _ & K2 & _).
  destruct (Y3 ltac:(vm_compute; reflexivity)) as (j & y & cj & nj & _ & F3 & G3 & _).
  destruct (N4 ltac:(vm_compute; reflexivity)) as (F4 & _).
  split; [vm_compute; reflexivity|]. split; [exact E1|]. split; [exact F1|].
  split; [exact G1|]. split; [exact K1|]. split; [exact E2|]. split; [exact F2|].
  split; [exact K2|]. split; [exact E3|]. split; [exact G3|].
  split; [by rewrite F3|]. split; [exact B3|]. split; [exact E4|].
  split; [exact F4|exact B4].
Defined.

End LLRBProps.
